(** * Kite constructive area geometry: the planar graph pipeline

    A shallow embedding of [Graph] (the multigraph whose edges are segments),
    of [Subpath], [Loop] and the [Line] segment, with the properties of the
    ingestion, splitting, vertex collapsing, winding and two-colouring phases.

    Objects that JavaScript passes by reference (vertices, edges, faces) live
    in an arena: a finite map from an id to the record, and a reference is the
    id.  Arrays are lists.  A method of [Graph] takes the graph and returns the
    graph it leaves behind. *)

From Stdlib Require Import Floats QArith.
From stdpp Require Import gmap list strings.


(** ** JavaScript numbers

    A number is an IEEE 754 binary64 value, the primitive float of the
    kernel: the arithmetic rounds to the nearest value as JavaScript's does,
    a comparison with [NaN] is false, and [0 === -0]. *)

Definition number := float.
Bind Scope float_scope with number.

(** [isFinite( a )] *)
Definition isFiniteNumber (a : number) : bool := PrimFloat.is_finite a.

(** The same read off the sign, mantissa and exponent of the number: zeros
    and numbers with a mantissa are finite, the infinities and NaN are not. *)
Definition finiteSpec (x : spec_float) : bool :=
  match x with S754_zero _ | S754_finite _ _ _ => true | _ => false end.

(** [-a], [a + b], [a - b], [a * b], [a / b] *)
Definition nopp (a : number) : number := PrimFloat.opp a.
Definition nadd (a b : number) : number := PrimFloat.add a b.
Definition nsub (a b : number) : number := PrimFloat.sub a b.
Definition nmul (a b : number) : number := PrimFloat.mul a b.
Definition ndiv (a b : number) : number := PrimFloat.div a b.

(** [a < b] *)
Definition nlt (a b : number) : bool := PrimFloat.ltb a b.

(** [a > b] *)
Definition ngt (a b : number) : bool := nlt b a.

(** [a <= b] *)
Definition nle (a b : number) : bool := PrimFloat.leb a b.

(** [a === b] *)
Definition neq (a b : number) : bool := PrimFloat.eqb a b.

(** [Math.abs] and [Math.sqrt] *)
Definition nabs (a : number) : number := PrimFloat.abs a.
Definition nsqrt (a : number) : number := PrimFloat.sqrt a.

(** The literal [1e-5]: the binary64 value nearest to it,
    5902958103587057 / 2^69, a little more than 1/100000. *)
Definition epsilon5 : number := 0x1.4f8b588e368f1p-17.
Definition zero : number := 0.
Definition one : number := 1.
Definition oneHalf : number := 0.5.

(** The rational a number stands for, when it is finite. *)
Definition exactValue (a : number) : option Q :=
  match Prim2SF a with
  | S754_zero _ => Some 0%Q
  | S754_finite s m e =>
      let n := if s then Z.neg m else Z.pos m in
      Some (match e with
            | Z0 => inject_Z n
            | Zpos k => inject_Z (n * 2 ^ Zpos k)
            | Zneg k => (n # (2 ^ k))%Q
            end)
  | _ => None
  end.

(** ** Vector2 (dot), as far as the graph uses it *)

Record Vector2 := v2 { vx : number; vy : number }.

Definition isFiniteVector (p : Vector2) : bool :=
  isFiniteNumber (vx p) && isFiniteNumber (vy p).

Definition equals (p q : Vector2) : bool :=
  neq (vx p) (vx q) && neq (vy p) (vy q).

Definition plus (p q : Vector2) : Vector2 :=
  v2 (nadd (vx p) (vx q)) (nadd (vy p) (vy q)).

Definition minus (p q : Vector2) : Vector2 :=
  v2 (nsub (vx p) (vx q)) (nsub (vy p) (vy q)).

Definition times (p : Vector2) (t : number) : Vector2 :=
  v2 (nmul (vx p) t) (nmul (vy p) t).

(** [p.average( q )], which DOT has as [p.blend( q, 0.5 )]: from [p] half of
    the way to [q]. *)
Definition average (p q : Vector2) : Vector2 :=
  v2 (nadd (vx p) (nmul (nsub (vx q) (vx p)) oneHalf))
     (nadd (vy p) (nmul (nsub (vy q) (vy p)) oneHalf)).

Definition distanceSquared (p q : Vector2) : number :=
  nadd (nmul (nsub (vx p) (vx q)) (nsub (vx p) (vx q)))
       (nmul (nsub (vy p) (vy q)) (nsub (vy p) (vy q))).

(** [p.distance( q )]: [Math.sqrt( dx * dx + dy * dy )] *)
Definition distance (p q : Vector2) : number := nsqrt (distanceSquared p q).

(** ** Segments *)

(** Modelled from the spec: the segment classes other than [Line] are not
    part of the sources at hand.  A segment is one of the four kinds of
    section 3 of the specification; a curve carries its end points and its
    control data. *)
Inductive Segment :=
| Line (_start _end : Vector2)
| Quadratic (_start _control _end : Vector2)
| Cubic (_start _control1 _control2 _end : Vector2)
| Arc (_start _end _center : Vector2) (_anticlockwise : bool).

Definition seg_start (s : Segment) : Vector2 :=
  match s with
  | Line a _ | Quadratic a _ _ | Cubic a _ _ _ | Arc a _ _ _ => a
  end.

Definition seg_end (s : Segment) : Vector2 :=
  match s with
  | Line _ b | Quadratic _ _ b | Cubic _ _ _ b | Arc _ b _ _ => b
  end.

Definition isLine (s : Segment) : bool :=
  match s with Line _ _ => true | _ => false end.
Definition isQuadratic (s : Segment) : bool :=
  match s with Quadratic _ _ _ => true | _ => false end.
Definition isCubic (s : Segment) : bool :=
  match s with Cubic _ _ _ _ => true | _ => false end.

Module LineSegment.

(** [Line.positionAt] *)
Definition positionAt (_start _end : Vector2) (t : number) : Vector2 :=
  plus _start (times (minus _end _start) t).

(** [Line.subdivided] *)
Definition subdivided (_start _end : Vector2) (t : number) : Segment * Segment :=
  let pt := positionAt _start _end t in
  (Line _start pt, Line pt _end).

End LineSegment.

(** ** Subpath *)

Record Subpath := {
  points : list Vector2;
  segments : list Segment;
  closed : bool
}.

(** ** Results of a call

    A call returns, throws, or runs for ever; the loops whose number of rounds
    is not bounded by their input take a number of rounds they may make and
    answer [Diverges] when it does not suffice. *)

Inductive error :=
| AssertionError (message : string)
| TypeError.

Inductive outcome (A : Type) :=
| Done (a : A)
| Throws (e : error)
| Diverges.

Arguments Done {A} a.
Arguments Throws {A} e.
Arguments Diverges {A}.

Global Instance outcome_ret : MRet outcome := fun A a => Done a.
Global Instance outcome_bind : MBind outcome := fun A B f m =>
  match m with
  | Done a => f a
  | Throws e => Throws e
  | Diverges => Diverges
  end.

Definition ofOption {A} (o : option A) : outcome A :=
  match o with Some a => Done a | None => Throws TypeError end.

(** [assert && assert( condition, message )], by whether assertions are on. *)
Definition assertWhen (enabled : bool) (condition : bool) (message : string) : outcome unit :=
  if enabled && negb condition then Throws (AssertionError message) else Done tt.

(** PHET_CORE/arrayRemove, by its contract: the first occurrence of the item
    leaves the array.  The graph calls it for an item of the array. *)
Fixpoint arrayRemove {A} `{EqDecision A} (array : list A) (toRemove : A) : list A :=
  match array with
  | [] => []
  | x :: rest => if decide (x = toRemove) then rest else x :: arrayRemove rest toRemove
  end.

(** [_.includes] *)
Definition includes {A} `{EqDecision A} (array : list A) (x : A) : bool :=
  bool_decide (x ∈ array).

(** [array.indexOf( x ) < 0] is [negb (includes array x)]. *)

(** ** The objects of the graph *)

(** Modelled from the spec: [HalfEdge], [Edge], [Vertex] and [Face] are not
    part of the sources at hand; their fields are those of section 3 of the
    specification that [Graph] reads and writes.  A half-edge is one of the
    two halves its edge owns, so it is known by the edge and the direction
    flag. *)
Record HalfEdge := { edge : nat; isReversed : bool }.

Global Instance HalfEdge_eq_dec : EqDecision HalfEdge.
Proof. solve_decision. Defined.

Definition forwardHalf (e : nat) : HalfEdge := {| edge := e; isReversed := false |}.
Definition reversedHalf (e : nat) : HalfEdge := {| edge := e; isReversed := true |}.

(** [halfEdge.getReversed] *)
Definition getReversed (h : HalfEdge) : HalfEdge :=
  {| edge := edge h; isReversed := negb (isReversed h) |}.

Record Vertex := {
  point : Vector2;
  incidentHalfEdges : list HalfEdge
}.

Record Edge := {
  segment : Segment;
  startVertex : nat;
  endVertex : nat;
  forwardFace : option nat;   (* forwardHalf.face, null until faces are extracted *)
  reversedFace : option nat   (* reversedHalf.face *)
}.

Record Face := {
  windingMap : option (gmap Z Z);
  filled : option bool
}.

Record Loop := {
  shapeId : Z;
  halfEdges : list HalfEdge
}.

Global Instance Vertex_inhabited : Inhabited Vertex :=
  populate {| point := v2 nan nan; incidentHalfEdges := [] |}.
Global Instance Edge_inhabited : Inhabited Edge :=
  populate {| segment := Line (v2 nan nan) (v2 nan nan); startVertex := 0;
              endVertex := 0; forwardFace := None; reversedFace := None |}.
Global Instance Face_inhabited : Inhabited Face :=
  populate {| windingMap := None; filled := None |}.

(** The graph with its arena.  [nextId] is the id the next object gets.  A
    reference is always to an object made before, so the total lookup [!!!]
    never answers its default in a graph built by the methods below. *)
Record Graph := {
  vertexArena : gmap nat Vertex;
  edgeArena : gmap nat Edge;
  faceArena : gmap nat Face;
  nextId : nat;
  vertices : list nat;
  edges : list nat;
  shapeIds : list Z;
  loops : list Loop;
  boundaries : list (list HalfEdge);   (* each boundary by its cycle of half-edges *)
  unboundedFace : nat;
  faces : list nat
}.

Definition withVertexArena (m : gmap nat Vertex) (g : Graph) : Graph :=
  {| vertexArena := m; edgeArena := edgeArena g; faceArena := faceArena g;
     nextId := nextId g; vertices := vertices g; edges := edges g;
     shapeIds := shapeIds g; loops := loops g; boundaries := boundaries g;
     unboundedFace := unboundedFace g; faces := faces g |}.

Definition withEdgeArena (m : gmap nat Edge) (g : Graph) : Graph :=
  {| vertexArena := vertexArena g; edgeArena := m; faceArena := faceArena g;
     nextId := nextId g; vertices := vertices g; edges := edges g;
     shapeIds := shapeIds g; loops := loops g; boundaries := boundaries g;
     unboundedFace := unboundedFace g; faces := faces g |}.

Definition withFaceArena (m : gmap nat Face) (g : Graph) : Graph :=
  {| vertexArena := vertexArena g; edgeArena := edgeArena g; faceArena := m;
     nextId := nextId g; vertices := vertices g; edges := edges g;
     shapeIds := shapeIds g; loops := loops g; boundaries := boundaries g;
     unboundedFace := unboundedFace g; faces := faces g |}.

Definition withNextId (n : nat) (g : Graph) : Graph :=
  {| vertexArena := vertexArena g; edgeArena := edgeArena g; faceArena := faceArena g;
     nextId := n; vertices := vertices g; edges := edges g;
     shapeIds := shapeIds g; loops := loops g; boundaries := boundaries g;
     unboundedFace := unboundedFace g; faces := faces g |}.

Definition withVertices (l : list nat) (g : Graph) : Graph :=
  {| vertexArena := vertexArena g; edgeArena := edgeArena g; faceArena := faceArena g;
     nextId := nextId g; vertices := l; edges := edges g;
     shapeIds := shapeIds g; loops := loops g; boundaries := boundaries g;
     unboundedFace := unboundedFace g; faces := faces g |}.

Definition withEdges (l : list nat) (g : Graph) : Graph :=
  {| vertexArena := vertexArena g; edgeArena := edgeArena g; faceArena := faceArena g;
     nextId := nextId g; vertices := vertices g; edges := l;
     shapeIds := shapeIds g; loops := loops g; boundaries := boundaries g;
     unboundedFace := unboundedFace g; faces := faces g |}.

Definition withShapeIds (l : list Z) (g : Graph) : Graph :=
  {| vertexArena := vertexArena g; edgeArena := edgeArena g; faceArena := faceArena g;
     nextId := nextId g; vertices := vertices g; edges := edges g;
     shapeIds := l; loops := loops g; boundaries := boundaries g;
     unboundedFace := unboundedFace g; faces := faces g |}.

Definition withLoops (l : list Loop) (g : Graph) : Graph :=
  {| vertexArena := vertexArena g; edgeArena := edgeArena g; faceArena := faceArena g;
     nextId := nextId g; vertices := vertices g; edges := edges g;
     shapeIds := shapeIds g; loops := l; boundaries := boundaries g;
     unboundedFace := unboundedFace g; faces := faces g |}.

(** [new Graph()]: the unbounded face is the only object. *)
Definition newGraph : Graph :=
  {| vertexArena := ∅; edgeArena := ∅;
     faceArena := {[ 0 := {| windingMap := None; filled := None |} ]};
     nextId := 1; vertices := []; edges := []; shapeIds := []; loops := [];
     boundaries := [];
     unboundedFace := 0; faces := [0] |}.

(** Reading through a reference. *)
Definition vertexAt (g : Graph) (v : nat) : Vertex := vertexArena g !!! v.
Definition edgeAt (g : Graph) (e : nat) : Edge := edgeArena g !!! e.
Definition faceAt (g : Graph) (f : nat) : Face := faceArena g !!! f.

(** Modelled from the spec: [HalfEdge.js] is not part of the sources at hand.
    [halfEdge.startVertex] and [halfEdge.endVertex], by the edge invariant of
    section 3: the forward half runs from the start of its edge to its end,
    the reversed half the other way.  [markBridges] reads them so, taking
    [startVertex] of an incident half-edge for the vertex across. *)
Definition halfStartVertex (g : Graph) (h : HalfEdge) : nat :=
  if isReversed h then endVertex (edgeAt g (edge h)) else startVertex (edgeAt g (edge h)).
Definition halfEndVertex (g : Graph) (h : HalfEdge) : nat :=
  if isReversed h then startVertex (edgeAt g (edge h)) else endVertex (edgeAt g (edge h)).

(** [Vertex.createFromPool( point )] *)
Definition createVertex (p : Vector2) (g : Graph) : nat * Graph :=
  let id := nextId g in
  (id, withNextId (S id)
         (withVertexArena (<[ id := {| point := p; incidentHalfEdges := [] |} ]> (vertexArena g)) g)).

(** [Edge.createFromPool( segment, startVertex, endVertex )] *)
Definition createEdge (s : Segment) (a b : nat) (g : Graph) : nat * Graph :=
  let id := nextId g in
  (id, withNextId (S id)
         (withEdgeArena (<[ id := {| segment := s; startVertex := a; endVertex := b;
                                     forwardFace := None; reversedFace := None |} ]> (edgeArena g)) g)).

(** [vertex.incidentHalfEdges.push( h )] *)
Definition pushIncident (v : nat) (h : HalfEdge) (g : Graph) : Graph :=
  withVertexArena
    (alter (fun V => {| point := point V; incidentHalfEdges := incidentHalfEdges V ++ [h] |})
           v (vertexArena g)) g.

(** [arrayRemove( vertex.incidentHalfEdges, h )] *)
Definition removeIncident (v : nat) (h : HalfEdge) (g : Graph) : Graph :=
  withVertexArena
    (alter (fun V => {| point := point V;
                        incidentHalfEdges := arrayRemove (incidentHalfEdges V) h |})
           v (vertexArena g)) g.

(** ** Records the segment classes hand to the graph *)

Module Intersection.
(** One crossing of two segments, as [Segment.intersect] reports it. *)
Record t := { aT : number; bT : number; point : Vector2 }.
End Intersection.

Module Overlap.
(** One shared stretch of two segments of a kind, as [getOverlaps] reports it:
    [t0, t1] on the first, [qt0, qt1] on the second, [a] positive when both
    run the same way. *)
Record t := { a : number; t0 : number; t1 : number; qt0 : number; qt1 : number }.
End Overlap.

(** ** Subpath methods (js/util/Subpath.js) *)

Definition getFirstPoint (subpath : Subpath) : option Vector2 := head (points subpath).
Definition getLastPoint (subpath : Subpath) : option Vector2 := last (points subpath).

(** [!this.getFirstPoint().equals( this.getLastPoint() )]; a subpath without
    points has no first point to call [equals] on. *)
Definition hasClosingSegment (subpath : Subpath) : outcome bool :=
  first ← ofOption (getFirstPoint subpath);
  lastPoint ← ofOption (getLastPoint subpath);
  Done (negb (equals first lastPoint)).

(** [new kite.Subpath()] *)
Definition newSubpath : Subpath := {| points := []; segments := []; closed := false |}.

(** [Subpath.addPoint] *)
Definition addPoint (point : Vector2) (subpath : Subpath) : Subpath :=
  {| points := points subpath ++ [point]; segments := segments subpath;
     closed := closed subpath |}.

(** [Subpath.close] *)
Definition close (subpath : Subpath) : Subpath :=
  {| points := points subpath; segments := segments subpath; closed := true |}.

Section SubpathMethods.

Variable assertEnabled : bool.

(** What [addSegment] reads of a segment besides its two ends: the [invalid]
    mark, the tangents at the ends (normalized by DOT) and whether the bounds
    (a DOT [Bounds2]) are empty or finite. *)
Variable invalid : Segment -> bool.
Variable startTangent : Segment -> Vector2.
Variable endTangent : Segment -> Vector2.
Variable boundsEmptyOrFinite : Segment -> bool.

(** [Subpath.addSegment] *)
Definition addSegment (segment : Segment) (subpath : Subpath) : outcome Subpath :=
  if negb (invalid segment) then
    _ ← assertWhen assertEnabled (isFiniteVector (seg_start segment))
          "Segment start is infinite";
    _ ← assertWhen assertEnabled (isFiniteVector (seg_end segment))
          "Segment end is infinite";
    _ ← assertWhen assertEnabled (isFiniteVector (startTangent segment))
          "Segment startTangent is infinite";
    _ ← assertWhen assertEnabled (isFiniteVector (endTangent segment))
          "Segment endTangent is infinite";
    _ ← assertWhen assertEnabled (boundsEmptyOrFinite segment)
          "Segment bounds is infinite and non-empty";
    Done {| points := points subpath; segments := segments subpath ++ [segment];
            closed := closed subpath |}
  else Done subpath.

End SubpathMethods.

Section GraphMethods.

(** Whether the global [assert] is a function (a development build) or falsy. *)
Variable assertEnabled : bool.

Definition assert (condition : bool) (message : string) : outcome unit :=
  assertWhen assertEnabled condition message.

Definition getClosingSegment (subpath : Subpath) : outcome Segment :=
  has ← (if assertEnabled then hasClosingSegment subpath else Done true);
  _ ← assert has "Implicit closing segment unnecessary on a fully closed path";
  first ← ofOption (getFirstPoint subpath);
  lastPoint ← ofOption (getLastPoint subpath);
  Done (Line lastPoint first).

(** ** Connecting and disconnecting edges *)

(** [Graph.addEdge] *)
Definition addEdge (e : nat) (g : Graph) : outcome Graph :=
  let E := edgeAt g e in
  _ ← assert (negb (includes (incidentHalfEdges (vertexAt g (startVertex E))) (reversedHalf e)))
        "Should not already be connected";
  _ ← assert (negb (includes (incidentHalfEdges (vertexAt g (endVertex E))) (forwardHalf e)))
        "Should not already be connected";
  let g1 := withEdges (edges g ++ [e]) g in
  let g2 := pushIncident (startVertex E) (reversedHalf e) g1 in
  Done (pushIncident (endVertex E) (forwardHalf e) g2).

(** [Graph.removeEdge] *)
Definition removeEdge (e : nat) (g : Graph) : Graph :=
  let E := edgeAt g e in
  let g1 := withEdges (arrayRemove (edges g) e) g in
  let g2 := removeIncident (startVertex E) (reversedHalf e) g1 in
  removeIncident (endVertex E) (forwardHalf e) g2.

(** The inner loop of [replaceEdgeInLoops] on one loop: [j] runs from the
    last half-edge down, and [splice( j, 1, ... )] puts the replacement where
    the half-edge of the edge was, so the part of the array behind [j] is the
    part already treated. *)
Definition spliceEdge (e : nat) (forwardHalfEdges reversedHalfEdges : list HalfEdge)
    (hs : list HalfEdge) : list HalfEdge :=
  foldr (fun halfEdge treated =>
           if decide (edge halfEdge = e)
           then (if decide (halfEdge = forwardHalf e)
                 then forwardHalfEdges else reversedHalfEdges) ++ treated
           else halfEdge :: treated) [] hs.

(** [Graph.replaceEdgeInLoops] *)
Definition replaceEdgeInLoops (e : nat) (forwardHalfEdges : list HalfEdge) (g : Graph) : Graph :=
  let reversedHalfEdges := map getReversed (reverse forwardHalfEdges) in
  withLoops
    (map (fun loop => {| shapeId := shapeId loop;
                         halfEdges := spliceEdge e forwardHalfEdges reversedHalfEdges
                                        (halfEdges loop) |})
         (loops g)) g.

(** ** Ingestion *)

Definition vertexEpsilon : number := epsilon5.

(** The first loop of [addSubpath]: one vertex per join of two segments. *)
Fixpoint addSubpathVertices (segs : list Segment) (indices : list nat) (g : Graph)
    : outcome (list nat * Graph) :=
  match indices with
  | [] => Done ([], g)
  | index :: rest =>
      let previousIndex := if decide (index = 0) then length segs - 1 else index - 1 in
      previous ← ofOption (segs !! previousIndex);
      current ← ofOption (segs !! index);
      let _end := seg_end previous in
      let _start := seg_start current in
      '(vertex, g1) ←
        (if equals _start _end
         then Done (createVertex _start g)
         else
           _ ← assert (nlt (distance _start _end) vertexEpsilon)
                 "Inaccurate start/end points";
           Done (createVertex (average _start _end) g));
      '(created, g2) ← addSubpathVertices segs rest g1;
      Done (vertex :: created, g2)
  end.

(** The second loop of [addSubpath]: one edge per segment, its forward half
    in the loop. *)
Fixpoint addSubpathEdges (segs : list Segment) (created : list nat) (indices : list nat)
    (g : Graph) : outcome (list HalfEdge * Graph) :=
  match indices with
  | [] => Done ([], g)
  | index :: rest =>
      let nextIndex := if decide (index + 1 = length segs) then 0 else index + 1 in
      s ← ofOption (segs !! index);
      a ← ofOption (created !! index);
      b ← ofOption (created !! nextIndex);
      let '(e, g1) := createEdge s a b g in
      g2 ← addEdge e g1;
      '(hs, g3) ← addSubpathEdges segs created rest g2;
      Done (forwardHalf e :: hs, g3)
  end.

(** The segment list [addSubpath] builds: a copy of the segments of the
    subpath, and the closing segment behind them when the subpath has one. *)
Definition ingestedSegments (subpath : Subpath) : outcome (list Segment) :=
  closing ← hasClosingSegment subpath;
  if (closing : bool)
  then s ← getClosingSegment subpath; Done (segments subpath ++ [s])
  else Done (segments subpath).

(** [Graph.addSubpath] *)
Definition addSubpath (id : Z) (subpath : Subpath) (g : Graph) : outcome Graph :=
  let g0 := if includes (shapeIds g) id then g else withShapeIds (shapeIds g ++ [id]) g in
  if decide (length (segments subpath) = 0) then Done g0
  else
    segs ← ingestedSegments subpath;
    '(created, g1) ← addSubpathVertices segs (seq 0 (length segs)) g0;
    '(hs, g2) ← addSubpathEdges segs created (seq 0 (length segs)) g1;
    let loop := {| shapeId := id; halfEdges := hs |} in
    Done (withVertices (vertices g2 ++ created) (withLoops (loops g2 ++ [loop]) g2)).

(** [Graph.addShape], a shape being its array of subpaths. *)
Fixpoint addShape (id : Z) (subpaths : list Subpath) (g : Graph) : outcome Graph :=
  match subpaths with
  | [] => Done g
  | subpath :: rest => g1 ← addSubpath id subpath g; addShape id rest g1
  end.


(** ** Splitting edges where they cross *)

(** What the segment classes compute is not part of the sources at hand, so
    the graph takes it as given: [Segment.intersect], the subdivision of a
    curve, and the three overlap detectors. *)
Variable intersect : Segment -> Segment -> list Intersection.t.
Variable subdividedCurve : Segment -> number -> Segment * Segment.
Variable lineGetOverlaps : Segment -> Segment -> list Overlap.t.
Variable quadraticGetOverlaps : Segment -> Segment -> list Overlap.t.
Variable cubicGetOverlaps : Segment -> Segment -> list Overlap.t.

(** DOT's [Util.linear( a1, a2, b1, b2, a3 )], also from outside. *)
Variable linear : number -> number -> number -> number -> number -> number.

(** [segment.subdivided( t )] *)
Definition subdivided (s : Segment) (t : number) : Segment * Segment :=
  match s with
  | Line a b => LineSegment.subdivided a b t
  | _ => subdividedCurve s t
  end.

(** [t > 1e-5 && t < ( 1 - 1e-5 )] *)
Definition internal (t : number) : bool :=
  ngt t epsilon5 && nlt t (nsub one epsilon5).

(** [Graph.splitEdge] *)
Definition splitEdge (e : nat) (t : number) (vertex : nat) (g : Graph) : outcome Graph :=
  _ ← assert (bool_decide (length (boundaries g) = 0))
        "Only handles simpler level primitive splitting right now";
  let E := edgeAt g e in
  let pieces := subdivided (segment E) t in
  let '(firstEdge, g1) := createEdge (fst pieces) (startVertex E) vertex g in
  let '(secondEdge, g2) := createEdge (snd pieces) vertex (endVertex E) g1 in
  let g3 := removeEdge e g2 in
  g4 ← addEdge firstEdge g3;
  g5 ← addEdge secondEdge g4;
  Done (replaceEdgeInLoops e [forwardHalf firstEdge; forwardHalf secondEdge] g5).

(** The vertex [simpleSplit] puts both edges through. *)
Definition splitVertex (aEdge bEdge : nat) (aT bT : number) (p : Vector2) (g : Graph)
    : nat * Graph :=
  if negb (internal aT)
  then ((if nlt aT oneHalf then startVertex (edgeAt g aEdge) else endVertex (edgeAt g aEdge)), g)
  else if negb (internal bT)
  then ((if nlt bT oneHalf then startVertex (edgeAt g bEdge) else endVertex (edgeAt g bEdge)), g)
  else
    let '(vertex, g1) := createVertex p g in
    (vertex, withVertices (vertices g1 ++ [vertex]) g1).

(** [Graph.simpleSplit] *)
Definition simpleSplit (aEdge bEdge : nat) (aT bT : number) (p : Vector2) (g : Graph)
    : outcome Graph :=
  let '(vertex, g1) := splitVertex aEdge bEdge aT bT p g in
  g2 ← (if internal aT then splitEdge aEdge aT vertex g1 else Done g1);
  if internal bT then splitEdge bEdge bT vertex g2 else Done g2.

(** The filter of [eliminateIntersection]. *)
Definition keptIntersection (x : Intersection.t) : bool :=
  internal (Intersection.aT x) || internal (Intersection.bT x).

(** The scan of [eliminateIntersection]: [aEdge] against the edges behind
    it, up to the first pair with a kept intersection. *)
Fixpoint scanIntersectionsWith (g : Graph) (aEdge : nat) (behind : list nat)
    : option (nat * nat * Intersection.t) :=
  match behind with
  | [] => None
  | bEdge :: rest =>
      match List.filter keptIntersection
              (intersect (segment (edgeAt g aEdge)) (segment (edgeAt g bEdge))) with
      | x :: _ => Some (aEdge, bEdge, x)
      | [] => scanIntersectionsWith g aEdge rest
      end
  end.

Fixpoint scanIntersections (g : Graph) (es : list nat) : option (nat * nat * Intersection.t) :=
  match es with
  | [] => None
  | aEdge :: rest =>
      match scanIntersectionsWith g aEdge rest with
      | Some found => Some found
      | None => scanIntersections g rest
      end
  end.

(** [Graph.eliminateIntersection]; [rounds] bounds the passes of the
    [while ( needsLoop )]. *)
Fixpoint eliminateIntersection (rounds : nat) (g : Graph) : outcome Graph :=
  match scanIntersections g (edges g) with
  | None => Done g
  | Some (aEdge, bEdge, x) =>
      match rounds with
      | 0 => Diverges
      | S rounds' =>
          g1 ← simpleSplit aEdge bEdge (Intersection.aT x) (Intersection.bT x)
                 (Intersection.point x) g;
          eliminateIntersection rounds' g1
      end
  end.

(** ** Splitting edges that overlap *)

(** [Math.abs( overlap.t1 - overlap.t0 ) > 1e-5 &&
     Math.abs( overlap.qt1 - overlap.qt0 ) > 1e-5] *)
Definition significantOverlap (overlap : Overlap.t) : bool :=
  ngt (nabs (nsub (Overlap.t1 overlap) (Overlap.t0 overlap))) epsilon5 &&
  ngt (nabs (nsub (Overlap.qt1 overlap) (Overlap.qt0 overlap))) epsilon5.

(** The rounding at the head of [splitOverlap]. *)
Definition snapToZero (t : number) : number := if nlt t epsilon5 then zero else t.
Definition snapToOne (t : number) : number := if ngt t (nsub one epsilon5) then one else t.

(** "Apply rounding so we don't generate really small segments on the ends":
    the four parameters as [splitOverlap] goes on with them. *)
Definition roundOverlap (overlap : Overlap.t) : Overlap.t :=
  {| Overlap.a := Overlap.a overlap;
     Overlap.t0 := snapToZero (Overlap.t0 overlap);
     Overlap.t1 := snapToOne (Overlap.t1 overlap);
     Overlap.qt0 := snapToZero (Overlap.qt0 overlap);
     Overlap.qt1 := snapToOne (Overlap.qt1 overlap) |}.

(** An edge for a piece that exists: [Edge.createFromPool] then [addEdge]. *)
Definition addPiece (piece : option Segment) (a b : nat) (g : Graph)
    : outcome (option nat * Graph) :=
  match piece with
  | None => Done (None, g)
  | Some s =>
      let '(e, g1) := createEdge s a b g in
      g2 ← addEdge e g1;
      Done (Some e, g2)
  end.

(** [( piece ? [ pieceEdge ] : [] )] *)
Definition edgeList (e : option nat) : list nat :=
  match e with Some x => [x] | None => [] end.

(** The vertex at one end of the middle piece. *)
Definition joinVertex (onA onB : option Segment) (at_ : Vector2) (ofB ofA : nat) (g : Graph)
    : nat * Graph :=
  match onA, onB with
  | Some _, Some _ =>
      let '(vertex, g1) := createVertex at_ g in
      (vertex, withVertices (vertices g1 ++ [vertex]) g1)
  | Some _, None => (ofB, g)
  | None, _ => (ofA, g)
  end.

(** [Graph.splitOverlap] *)
Definition splitOverlap (aEdge bEdge : nat) (overlap : Overlap.t) (g : Graph) : outcome Graph :=
  let A := edgeAt g aEdge in
  let B := edgeAt g bEdge in
  let aSegment := segment A in
  let bSegment := segment B in
  let g1 := removeEdge bEdge (removeEdge aEdge g) in
  let rounded := roundOverlap overlap in
  let t0 := Overlap.t0 rounded in
  let t1 := Overlap.t1 rounded in
  let qt0 := Overlap.qt0 rounded in
  let qt1 := Overlap.qt1 rounded in
  let aBefore := if ngt t0 zero then Some (fst (subdivided aSegment t0)) else None in
  let bBefore := if ngt qt0 zero then Some (fst (subdivided bSegment qt0)) else None in
  let aAfter := if nlt t1 one then Some (snd (subdivided aSegment t1)) else None in
  let bAfter := if nlt qt1 one then Some (snd (subdivided bSegment qt1)) else None in
  let middle0 := if ngt t0 zero then snd (subdivided aSegment t0) else aSegment in
  let middle := if nlt t1 one
                then fst (subdivided middle0 (linear t0 one zero one t1))
                else middle0 in
  let sameWay := ngt (Overlap.a overlap) zero in
  let '(beforeVertex, g2) :=
    joinVertex aBefore bBefore (seg_start middle)
      (if sameWay then startVertex B else endVertex B) (startVertex A) g1 in
  let '(afterVertex, g3) :=
    joinVertex aAfter bAfter (seg_end middle)
      (if sameWay then endVertex B else startVertex B) (endVertex A) g2 in
  let '(middleEdge, g4) := createEdge middle beforeVertex afterVertex g3 in
  g5 ← addEdge middleEdge g4;
  '(aBeforeEdge, g6) ← addPiece aBefore (startVertex A) beforeVertex g5;
  '(aAfterEdge, g7) ← addPiece aAfter afterVertex (endVertex A) g6;
  '(bBeforeEdge, g8) ←
    addPiece bBefore (startVertex B) (if sameWay then beforeVertex else afterVertex) g7;
  '(bAfterEdge, g9) ←
    addPiece bAfter (if sameWay then afterVertex else beforeVertex) (endVertex B) g8;
  let aEdges := edgeList aBeforeEdge ++ [middleEdge] ++ edgeList aAfterEdge in
  let bEdges := edgeList bBeforeEdge ++ [middleEdge] ++ edgeList bAfterEdge in
  let aForwardHalfEdges := map forwardHalf aEdges in
  let bForwardHalfEdges :=
    map (fun e => if negb (bool_decide (e = middleEdge)) || sameWay
                  then forwardHalf e else reversedHalf e) bEdges in
  Done (replaceEdgeInLoops bEdge bForwardHalfEdges
          (replaceEdgeInLoops aEdge aForwardHalfEdges g9)).

(** The detector [eliminateOverlap] picks for a pair of segments. *)
Definition overlapFunction (aSegment bSegment : Segment)
    : option (Segment -> Segment -> list Overlap.t) :=
  let f0 := None in
  let f1 := if isLine aSegment && isLine bSegment then Some lineGetOverlaps else f0 in
  let f2 := if isQuadratic aSegment && isQuadratic bSegment
            then Some quadraticGetOverlaps else f1 in
  if isCubic aSegment && isCubic bSegment then Some cubicGetOverlaps else f2.

(** The overlaps of a pair in the order the scan reads them. *)
Definition overlapsOf (aSegment bSegment : Segment) : list Overlap.t :=
  match overlapFunction aSegment bSegment with
  | Some f => f aSegment bSegment
  | None => []
  end.

Fixpoint scanOverlapsWith (g : Graph) (aEdge : nat) (behind : list nat)
    : option (nat * nat * Overlap.t) :=
  match behind with
  | [] => None
  | bEdge :: rest =>
      match List.find significantOverlap
              (overlapsOf (segment (edgeAt g aEdge)) (segment (edgeAt g bEdge))) with
      | Some overlap => Some (aEdge, bEdge, overlap)
      | None => scanOverlapsWith g aEdge rest
      end
  end.

Fixpoint scanOverlaps (g : Graph) (es : list nat) : option (nat * nat * Overlap.t) :=
  match es with
  | [] => None
  | aEdge :: rest =>
      match scanOverlapsWith g aEdge rest with
      | Some found => Some found
      | None => scanOverlaps g rest
      end
  end.

(** [Graph.eliminateOverlap] *)
Fixpoint eliminateOverlap (rounds : nat) (g : Graph) : outcome Graph :=
  match scanOverlaps g (edges g) with
  | None => Done g
  | Some (aEdge, bEdge, overlap) =>
      match rounds with
      | 0 => Diverges
      | S rounds' =>
          g1 ← splitOverlap aEdge bEdge overlap g;
          eliminateOverlap rounds' g1
      end
  end.

(** ** Collapsing close vertices *)

(** [edge.startVertex = vertex] and [edge.endVertex = vertex], each with the
    [updateReferences] that follows it: the halves read their ends off the
    edge. *)
Definition setStartVertex (e vertex : nat) (g : Graph) : Graph :=
  withEdgeArena
    (alter (fun E => {| segment := segment E; startVertex := vertex;
                        endVertex := endVertex E; forwardFace := forwardFace E;
                        reversedFace := reversedFace E |}) e (edgeArena g)) g.

Definition setEndVertex (e vertex : nat) (g : Graph) : Graph :=
  withEdgeArena
    (alter (fun E => {| segment := segment E; startVertex := startVertex E;
                        endVertex := vertex; forwardFace := forwardFace E;
                        reversedFace := reversedFace E |}) e (edgeArena g)) g.

(** One edge of the loop over [k] in [collapseVertices]. *)
Definition collapseEdge (e aVertex bVertex newVertex : nat) (g : Graph) : Graph :=
  let E := edgeAt g e in
  let startMatches :=
    bool_decide (startVertex E = aVertex) || bool_decide (startVertex E = bVertex) in
  let endMatches :=
    bool_decide (endVertex E = aVertex) || bool_decide (endVertex E = bVertex) in
  if startMatches && endMatches then
    replaceEdgeInLoops e [] (removeEdge e g)
  else if startMatches then
    pushIncident newVertex (reversedHalf e) (setStartVertex e newVertex g)
  else if endMatches then
    pushIncident newVertex (forwardHalf e) (setEndVertex e newVertex g)
  else g.

(** [for ( var k = this.edges.length - 1; k >= 0; k-- )], with [n] the
    number of indices still to visit. *)
Fixpoint collapseEdges (n : nat) (aVertex bVertex newVertex : nat) (g : Graph)
    : outcome Graph :=
  match n with
  | 0 => Done g
  | S k =>
      e ← ofOption (edges g !! k);
      collapseEdges k aVertex bVertex newVertex (collapseEdge e aVertex bVertex newVertex g)
  end.

(** The body of the [if ( distance < vertexEpsilon )]. *)
Definition collapsePair (aVertex bVertex : nat) (g : Graph) : outcome Graph :=
  let aPoint := point (vertexAt g aVertex) in
  let bPoint := point (vertexAt g bVertex) in
  let d := distance aPoint bPoint in
  let '(newVertex, g1) :=
    createVertex (if neq d zero then aPoint else average aPoint bPoint) g in
  let g2 := withVertices (vertices g1 ++ [newVertex]) g1 in
  let g3 := withVertices (arrayRemove (arrayRemove (vertices g2) aVertex) bVertex) g2 in
  collapseEdges (length (edges g3)) aVertex bVertex newVertex g3.

(** [aVertex.point.distance( bVertex.point ) < vertexEpsilon] *)
Definition tooClose (g : Graph) (aVertex bVertex : nat) : bool :=
  nlt (distance (point (vertexAt g aVertex)) (point (vertexAt g bVertex))) vertexEpsilon.

Fixpoint scanVerticesWith (g : Graph) (aVertex : nat) (behind : list nat) : option (nat * nat) :=
  match behind with
  | [] => None
  | bVertex :: rest =>
      if tooClose g aVertex bVertex then Some (aVertex, bVertex)
      else scanVerticesWith g aVertex rest
  end.

Fixpoint scanVertices (g : Graph) (vs : list nat) : option (nat * nat) :=
  match vs with
  | [] => None
  | aVertex :: rest =>
      match scanVerticesWith g aVertex rest with
      | Some found => Some found
      | None => scanVertices g rest
      end
  end.

(** The [while ( needsLoop )] of [collapseVertices]. *)
Fixpoint collapseRounds (rounds : nat) (g : Graph) : outcome Graph :=
  match scanVertices g (vertices g) with
  | None => Done g
  | Some (aVertex, bVertex) =>
      match rounds with
      | 0 => Diverges
      | S rounds' =>
          g1 ← collapsePair aVertex bVertex g;
          collapseRounds rounds' g1
      end
  end.

(** The two assertions that open and close [collapseVertices]. *)
Definition assertEdgesHaveVertices (g : Graph) : outcome unit :=
  _ ← assert (forallb (fun e => includes (vertices g) (startVertex (edgeAt g e))) (edges g)) "";
  assert (forallb (fun e => includes (vertices g) (endVertex (edgeAt g e))) (edges g)) "".

(** [Graph.collapseVertices] *)
Definition collapseVertices (rounds : nat) (g : Graph) : outcome Graph :=
  _ ← assertEdgesHaveVertices g;
  g1 ← collapseRounds rounds g;
  _ ← assertEdgesHaveVertices g1;
  Done g1.

(** ** Winding maps *)

(** [Graph.computeDifferential] *)
Definition computeDifferential (e : nat) (id : Z) (g : Graph) : Z :=
  foldl (fun differential loop =>
           if decide (shapeId loop = id) then
             foldl (fun differential loopHalfEdge =>
                      if decide (loopHalfEdge = forwardHalf e) then (differential + 1)%Z
                      else if decide (loopHalfEdge = reversedHalf e) then (differential - 1)%Z
                      else differential)
                   differential (halfEdges loop)
           else differential)
        0%Z (loops g).

(** [face.windingMap = map] *)
Definition setWindingMap (f : nat) (m : gmap Z Z) (g : Graph) : Graph :=
  withFaceArena
    (alter (fun F => {| windingMap := Some m; filled := filled F |}) f (faceArena g)) g.

(** The map of the outside: zero for every shape id. *)
Definition outsideMap (ids : list Z) : gmap Z Z :=
  foldl (fun m id => <[ id := 0%Z ]> m) ∅ ids.

(** The map of the unsolved face across an edge.  A winding map is read
    through arithmetic and [===] only, where a missing entry ([undefined]) and
    [NaN] act alike; so an entry whose value would be [NaN], because the solved
    map has none for the shape id, is left out. *)
Definition solvedAcross (e : nat) (solved : gmap Z Z) (solvedForward : bool) (g : Graph)
    : gmap Z Z :=
  foldl (fun m id =>
           let differential := computeDifferential e id g in
           match solved !! id with
           | Some w => <[ id := (w + differential * (if solvedForward then -1 else 1))%Z ]> m
           | None => m
           end)
        ∅ (shapeIds g).

(** [forwardFace.windingMap[ id ] - reversedFace.windingMap[ id ] ===
     this.computeDifferential( edge, id )] for every shape id. *)
Definition differentialAgrees (e : nat) (forwardMap reversedMap : gmap Z Z) (g : Graph) : bool :=
  forallb (fun id =>
             match forwardMap !! id, reversedMap !! id with
             | Some wf, Some wr => bool_decide ((wf - wr)%Z = computeDifferential e id g)
             | _, _ => false
             end)
          (shapeIds g).

(** [edges.splice( j, 1 )] *)
Definition spliceOut {A} (j : nat) (l : list A) : list A := take j l ++ drop (S j) l.

(** The body of the loop over [j] in [computeWindingMap]; [es] is the local
    copy of the edge array. *)
Definition windingStep (j : nat) (es : list nat) (g : Graph) : outcome (list nat * Graph) :=
  e ← ofOption (es !! j);
  let E := edgeAt g e in
  _ ← assert (negb (bool_decide (forwardFace E = reversedFace E))) "";
  forward ← ofOption (forwardFace E);
  reversed ← ofOption (reversedFace E);
  match windingMap (faceAt g forward), windingMap (faceAt g reversed) with
  | Some forwardMap, Some reversedMap =>
      _ ← assert (differentialAgrees e forwardMap reversedMap g) "";
      Done (spliceOut j es, g)
  | None, None => Done (es, g)
  | Some forwardMap, None =>
      Done (es, setWindingMap reversed (solvedAcross e forwardMap true g) g)
  | None, Some reversedMap =>
      Done (es, setWindingMap forward (solvedAcross e reversedMap false g) g)
  end.

(** [for ( var j = edges.length - 1; j >= 0; j-- )], with [n] the number of
    indices still to visit. *)
Fixpoint windingPass (n : nat) (es : list nat) (g : Graph) : outcome (list nat * Graph) :=
  match n with
  | 0 => Done (es, g)
  | S j =>
      '(es1, g1) ← windingStep j es g;
      windingPass j es1 g1
  end.

(** [while ( edges.length )] *)
Fixpoint windingRounds (rounds : nat) (es : list nat) (g : Graph) : outcome Graph :=
  match es with
  | [] => Done g
  | _ :: _ =>
      match rounds with
      | 0 => Diverges
      | S rounds' =>
          '(es1, g1) ← windingPass (length es) es g;
          windingRounds rounds' es1 g1
      end
  end.

(** [Graph.computeWindingMap] *)
Definition computeWindingMap (rounds : nat) (g : Graph) : outcome Graph :=
  windingRounds rounds (edges g)
    (setWindingMap (unboundedFace g) (outsideMap (shapeIds g)) g).

(** ** Two-colouring the faces *)

(** [face.filled = value] *)
Definition setFilled (f : nat) (value : option bool) (g : Graph) : Graph :=
  withFaceArena
    (alter (fun F => {| windingMap := windingMap F; filled := value |}) f (faceArena g)) g.

(** The body of the loop over the edges in [fillAlternatingFaces]. *)
Definition fillStep (e : nat) (nullFaceFilledCount : Z) (g : Graph) : outcome (Z * Graph) :=
  let E := edgeAt g e in
  forward ← ofOption (forwardFace E);
  reversed ← ofOption (reversedFace E);
  match filled (faceAt g forward), filled (faceAt g reversed) with
  | None, Some reversedFilled =>
      Done ((nullFaceFilledCount - 1)%Z, setFilled forward (Some (negb reversedFilled)) g)
  | Some forwardFilled, None =>
      Done ((nullFaceFilledCount - 1)%Z, setFilled reversed (Some (negb forwardFilled)) g)
  | _, _ => Done (nullFaceFilledCount, g)
  end.

Fixpoint fillPass (es : list nat) (nullFaceFilledCount : Z) (g : Graph) : outcome (Z * Graph) :=
  match es with
  | [] => Done (nullFaceFilledCount, g)
  | e :: rest =>
      '(count1, g1) ← fillStep e nullFaceFilledCount g;
      fillPass rest count1 g1
  end.

(** [while ( nullFaceFilledCount )] *)
Fixpoint fillRounds (rounds : nat) (nullFaceFilledCount : Z) (g : Graph) : outcome Graph :=
  if decide (nullFaceFilledCount = 0%Z) then Done g
  else
    match rounds with
    | 0 => Diverges
    | S rounds' =>
        '(count1, g1) ← fillPass (edges g) nullFaceFilledCount g;
        fillRounds rounds' count1 g1
    end.

(** [Graph.fillAlternatingFaces] *)
Definition fillAlternatingFaces (rounds : nat) (g : Graph) : outcome Graph :=
  let g1 := foldl (fun g f => setFilled f None g) g (faces g) in
  let count := Z.of_nat (length (faces g)) in
  let g2 := setFilled (unboundedFace g) (Some false) g1 in
  fillRounds rounds (count - 1)%Z g2.

End GraphMethods.

(** Whether a call returned. *)
Definition returned {A} (o : outcome A) : bool :=
  match o with Done _ => true | _ => false end.

(** ** What the properties speak of *)

(** The half-edges a vertex lists. *)
Definition incidentOf (g : Graph) (v : nat) : list HalfEdge :=
  incidentHalfEdges (vertexAt g v).

(** The vertex [v] is an object of the graph and lists, once each, the
    half-edges of the edges of the graph that end at [v], and no other. *)
Definition listsHalfEdgesEndingAt (g : Graph) (v : nat) : Prop :=
  is_Some (vertexArena g !! v) /\
  NoDup (incidentOf g v) /\
  forall h, h ∈ incidentOf g v <-> edge h ∈ edges g /\ halfEndVertex g h = v.

(** The same with the half-edges that start at [v], as section 3 of the
    specification has it. *)
Definition listsHalfEdgesStartingAt (g : Graph) (v : nat) : Prop :=
  is_Some (vertexArena g !! v) /\
  NoDup (incidentOf g v) /\
  forall h, h ∈ incidentOf g v <-> edge h ∈ edges g /\ halfStartVertex g h = v.

(** Ids are handed out upwards: what the graph holds was made before
    [nextId], and the arrays of vertices and edges hold an object once. *)
Record wellFormed (g : Graph) : Prop := {
  wf_edges_once : NoDup (edges g);
  wf_vertices_once : NoDup (vertices g);
  wf_vertices_made : forall v, v ∈ vertices g -> v < nextId g;
  wf_edges_made : forall e, e ∈ edges g -> e < nextId g;
  wf_edges_objects : forall e, e ∈ edges g -> is_Some (edgeArena g !! e);
  wf_ends_made : forall e, e ∈ edges g ->
      startVertex (edgeAt g e) < nextId g /\ endVertex (edgeAt g e) < nextId g
}.

(** [wellFormed], decided. *)
Definition wellFormedb (g : Graph) : bool :=
  bool_decide (NoDup (edges g)) && bool_decide (NoDup (vertices g)) &&
  forallb (fun v => bool_decide (v < nextId g)) (vertices g) &&
  forallb (fun e => bool_decide (e < nextId g) &&
                    bool_decide (is_Some (edgeArena g !! e)) &&
                    bool_decide (startVertex (edgeAt g e) < nextId g) &&
                    bool_decide (endVertex (edgeAt g e) < nextId g)) (edges g).

(** The end of an edge that is nearer to the parameter [t]. *)
Definition nearerEnd (g : Graph) (e : nat) (t : number) : nat :=
  if nlt t oneHalf then startVertex (edgeAt g e) else endVertex (edgeAt g e).

(** Between [g] and [g'] the edge [e] gave way to two new edges, the pieces
    of its segment cut at [t], that meet at [vertex]. *)
Definition splitThrough (pieces : Segment * Segment) (g g' : Graph) (e vertex : nat) : Prop :=
  (e ∉ edges g') /\
  exists e1 e2,
    e1 ∈ edges g' /\ e2 ∈ edges g' /\ (e1 ∉ edges g) /\ (e2 ∉ edges g) /\ e1 <> e2 /\
    edgeAt g' e1 = {| segment := fst pieces; startVertex := startVertex (edgeAt g e);
                      endVertex := vertex; forwardFace := None; reversedFace := None |} /\
    edgeAt g' e2 = {| segment := snd pieces; startVertex := vertex;
                      endVertex := endVertex (edgeAt g e);
                      forwardFace := None; reversedFace := None |}.

(** Between [g] and [g'] the edge [e] stayed what it was. *)
Definition keptWhole (g g' : Graph) (e : nat) : Prop :=
  e ∈ edges g' /\ edgeAt g' e = edgeAt g e.

(** Between [g] and [g'] the edges [aEdge] and [bEdge] gave way to new
    edges: one for the stretch they share, at most two more on the side of
    each; and in the loops each half of [aEdge] and of [bEdge] gave way to
    halves of these, the shared edge among them on both sides. *)
Definition replacedBySharedMiddle (g g' : Graph) (aEdge bEdge : nat) : Prop :=
  exists (middleEdge : nat) (aSide bSide : list nat) (aHalves bHalves : list HalfEdge),
    edges g' =
      arrayRemove (arrayRemove (edges g) aEdge) bEdge ++ middleEdge :: aSide ++ bSide /\
    length aSide <= 2 /\ length bSide <= 2 /\
    NoDup (middleEdge :: aSide ++ bSide) /\
    (forall e, e ∈ middleEdge :: aSide ++ bSide -> e ∉ edges g) /\
    loops g' = loops (replaceEdgeInLoops bEdge bHalves (replaceEdgeInLoops aEdge aHalves g)) /\
    forwardHalf middleEdge ∈ aHalves /\
    (forwardHalf middleEdge ∈ bHalves \/ reversedHalf middleEdge ∈ bHalves) /\
    (forall h, h ∈ aHalves -> edge h = middleEdge \/ edge h ∈ aSide) /\
    (forall h, h ∈ bHalves -> edge h = middleEdge \/ edge h ∈ bSide).


(** The edge [e] has the face [f] on the side of its forward half and the
    face [f'] on the side of its reversed half. *)
Definition bordersFaces (g : Graph) (e f f' : nat) : Prop :=
  forwardFace (edgeAt g e) = Some f /\ reversedFace (edgeAt g e) = Some f'.

(** The faces one gets to from the unbounded face by stepping, any number of
    times, between the two faces of an edge of the graph. *)
Inductive reachableFace (g : Graph) : nat -> Prop :=
| reach_unbounded : reachableFace g (unboundedFace g)
| reach_across (f f' e : nat) :
    reachableFace g f -> e ∈ edges g ->
    bordersFaces g e f f' \/ bordersFaces g e f' f ->
    reachableFace g f'.

(** The unbounded face is an object of the graph, and every edge of the
    graph has on each side a face that is one too and is among the faces of
    the graph. *)
Definition facesLinked (g : Graph) : Prop :=
  is_Some (faceArena g !! unboundedFace g) /\
  forall e, e ∈ edges g ->
    exists f f', bordersFaces g e f f' /\
                 is_Some (faceArena g !! f) /\ is_Some (faceArena g !! f') /\
                 f ∈ faces g /\ f' ∈ faces g.

(** Every face of the graph is reached from the unbounded face. *)
Definition facesReachable (g : Graph) : Prop :=
  forall f, f ∈ faces g -> reachableFace g f.

(** [g'] is [g] but for the winding maps of its faces. *)
Definition windingMapsOnly (g g' : Graph) : Prop :=
  vertexArena g' = vertexArena g /\ edgeArena g' = edgeArena g /\
  nextId g' = nextId g /\ vertices g' = vertices g /\ edges g' = edges g /\
  shapeIds g' = shapeIds g /\ loops g' = loops g /\ boundaries g' = boundaries g /\
  unboundedFace g' = unboundedFace g /\ faces g' = faces g /\
  forall f, (is_Some (faceArena g' !! f) <-> is_Some (faceArena g !! f)) /\
            filled (faceAt g' f) = filled (faceAt g f).

(** [face.windingMap[ id ]], where there is a number to read. *)
Definition windingAt (g : Graph) (f : nat) (id : Z) : option Z :=
  match windingMap (faceAt g f) with
  | Some m => m !! id
  | None => None
  end.




(** No face but the unbounded one has a winding map yet. *)
Definition facesUnsolved (g : Graph) : Prop :=
  forall f, f <> unboundedFace g -> windingMap (faceAt g f) = None.

(** Every face of the graph has a winding map. *)
Definition facesSolved (g : Graph) : Prop :=
  forall f, f ∈ faces g -> is_Some (windingMap (faceAt g f)).

(** The faces of the graph are listed once, the unbounded face among
    them, and are objects of the graph. *)
Definition facesListed (g : Graph) : Prop :=
  NoDup (faces g) /\ unboundedFace g ∈ faces g /\
  forall f, f ∈ faces g -> is_Some (faceArena g !! f).

(** What [fillAlternatingFaces] leaves in [g'], of a graph [g]: the
    unbounded face is not filled, every face is filled or not, and every
    other face has the opposite of a face across one of its edges. *)
Definition facesAlternate (g g' : Graph) : Prop :=
  filled (faceAt g' (unboundedFace g)) = Some false /\
  (forall f, f ∈ faces g -> is_Some (filled (faceAt g' f))) /\
  (forall f, f ∈ faces g -> f <> unboundedFace g ->
     exists e f' value,
       e ∈ edges g /\ (bordersFaces g e f f' \/ bordersFaces g e f' f) /\
       filled (faceAt g' f') = Some value /\
       filled (faceAt g' f) = Some (negb value)).

(** For no vertex of the graph and a vertex behind it in the array does the
    test of [collapseVertices] hold: the distance of their points, as
    [distance] computes it, is not less than [vertexEpsilon]. *)
Definition verticesApart (g : Graph) : Prop :=
  forall i j a c, i < j -> vertices g !! i = Some a -> vertices g !! j = Some c ->
    tooClose g a c = false.

(** The edge runs between the vertices [a] and [c], or from one of them back
    to it. *)
Definition joinsPair (g : Graph) (a c e : nat) : Prop :=
  (startVertex (edgeAt g e) = a \/ startVertex (edgeAt g e) = c) /\
  (endVertex (edgeAt g e) = a \/ endVertex (edgeAt g e) = c).

(** Between [g] and [g'] the vertices [a] and [c] gave way to one new
    vertex, at the point of [a] when their distance is zero and half way
    between them otherwise, and every edge between the two left the graph and
    its loops. *)
Definition mergedPair (g g' : Graph) (a c : nat) : Prop :=
  exists newVertex,
    (newVertex ∉ vertices g) /\
    vertices g' = arrayRemove (arrayRemove (vertices g ++ [newVertex]) a) c /\
    newVertex ∈ vertices g' /\ (a ∉ vertices g') /\ (c ∉ vertices g') /\
    point (vertexAt g' newVertex) =
      (if neq (distance (point (vertexAt g a)) (point (vertexAt g c))) zero
       then point (vertexAt g a)
       else average (point (vertexAt g a)) (point (vertexAt g c))) /\
    forall e, e ∈ edges g -> joinsPair g a c e ->
      (e ∉ edges g') /\
      forall loop h, loop ∈ loops g' -> h ∈ halfEdges loop -> edge h <> e.

(** [g'] is [g] after some pairs of vertices closer than [vertexEpsilon]
    were merged, one pair after the other. *)
Inductive mergedInTurn : Graph -> Graph -> Prop :=
| merged_none (g : Graph) : mergedInTurn g g
| merged_pair (g g1 g' : Graph) (a c : nat) :
    a ∈ vertices g -> c ∈ vertices g -> a <> c -> tooClose g a c = true ->
    mergedPair g g1 a c -> mergedInTurn g1 g' -> mergedInTurn g g'.

(** The subpath with its [closed] mark set to [mark]. *)
Definition withClosed (mark : bool) (subpath : Subpath) : Subpath :=
  {| points := points subpath; segments := segments subpath; closed := mark |}.

(** The two points that meet in front of segment [index] of the list
    [addSubpath] goes through: the start of the segment and the end of the
    segment before it, which for the first segment is the last one. *)
Definition joinOf (segs : list Segment) (index : nat) : option (Vector2 * Vector2) :=
  let previousIndex := if decide (index = 0) then length segs - 1 else index - 1 in
  match segs !! previousIndex, segs !! index with
  | Some previous, Some current => Some (seg_start current, seg_end previous)
  | _, _ => None
  end.

(** The joins of a list of segments, in the order of the segments. *)
Definition joinsOf (segs : list Segment) : list (Vector2 * Vector2) :=
  omap (joinOf segs) (seq 0 (length segs)).

(** Where [addSubpath] puts the vertex of a join: at the start point when it
    equals the end point before it, half way between the two otherwise. *)
Definition joinPoint (join : Vector2 * Vector2) : Vector2 :=
  let '(_start, _end) := join in
  if equals _start _end then _start else average _start _end.

(** The join is not one the assertion 'Inaccurate start/end points' fails
    at: the two points are equal or their distance is less than
    [vertexEpsilon]. *)
Definition joinAccurate (join : Vector2 * Vector2) : bool :=
  let '(_start, _end) := join in
  equals _start _end || nlt (distance _start _end) vertexEpsilon.

(** The vertex both edges go through and what became of each edge. *)
Definition sharesOneVertex (subdividedCurve : Segment -> number -> Segment * Segment)
    (g g' : Graph) (aEdge bEdge : nat) (aT bT : number) (p : Vector2) : Prop :=
  exists vertex,
    (if internal aT
     then splitThrough (subdivided subdividedCurve (segment (edgeAt g aEdge)) aT) g g' aEdge vertex
     else keptWhole g g' aEdge /\ vertex = nearerEnd g aEdge aT) /\
    (if internal bT
     then splitThrough (subdivided subdividedCurve (segment (edgeAt g bEdge)) bT) g g' bEdge vertex
     else keptWhole g g' bEdge /\ (internal aT = true -> vertex = nearerEnd g bEdge bT)) /\
    (if internal aT && internal bT
     then (vertex ∉ vertices g) /\ vertices g' = vertices g ++ [vertex] /\
          point (vertexAt g' vertex) = p
     else vertices g' = vertices g).

(** Every vertex of the graph lists the half-edges that end at it. *)
Definition verticesListEnds (g : Graph) : Prop :=
  forall v, v ∈ vertices g -> listsHalfEdgesEndingAt g v.

Section Phases.
Variable assertEnabled : bool.
Variable subdividedCurve : Segment -> number -> Segment * Segment.
Variable linear : number -> number -> number -> number -> number -> number.

(** What the phases do to the edges and vertices of the graph, one call at
    a time: a subpath is ingested; a new edge between two vertices is
    connected, an edge is taken out, an edge gives way to others in the
    loops; a new vertex is pushed on the array of vertices, a vertex is taken
    from it; two edges are split where they cross or where they overlap, two
    vertices are merged. *)
Inductive changes : Graph -> Graph -> Prop :=
| changes_addSubpath (id : Z) (subpath : Subpath) (g g' : Graph) :
    addSubpath assertEnabled id subpath g = Done g' -> changes g g'
| changes_addEdge (s : Segment) (a b : nat) (g g' : Graph) :
    a < nextId g -> b < nextId g ->
    addEdge assertEnabled (nextId g) (snd (createEdge s a b g)) = Done g' ->
    changes g g'
| changes_removeEdge (e : nat) (g : Graph) :
    changes g (removeEdge e g)
| changes_replaceEdgeInLoops (e : nat) (forwardHalfEdges : list HalfEdge) (g : Graph) :
    changes g (replaceEdgeInLoops e forwardHalfEdges g)
| changes_pushVertex (p : Vector2) (g : Graph) :
    changes g (withVertices (vertices g ++ [nextId g]) (snd (createVertex p g)))
| changes_removeVertex (v : nat) (g : Graph) :
    changes g (withVertices (arrayRemove (vertices g) v) g)
| changes_simpleSplit (aEdge bEdge : nat) (aT bT : number) (p : Vector2) (g g' : Graph) :
    aEdge ∈ edges g -> bEdge ∈ edges g -> aEdge <> bEdge ->
    simpleSplit assertEnabled subdividedCurve aEdge bEdge aT bT p g = Done g' ->
    changes g g'
| changes_splitOverlap (aEdge bEdge : nat) (overlap : Overlap.t) (g g' : Graph) :
    aEdge ∈ edges g -> bEdge ∈ edges g ->
    splitOverlap assertEnabled subdividedCurve linear aEdge bEdge overlap g = Done g' ->
    changes g g'
| changes_collapsePair (a c : nat) (g g' : Graph) :
    a ∈ vertices g -> c ∈ vertices g -> a <> c ->
    collapsePair a c g = Done g' -> changes g g'.

(** The graphs the phases get to from [new Graph()]. *)
Inductive built : Graph -> Prop :=
| built_new : built newGraph
| built_change (g g' : Graph) : built g -> changes g g' -> built g'.

End Phases.

(** ** Graphs and subpaths to run the methods on *)

Module Examples.

Definition at_ (x y : number) : Vector2 := v2 x y.

(** No points, no segments. *)
Definition emptyPath : Subpath := {| points := []; segments := []; closed := false |}.

(** One line from (0,0) to (1,0), not closed. *)
Definition openPath : Subpath :=
  {| points := [at_ 0 0; at_ 1 0];
     segments := [Line (at_ 0 0) (at_ 1 0)];
     closed := false |}.

(** For the lines of the examples: none is marked invalid, the tangent is
    the direction from start to end (its length is not read here), and the
    bounds are finite when both ends are. *)
Definition notInvalid (s : Segment) : bool := false.
Definition direction (s : Segment) : Vector2 := minus (seg_end s) (seg_start s).
Definition endsFinite (s : Segment) : bool :=
  isFiniteVector (seg_start s) && isFiniteVector (seg_end s).

(** A closed triangle whose first point is infinitely far to the right. *)
Definition farPath : Subpath :=
  {| points := [at_ infinity 0; at_ 1 0; at_ 1 1];
     segments := [Line (at_ infinity 0) (at_ 1 0); Line (at_ 1 0) (at_ 1 1)];
     closed := true |}.

(** A closed triangle whose first point has a coordinate that is not a
    number. *)
Definition nanPath : Subpath :=
  {| points := [at_ nan 0; at_ 1 0; at_ 1 1];
     segments := [Line (at_ nan 0) (at_ 1 0); Line (at_ 1 0) (at_ 1 1)];
     closed := true |}.

(** Two edges in a row, 0 -> 1 -> 2, the first of them a millionth long:
    vertices 0 and 1 are closer than [vertexEpsilon]. *)
Definition shortEdgeGraph : Graph :=
  {| vertexArena :=
       <[ 0 := {| point := at_ 0 0; incidentHalfEdges := [reversedHalf 3] |} ]>
       (<[ 1 := {| point := at_ 0x1.0c6f7a0b5ed8dp-20 0;
                   incidentHalfEdges := [forwardHalf 3; reversedHalf 4] |} ]>
       (<[ 2 := {| point := at_ 1 0; incidentHalfEdges := [forwardHalf 4] |} ]> ∅));
     edgeArena :=
       <[ 3 := {| segment := Line (at_ 0 0) (at_ 0x1.0c6f7a0b5ed8dp-20 0);
                  startVertex := 0; endVertex := 1;
                  forwardFace := None; reversedFace := None |} ]>
       (<[ 4 := {| segment := Line (at_ 0x1.0c6f7a0b5ed8dp-20 0) (at_ 1 0);
                   startVertex := 1; endVertex := 2;
                   forwardFace := None; reversedFace := None |} ]> ∅);
     faceArena := ∅;
     nextId := 5;
     vertices := [0; 1; 2];
     edges := [3; 4];
     shapeIds := [0%Z];
     loops := [{| shapeId := 0%Z; halfEdges := [forwardHalf 3; forwardHalf 4] |}];
     boundaries := [];
     unboundedFace := 0;
     faces := [] |}.

(** Two vertices and no edge. *)
Definition pairGraph (p q : Vector2) : Graph :=
  {| vertexArena :=
       <[ 0 := {| point := p; incidentHalfEdges := [] |} ]>
       (<[ 1 := {| point := q; incidentHalfEdges := [] |} ]> ∅);
     edgeArena := ∅;
     faceArena := ∅;
     nextId := 2;
     vertices := [0; 1];
     edges := [];
     shapeIds := [];
     loops := [];
     boundaries := [];
     unboundedFace := 0;
     faces := [] |}.

(** Vertices at (0,0) and (6e-6, 8e-6), the numbers the two literals
    stand for. *)
Definition closePairGraph : Graph :=
  pairGraph (at_ 0 0) (at_ 0x1.92a737110e454p-18 0x1.0c6f7a0b5ed8dp-17).

(** Vertices at (0,0) and (2^-600, 0). *)
Definition tinyPairGraph : Graph := pairGraph (at_ 0 0) (at_ 0x1p-600 0).

(** The graph of [openPath]: its line and the line back. *)
Definition openPathGraph : Graph :=
  match addSubpath false 0 openPath newGraph with
  | Done g => g
  | _ => newGraph
  end.

(** The examples hold lines only, and no curve is cut. *)
Definition noCurve (s : Segment) (t : number) : Segment * Segment := (s, s).

(** DOT's [Util.linear( a1, a2, b1, b2, a3 )]: the value at [a3] of the line
    through [(a1, b1)] and [(a2, b2)]. *)
Definition linear (a1 a2 b1 b2 a3 : number) : number :=
  nadd (nmul (ndiv (nsub b2 b1) (nsub a2 a1)) (nsub a3 a1)) b1.

(** Where two lines cross, when they are not parallel: the parameter on
    each and the point. *)
Definition lineIntersect (a b : Segment) : list Intersection.t :=
  match a, b with
  | Line (v2 px py) (v2 qx qy), Line (v2 rx ry) (v2 sx sy) =>
      let d := nsub (nmul (nsub qx px) (nsub sy ry)) (nmul (nsub qy py) (nsub sx rx)) in
      if neq d zero then []
      else
        let t := ndiv (nsub (nmul (nsub rx px) (nsub sy ry)) (nmul (nsub ry py) (nsub sx rx)))
                   d in
        let u := ndiv (nsub (nmul (nsub rx px) (nsub qy py)) (nmul (nsub ry py) (nsub qx px)))
                   d in
        if nle zero t && nle t one && nle zero u && nle u one
        then [{| Intersection.aT := t; Intersection.bT := u;
                 Intersection.point :=
                   v2 (nadd px (nmul t (nsub qx px))) (nadd py (nmul t (nsub qy py))) |}]
        else []
  | _, _ => []
  end.

(** Two strokes, each a line and the line back, that cross at (1,1). *)
Definition strokeUp : Subpath :=
  {| points := [at_ 0 0; at_ 2 2];
     segments := [Line (at_ 0 0) (at_ 2 2)];
     closed := true |}.

Definition strokeDown : Subpath :=
  {| points := [at_ 0 2; at_ 2 0];
     segments := [Line (at_ 0 2) (at_ 2 0)];
     closed := true |}.

Definition crossGraph : Graph :=
  match addShape true 0 [strokeUp; strokeDown] newGraph with
  | Done g => g
  | _ => newGraph
  end.

(** The shared stretch of two lines on the x axis that both run to the
    right. *)
Definition axisOverlaps (a b : Segment) : list Overlap.t :=
  match a, b with
  | Line (v2 px py) (v2 qx qy), Line (v2 rx ry) (v2 sx sy) =>
      if neq py zero && neq qy zero && neq ry zero && neq sy zero &&
         nlt px qx && nlt rx sx
      then
        let lo := if nle px rx then rx else px in
        let hi := if nle qx sx then qx else sx in
        if nlt lo hi
        then [{| Overlap.a := ndiv (nsub qx px) (nsub sx rx);
                 Overlap.t0 := ndiv (nsub lo px) (nsub qx px);
                 Overlap.t1 := ndiv (nsub hi px) (nsub qx px);
                 Overlap.qt0 := ndiv (nsub lo rx) (nsub sx rx);
                 Overlap.qt1 := ndiv (nsub hi rx) (nsub sx rx) |}]
        else []
      else []
  | _, _ => []
  end.

Definition noOverlaps (a b : Segment) : list Overlap.t := [].

(** A line from (0,0) to (4,0) and a line from (1,0) to (3,0) on top of it. *)
Definition overlapGraph : Graph :=
  {| vertexArena :=
       <[ 0 := {| point := at_ 0 0; incidentHalfEdges := [reversedHalf 4] |} ]>
       (<[ 1 := {| point := at_ 4 0; incidentHalfEdges := [forwardHalf 4] |} ]>
       (<[ 2 := {| point := at_ 1 0; incidentHalfEdges := [reversedHalf 5] |} ]>
       (<[ 3 := {| point := at_ 3 0; incidentHalfEdges := [forwardHalf 5] |} ]> ∅)));
     edgeArena :=
       <[ 4 := {| segment := Line (at_ 0 0) (at_ 4 0);
                  startVertex := 0; endVertex := 1;
                  forwardFace := None; reversedFace := None |} ]>
       (<[ 5 := {| segment := Line (at_ 1 0) (at_ 3 0);
                   startVertex := 2; endVertex := 3;
                   forwardFace := None; reversedFace := None |} ]> ∅);
     faceArena := ∅;
     nextId := 6;
     vertices := [0; 1; 2; 3];
     edges := [4; 5];
     shapeIds := [0%Z; 1%Z];
     loops := [{| shapeId := 0%Z; halfEdges := [forwardHalf 4] |};
               {| shapeId := 1%Z; halfEdges := [forwardHalf 5] |}];
     boundaries := [];
     unboundedFace := 0;
     faces := [] |}.

(** The number the literal [1e-6] stands for. *)
Definition millionth : number := 0x1.0c6f7a0b5ed8dp-20.

(** A line from (0,0) to (1,0) and, on top of it, a line from (1e-6,0) to
    (2,0), which starts a millionth behind the start of the first. *)
Definition nearOverlapGraph : Graph :=
  {| vertexArena :=
       <[ 0 := {| point := at_ 0 0; incidentHalfEdges := [reversedHalf 4] |} ]>
       (<[ 1 := {| point := at_ 1 0; incidentHalfEdges := [forwardHalf 4] |} ]>
       (<[ 2 := {| point := at_ millionth 0; incidentHalfEdges := [reversedHalf 5] |} ]>
       (<[ 3 := {| point := at_ 2 0; incidentHalfEdges := [forwardHalf 5] |} ]> ∅)));
     edgeArena :=
       <[ 4 := {| segment := Line (at_ 0 0) (at_ 1 0);
                  startVertex := 0; endVertex := 1;
                  forwardFace := None; reversedFace := None |} ]>
       (<[ 5 := {| segment := Line (at_ millionth 0) (at_ 2 0);
                   startVertex := 2; endVertex := 3;
                   forwardFace := None; reversedFace := None |} ]> ∅);
     faceArena := ∅;
     nextId := 6;
     vertices := [0; 1; 2; 3];
     edges := [4; 5];
     shapeIds := [0%Z; 1%Z];
     loops := [{| shapeId := 0%Z; halfEdges := [forwardHalf 4] |};
               {| shapeId := 1%Z; halfEdges := [forwardHalf 5] |}];
     boundaries := [];
     unboundedFace := 0;
     faces := [] |}.

(** A triangle run counter-clockwise: the face 7 inside, on the forward side
    of its three edges, and the unbounded face 0 outside. *)
Definition triangleGraph : Graph :=
  {| vertexArena :=
       <[ 1 := {| point := at_ 0 0;
                  incidentHalfEdges := [reversedHalf 4; forwardHalf 6] |} ]>
       (<[ 2 := {| point := at_ 1 0;
                   incidentHalfEdges := [forwardHalf 4; reversedHalf 5] |} ]>
       (<[ 3 := {| point := at_ 0 1;
                   incidentHalfEdges := [forwardHalf 5; reversedHalf 6] |} ]> ∅));
     edgeArena :=
       <[ 4 := {| segment := Line (at_ 0 0) (at_ 1 0);
                  startVertex := 1; endVertex := 2;
                  forwardFace := Some 7; reversedFace := Some 0 |} ]>
       (<[ 5 := {| segment := Line (at_ 1 0) (at_ 0 1);
                   startVertex := 2; endVertex := 3;
                   forwardFace := Some 7; reversedFace := Some 0 |} ]>
       (<[ 6 := {| segment := Line (at_ 0 1) (at_ 0 0);
                   startVertex := 3; endVertex := 1;
                   forwardFace := Some 7; reversedFace := Some 0 |} ]> ∅));
     faceArena :=
       <[ 0 := {| windingMap := None; filled := None |} ]>
       (<[ 7 := {| windingMap := None; filled := None |} ]> ∅);
     nextId := 8;
     vertices := [1; 2; 3];
     edges := [4; 5; 6];
     shapeIds := [0%Z];
     loops := [{| shapeId := 0%Z;
                  halfEdges := [forwardHalf 4; forwardHalf 5; forwardHalf 6] |}];
     boundaries := [];
     unboundedFace := 0;
     faces := [0; 7] |}.

(** Where the up stroke and the down stroke cross, and the graph once they
    are split there. *)
Definition crossing : Intersection.t :=
  {| Intersection.aT := 0.5; Intersection.bT := 0.5;
     Intersection.point := at_ 1 1 |}.

Definition crossGraphSplit : Graph :=
  match simpleSplit true noCurve 3 7 (Intersection.aT crossing) (Intersection.bT crossing)
          (Intersection.point crossing) crossGraph with
  | Done g => g
  | _ => newGraph
  end.

(** The stretch the two lines of [overlapGraph] share, and the graph once
    they are split along it. *)
Definition sharedStretch : Overlap.t :=
  {| Overlap.a := 2;
     Overlap.t0 := 0.25; Overlap.t1 := 0.75;
     Overlap.qt0 := 0; Overlap.qt1 := 1 |}.

Definition overlapGraphSplit : Graph :=
  match splitOverlap true noCurve linear 4 5 sharedStretch overlapGraph with
  | Done g => g
  | _ => newGraph
  end.

(** The stretch the two lines of [nearOverlapGraph] share: it starts a
    millionth into the first line and runs to its end; and the graph once
    they are split along it. *)
Definition nearStretch : Overlap.t :=
  {| Overlap.a := ndiv 1 (nsub 2 millionth);
     Overlap.t0 := millionth; Overlap.t1 := 1;
     Overlap.qt0 := 0; Overlap.qt1 := ndiv (nsub 1 millionth) (nsub 2 millionth) |}.

Definition nearOverlapGraphSplit : Graph :=
  match splitOverlap true noCurve linear 4 5 nearStretch nearOverlapGraph with
  | Done g => g
  | _ => newGraph
  end.





(** The triangle with its winding maps. *)
Definition triangleGraphWound : Graph :=
  match computeWindingMap false 9 triangleGraph with
  | Done g => g
  | _ => newGraph
  end.

End Examples.

(** * The rest of the graph pipeline *)

(** ** Further graphs to run the methods on *)

Module MoreExamples.
Import Examples.

(** The graph of [openPath] with one more edge made from vertex 1 to vertex
    2 but not connected yet, and the graph once it is. *)
Definition spareEdgeGraph : Graph :=
  snd (createEdge (Line (at_ 0 0) (at_ 1 0)) 1 2 openPathGraph).

Definition spareEdgeConnected : Graph :=
  match addEdge true 5 spareEdgeGraph with
  | Done g => g
  | _ => newGraph
  end.

(** The graph of [openPath] with a vertex made half way along its line, and
    the graph once the line is split through it. *)
Definition midpointGraph : Graph :=
  withVertices (vertices openPathGraph ++ [5])
    (snd (createVertex (at_ 0.5 0) openPathGraph)).

Definition midpointSplit : Graph :=
  match splitEdge true noCurve 3 0.5 5 midpointGraph with
  | Done g => g
  | _ => newGraph
  end.

(** The two crossing strokes once no two edges cross any more, and the two
    lines on top of each other once no two edges share a stretch. *)
Definition crossGraphResolved : Graph :=
  match eliminateIntersection true lineIntersect noCurve 10 crossGraph with
  | Done g => g
  | _ => newGraph
  end.

Definition overlapGraphResolved : Graph :=
  match eliminateOverlap true noCurve axisOverlaps noOverlaps noOverlaps linear 5
          overlapGraph with
  | Done g => g
  | _ => newGraph
  end.

End MoreExamples.

(** ** Counting half-edges *)

(** How often the forward half of [e] is in the array, less how often its
    reversed half is. *)
Definition netOccurrences (e : nat) (hs : list HalfEdge) : Z :=
  (Z.of_nat (length (filter (fun h => h = forwardHalf e) hs)) -
   Z.of_nat (length (filter (fun h => h = reversedHalf e) hs)))%Z.

(** No loop of the graph holds a half of the edge [e]. *)
Definition notInLoops (g : Graph) (e : nat) : Prop :=
  forall loop h, loop ∈ loops g -> h ∈ halfEdges loop -> edge h <> e.

(** ** The assertion of [collapseVertices] and [removeSingleEdgeVertices] *)

(** Every edge of the graph starts and ends at a vertex of the graph: what
    the two methods assert when they start and when they are done. *)
Definition edgesHaveVertices (g : Graph) : Prop :=
  forall e, e ∈ edges g ->
    startVertex (edgeAt g e) ∈ vertices g /\ endVertex (edgeAt g e) ∈ vertices g.

(** ** Winding maps and shape ids *)

(** Every winding map of the graph has a number for the shape ids of the
    graph and for nothing else. *)
Definition keyedByShapeIds (g : Graph) : Prop :=
  forall f m, windingMap (faceAt g f) = Some m ->
    forall id, is_Some (m !! id) <-> id ∈ shapeIds g.

(** ** Which faces are in the result *)

(** [windingMap[ id ] !== 0].  A winding map without an entry for the id
    gives [undefined], which is not [0]. *)
Definition nonZeroAt (m : gmap Z Z) (id : Z) : bool :=
  negb (bool_decide (m !! id = Some 0%Z)).

(** [windingMap[ id ] === 0] *)
Definition zeroAt (m : gmap Z Z) (id : Z) : bool :=
  bool_decide (m !! id = Some 0%Z).

(** [Graph.BINARY_NONZERO_UNION] and the three others, on a winding map. *)
Definition BINARY_NONZERO_UNION (m : gmap Z Z) : bool := nonZeroAt m 0 || nonZeroAt m 1.
Definition BINARY_NONZERO_INTERSECTION (m : gmap Z Z) : bool := nonZeroAt m 0 && nonZeroAt m 1.
Definition BINARY_NONZERO_DIFFERENCE (m : gmap Z Z) : bool := nonZeroAt m 0 && zeroAt m 1.
(** [( ( a !== 0 ) ^ ( b !== 0 ) ) === 1] *)
Definition BINARY_NONZERO_XOR (m : gmap Z Z) : bool := xorb (nonZeroAt m 0) (nonZeroAt m 1).

(** A filter that reads entries of the winding map it is handed, as the four
    above do: on [null], the winding map of a face not solved, the read
    throws. *)
Definition onWindingMap (filter : gmap Z Z -> bool) (w : option (gmap Z Z)) : outcome bool :=
  m ← ofOption w; Done (filter m).

(** The loop of [computeFaceInclusion] over the faces. *)
Fixpoint includeFaces (windingMapFilter : option (gmap Z Z) -> outcome bool)
    (fs : list nat) (g : Graph) : outcome Graph :=
  match fs with
  | [] => Done g
  | face :: rest =>
      value ← windingMapFilter (windingMap (faceAt g face));
      includeFaces windingMapFilter rest (setFilled face (Some value) g)
  end.

(** [Graph.computeFaceInclusion] *)
Definition computeFaceInclusion (windingMapFilter : option (gmap Z Z) -> outcome bool)
    (g : Graph) : outcome Graph :=
  includeFaces windingMapFilter (faces g) g.

(** ** Removing vertices with fewer than two half-edges *)

(** [for ( var j = 0; j < vertex.incidentHalfEdges.length; j++ )] in
    [removeSingleEdgeVertices]: the length is read again before each turn,
    while [removeEdge] takes half-edges out of the very list.  The list never
    grows and [j] goes up by one a turn, so there are at most as many turns
    as the list was long at the start, which is what [turns] is given as. *)
Fixpoint disconnectFrom (turns j vertex : nat) (g : Graph) : Graph :=
  match turns with
  | 0 => g
  | S turns' =>
      match incidentOf g vertex !! j with
      | None => g
      | Some halfEdge =>
          let e := edge halfEdge in
          disconnectFrom turns' (S j) vertex (replaceEdgeInLoops e [] (removeEdge e g))
      end
  end.

(** [for ( var i = this.vertices.length - 1; i >= 0; i-- )] up to the first
    vertex with fewer than two incident half-edges; [n] is the number of
    indices still to visit. *)
Fixpoint lastLowOrder (g : Graph) (n : nat) : option nat :=
  match n with
  | 0 => None
  | S i =>
      match vertices g !! i with
      | Some vertex =>
          if length (incidentOf g vertex) <? 2 then Some i else lastLowOrder g i
      | None => lastLowOrder g i
      end
  end.

(** The [while ( needsLoop )] of [removeSingleEdgeVertices]. *)
Fixpoint removeLowOrderRounds (rounds : nat) (g : Graph) : outcome Graph :=
  match lastLowOrder g (length (vertices g)) with
  | None => Done g
  | Some i =>
      match rounds with
      | 0 => Diverges
      | S rounds' =>
          vertex ← ofOption (vertices g !! i);
          let g1 := disconnectFrom (length (incidentOf g vertex)) 0 vertex g in
          removeLowOrderRounds rounds' (withVertices (delete i (vertices g1)) g1)
      end
  end.

(** [Graph.removeSingleEdgeVertices] *)
Definition removeSingleEdgeVertices (assertEnabled : bool) (rounds : nat) (g : Graph)
    : outcome Graph :=
  _ ← assertEdgesHaveVertices assertEnabled g;
  g1 ← removeLowOrderRounds rounds g;
  _ ← assertEdgesHaveVertices assertEnabled g1;
  Done g1.

(** Every vertex of the graph has two incident half-edges at least. *)
Definition verticesHaveTwo (g : Graph) : Prop :=
  forall v, v ∈ vertices g -> 2 <= length (incidentOf g v).

(** ** Splitting cubics that cross themselves *)

(** No loop holds a half-edge of an edge that is still to be made. *)
Definition loopsMade (g : Graph) : Prop :=
  forall e, nextId g <= e -> notInLoops g e.

Section SelfIntersection.
Variable assertEnabled : bool.

(** What the segment classes compute is taken as given here too:
    [Cubic.getSelfIntersection], which is [null] for a cubic that does not
    cross itself, and [segment.subdivisions( [ aT, bT ] )], the three
    pieces of the segment cut at two parameters. *)
Variable getSelfIntersection : Segment -> option Intersection.t.
Variable subdivisions : Segment -> number -> number -> Segment * Segment * Segment.

(** [segment instanceof Cubic] and then [segment.getSelfIntersection()] *)
Definition selfIntersectionOf (s : Segment) : option Intersection.t :=
  match s with
  | Cubic _ _ _ _ => getSelfIntersection s
  | _ => None
  end.

(** The body of the [if ( selfIntersection )]. *)
Definition splitSelfIntersection (e : nat) (selfIntersection : Intersection.t) (g : Graph)
    : outcome Graph :=
  _ ← assert assertEnabled
        (nlt (Intersection.aT selfIntersection) (Intersection.bT selfIntersection)) "";
  let E := edgeAt g e in
  let segments := subdivisions (segment E) (Intersection.aT selfIntersection)
                    (Intersection.bT selfIntersection) in
  let '(vertex, g1) := createVertex (Intersection.point selfIntersection) g in
  let g2 := withVertices (vertices g1 ++ [vertex]) g1 in
  let '(startEdge, g3) := createEdge (fst (fst segments)) (startVertex E) vertex g2 in
  let '(middleEdge, g4) := createEdge (snd (fst segments)) vertex vertex g3 in
  let '(endEdge, g5) := createEdge (snd segments) vertex (endVertex E) g4 in
  let g6 := removeEdge e g5 in
  g7 ← addEdge assertEnabled startEdge g6;
  g8 ← addEdge assertEnabled middleEdge g7;
  g9 ← addEdge assertEnabled endEdge g8;
  Done (replaceEdgeInLoops e
          [forwardHalf startEdge; forwardHalf middleEdge; forwardHalf endEdge] g9).

(** [for ( var i = this.edges.length - 1; i >= 0; i-- )]; [n] is the number
    of indices still to visit. *)
Fixpoint selfIntersectionsFrom (n : nat) (g : Graph) : outcome Graph :=
  match n with
  | 0 => Done g
  | S i =>
      e ← ofOption (edges g !! i);
      match selfIntersectionOf (segment (edgeAt g e)) with
      | Some selfIntersection =>
          g1 ← splitSelfIntersection e selfIntersection g;
          selfIntersectionsFrom i g1
      | None => selfIntersectionsFrom i g
      end
  end.

(** [Graph.eliminateSelfIntersection] *)
Definition eliminateSelfIntersection (g : Graph) : outcome Graph :=
  _ ← assert assertEnabled (bool_decide (length (boundaries g) = 0))
        "Only handles simpler level primitive splitting right now";
  selfIntersectionsFrom (length (edges g)) g.

(** In [g'] three edges stand for the edge [e] of [g] that crossed itself at
    [x]: through one new vertex at the crossing, the first from where [e]
    started, the second from the vertex back to it, the third to where [e]
    ended, with the three pieces of the segment, and each with the
    differential [e] had. *)
Definition splitInThree (g g' : Graph) (e : nat) (x : Intersection.t) : Prop :=
  let E := edgeAt g e in
  let segments := subdivisions (segment E) (Intersection.aT x) (Intersection.bT x) in
  exists vertex startEdge,
    (vertex ∈ vertices g') /\ (vertex ∉ vertices g) /\
    point (vertexAt g' vertex) = Intersection.point x /\
    (startEdge ∈ edges g') /\ (S startEdge ∈ edges g') /\ (S (S startEdge) ∈ edges g') /\
    edgeAt g' startEdge =
      {| segment := fst (fst segments); startVertex := startVertex E; endVertex := vertex;
         forwardFace := None; reversedFace := None |} /\
    edgeAt g' (S startEdge) =
      {| segment := snd (fst segments); startVertex := vertex; endVertex := vertex;
         forwardFace := None; reversedFace := None |} /\
    edgeAt g' (S (S startEdge)) =
      {| segment := snd segments; startVertex := vertex; endVertex := endVertex E;
         forwardFace := None; reversedFace := None |} /\
    forall id,
      computeDifferential startEdge id g' = computeDifferential e id g /\
      computeDifferential (S startEdge) id g' = computeDifferential e id g /\
      computeDifferential (S (S startEdge)) id g' = computeDifferential e id g.

End SelfIntersection.

(** ** The edges of the filled sub graph *)

Section FilledSubGraph.
Variable assertEnabled : bool.

(** [edge.forwardHalf.face.filled !== edge.reversedHalf.face.filled]; the
    read throws on a half-edge without a face. *)
Definition separatesFilled (g : Graph) (e : nat) : outcome bool :=
  forward ← ofOption (forwardFace (edgeAt g e));
  reversed ← ofOption (reversedFace (edgeAt g e));
  Done (negb (bool_decide (filled (faceAt g forward) = filled (faceAt g reversed)))).

(** [if ( !vertexMap[ id ] ) { ... }]: the vertex [v] of [g] gets its copy in
    the new graph, unless it has one. *)
Definition copiedVertex (g : Graph) (v : nat) (vertexMap : gmap nat nat) (graph : Graph)
    : gmap nat nat * Graph :=
  match vertexMap !! v with
  | Some _ => (vertexMap, graph)
  | None =>
      let '(newVertex, graph1) := createVertex (point (vertexAt g v)) graph in
      (<[ v := newVertex ]> vertexMap, withVertices (vertices graph1 ++ [newVertex]) graph1)
  end.

(** The loop of [createFilledSubGraph] over the edges of [g]. *)
Fixpoint copyFilledEdges (g : Graph) (es : list nat) (vertexMap : gmap nat nat)
    (graph : Graph) : outcome (gmap nat nat * Graph) :=
  match es with
  | [] => Done (vertexMap, graph)
  | e :: rest =>
      differ ← separatesFilled g e;
      if differ : bool then
        let E := edgeAt g e in
        let '(vertexMap1, graph1) := copiedVertex g (startVertex E) vertexMap graph in
        let '(vertexMap2, graph2) := copiedVertex g (endVertex E) vertexMap1 graph1 in
        newStart ← ofOption (vertexMap2 !! startVertex E);
        newEnd ← ofOption (vertexMap2 !! endVertex E);
        let '(newEdge, graph3) := createEdge (segment E) newStart newEnd graph2 in
        graph4 ← addEdge assertEnabled newEdge graph3;
        copyFilledEdges g rest vertexMap2 graph4
      else copyFilledEdges g rest vertexMap graph
  end.

(** [Graph.createFilledSubGraph] up to and without [collapseAdjacentEdges]:
    the new graph with the edges it is given, and the map from the old
    vertices to their copies. *)
Definition filledSubGraphEdges (g : Graph) : outcome (gmap nat nat * Graph) :=
  copyFilledEdges g (edges g) ∅ newGraph.

End FilledSubGraph.

(** The two half-edges of [e] have faces, and these differ in [filled]. *)
Definition separatesb (g : Graph) (e : nat) : bool :=
  match forwardFace (edgeAt g e), reversedFace (edgeAt g e) with
  | Some forward, Some reversed =>
      negb (bool_decide (filled (faceAt g forward) = filled (faceAt g reversed)))
  | _, _ => false
  end.

(** The edge [e'] of [graph] is the copy of the edge [e] of [g]: the same
    segment, between the copies of the two vertices. *)
Definition copyOf (g graph : Graph) (vertexMap : gmap nat nat) (e' e : nat) : Prop :=
  segment (edgeAt graph e') = segment (edgeAt g e) /\
  vertexMap !! startVertex (edgeAt g e) = Some (startVertex (edgeAt graph e')) /\
  vertexMap !! endVertex (edgeAt g e) = Some (endVertex (edgeAt graph e')).

(** The map sends vertices of [g] to vertices of [graph] at the same points,
    no two to the same, and every vertex of [graph] is the copy of one. *)
Definition copiesVertices (g graph : Graph) (vertexMap : gmap nat nat) : Prop :=
  (forall v v', vertexMap !! v = Some v' ->
     v' ∈ vertices graph /\ point (vertexAt graph v') = point (vertexAt g v)) /\
  (forall v w v', vertexMap !! v = Some v' -> vertexMap !! w = Some v' -> v = w) /\
  (forall v', v' ∈ vertices graph -> exists v, vertexMap !! v = Some v').

(** ** Boundaries *)

Definition withBoundaries (l : list (list HalfEdge)) (g : Graph) : Graph :=
  {| vertexArena := vertexArena g; edgeArena := edgeArena g; faceArena := faceArena g;
     nextId := nextId g; vertices := vertices g; edges := edges g;
     shapeIds := shapeIds g; loops := loops g; boundaries := l;
     unboundedFace := unboundedFace g; faces := faces g |}.

(** The first loop of [extractFaces]: the two halves of every edge, in the
    order of the array of edges. *)
Definition halfEdgePool (g : Graph) : list HalfEdge :=
  flat_map (fun e => [forwardHalf e; reversedHalf e]) (edges g).

Section Boundaries.

(** What the half-edges and the boundaries compute is taken as given:
    [halfEdge.getNext()], the half-edge that follows around the face, and
    [boundary.signedArea]. *)
Variable getNext : HalfEdge -> option HalfEdge.
Variable signedArea : list HalfEdge -> number.

(** [while ( halfEdge ) { ... }] in [extractFaces]; [turns] bounds the
    turns of the loop. *)
Fixpoint walkBoundary (turns : nat) (startingHalfEdge halfEdge : HalfEdge)
    (halfEdges boundaryHalfEdges : list HalfEdge)
    : outcome (list HalfEdge * list HalfEdge) :=
  match turns with
  | 0 => Diverges
  | S turns' =>
      let halfEdges1 := arrayRemove halfEdges halfEdge in
      let boundaryHalfEdges1 := boundaryHalfEdges ++ [halfEdge] in
      match getNext halfEdge with
      | None => Done (halfEdges1, boundaryHalfEdges1)
      | Some next =>
          if decide (next = startingHalfEdge) then Done (halfEdges1, boundaryHalfEdges1)
          else walkBoundary turns' startingHalfEdge next halfEdges1 boundaryHalfEdges1
      end
  end.

(** The boundaries found so far: [innerBoundaries], [outerBoundaries] and
    [boundaries]. *)
Record Found := {
  innerBoundaries : list (list HalfEdge);
  outerBoundaries : list (list HalfEdge);
  allBoundaries : list (list HalfEdge)
}.

(** [( boundary.signedArea > 0 ? this.innerBoundaries : this.outerBoundaries
    ).push( boundary ); this.boundaries.push( boundary );] *)
Definition pushBoundary (boundary : list HalfEdge) (found : Found) : Found :=
  if ngt (signedArea boundary) zero
  then {| innerBoundaries := innerBoundaries found ++ [boundary];
          outerBoundaries := outerBoundaries found;
          allBoundaries := allBoundaries found ++ [boundary] |}
  else {| innerBoundaries := innerBoundaries found;
          outerBoundaries := outerBoundaries found ++ [boundary];
          allBoundaries := allBoundaries found ++ [boundary] |}.

(** [while ( halfEdges.length ) { ... }] in [extractFaces]. *)
Fixpoint collectBoundaries (turns : nat) (halfEdges : list HalfEdge) (found : Found)
    : outcome Found :=
  match halfEdges with
  | [] => Done found
  | halfEdge :: _ =>
      match turns with
      | 0 => Diverges
      | S turns' =>
          walked ← walkBoundary turns halfEdge halfEdge halfEdges [];
          collectBoundaries turns' (fst walked) (pushBoundary (snd walked) found)
      end
  end.

(** [Graph.extractFaces] up to the faces, which are made of the inner
    boundaries afterwards.  [inner] and [outer] are what
    [this.innerBoundaries] and [this.outerBoundaries] hold at the call,
    nothing in a graph that is new. *)
Definition extractBoundaries (turns : nat) (inner outer : list (list HalfEdge)) (g : Graph)
    : outcome (Found * Graph) :=
  found ← collectBoundaries turns (halfEdgePool g)
             {| innerBoundaries := inner; outerBoundaries := outer;
                allBoundaries := boundaries g |};
  Done (found, withBoundaries (allBoundaries found) g).

(** From [h] the half-edges of [l] follow one another, and [z] follows the
    last. *)
Fixpoint follows (h : HalfEdge) (l : list HalfEdge) (z : HalfEdge) : Prop :=
  match l with
  | [] => getNext h = Some z
  | x :: l' => getNext h = Some x /\ follows x l' z
  end.

(** The half-edges of the boundary follow one another, and the first
    follows the last. *)
Definition isCycle (boundary : list HalfEdge) : Prop :=
  match boundary with
  | [] => False
  | h :: l => follows h l h
  end.

End Boundaries.

(** Modelled from the spec: a boundary is its cycle of half-edges (section
    3), so that [boundary.hasHalfEdge( halfEdge )] is whether the half-edge
    is one of them.  [Graph.getBoundaryOfHalfEdge], with [None] for
    [throw new Error( 'Could not find boundary' )]. *)
Definition getBoundaryOfHalfEdge (g : Graph) (halfEdge : HalfEdge) : option (list HalfEdge) :=
  List.find (fun boundary => includes boundary halfEdge) (boundaries g).

(** The half-edges listed at [v] are those ending at [v], as a check that
    can be run. *)
Definition listsHalfEdgesEndingAtb (g : Graph) (v : nat) : bool :=
  bool_decide (is_Some (vertexArena g !! v)) &&
  bool_decide (NoDup (incidentOf g v)) &&
  forallb (fun h => bool_decide (edge h ∈ edges g) && bool_decide (halfEndVertex g h = v))
          (incidentOf g v) &&
  forallb (fun e =>
             (if decide (startVertex (edgeAt g e) = v)
              then bool_decide (reversedHalf e ∈ incidentOf g v) else true) &&
             (if decide (endVertex (edgeAt g e) = v)
              then bool_decide (forwardHalf e ∈ incidentOf g v) else true))
          (edges g).

Definition verticesListEndsb (g : Graph) : bool :=
  forallb (listsHalfEdgesEndingAtb g) (vertices g).

Module TrimExamples.
Import Examples.

(** The triangle with a spur: one more edge from vertex 2 out to a vertex
    of its own, which the loop runs along and back. *)
Definition spurGraph : Graph :=
  {| vertexArena :=
       <[ 1 := {| point := at_ 0 0;
                  incidentHalfEdges := [reversedHalf 4; forwardHalf 6] |} ]>
       (<[ 2 := {| point := at_ 1 0;
                   incidentHalfEdges := [forwardHalf 4; reversedHalf 5; reversedHalf 9] |} ]>
       (<[ 3 := {| point := at_ 0 1;
                   incidentHalfEdges := [forwardHalf 5; reversedHalf 6] |} ]>
       (<[ 8 := {| point := at_ 2 0; incidentHalfEdges := [forwardHalf 9] |} ]> ∅)));
     edgeArena :=
       <[ 4 := {| segment := Line (at_ 0 0) (at_ 1 0);
                  startVertex := 1; endVertex := 2;
                  forwardFace := None; reversedFace := None |} ]>
       (<[ 5 := {| segment := Line (at_ 1 0) (at_ 0 1);
                   startVertex := 2; endVertex := 3;
                   forwardFace := None; reversedFace := None |} ]>
       (<[ 6 := {| segment := Line (at_ 0 1) (at_ 0 0);
                   startVertex := 3; endVertex := 1;
                   forwardFace := None; reversedFace := None |} ]>
       (<[ 9 := {| segment := Line (at_ 1 0) (at_ 2 0);
                   startVertex := 2; endVertex := 8;
                   forwardFace := None; reversedFace := None |} ]> ∅)));
     faceArena := ∅;
     nextId := 10;
     vertices := [1; 2; 3; 8];
     edges := [4; 5; 6; 9];
     shapeIds := [0%Z];
     loops := [{| shapeId := 0%Z;
                  halfEdges := [forwardHalf 4; forwardHalf 9; reversedHalf 9;
                                forwardHalf 5; forwardHalf 6] |}];
     boundaries := [];
     unboundedFace := 0;
     faces := [] |}.

Definition spurGraphTrimmed : Graph :=
  match removeSingleEdgeVertices true 4 spurGraph with
  | Done g => g
  | _ => newGraph
  end.

End TrimExamples.

Module CubicExamples.
Import Examples.

(** A bow: a cubic from (0, 0) to (1, 0) whose control points lie across
    each other, and the line back. *)
Definition bowGraph : Graph :=
  {| vertexArena :=
       <[ 0 := {| point := at_ 0 0;
                  incidentHalfEdges := [reversedHalf 2; forwardHalf 3] |} ]>
       (<[ 1 := {| point := at_ 1 0;
                   incidentHalfEdges := [forwardHalf 2; reversedHalf 3] |} ]> ∅);
     edgeArena :=
       <[ 2 := {| segment := Cubic (at_ 0 0) (at_ 2 1) (at_ (-1) 1) (at_ 1 0);
                  startVertex := 0; endVertex := 1;
                  forwardFace := None; reversedFace := None |} ]>
       (<[ 3 := {| segment := Line (at_ 1 0) (at_ 0 0);
                   startVertex := 1; endVertex := 0;
                   forwardFace := None; reversedFace := None |} ]> ∅);
     faceArena := ∅;
     nextId := 4;
     vertices := [0; 1];
     edges := [2; 3];
     shapeIds := [0%Z];
     loops := [{| shapeId := 0%Z; halfEdges := [forwardHalf 2; forwardHalf 3] |}];
     boundaries := [];
     unboundedFace := 0;
     faces := [] |}.

(** Stand-ins for the two methods of the segments: every cubic is said to
    cross itself in one place, and the pieces are not cut to size. *)
Definition crossesOnce (s : Segment) : option Intersection.t :=
  Some {| Intersection.aT := 0.25; Intersection.bT := 0.75;
          Intersection.point := at_ 0.5 0.5 |}.

Definition uncut (s : Segment) (aT bT : number) : Segment * Segment * Segment := (s, s, s).

Definition bowGraphSplit : Graph :=
  match eliminateSelfIntersection true crossesOnce uncut bowGraph with
  | Done g => g
  | _ => newGraph
  end.

End CubicExamples.

Module FilledExamples.
Import Examples.

(** A square cut by its diagonal into two filled triangles, faces 10 and 11,
    with the unbounded face 0 around it. *)
Definition squareGraph : Graph :=
  {| vertexArena :=
       <[ 1 := {| point := at_ 0 0;
                  incidentHalfEdges := [reversedHalf 5; forwardHalf 8; reversedHalf 9] |} ]>
       (<[ 2 := {| point := at_ 1 0;
                   incidentHalfEdges := [forwardHalf 5; reversedHalf 6] |} ]>
       (<[ 3 := {| point := at_ 1 1;
                   incidentHalfEdges := [forwardHalf 6; reversedHalf 7; forwardHalf 9] |} ]>
       (<[ 4 := {| point := at_ 0 1;
                   incidentHalfEdges := [forwardHalf 7; reversedHalf 8] |} ]> ∅)));
     edgeArena :=
       <[ 5 := {| segment := Line (at_ 0 0) (at_ 1 0); startVertex := 1; endVertex := 2;
                  forwardFace := Some 10; reversedFace := Some 0 |} ]>
       (<[ 6 := {| segment := Line (at_ 1 0) (at_ 1 1); startVertex := 2; endVertex := 3;
                   forwardFace := Some 10; reversedFace := Some 0 |} ]>
       (<[ 7 := {| segment := Line (at_ 1 1) (at_ 0 1); startVertex := 3; endVertex := 4;
                   forwardFace := Some 11; reversedFace := Some 0 |} ]>
       (<[ 8 := {| segment := Line (at_ 0 1) (at_ 0 0); startVertex := 4; endVertex := 1;
                   forwardFace := Some 11; reversedFace := Some 0 |} ]>
       (<[ 9 := {| segment := Line (at_ 0 0) (at_ 1 1); startVertex := 1; endVertex := 3;
                   forwardFace := Some 11; reversedFace := Some 10 |} ]> ∅))));
     faceArena :=
       <[ 0 := {| windingMap := None; filled := Some false |} ]>
       (<[ 10 := {| windingMap := None; filled := Some true |} ]>
       (<[ 11 := {| windingMap := None; filled := Some true |} ]> ∅));
     nextId := 12;
     vertices := [1; 2; 3; 4];
     edges := [5; 9; 6; 7; 8];
     shapeIds := [0%Z];
     loops := [{| shapeId := 0%Z;
                  halfEdges := [forwardHalf 5; forwardHalf 6; reversedHalf 9] |};
               {| shapeId := 0%Z;
                  halfEdges := [forwardHalf 9; forwardHalf 7; forwardHalf 8] |}];
     boundaries := [];
     unboundedFace := 0;
     faces := [0; 10; 11] |}.

Definition squareOutline : Graph :=
  match filledSubGraphEdges true squareGraph with
  | Done (_, graph) => graph
  | _ => newGraph
  end.

End FilledExamples.

Module BoundaryExamples.
Import Examples.

(** Around the triangle: the forward halves one way around the inside, the
    reversed halves the other way around the outside. *)
Definition aroundTriangle (h : HalfEdge) : option HalfEdge :=
  match edge h, isReversed h with
  | 4, false => Some (forwardHalf 5)
  | 5, false => Some (forwardHalf 6)
  | 6, false => Some (forwardHalf 4)
  | 4, true => Some (reversedHalf 6)
  | 6, true => Some (reversedHalf 5)
  | 5, true => Some (reversedHalf 4)
  | _, _ => None
  end.

(** Half the unit square for the way around the inside, and as much below
    zero for the other way. *)
Definition triangleArea (boundary : list HalfEdge) : number :=
  match boundary with
  | h :: _ => if isReversed h then (-0.5)%float else 0.5%float
  | [] => zero
  end.

Definition triangleBoundaries : Found * Graph :=
  match extractBoundaries aroundTriangle triangleArea 6 [] [] triangleGraph with
  | Done result => result
  | _ => ({| innerBoundaries := []; outerBoundaries := []; allBoundaries := [] |}, newGraph)
  end.

End BoundaryExamples.

(** * Properties *)

(** ** The result monad *)

Lemma bind_Done {A B} (m : outcome A) (f : A -> outcome B) (b : B) :
  m ≫= f = Done b -> exists a, m = Done a /\ f a = Done b.
Proof. destruct m; simpl; intros H; try discriminate; eauto. Qed.

Lemma bind_of_Done {A B} (a : A) (f : A -> outcome B) : Done a ≫= f = f a.
Proof. reflexivity. Qed.

Lemma assertWhen_off (c : bool) (msg : string) : assertWhen false c msg = Done tt.
Proof. reflexivity. Qed.

Lemma assertWhen_Done (b c : bool) (msg : string) (u : unit) :
  assertWhen b c msg = Done u -> b = false \/ c = true.
Proof. unfold assertWhen. destruct b, c; simpl; intros; try discriminate; auto. Qed.

Lemma assertWhen_true (b : bool) (msg : string) : assertWhen b true msg = Done tt.
Proof. unfold assertWhen. destruct b; reflexivity. Qed.

(** Splits a hypothesis [m ≫= f = Done b] into the two calls. *)
Tactic Notation "inv_bind" hyp(H) "as" simple_intropattern(x) ident(H1) ident(H2) :=
  apply bind_Done in H; destruct H as (x & H1 & H2).

Lemma ofOption_Done {A} (o : option A) (a : A) : ofOption o = Done a -> o = Some a.
Proof. destruct o; simpl; congruence. Qed.

(** ** Ingestion of an empty subpath *)

(** C9. [addSubpath] on a subpath without segments returns; the shape id is
    in [shapeIds] afterwards, pushed behind the others when it was not there
    and nothing pushed when it was; the vertices, the edges, the loops and
    every object of the graph are as before. *)
Theorem addSubpath_no_segments (assertEnabled : bool) (id : Z) (subpath : Subpath) (g : Graph) :
  segments subpath = [] ->
  exists g',
    addSubpath assertEnabled id subpath g = Done g' /\
    id ∈ shapeIds g' /\
    (id ∈ shapeIds g -> shapeIds g' = shapeIds g) /\
    (id ∉ shapeIds g -> shapeIds g' = shapeIds g ++ [id]) /\
    vertices g' = vertices g /\ edges g' = edges g /\ loops g' = loops g /\
    vertexArena g' = vertexArena g /\ edgeArena g' = edgeArena g /\
    faceArena g' = faceArena g /\ faces g' = faces g /\ nextId g' = nextId g.
Proof.
  intros Hempty. unfold addSubpath. rewrite Hempty. simpl.
  unfold includes. destruct (bool_decide_reflect (id ∈ shapeIds g)) as [Hin | Hout].
  - exists g. repeat split; auto. intros; contradiction.
  - eexists. split; [reflexivity|]. simpl.
    repeat split; auto.
    + apply elem_of_app. right. apply list_elem_of_singleton. reflexivity.
    + intros; contradiction.
Qed.

Lemma addSubpath_no_segments_witness :
  segments Examples.emptyPath = [] /\
  exists g',
    addSubpath true 7 Examples.emptyPath newGraph = Done g' /\
    7%Z ∈ shapeIds g' /\
    (7%Z ∈ shapeIds newGraph -> shapeIds g' = shapeIds newGraph) /\
    (7%Z ∉ shapeIds newGraph -> shapeIds g' = shapeIds newGraph ++ [7%Z]) /\
    vertices g' = vertices newGraph /\ edges g' = edges newGraph /\
    loops g' = loops newGraph /\
    vertexArena g' = vertexArena newGraph /\ edgeArena g' = edgeArena newGraph /\
    faceArena g' = faceArena newGraph /\ faces g' = faces newGraph /\
    nextId g' = nextId newGraph.
Proof.
  split; [reflexivity|].
  apply (addSubpath_no_segments true 7 Examples.emptyPath newGraph).
  reflexivity.
Defined.

(** ** The closing segment *)

Lemma hasClosingSegment_points (subpath : Subpath) (first lastPoint : Vector2) :
  getFirstPoint subpath = Some first ->
  getLastPoint subpath = Some lastPoint ->
  hasClosingSegment subpath = Done (negb (equals first lastPoint)).
Proof. intros Hf Hl. unfold hasClosingSegment. rewrite Hf, Hl. reflexivity. Qed.

Lemma ingestedSegments_by_ends
    (assertEnabled : bool) (subpath : Subpath) (first lastPoint : Vector2) :
  getFirstPoint subpath = Some first ->
  getLastPoint subpath = Some lastPoint ->
  ingestedSegments assertEnabled subpath =
    Done (segments subpath ++ (if equals first lastPoint then [] else [Line lastPoint first])).
Proof.
  intros Hf Hl. unfold ingestedSegments.
  rewrite (hasClosingSegment_points _ _ _ Hf Hl). simpl.
  destruct (equals first lastPoint) eqn:Heq; simpl.
  - rewrite app_nil_r. reflexivity.
  - unfold getClosingSegment.
    rewrite (hasClosingSegment_points _ _ _ Hf Hl), Hf, Hl, Heq.
    destruct assertEnabled; reflexivity.
Qed.

(** ** Coordinates that are not finite *)

Lemma addSubpathVertices_returns (segs : list Segment) (indices : list nat) (g : Graph) :
  Forall (fun i => i < length segs) indices ->
  exists created g',
    addSubpathVertices false segs indices g = Done (created, g') /\
    length created = length indices.
Proof.
  intros Hall. revert g. induction Hall as [| index rest Hlt Hrest IH]; intros g.
  - exists [], g. split; reflexivity.
  - simpl.
    assert (Hprev : (if decide (index = 0) then length segs - 1 else index - 1) < length segs).
    { destruct (decide (index = 0)); lia. }
    destruct (lookup_lt_is_Some_2 segs _ Hprev) as [previous Hp].
    destruct (lookup_lt_is_Some_2 segs _ Hlt) as [current Hc].
    rewrite Hp, Hc. simpl.
    destruct (equals (seg_start current) (seg_end previous)); simpl.
    + destruct (IH (snd (createVertex (seg_start current) g))) as (created & g' & Hrun & Hlen).
      simpl in Hrun. rewrite Hrun. simpl.
      eexists _, _. split; [reflexivity|]. simpl. rewrite Hlen. reflexivity.
    + destruct (IH (snd (createVertex (average (seg_start current) (seg_end previous)) g)))
        as (created & g' & Hrun & Hlen).
      simpl in Hrun. rewrite Hrun. simpl.
      eexists _, _. split; [reflexivity|]. simpl. rewrite Hlen. reflexivity.
Qed.

Lemma addEdge_off (e : nat) (g : Graph) : exists g', addEdge false e g = Done g'.
Proof. unfold addEdge, assert. rewrite !assertWhen_off. simpl. eauto. Qed.

Lemma addSubpathEdges_returns (segs : list Segment) (created : list nat)
    (indices : list nat) (g : Graph) :
  length created = length segs ->
  Forall (fun i => i < length segs) indices ->
  exists hs g', addSubpathEdges false segs created indices g = Done (hs, g').
Proof.
  intros Hlen Hall. revert g. induction Hall as [| index rest Hlt Hrest IH]; intros g.
  - exists [], g. reflexivity.
  - simpl.
    assert (Hnext : (if decide (index + 1 = length segs) then 0 else index + 1) < length created).
    { destruct (decide (index + 1 = length segs)); lia. }
    destruct (lookup_lt_is_Some_2 segs _ Hlt) as [s Hs].
    assert (Hlt' : index < length created) by lia.
    destruct (lookup_lt_is_Some_2 created _ Hlt') as [a Ha].
    destruct (lookup_lt_is_Some_2 created _ Hnext) as [b Hb].
    rewrite Hs, Ha, Hb. simpl.
    match goal with
    | |- context [addSubpathEdges false segs created rest ?g2] =>
        destruct (IH g2) as (hs & g' & Hrun); rewrite Hrun
    end.
    simpl. eauto.
Qed.

Lemma seq_below (n : nat) : Forall (fun i => i < n) (seq 0 n).
Proof. apply Forall_forall. intros i Hi. apply elem_of_seq in Hi. lia. Qed.

(** With assertions off [addSubpath] returns for every subpath that has a
    point. *)
Lemma addSubpath_returns (id : Z) (subpath : Subpath) (g : Graph) :
  points subpath <> [] ->
  exists g', addSubpath false id subpath g = Done g'.
Proof.
  intros Hpoints. unfold addSubpath.
  set (g0 := if includes (shapeIds g) id then g else withShapeIds (shapeIds g ++ [id]) g).
  destruct (decide (length (segments subpath) = 0)) as [_ | _]; [eauto|].
  assert (exists first, getFirstPoint subpath = Some first) as [first Hf].
  { unfold getFirstPoint. destruct (points subpath); [contradiction | simpl; eauto]. }
  assert (exists lastPoint, getLastPoint subpath = Some lastPoint) as [lastPoint Hl].
  { unfold getLastPoint. destruct (last (points subpath)) eqn:E; eauto.
    apply last_None in E. contradiction. }
  rewrite (ingestedSegments_by_ends false subpath first lastPoint Hf Hl). simpl.
  set (segs := segments subpath ++ _).
  destruct (addSubpathVertices_returns segs (seq 0 (length segs)) g0 (seq_below _))
    as (created & g1 & Hv & Hlen).
  rewrite Hv. simpl. rewrite length_seq in Hlen.
  destruct (addSubpathEdges_returns segs created (seq 0 (length segs)) g1 Hlen (seq_below _))
    as (hs & g2 & He).
  rewrite He. simpl. eauto.
Qed.

(** ** Arrays *)

Section ArrayRemove.
Context {A : Type} `{EqDecision A}.
Implicit Types (l : list A) (x y : A).

Lemma arrayRemove_absent l y : y ∉ l -> arrayRemove l y = l.
Proof.
  induction l as [| x l IH]; simpl; intros Hy; [reflexivity|].
  destruct (decide (x = y)) as [-> | Hne].
  - exfalso. apply Hy. apply list_elem_of_here.
  - f_equal. apply IH. intros Hin. apply Hy. apply list_elem_of_further. exact Hin.
Qed.

Lemma elem_of_arrayRemove_weak l x y : x ∈ arrayRemove l y -> x ∈ l.
Proof.
  induction l as [| z l IH]; simpl; intros Hx; [exact Hx|].
  destruct (decide (z = y)).
  - apply list_elem_of_further. exact Hx.
  - apply elem_of_cons in Hx as [-> | Hx].
    + apply list_elem_of_here.
    + apply list_elem_of_further. auto.
Qed.

Lemma elem_of_arrayRemove_ne l x y : x <> y -> x ∈ l -> x ∈ arrayRemove l y.
Proof.
  intros Hne. induction l as [| z l IH]; simpl; intros Hx; [exact Hx|].
  apply elem_of_cons in Hx as [-> | Hx].
  - destruct (decide (z = y)); [contradiction | apply list_elem_of_here].
  - destruct (decide (z = y)); [exact Hx | apply list_elem_of_further; auto].
Qed.

Lemma elem_of_arrayRemove l x y :
  NoDup l -> x ∈ arrayRemove l y <-> x ∈ l /\ x <> y.
Proof.
  intros Hnd. split.
  - induction Hnd as [| z l Hz Hnd IH]; simpl; intros Hx.
    + inversion Hx.
    + destruct (decide (z = y)) as [-> | Hne].
      * split; [apply list_elem_of_further; exact Hx|]. intros ->. contradiction.
      * apply elem_of_cons in Hx as [-> | Hx].
        -- split; [apply list_elem_of_here | exact Hne].
        -- destruct (IH Hx). split; [apply list_elem_of_further|]; assumption.
  - intros [Hx Hne]. apply elem_of_arrayRemove_ne; assumption.
Qed.

Lemma NoDup_arrayRemove l y : NoDup l -> NoDup (arrayRemove l y).
Proof.
  induction 1 as [| z l Hz Hnd IH]; simpl; [constructor|].
  destruct (decide (z = y)); [exact Hnd|].
  constructor; [|exact IH].
  intros Hin. apply Hz. eapply elem_of_arrayRemove_weak. exact Hin.
Qed.

Lemma length_arrayRemove l y : y ∈ l -> S (length (arrayRemove l y)) = length l.
Proof.
  induction l as [| z l IH]; simpl; intros Hy; [inversion Hy|].
  destruct (decide (z = y)); [reflexivity|].
  apply elem_of_cons in Hy as [-> | Hy]; [contradiction|].
  simpl. f_equal. apply IH. exact Hy.
Qed.

End ArrayRemove.

Lemma NoDup_snoc_fresh {A} (l : list A) (x : A) : NoDup l -> x ∉ l -> NoDup (l ++ [x]).
Proof.
  intros Hnd Hx. apply NoDup_app. split; [exact Hnd|]. split.
  - intros y Hy Hin. apply list_elem_of_singleton in Hin. subst. contradiction.
  - apply NoDup_singleton.
Qed.

(** ** Reading the arena after a write *)

Lemma half_edge_cases (h : HalfEdge) : h = forwardHalf (edge h) \/ h = reversedHalf (edge h).
Proof. destruct h as [e []]; [right | left]; reflexivity. Qed.

Lemma forward_ne_reversed (e e' : nat) : forwardHalf e <> reversedHalf e'.
Proof. discriminate. Qed.

Lemma incidentOf_push_same (g : Graph) (v : nat) (h : HalfEdge) :
  is_Some (vertexArena g !! v) ->
  incidentOf (pushIncident v h g) v = incidentOf g v ++ [h].
Proof.
  intros [V HV]. unfold incidentOf, vertexAt, pushIncident. simpl.
  rewrite lookup_total_alter, decide_True by reflexivity.
  rewrite lookup_total_alt, HV. reflexivity.
Qed.

Lemma incidentOf_push_other (g : Graph) (v w : nat) (h : HalfEdge) :
  v <> w -> incidentOf (pushIncident v h g) w = incidentOf g w.
Proof.
  intros Hne. unfold incidentOf, vertexAt, pushIncident. simpl.
  rewrite lookup_total_alter_ne by exact Hne. reflexivity.
Qed.

Lemma incidentOf_remove_same (g : Graph) (v : nat) (h : HalfEdge) :
  incidentOf (removeIncident v h g) v = arrayRemove (incidentOf g v) h.
Proof.
  unfold incidentOf, vertexAt, removeIncident. simpl.
  rewrite lookup_total_alter, decide_True by reflexivity.
  rewrite lookup_total_alt.
  destruct (vertexArena g !! v); reflexivity.
Qed.

Lemma incidentOf_remove_other (g : Graph) (v w : nat) (h : HalfEdge) :
  v <> w -> incidentOf (removeIncident v h g) w = incidentOf g w.
Proof.
  intros Hne. unfold incidentOf, vertexAt, removeIncident. simpl.
  rewrite lookup_total_alter_ne by exact Hne. reflexivity.
Qed.

Lemma is_Some_alter_vertex (f : Vertex -> Vertex) (m : gmap nat Vertex) (v w : nat) :
  is_Some (alter f v m !! w) <-> is_Some (m !! w).
Proof.
  rewrite lookup_alter. destruct (decide (v = w)) as [-> | _]; [|reflexivity].
  rewrite fmap_is_Some. reflexivity.
Qed.

(** ** The half-edges a vertex lists

    [addEdge] pushes the reversed half on the start vertex and the forward
    half on the end vertex: a vertex lists the half-edges that arrive. *)

Lemma halfEndVertex_frame (g g' : Graph) (h : HalfEdge) :
  edgeAt g' (edge h) = edgeAt g (edge h) -> halfEndVertex g' h = halfEndVertex g h.
Proof. unfold halfEndVertex. intros ->. reflexivity. Qed.

Lemma halfEndVertex_forward (g : Graph) (e : nat) :
  halfEndVertex g (forwardHalf e) = endVertex (edgeAt g e).
Proof. reflexivity. Qed.

Lemma halfEndVertex_reversed (g : Graph) (e : nat) :
  halfEndVertex g (reversedHalf e) = startVertex (edgeAt g e).
Proof. reflexivity. Qed.

Lemma addEdge_Done (b : bool) (e : nat) (g g' : Graph) :
  addEdge b e g = Done g' ->
  g' = pushIncident (endVertex (edgeAt g e)) (forwardHalf e)
         (pushIncident (startVertex (edgeAt g e)) (reversedHalf e)
            (withEdges (edges g ++ [e]) g)).
Proof.
  unfold addEdge. intros H. inv_bind H as u1 H1 H. inv_bind H as u2 H2 H. congruence.
Qed.

(** The half-edges [addEdge] pushes on the list of [v]. *)
Definition pushedAt (g : Graph) (e v : nat) : list HalfEdge :=
  (if decide (startVertex (edgeAt g e) = v) then [reversedHalf e] else []) ++
  (if decide (endVertex (edgeAt g e) = v) then [forwardHalf e] else []).

Lemma elem_of_pushedAt (g : Graph) (e v : nat) (h : HalfEdge) :
  h ∈ pushedAt g e v <-> edge h = e /\ halfEndVertex g h = v.
Proof.
  unfold pushedAt. rewrite elem_of_app. split.
  - intros [Hin | Hin].
    + destruct (decide (startVertex (edgeAt g e) = v)); [|inversion Hin].
      apply list_elem_of_singleton in Hin. subst h. split; [reflexivity | assumption].
    + destruct (decide (endVertex (edgeAt g e) = v)); [|inversion Hin].
      apply list_elem_of_singleton in Hin. subst h. split; [reflexivity | assumption].
  - intros [He Hv]. destruct (half_edge_cases h) as [Hh | Hh]; rewrite He in Hh; subst h.
    + right. rewrite halfEndVertex_forward in Hv.
      rewrite decide_True by exact Hv. apply list_elem_of_here.
    + left. rewrite halfEndVertex_reversed in Hv.
      rewrite decide_True by exact Hv. apply list_elem_of_here.
Qed.

Lemma NoDup_pushedAt (g : Graph) (e v : nat) : NoDup (pushedAt g e v).
Proof.
  unfold pushedAt.
  destruct (decide (startVertex (edgeAt g e) = v)), (decide (endVertex (edgeAt g e) = v));
    simpl; repeat constructor; try (intros Hin; inversion Hin; fail).
  intros Hin. apply list_elem_of_singleton in Hin. discriminate.
Qed.

Lemma incidentOf_addEdge (g : Graph) (e v : nat) :
  is_Some (vertexArena g !! v) ->
  incidentOf
    (pushIncident (endVertex (edgeAt g e)) (forwardHalf e)
       (pushIncident (startVertex (edgeAt g e)) (reversedHalf e)
          (withEdges (edges g ++ [e]) g))) v
  = incidentOf g v ++ pushedAt g e v.
Proof.
  intros Hv. unfold pushedAt.
  set (g1 := withEdges (edges g ++ [e]) g).
  set (g2 := pushIncident (startVertex (edgeAt g e)) (reversedHalf e) g1).
  assert (H1 : incidentOf g2 v = incidentOf g v ++
                 (if decide (startVertex (edgeAt g e) = v) then [reversedHalf e] else [])).
  { destruct (decide (startVertex (edgeAt g e) = v)) as [Heq | Hne].
    - subst g2. rewrite Heq. rewrite incidentOf_push_same by exact Hv. reflexivity.
    - subst g2. rewrite incidentOf_push_other by exact Hne. rewrite app_nil_r. reflexivity. }
  destruct (decide (endVertex (edgeAt g e) = v)) as [Heq | Hne].
  - rewrite Heq. rewrite incidentOf_push_same.
    + rewrite H1, <- app_assoc. reflexivity.
    + subst g2 g1. unfold pushIncident. simpl. apply is_Some_alter_vertex. exact Hv.
  - rewrite incidentOf_push_other by exact Hne. rewrite H1, app_nil_r. reflexivity.
Qed.

Lemma ends_addEdge (b : bool) (e v : nat) (g g' : Graph) :
  e ∉ edges g ->
  listsHalfEdgesEndingAt g v ->
  addEdge b e g = Done g' ->
  listsHalfEdgesEndingAt g' v.
Proof.
  intros Hfresh (Hv & Hnd & Hiff) Hrun. apply addEdge_Done in Hrun. subst g'.
  unfold listsHalfEdgesEndingAt. rewrite incidentOf_addEdge by exact Hv.
  split; [|split].
  - unfold pushIncident; simpl. apply is_Some_alter_vertex, is_Some_alter_vertex. exact Hv.
  - apply NoDup_app. split; [exact Hnd|]. split; [|apply NoDup_pushedAt].
    intros h Hin Hpushed. apply Hiff in Hin as [Hin _].
    apply elem_of_pushedAt in Hpushed as [He _]. subst e. contradiction.
  - intros h. rewrite elem_of_app, Hiff, elem_of_pushedAt.
    match goal with
    | |- _ <-> _ /\ halfEndVertex ?g0 h = v =>
        change (halfEndVertex g0 h) with (halfEndVertex g h);
        change (edges g0) with (edges g ++ [e])
    end.
    rewrite elem_of_app, list_elem_of_singleton. tauto.
Qed.

Lemma incidentOf_removeEdge (g : Graph) (e v : nat) :
  incidentOf (removeEdge e g) v =
    (if decide (endVertex (edgeAt g e) = v)
     then fun l => arrayRemove l (forwardHalf e) else fun l => l)
      ((if decide (startVertex (edgeAt g e) = v)
        then fun l => arrayRemove l (reversedHalf e) else fun l => l)
         (incidentOf g v)).
Proof.
  unfold removeEdge.
  set (g1 := withEdges (arrayRemove (edges g) e) g).
  set (g2 := removeIncident (startVertex (edgeAt g e)) (reversedHalf e) g1).
  assert (H1 : incidentOf g2 v =
                 (if decide (startVertex (edgeAt g e) = v)
                  then fun l => arrayRemove l (reversedHalf e) else fun l => l)
                   (incidentOf g v)).
  { subst g2. destruct (decide (startVertex (edgeAt g e) = v)) as [Heq | Hne].
    - rewrite Heq, incidentOf_remove_same. reflexivity.
    - rewrite incidentOf_remove_other by exact Hne. reflexivity. }
  destruct (decide (endVertex (edgeAt g e) = v)) as [Heq | Hne].
  - rewrite Heq, incidentOf_remove_same, H1. reflexivity.
  - rewrite incidentOf_remove_other by exact Hne. exact H1.
Qed.

Lemma ends_removeEdge (e v : nat) (g : Graph) :
  NoDup (edges g) ->
  listsHalfEdgesEndingAt g v ->
  listsHalfEdgesEndingAt (removeEdge e g) v.
Proof.
  intros Hedges (Hv & Hnd & Hiff).
  unfold listsHalfEdgesEndingAt. rewrite incidentOf_removeEdge.
  assert (Hnd1 : NoDup ((if decide (startVertex (edgeAt g e) = v)
                         then fun l => arrayRemove l (reversedHalf e) else fun l => l)
                          (incidentOf g v))).
  { destruct (decide (startVertex (edgeAt g e) = v)); [apply NoDup_arrayRemove|]; exact Hnd. }
  split; [|split].
  - unfold removeEdge, removeIncident; simpl.
    apply is_Some_alter_vertex, is_Some_alter_vertex. exact Hv.
  - destruct (decide (endVertex (edgeAt g e) = v)); [apply NoDup_arrayRemove|]; exact Hnd1.
  - intros h.
    change (edges (removeEdge e g)) with (arrayRemove (edges g) e).
    change (halfEndVertex (removeEdge e g) h) with (halfEndVertex g h).
    rewrite (elem_of_arrayRemove _ _ _ Hedges).
    assert (Hinner : h ∈ (if decide (startVertex (edgeAt g e) = v)
                          then fun l => arrayRemove l (reversedHalf e) else fun l => l)
                           (incidentOf g v)
                     <-> h ∈ incidentOf g v /\
                         ~ (startVertex (edgeAt g e) = v /\ h = reversedHalf e)).
    { destruct (decide (startVertex (edgeAt g e) = v)) as [Heq | Hne].
      - rewrite (elem_of_arrayRemove _ _ _ Hnd). tauto.
      - tauto. }
    assert (Houter : h ∈ (if decide (endVertex (edgeAt g e) = v)
                          then fun l => arrayRemove l (forwardHalf e) else fun l => l)
                           ((if decide (startVertex (edgeAt g e) = v)
                             then fun l => arrayRemove l (reversedHalf e) else fun l => l)
                              (incidentOf g v))
                     <-> (h ∈ incidentOf g v /\
                          ~ (startVertex (edgeAt g e) = v /\ h = reversedHalf e)) /\
                         ~ (endVertex (edgeAt g e) = v /\ h = forwardHalf e)).
    { destruct (decide (endVertex (edgeAt g e) = v)) as [Heq | Hne].
      - rewrite (elem_of_arrayRemove _ _ _ Hnd1), Hinner. tauto.
      - rewrite Hinner. tauto. }
    rewrite Houter, Hiff. split.
    + intros [[[Hin Hend] Hrev] Hfwd]. repeat split; try assumption.
      intros He. destruct (half_edge_cases h) as [Hh | Hh]; rewrite He in Hh.
      * apply Hfwd. split; [|exact Hh]. rewrite Hh in Hend. exact Hend.
      * apply Hrev. split; [|exact Hh]. rewrite Hh in Hend. exact Hend.
    + intros [[Hin Hne] Hend]. repeat split; try assumption.
      * intros [_ ->]. apply Hne. reflexivity.
      * intros [_ ->]. apply Hne. reflexivity.
Qed.

Lemma ends_createVertex_other (p : Vector2) (g : Graph) (v : nat) :
  v <> nextId g ->
  listsHalfEdgesEndingAt g v ->
  listsHalfEdgesEndingAt (snd (createVertex p g)) v.
Proof.
  intros Hne (Hv & Hnd & Hiff).
  assert (Hinc : incidentOf (snd (createVertex p g)) v = incidentOf g v).
  { unfold incidentOf, vertexAt, createVertex. simpl.
    rewrite lookup_total_insert_ne by congruence. reflexivity. }
  unfold listsHalfEdgesEndingAt. rewrite Hinc. split; [|split].
  - unfold createVertex; simpl. rewrite lookup_insert_ne by congruence. exact Hv.
  - exact Hnd.
  - exact Hiff.
Qed.

Lemma ends_createVertex_new (p : Vector2) (g : Graph) :
  (forall e, e ∈ edges g ->
     startVertex (edgeAt g e) <> nextId g /\ endVertex (edgeAt g e) <> nextId g) ->
  listsHalfEdgesEndingAt (snd (createVertex p g)) (nextId g).
Proof.
  intros Hfresh.
  assert (Hinc : incidentOf (snd (createVertex p g)) (nextId g) = []).
  { unfold incidentOf, vertexAt, createVertex. simpl.
    rewrite lookup_total_insert_eq. reflexivity. }
  unfold listsHalfEdgesEndingAt. rewrite Hinc. split; [|split].
  - unfold createVertex; simpl. rewrite lookup_insert_eq. eauto.
  - constructor.
  - intros h. split; [intros Hin; inversion Hin|].
    change (edges (snd (createVertex p g))) with (edges g).
    change (halfEndVertex (snd (createVertex p g)) h) with (halfEndVertex g h).
    intros [Hin Hend]. exfalso. destruct (Hfresh _ Hin) as [Hs He].
    unfold halfEndVertex in Hend. destruct (isReversed h); congruence.
Qed.

Lemma edgeAt_createEdge_other (s : Segment) (a b : nat) (g : Graph) (e : nat) :
  e <> nextId g -> edgeAt (snd (createEdge s a b g)) e = edgeAt g e.
Proof.
  intros Hne. unfold edgeAt, createEdge. simpl.
  rewrite lookup_total_insert_ne by congruence. reflexivity.
Qed.

Lemma edgeAt_createEdge_new (s : Segment) (a b : nat) (g : Graph) :
  edgeAt (snd (createEdge s a b g)) (nextId g) =
    {| segment := s; startVertex := a; endVertex := b;
       forwardFace := None; reversedFace := None |}.
Proof. unfold edgeAt, createEdge. simpl. apply lookup_total_insert_eq. Qed.

Lemma ends_createEdge (s : Segment) (a b : nat) (g : Graph) (v : nat) :
  nextId g ∉ edges g ->
  listsHalfEdgesEndingAt g v ->
  listsHalfEdgesEndingAt (snd (createEdge s a b g)) v.
Proof.
  intros Hfresh (Hv & Hnd & Hiff).
  unfold listsHalfEdgesEndingAt.
  change (incidentOf (snd (createEdge s a b g)) v) with (incidentOf g v).
  split; [exact Hv|]. split; [exact Hnd|].
  intros h. rewrite Hiff.
  change (edges (snd (createEdge s a b g))) with (edges g).
  split; intros [Hin Hend]; (split; [exact Hin|]).
  - rewrite <- Hend. apply halfEndVertex_frame, edgeAt_createEdge_other.
    intros Heq. rewrite Heq in Hin. contradiction.
  - rewrite <- Hend. symmetry. apply halfEndVertex_frame, edgeAt_createEdge_other.
    intros Heq. rewrite Heq in Hin. contradiction.
Qed.

(** ** Ids stay fresh *)

Lemma wf_createVertex (p : Vector2) (g : Graph) :
  wellFormed g -> wellFormed (snd (createVertex p g)).
Proof.
  intros [H1 H2 H3 H4 H5 H6]. unfold createVertex. constructor; simpl; auto.
  - intros v Hv. specialize (H3 v Hv). lia.
  - intros e He. specialize (H4 e He). lia.
  - intros e He. destruct (H6 e He).
    match goal with |- startVertex (edgeAt ?g0 e) < _ /\ _ =>
      change (edgeAt g0 e) with (edgeAt g e) end.
    lia.
Qed.

Lemma wf_createEdge (s : Segment) (a b : nat) (g : Graph) :
  wellFormed g -> wellFormed (snd (createEdge s a b g)).
Proof.
  intros [H1 H2 H3 H4 H5 H6]. constructor; simpl; auto.
  - intros v Hv. specialize (H3 v Hv). lia.
  - intros e He. specialize (H4 e He). lia.
  - intros e He. specialize (H4 e He). rewrite lookup_insert_ne by lia. auto.
  - intros e He. specialize (H4 e He).
    pose proof (edgeAt_createEdge_other s a b g e ltac:(lia)) as Hsame.
    unfold createEdge in Hsame; simpl in Hsame. rewrite Hsame.
    destruct (H6 e He). lia.
Qed.

Lemma wf_addEdge (b : bool) (e : nat) (g g' : Graph) :
  wellFormed g ->
  e ∉ edges g -> e < nextId g -> is_Some (edgeArena g !! e) ->
  startVertex (edgeAt g e) < nextId g -> endVertex (edgeAt g e) < nextId g ->
  addEdge b e g = Done g' ->
  wellFormed g'.
Proof.
  intros [H1 H2 H3 H4 H5 H6] Hfresh Hmade Hobj Hs He Hrun.
  apply addEdge_Done in Hrun. subst g'. constructor; simpl; auto.
  - apply NoDup_snoc_fresh; assumption.
  - intros x Hx. apply elem_of_app in Hx as [Hx | Hx]; [auto|].
    apply list_elem_of_singleton in Hx. subst. exact Hmade.
  - intros x Hx. apply elem_of_app in Hx as [Hx | Hx]; [auto|].
    apply list_elem_of_singleton in Hx. subst. exact Hobj.
  - intros x Hx.
    match goal with |- startVertex (edgeAt ?g0 x) < _ /\ _ =>
      change (edgeAt g0 x) with (edgeAt g x) end.
    apply elem_of_app in Hx as [Hx | Hx]; [auto|].
    apply list_elem_of_singleton in Hx. subst. split; assumption.
Qed.

Lemma wf_removeEdge (e : nat) (g : Graph) : wellFormed g -> wellFormed (removeEdge e g).
Proof.
  intros [H1 H2 H3 H4 H5 H6]. constructor; simpl; auto.
  - apply NoDup_arrayRemove. exact H1.
  - intros x Hx. apply H4. eapply elem_of_arrayRemove_weak. exact Hx.
  - intros x Hx. apply H5. eapply elem_of_arrayRemove_weak. exact Hx.
  - intros x Hx.
    change (edgeAt (removeEdge e g) x) with (edgeAt g x).
    apply H6. eapply elem_of_arrayRemove_weak. exact Hx.
Qed.

Lemma wf_replaceEdgeInLoops (e : nat) (hs : list HalfEdge) (g : Graph) :
  wellFormed g -> wellFormed (replaceEdgeInLoops e hs g).
Proof. intros [H1 H2 H3 H4 H5 H6]. constructor; simpl; auto. Qed.

Lemma wf_withLoops (l : list Loop) (g : Graph) : wellFormed g -> wellFormed (withLoops l g).
Proof. intros [H1 H2 H3 H4 H5 H6]. constructor; simpl; auto. Qed.

Lemma wf_withShapeIds (l : list Z) (g : Graph) :
  wellFormed g -> wellFormed (withShapeIds l g).
Proof. intros [H1 H2 H3 H4 H5 H6]. constructor; simpl; auto. Qed.

Lemma wf_withVertices (l : list nat) (g : Graph) :
  wellFormed g -> NoDup l -> (forall v, v ∈ l -> v < nextId g) ->
  wellFormed (withVertices l g).
Proof. intros [H1 H2 H3 H4 H5 H6] Hnd Hmade. constructor; simpl; auto. Qed.

Lemma wf_newGraph : wellFormed newGraph.
Proof.
  constructor; simpl; try apply NoDup_nil_2; intros x Hx; inversion Hx.
Qed.

(** A new vertex pushed on the array of vertices. *)
Lemma wf_pushVertex (p : Vector2) (g : Graph) :
  wellFormed g ->
  wellFormed (withVertices (vertices g ++ [nextId g]) (snd (createVertex p g))).
Proof.
  intros Hwf. apply wf_withVertices.
  - apply wf_createVertex. exact Hwf.
  - apply NoDup_snoc_fresh; [apply Hwf|].
    intros Hin. apply (wf_vertices_made _ Hwf) in Hin. lia.
  - simpl. intros v Hv. apply elem_of_app in Hv as [Hv | Hv].
    + apply (wf_vertices_made _ Hwf) in Hv. lia.
    + apply list_elem_of_singleton in Hv. subst. lia.
Qed.

Lemma ends_fresh_vertex (g : Graph) :
  wellFormed g ->
  forall e, e ∈ edges g ->
    startVertex (edgeAt g e) <> nextId g /\ endVertex (edgeAt g e) <> nextId g.
Proof. intros Hwf e He. destruct (wf_ends_made _ Hwf e He). lia. Qed.

Lemma fresh_edge (g : Graph) : wellFormed g -> nextId g ∉ edges g.
Proof. intros Hwf Hin. apply (wf_edges_made _ Hwf) in Hin. lia. Qed.

(** An edge made and connected at once. *)
Lemma createEdge_addEdge (b : bool) (s : Segment) (x y : nat) (g g' : Graph) :
  wellFormed g -> x < nextId g -> y < nextId g ->
  addEdge b (nextId g) (snd (createEdge s x y g)) = Done g' ->
  wellFormed g' /\
  (forall v, listsHalfEdgesEndingAt g v -> listsHalfEdgesEndingAt g' v) /\
  vertices g' = vertices g /\ loops g' = loops g /\ shapeIds g' = shapeIds g /\
  nextId g' = S (nextId g) /\ edges g' = edges g ++ [nextId g].
Proof.
  intros Hwf Hx Hy Hrun.
  pose proof (fresh_edge g Hwf) as Hfresh.
  split; [|split].
  - eapply wf_addEdge; [apply wf_createEdge; exact Hwf | exact Hfresh | simpl; lia | | | | exact Hrun].
    + simpl. rewrite lookup_insert_eq. eauto.
    + rewrite edgeAt_createEdge_new. simpl. lia.
    + rewrite edgeAt_createEdge_new. simpl. lia.
  - intros v Hv.
    apply (ends_addEdge b (nextId g) v (snd (createEdge s x y g)) g');
      [exact Hfresh | apply ends_createEdge; assumption | exact Hrun].
  - apply addEdge_Done in Hrun. subst g'. simpl. auto.
Qed.

(** ** Ingestion keeps the lists of the vertices *)

(** Splits the conjunctions of the goal, and nothing else. *)
Ltac splits := repeat match goal with |- _ /\ _ => split end.

Lemma addSubpathVertices_sound (b : bool) (segs : list Segment) (indices : list nat) :
  forall (g : Graph) (known : list nat) (created : list nat) (g1 : Graph),
  wellFormed g ->
  (forall v, v ∈ known -> v < nextId g) ->
  (forall v, v ∈ known -> listsHalfEdgesEndingAt g v) ->
  addSubpathVertices b segs indices g = Done (created, g1) ->
  wellFormed g1 /\ vertices g1 = vertices g /\ loops g1 = loops g /\
  shapeIds g1 = shapeIds g /\ edges g1 = edges g /\
  nextId g <= nextId g1 /\ NoDup created /\
  (forall v, v ∈ created -> nextId g <= v < nextId g1) /\
  (forall v, v ∈ known \/ v ∈ created -> listsHalfEdgesEndingAt g1 v).
Proof.
  induction indices as [| index rest IH]; intros g known created g1 Hwf Hmade Hends Hrun.
  - simpl in Hrun. injection Hrun as <- <-.
    splits; auto; try apply NoDup_nil_2.
    + intros v Hv. inversion Hv.
    + intros v [Hv | Hv]; [auto | inversion Hv].
  - simpl in Hrun.
    inv_bind Hrun as previous Hprevious Hrun.
    inv_bind Hrun as current Hcurrent Hrun.
    inv_bind Hrun as [vertex g'] Hvertex Hrun.
    assert (Hmake : exists p, (vertex, g') = createVertex p g).
    { destruct (equals (seg_start current) (seg_end previous)).
      - injection Hvertex as <- <-. eexists. reflexivity.
      - inv_bind Hvertex as u Hu Hvertex. injection Hvertex as <- <-. eexists. reflexivity. }
    destruct Hmake as [p Hmake].
    assert (Hid : vertex = nextId g) by (unfold createVertex in Hmake; congruence).
    assert (Hg' : g' = snd (createVertex p g)) by (rewrite <- Hmake; reflexivity).
    inv_bind Hrun as [created' g2] Hrest Hrun. injection Hrun as <- <-.
    specialize (IH g' (nextId g :: known) created' g2).
    destruct IH as (Hwf2 & Hvs & Hls & Hids & Hes & Hle & Hnd & Hrange & Hends2).
    + rewrite Hg'. apply wf_createVertex. exact Hwf.
    + rewrite Hg'. simpl. intros v Hv. apply elem_of_cons in Hv as [-> | Hv]; [lia|].
      specialize (Hmade v Hv). lia.
    + rewrite Hg'. intros v Hv. apply elem_of_cons in Hv as [-> | Hv].
      * apply ends_createVertex_new. apply ends_fresh_vertex. exact Hwf.
      * apply ends_createVertex_other; [|auto]. specialize (Hmade v Hv). lia.
    + exact Hrest.
    + assert (Hnext : nextId g' = S (nextId g)) by (rewrite Hg'; reflexivity).
      rewrite Hg' in Hvs, Hls, Hids, Hes. simpl in Hvs, Hls, Hids, Hes.
      splits; auto; try lia.
      * subst vertex. constructor; [|exact Hnd].
        intros Hin. apply Hrange in Hin. lia.
      * intros v Hv. apply elem_of_cons in Hv as [-> | Hin]; [lia|].
        apply Hrange in Hin. lia.
      * intros v [Hv | Hv].
        -- apply Hends2. left. apply list_elem_of_further. exact Hv.
        -- subst vertex. apply elem_of_cons in Hv as [-> | Hv].
           ++ apply Hends2. left. apply list_elem_of_here.
           ++ apply Hends2. right. exact Hv.
Qed.

Lemma addSubpathEdges_sound (b : bool) (segs : list Segment) (created : list nat)
    (indices : list nat) :
  forall (g : Graph) (hs : list HalfEdge) (g2 : Graph),
  wellFormed g ->
  (forall v, v ∈ created -> v < nextId g) ->
  addSubpathEdges b segs created indices g = Done (hs, g2) ->
  wellFormed g2 /\ vertices g2 = vertices g /\ shapeIds g2 = shapeIds g /\
  nextId g <= nextId g2 /\
  (forall v, listsHalfEdgesEndingAt g v -> listsHalfEdgesEndingAt g2 v).
Proof.
  induction indices as [| index rest IH]; intros g hs g2 Hwf Hmade Hrun.
  - simpl in Hrun. injection Hrun as <- <-. splits; auto.
  - simpl in Hrun.
    inv_bind Hrun as s Hs Hrun.
    inv_bind Hrun as x Hx Hrun.
    inv_bind Hrun as y Hy Hrun.
    unfold createEdge in Hrun. cbv zeta in Hrun.
    inv_bind Hrun as g1 Hadd Hrun.
    inv_bind Hrun as [hs' g3] Hrest Hrun. injection Hrun as <- <-.
    apply ofOption_Done in Hx, Hy.
    assert (Hxin : x ∈ created) by (apply list_elem_of_lookup; eauto).
    assert (Hyin : y ∈ created) by (apply list_elem_of_lookup; eauto).
    destruct (createEdge_addEdge b s x y g g1 Hwf (Hmade _ Hxin) (Hmade _ Hyin) Hadd)
      as (Hwf2 & Hends & Hvs & Hls & Hids & Hnext & Hes).
    destruct (IH g1 hs' g3 Hwf2) as (Hwf3 & Hvs3 & Hids3 & Hle & Hends3).
    + intros v Hv. specialize (Hmade v Hv). lia.
    + exact Hrest.
    + splits; auto; try congruence; try lia.
Qed.

Lemma ends_withShapeIds (l : list Z) (g : Graph) (v : nat) :
  listsHalfEdgesEndingAt (withShapeIds l g) v <-> listsHalfEdgesEndingAt g v.
Proof. reflexivity. Qed.

(** [addSubpath] keeps a graph well formed and its vertices listing the
    half-edges that end at them. *)
Lemma addSubpath_sound (b : bool) (id : Z) (subpath : Subpath) (g g' : Graph) :
  wellFormed g ->
  (forall v, v ∈ vertices g -> listsHalfEdgesEndingAt g v) ->
  addSubpath b id subpath g = Done g' ->
  wellFormed g' /\ (forall v, v ∈ vertices g' -> listsHalfEdgesEndingAt g' v).
Proof.
  intros Hwf Hends Hrun. unfold addSubpath in Hrun.
  set (g0 := if includes (shapeIds g) id then g else withShapeIds (shapeIds g ++ [id]) g) in Hrun.
  assert (Hwf0 : wellFormed g0).
  { subst g0. destruct (includes (shapeIds g) id); [exact Hwf | apply wf_withShapeIds; exact Hwf]. }
  assert (Hvs0 : vertices g0 = vertices g).
  { subst g0. destruct (includes (shapeIds g) id); reflexivity. }
  assert (Hends0 : forall v, v ∈ vertices g0 -> listsHalfEdgesEndingAt g0 v).
  { rewrite Hvs0. intros v Hv. subst g0.
    destruct (includes (shapeIds g) id); [auto | apply ends_withShapeIds; auto]. }
  clearbody g0.
  destruct (decide (length (segments subpath) = 0)).
  - injection Hrun as <-. split; assumption.
  - inv_bind Hrun as segs Hsegs Hrun.
    inv_bind Hrun as [created g1] Hcreated Hrun.
    inv_bind Hrun as [hs g2] Hadded Hrun. injection Hrun as <-.
    destruct (addSubpathVertices_sound b segs _ g0 (vertices g0) created g1 Hwf0
                (wf_vertices_made _ Hwf0) Hends0 Hcreated)
      as (Hwf1 & Hvs1 & Hls1 & Hids1 & Hes1 & Hle1 & Hnd1 & Hrange1 & Hends1).
    assert (Hcreated_made : forall v, v ∈ created -> v < nextId g1).
    { intros v Hv. apply Hrange1 in Hv. lia. }
    destruct (addSubpathEdges_sound b segs created _ g1 hs g2 Hwf1 Hcreated_made Hadded) as
      (Hwf2 & Hvs2 & Hids2 & Hle2 & Hends2).
    split.
    + apply wf_withVertices; [apply wf_withLoops; exact Hwf2 | |].
      * rewrite Hvs2, Hvs1. apply NoDup_app. split; [apply Hwf0|]. split; [|exact Hnd1].
        intros v Hv Hin. apply (wf_vertices_made _ Hwf0) in Hv. apply Hrange1 in Hin. lia.
      * simpl. rewrite Hvs2, Hvs1. intros v Hv. apply elem_of_app in Hv as [Hv | Hv].
        -- apply (wf_vertices_made _ Hwf0) in Hv. lia.
        -- apply Hrange1 in Hv. lia.
    + simpl. rewrite Hvs2, Hvs1. intros v Hv.
      apply elem_of_app in Hv.
      change (listsHalfEdgesEndingAt g2 v). apply Hends2, Hends1. exact Hv.
Qed.

(** ** Splitting one edge *)

(** What [splitEdge] leaves: the two new edges carry the ids [nextId g] and
    [S (nextId g)], they take the place of the old edge at the end of the
    array of edges, and they meet at the vertex handed in. *)
Lemma splitEdge_sound (b : bool) (e : nat) (t : number) (vertex : nat) (g g' : Graph)
    (subdividedCurve : Segment -> number -> Segment * Segment) :
  wellFormed g -> e ∈ edges g -> vertex < nextId g ->
  splitEdge b subdividedCurve e t vertex g = Done g' ->
  wellFormed g' /\
  (forall v, listsHalfEdgesEndingAt g v -> listsHalfEdgesEndingAt g' v) /\
  vertices g' = vertices g /\
  nextId g' = S (S (nextId g)) /\
  edges g' = arrayRemove (edges g) e ++ [nextId g; S (nextId g)] /\
  edgeAt g' (nextId g) =
    {| segment := fst (subdivided subdividedCurve (segment (edgeAt g e)) t);
       startVertex := startVertex (edgeAt g e); endVertex := vertex;
       forwardFace := None; reversedFace := None |} /\
  edgeAt g' (S (nextId g)) =
    {| segment := snd (subdivided subdividedCurve (segment (edgeAt g e)) t);
       startVertex := vertex; endVertex := endVertex (edgeAt g e);
       forwardFace := None; reversedFace := None |} /\
  (forall x, x < nextId g -> edgeAt g' x = edgeAt g x) /\
  loops g' = loops (replaceEdgeInLoops e [forwardHalf (nextId g); forwardHalf (S (nextId g))] g).
Proof.
  intros Hwf He Hvertex Hrun. unfold splitEdge in Hrun.
  inv_bind Hrun as u Hu Hrun. clear Hu u.
  set (E := edgeAt g e) in *.
  set (pieces := subdivided subdividedCurve (segment E) t) in *.
  unfold createEdge in Hrun. cbv zeta in Hrun.
  set (g1 := snd (createEdge (fst pieces) (startVertex E) vertex g)).
  set (g2 := snd (createEdge (snd pieces) vertex (endVertex E) g1)).
  change (withNextId (S (nextId g)) _) with g1 in Hrun.
  change (withNextId (S (nextId g1)) _) with g2 in Hrun.
  change (nextId g1) with (S (nextId g)) in Hrun.
  inv_bind Hrun as g4 Hfirst Hrun.
  inv_bind Hrun as g5 Hsecond Hrun.
  injection Hrun as <-.
  destruct (wf_ends_made _ Hwf e He) as [HEs HEe]. fold E in HEs, HEe.
  assert (Hwf1 : wellFormed g1) by (apply wf_createEdge; exact Hwf).
  assert (Hwf2 : wellFormed g2) by (apply wf_createEdge; exact Hwf1).
  assert (Hwf3 : wellFormed (removeEdge e g2)) by (apply wf_removeEdge; exact Hwf2).
  assert (Hedges3 : edges (removeEdge e g2) = arrayRemove (edges g) e) by reflexivity.
  assert (Hat1 : edgeAt g2 (nextId g) =
                   {| segment := fst pieces; startVertex := startVertex E; endVertex := vertex;
                      forwardFace := None; reversedFace := None |}).
  { subst g2. rewrite edgeAt_createEdge_other by (simpl; lia).
    subst g1. apply edgeAt_createEdge_new. }
  assert (Hat2 : edgeAt g2 (S (nextId g)) =
                   {| segment := snd pieces; startVertex := vertex; endVertex := endVertex E;
                      forwardFace := None; reversedFace := None |}).
  { subst g2. apply (edgeAt_createEdge_new (snd pieces) vertex (endVertex E) g1). }
  assert (Hold : forall x, x < nextId g -> edgeAt g2 x = edgeAt g x).
  { intros x Hx. subst g2. rewrite edgeAt_createEdge_other by (simpl; lia).
    subst g1. apply edgeAt_createEdge_other. lia. }
  assert (Hnot1 : nextId g ∉ edges (removeEdge e g2)).
  { rewrite Hedges3. intros Hin. apply elem_of_arrayRemove_weak in Hin.
    apply (wf_edges_made _ Hwf) in Hin. lia. }
  pose proof (addEdge_Done _ _ _ _ Hfirst) as Hg4.
  assert (Hedges4 : edges g4 = arrayRemove (edges g) e ++ [nextId g]).
  { rewrite Hg4. reflexivity. }
  assert (Hnot2 : S (nextId g) ∉ edges g4).
  { rewrite Hedges4. intros Hin. apply elem_of_app in Hin as [Hin | Hin].
    - apply elem_of_arrayRemove_weak in Hin. apply (wf_edges_made _ Hwf) in Hin. lia.
    - apply list_elem_of_singleton in Hin. lia. }
  assert (Hwf4 : wellFormed g4).
  { eapply wf_addEdge; [exact Hwf3 | exact Hnot1 | simpl; lia | | | | exact Hfirst].
    - simpl. rewrite lookup_insert_ne by lia. rewrite lookup_insert_eq. eauto.
    - change (edgeAt (removeEdge e g2) (nextId g)) with (edgeAt g2 (nextId g)).
      rewrite Hat1. simpl. lia.
    - change (edgeAt (removeEdge e g2) (nextId g)) with (edgeAt g2 (nextId g)).
      rewrite Hat1. simpl. lia. }
  assert (Harena4 : edgeArena g4 = edgeArena g2) by (rewrite Hg4; reflexivity).
  assert (Hnext4 : nextId g4 = S (S (nextId g))) by (rewrite Hg4; reflexivity).
  assert (Hat4 : forall x, edgeAt g4 x = edgeAt g2 x).
  { intros x. unfold edgeAt. rewrite Harena4. reflexivity. }
  assert (Hwf5 : wellFormed g5).
  { eapply wf_addEdge; [exact Hwf4 | exact Hnot2 | lia | | | | exact Hsecond].
    - rewrite Harena4. simpl. rewrite lookup_insert_eq. eauto.
    - rewrite Hat4, Hat2. simpl. lia.
    - rewrite Hat4, Hat2. simpl. lia. }
  pose proof (addEdge_Done _ _ _ _ Hsecond) as Hg5.
  splits.
  - apply wf_replaceEdgeInLoops. exact Hwf5.
  - intros v Hv.
    change (listsHalfEdgesEndingAt g5 v).
    eapply ends_addEdge; [exact Hnot2 | | exact Hsecond].
    eapply ends_addEdge; [exact Hnot1 | | exact Hfirst].
    apply ends_removeEdge; [apply Hwf2|].
    apply ends_createEdge; [apply fresh_edge; exact Hwf1|].
    apply ends_createEdge; [apply fresh_edge; exact Hwf|]. exact Hv.
  - rewrite Hg5, Hg4. reflexivity.
  - rewrite Hg5. simpl. exact Hnext4.
  - rewrite Hg5. simpl. rewrite Hedges4, <- app_assoc. reflexivity.
  - unfold edgeAt at 1. simpl. rewrite Hg5. simpl. fold (edgeAt g4 (nextId g)).
    rewrite Hat4. exact Hat1.
  - unfold edgeAt at 1. simpl. rewrite Hg5. simpl. fold (edgeAt g4 (S (nextId g))).
    rewrite Hat4. exact Hat2.
  - intros x Hx. unfold edgeAt at 1. simpl. rewrite Hg5. simpl. fold (edgeAt g4 x).
    rewrite Hat4. apply Hold. exact Hx.
  - rewrite Hg5, Hg4. reflexivity.
Qed.

Lemma wellFormedb_sound (g : Graph) : wellFormedb g = true -> wellFormed g.
Proof.
  unfold wellFormedb. rewrite !andb_true_iff, !bool_decide_eq_true, !forallb_forall.
  intros [[[H1 H2] H3] H4].
  constructor; auto.
  - intros v Hv. apply list_elem_of_In, H3 in Hv. apply bool_decide_eq_true in Hv. exact Hv.
  - intros e He. apply list_elem_of_In, H4 in He.
    rewrite !andb_true_iff, !bool_decide_eq_true in He. tauto.
  - intros e He. apply list_elem_of_In, H4 in He.
    rewrite !andb_true_iff, !bool_decide_eq_true in He. tauto.
  - intros e He. apply list_elem_of_In, H4 in He.
    rewrite !andb_true_iff, !bool_decide_eq_true in He. tauto.
Qed.

(** ** The scan for an intersection *)

Section Intersections.
Variable intersect : Segment -> Segment -> list Intersection.t.
Variable subdividedCurve : Segment -> number -> Segment * Segment.

Lemma scanIntersectionsWith_Some (g : Graph) (a : nat) (behind : list nat)
    (a' b : nat) (x : Intersection.t) :
  scanIntersectionsWith intersect g a behind = Some (a', b, x) ->
  a' = a /\ b ∈ behind /\
  x ∈ intersect (segment (edgeAt g a)) (segment (edgeAt g b)) /\
  keptIntersection x = true.
Proof.
  induction behind as [| c rest IH]; simpl; [discriminate|].
  destruct (List.filter keptIntersection
              (intersect (segment (edgeAt g a)) (segment (edgeAt g c)))) as [| y ys] eqn:E.
  - intros H. destruct (IH H) as (-> & Hb & Hx & Hk).
    splits; auto. apply list_elem_of_further. exact Hb.
  - intros [= <- <- <-].
    assert (Hin : In y (List.filter keptIntersection
                          (intersect (segment (edgeAt g a)) (segment (edgeAt g c))))).
    { rewrite E. left. reflexivity. }
    apply filter_In in Hin as [Hin Hk].
    splits; auto; [apply list_elem_of_here | apply list_elem_of_In; exact Hin].
Qed.

Lemma scanIntersections_Some (g : Graph) (es : list nat) (a b : nat) (x : Intersection.t) :
  scanIntersections intersect g es = Some (a, b, x) ->
  (exists before behind, es = before ++ a :: behind /\ b ∈ behind) /\
  x ∈ intersect (segment (edgeAt g a)) (segment (edgeAt g b)) /\
  keptIntersection x = true.
Proof.
  induction es as [| c rest IH]; simpl; [discriminate|].
  destruct (scanIntersectionsWith intersect g c rest) as [[[a' b'] x']|] eqn:E.
  - intros [= -> -> ->].
    apply scanIntersectionsWith_Some in E as (-> & Hb & Hx & Hk).
    splits; auto. exists [], rest. split; [reflexivity | exact Hb].
  - intros H. destruct (IH H) as ((before & behind & -> & Hb) & Hx & Hk).
    splits; auto. exists (c :: before), behind. split; [reflexivity | exact Hb].
Qed.

Lemma scanned_pair_distinct (es : list nat) (a b : nat) :
  NoDup es -> (exists before behind, es = before ++ a :: behind /\ b ∈ behind) ->
  a ∈ es /\ b ∈ es /\ a <> b.
Proof.
  intros Hnd (before & behind & -> & Hb).
  apply NoDup_app in Hnd as (_ & _ & Hnd). apply NoDup_cons in Hnd as [Ha _].
  splits.
  - apply elem_of_app. right. apply list_elem_of_here.
  - apply elem_of_app. right. apply list_elem_of_further. exact Hb.
  - intros ->. contradiction.
Qed.

(** ** One edge split, seen from the edges around it *)

Lemma point_pushIncident (g : Graph) (v w : nat) (h : HalfEdge) :
  point (vertexAt (pushIncident v h g) w) = point (vertexAt g w).
Proof.
  unfold vertexAt, pushIncident. simpl. rewrite lookup_total_alter.
  destruct (decide (v = w)) as [-> | _]; [|reflexivity].
  rewrite lookup_total_alt. destruct (vertexArena g !! w); reflexivity.
Qed.

Lemma point_removeIncident (g : Graph) (v w : nat) (h : HalfEdge) :
  point (vertexAt (removeIncident v h g) w) = point (vertexAt g w).
Proof.
  unfold vertexAt, removeIncident. simpl. rewrite lookup_total_alter.
  destruct (decide (v = w)) as [-> | _]; [|reflexivity].
  rewrite lookup_total_alt. destruct (vertexArena g !! w); reflexivity.
Qed.

Lemma point_addEdge (b : bool) (e : nat) (g g' : Graph) (w : nat) :
  addEdge b e g = Done g' -> point (vertexAt g' w) = point (vertexAt g w).
Proof.
  intros H. apply addEdge_Done in H. subst g'.
  rewrite !point_pushIncident. reflexivity.
Qed.

Lemma point_removeEdge (e : nat) (g : Graph) (w : nat) :
  point (vertexAt (removeEdge e g) w) = point (vertexAt g w).
Proof. unfold removeEdge. rewrite !point_removeIncident. reflexivity. Qed.

Lemma point_splitEdge (b : bool) (e : nat) (t : number) (vertex : nat) (g g' : Graph) (w : nat) :
  splitEdge b subdividedCurve e t vertex g = Done g' ->
  point (vertexAt g' w) = point (vertexAt g w).
Proof.
  unfold splitEdge. intros Hrun.
  inv_bind Hrun as u Hu Hrun. unfold createEdge in Hrun. cbv zeta in Hrun.
  inv_bind Hrun as g4 Hfirst Hrun. inv_bind Hrun as g5 Hsecond Hrun.
  injection Hrun as <-.
  change (point (vertexAt g5 w) = point (vertexAt g w)).
  rewrite (point_addEdge _ _ _ _ w Hsecond), (point_addEdge _ _ _ _ w Hfirst).
  rewrite point_removeEdge. reflexivity.
Qed.

Lemma splitEdge_summary (b : bool) (e : nat) (t : number) (vertex : nat) (g g' : Graph) :
  wellFormed g -> e ∈ edges g -> vertex < nextId g ->
  splitEdge b subdividedCurve e t vertex g = Done g' ->
  wellFormed g' /\ vertices g' = vertices g /\ nextId g <= nextId g' /\
  splitThrough (subdivided subdividedCurve (segment (edgeAt g e)) t) g g' e vertex /\
  (forall x, x ∈ edges g -> x <> e -> keptWhole g g' x) /\
  (forall x, x ∈ edges g' -> x ∈ edges g \/ nextId g <= x) /\
  (forall x, x < nextId g -> edgeAt g' x = edgeAt g x).
Proof.
  intros Hwf He Hvertex Hrun.
  destruct (splitEdge_sound b e t vertex g g' subdividedCurve Hwf He Hvertex Hrun)
    as (Hwf' & _ & Hvs & Hnext & Hedges & Hat1 & Hat2 & Hold & _).
  pose proof (wf_edges_made _ Hwf) as Hmade.
  splits; auto; try lia.
  - split.
    + rewrite Hedges. intros Hin. apply elem_of_app in Hin as [Hin | Hin].
      * apply (elem_of_arrayRemove _ _ _ (wf_edges_once _ Hwf)) in Hin as [_ Hne].
        apply Hne. reflexivity.
      * apply Hmade in He.
        apply elem_of_cons in Hin as [-> | Hin]; [lia|].
        apply list_elem_of_singleton in Hin. lia.
    + exists (nextId g), (S (nextId g)). rewrite Hedges. splits; auto.
      * apply elem_of_app. right. apply list_elem_of_here.
      * apply elem_of_app. right. apply list_elem_of_further, list_elem_of_here.
      * intros Hin. apply Hmade in Hin. lia.
      * intros Hin. apply Hmade in Hin. lia.
  - intros x Hx Hne. split.
    + rewrite Hedges. apply elem_of_app. left. apply elem_of_arrayRemove_ne; assumption.
    + apply Hold. apply Hmade. exact Hx.
  - intros x Hx. rewrite Hedges in Hx. apply elem_of_app in Hx as [Hx | Hx].
    + left. eapply elem_of_arrayRemove_weak. exact Hx.
    + right. apply elem_of_cons in Hx as [-> | Hx]; [lia|].
      apply list_elem_of_singleton in Hx. lia.
Qed.

End Intersections.

(** ** Ingestion: what it makes of a subpath *)

Lemma joinOf_Some (segs : list Segment) (index : nat) (previous current : Segment) :
  segs !! (if decide (index = 0) then length segs - 1 else index - 1) = Some previous ->
  segs !! index = Some current ->
  joinOf segs index = Some (seg_start current, seg_end previous).
Proof. intros Hp Hc. unfold joinOf. rewrite Hp, Hc. reflexivity. Qed.

Lemma vertexAt_createVertex_other (p : Vector2) (g : Graph) (v : nat) :
  v <> nextId g -> vertexAt (snd (createVertex p g)) v = vertexAt g v.
Proof.
  intros Hne. unfold vertexAt, createVertex. simpl.
  rewrite lookup_total_insert_ne by congruence. reflexivity.
Qed.

Lemma vertexAt_createVertex_new (p : Vector2) (g : Graph) :
  vertexAt (snd (createVertex p g)) (nextId g) = {| point := p; incidentHalfEdges := [] |}.
Proof. unfold vertexAt, createVertex. simpl. apply lookup_total_insert_eq. Qed.

(** The first loop of [addSubpath] makes one vertex for each join, at the
    point of the join, and touches nothing else. *)
Lemma addSubpathVertices_joins (b : bool) (segs : list Segment) (indices : list nat) :
  forall (g : Graph) (created : list nat) (g1 : Graph),
  addSubpathVertices b segs indices g = Done (created, g1) ->
  created = seq (nextId g) (length indices) /\
  nextId g1 = nextId g + length indices /\
  map (fun v => point (vertexAt g1 v)) created = map joinPoint (omap (joinOf segs) indices) /\
  (forall v, v < nextId g -> vertexAt g1 v = vertexAt g v) /\
  edgeArena g1 = edgeArena g /\ edges g1 = edges g /\ vertices g1 = vertices g /\
  loops g1 = loops g /\ shapeIds g1 = shapeIds g.
Proof.
  induction indices as [| index rest IH]; intros g created g1 Hrun.
  - simpl in Hrun. injection Hrun as <- <-. simpl. rewrite Nat.add_0_r. auto 10.
  - simpl in Hrun.
    inv_bind Hrun as previous Hprevious Hrun.
    inv_bind Hrun as current Hcurrent Hrun.
    inv_bind Hrun as [vertex g'] Hvertex Hrun.
    apply ofOption_Done in Hprevious, Hcurrent.
    assert (Hmake : (vertex, g') =
                    createVertex (joinPoint (seg_start current, seg_end previous)) g).
    { simpl. destruct (equals (seg_start current) (seg_end previous)).
      - injection Hvertex as <- <-. reflexivity.
      - inv_bind Hvertex as u Hu Hvertex. injection Hvertex as <- <-. reflexivity. }
    assert (Hid : vertex = nextId g) by (unfold createVertex in Hmake; congruence).
    assert (Hg' : g' = snd (createVertex (joinPoint (seg_start current, seg_end previous)) g))
      by (rewrite <- Hmake; reflexivity).
    inv_bind Hrun as [created' g2] Hrest Hrun. injection Hrun as <- <-.
    destruct (IH g' created' g2 Hrest)
      as (Hcreated & Hnext & Hpoints & Hframe & Hea & Hes & Hvs & Hls & Hids).
    assert (Hn' : nextId g' = S (nextId g)) by (rewrite Hg'; reflexivity).
    cbn [omap list_omap]. rewrite (joinOf_Some _ _ _ _ Hprevious Hcurrent).
    cbn [length seq map]. rewrite Hn' in Hcreated, Hnext.
    split; [rewrite Hid, Hcreated; reflexivity|].
    split; [lia|].
    split.
    { f_equal; [|exact Hpoints].
      rewrite Hid, Hframe by lia. rewrite Hg', vertexAt_createVertex_new. reflexivity. }
    split.
    { intros v Hv. rewrite Hframe by lia. rewrite Hg'.
      apply vertexAt_createVertex_other. lia. }
    rewrite Hea, Hes, Hvs, Hls, Hids, Hg'. auto.
Qed.

(** With assertions on the first loop does what it does with them off when
    every join is accurate, and fails at the first join that is not. *)
Lemma addSubpathVertices_on (segs : list Segment) (indices : list nat) :
  Forall (fun i => i < length segs) indices ->
  forall g : Graph,
  addSubpathVertices true segs indices g =
    if forallb joinAccurate (omap (joinOf segs) indices)
    then addSubpathVertices false segs indices g
    else Throws (AssertionError "Inaccurate start/end points").
Proof.
  induction 1 as [| index rest Hlt Hrest IH]; intros g; [reflexivity|].
  assert (Hprev : (if decide (index = 0) then length segs - 1 else index - 1) < length segs).
  { destruct (decide (index = 0)); lia. }
  destruct (lookup_lt_is_Some_2 segs _ Hprev) as [previous Hp].
  destruct (lookup_lt_is_Some_2 segs _ Hlt) as [current Hc].
  cbn [omap list_omap]. rewrite (joinOf_Some _ _ _ _ Hp Hc).
  cbn [addSubpathVertices forallb joinAccurate]. rewrite Hp, Hc. cbn [ofOption].
  rewrite !bind_of_Done.
  destruct (equals (seg_start current) (seg_end previous)); cbn [orb andb].
  - rewrite !bind_of_Done. cbv beta iota zeta delta [createVertex]. rewrite IH.
    destruct (forallb joinAccurate (omap (joinOf segs) rest)); reflexivity.
  - unfold assert, assertWhen.
    destruct (nlt (distance (seg_start current) (seg_end previous)) vertexEpsilon);
      cbn [andb negb]; [|reflexivity].
    rewrite !bind_of_Done. cbv beta iota zeta delta [createVertex]. rewrite IH.
    destruct (forallb joinAccurate (omap (joinOf segs) rest)); reflexivity.
Qed.

Lemma edgeArena_addEdge (b : bool) (e : nat) (g g' : Graph) :
  addEdge b e g = Done g' -> edgeArena g' = edgeArena g /\ nextId g' = nextId g.
Proof. intros H. apply addEdge_Done in H. subst g'. split; reflexivity. Qed.

(** The second loop of [addSubpath] makes one edge for each segment, in the
    order of the segments, and lists their forward halves. *)
Lemma addSubpathEdges_segments (b : bool) (segs : list Segment) (created : list nat)
    (indices : list nat) :
  forall (g : Graph) (hs : list HalfEdge) (g2 : Graph),
  addSubpathEdges b segs created indices g = Done (hs, g2) ->
  hs = map forwardHalf (seq (nextId g) (length indices)) /\
  edges g2 = edges g ++ seq (nextId g) (length indices) /\
  nextId g2 = nextId g + length indices /\
  loops g2 = loops g /\ vertices g2 = vertices g /\ shapeIds g2 = shapeIds g /\
  (forall v, point (vertexAt g2 v) = point (vertexAt g v)) /\
  (forall e, e < nextId g -> edgeAt g2 e = edgeAt g e) /\
  Forall2 (fun e index => segs !! index = Some (segment (edgeAt g2 e)))
          (seq (nextId g) (length indices)) indices.
Proof.
  induction indices as [| index rest IH]; intros g hs g2 Hrun.
  - simpl in Hrun. injection Hrun as <- <-. simpl.
    rewrite app_nil_r, Nat.add_0_r. repeat split; auto.
  - simpl in Hrun.
    inv_bind Hrun as s Hs Hrun.
    inv_bind Hrun as x Hx Hrun.
    inv_bind Hrun as y Hy Hrun.
    unfold createEdge in Hrun. cbv zeta in Hrun.
    inv_bind Hrun as g1 Hadd Hrun.
    inv_bind Hrun as [hs' g3] Hrest Hrun. injection Hrun as <- <-.
    apply ofOption_Done in Hs.
    destruct (IH g1 hs' g3 Hrest) as (Hhs & Hes & Hnext & Hls & Hvs & Hids & Hpt & Hframe & Hall).
    pose proof (addEdge_Done _ _ _ _ Hadd) as Hg1.
    assert (Hn1 : nextId g1 = S (nextId g)) by (rewrite Hg1; reflexivity).
    assert (Hnew : edgeAt g1 (nextId g) =
                   {| segment := s; startVertex := x; endVertex := y;
                      forwardFace := None; reversedFace := None |}).
    { rewrite Hg1. apply (edgeAt_createEdge_new s x y g). }
    rewrite Hn1 in Hhs, Hes, Hnext, Hall. cbn [length seq map].
    split; [rewrite Hhs; reflexivity|].
    split.
    { rewrite Hes, Hg1. simpl. rewrite <- app_assoc. reflexivity. }
    split; [lia|].
    split; [rewrite Hls, Hg1; reflexivity|].
    split; [rewrite Hvs, Hg1; reflexivity|].
    split; [rewrite Hids, Hg1; reflexivity|].
    split.
    { intros v. rewrite Hpt. rewrite (point_addEdge _ _ _ _ v Hadd). reflexivity. }
    split.
    { intros e He. rewrite Hframe by lia. rewrite Hg1.
      apply (edgeAt_createEdge_other s x y g). lia. }
    constructor; [|exact Hall].
    rewrite Hframe by lia. rewrite Hnew. exact Hs.
Qed.

(** A new edge between vertices that list the half-edges ending at them
    passes the two assertions of [addEdge]. *)
Lemma addEdge_on (e : nat) (g : Graph) :
  e ∉ edges g ->
  listsHalfEdgesEndingAt g (startVertex (edgeAt g e)) ->
  listsHalfEdgesEndingAt g (endVertex (edgeAt g e)) ->
  addEdge true e g = addEdge false e g.
Proof.
  intros Hfresh (_ & _ & Hs) (_ & _ & He). unfold addEdge, assert, includes.
  rewrite !bool_decide_eq_false_2; [reflexivity | |].
  - intros Hin. apply Hs in Hin as [Hin _]. exact (Hfresh Hin).
  - intros Hin. apply He in Hin as [Hin _]. exact (Hfresh Hin).
Qed.

Lemma addSubpathEdges_on (segs : list Segment) (created : list nat) (indices : list nat) :
  forall g : Graph,
  wellFormed g ->
  (forall v, v ∈ created -> v < nextId g /\ listsHalfEdgesEndingAt g v) ->
  addSubpathEdges true segs created indices g = addSubpathEdges false segs created indices g.
Proof.
  induction indices as [| index rest IH]; intros g Hwf Hcreated; [reflexivity|].
  cbn [addSubpathEdges].
  destruct (segs !! index) as [s|]; [|reflexivity].
  destruct (created !! index) as [x|] eqn:Hx; [|reflexivity].
  destruct (created !! (if decide (index + 1 = length segs) then 0 else index + 1))
    as [y|] eqn:Hy; [|reflexivity].
  cbn [ofOption]. rewrite !bind_of_Done.
  assert (Hxin : x ∈ created) by (apply list_elem_of_lookup; eauto).
  assert (Hyin : y ∈ created) by (apply list_elem_of_lookup; eauto).
  destruct (Hcreated x Hxin) as [Hxlt Hxends]. destruct (Hcreated y Hyin) as [Hylt Hyends].
  unfold createEdge. cbv zeta.
  pose proof (fresh_edge g Hwf) as Hfresh.
  rewrite addEdge_on.
  - destruct (addEdge_off (nextId g) (snd (createEdge s x y g))) as [g1 Hadd].
    unfold createEdge in Hadd. cbv zeta in Hadd. simpl in Hadd. rewrite Hadd.
    rewrite !bind_of_Done.
    destruct (createEdge_addEdge false s x y g g1 Hwf Hxlt Hylt Hadd)
      as (Hwf1 & Hends & _ & _ & _ & Hnext & _).
    rewrite IH; [reflexivity | exact Hwf1 |].
    intros v Hv. destruct (Hcreated v Hv). split; [lia | auto].
  - exact Hfresh.
  - change (listsHalfEdgesEndingAt (snd (createEdge s x y g))
              (startVertex (edgeAt (snd (createEdge s x y g)) (nextId g)))).
    rewrite (edgeAt_createEdge_new s x y g). simpl.
    apply (ends_createEdge s x y g); assumption.
  - change (listsHalfEdgesEndingAt (snd (createEdge s x y g))
              (endVertex (edgeAt (snd (createEdge s x y g)) (nextId g)))).
    rewrite (edgeAt_createEdge_new s x y g). simpl.
    apply (ends_createEdge s x y g); assumption.
Qed.

Lemma ingestedSegments_any (b : bool) (subpath : Subpath) :
  ingestedSegments b subpath = ingestedSegments false subpath.
Proof.
  unfold ingestedSegments, hasClosingSegment.
  destruct (getFirstPoint subpath) as [first|] eqn:Hf; [|reflexivity].
  destruct (getLastPoint subpath) as [lastPoint|] eqn:Hl; [|reflexivity].
  cbn [ofOption]. rewrite !bind_of_Done.
  destruct (equals first lastPoint) eqn:Heq; [reflexivity|]. cbn [negb].
  unfold getClosingSegment, hasClosingSegment. rewrite Hf, Hl. cbn [ofOption].
  destruct b; [|reflexivity].
  rewrite !bind_of_Done, Heq. reflexivity.
Qed.

Lemma length_joins (segs : list Segment) (indices : list nat) :
  Forall (fun i => i < length segs) indices ->
  length (omap (joinOf segs) indices) = length indices.
Proof.
  induction 1 as [| index rest Hlt Hrest IH]; [reflexivity|].
  assert (Hprev : (if decide (index = 0) then length segs - 1 else index - 1) < length segs).
  { destruct (decide (index = 0)); lia. }
  destruct (lookup_lt_is_Some_2 segs _ Hprev) as [previous Hp].
  destruct (lookup_lt_is_Some_2 segs _ Hlt) as [current Hc].
  cbn [omap list_omap]. rewrite (joinOf_Some _ _ _ _ Hp Hc). simpl. rewrite IH. reflexivity.
Qed.

(** What [addSubpath] leaves of a subpath with segments: the list of
    segments it went through, a vertex for each join behind the vertices of
    the graph, an edge for each segment behind its edges, and the loop of
    their forward halves behind its loops. *)
Lemma addSubpath_made (b : bool) (id : Z) (subpath : Subpath) (g g' : Graph) :
  segments subpath <> [] ->
  addSubpath b id subpath g = Done g' ->
  exists (segs : list Segment) (created made : list nat),
    ingestedSegments false subpath = Done segs /\
    length created = length segs /\ length made = length segs /\
    vertices g' = vertices g ++ created /\
    edges g' = edges g ++ made /\
    loops g' = loops g ++ [{| shapeId := id; halfEdges := map forwardHalf made |}] /\
    map (fun v => point (vertexAt g' v)) created = map joinPoint (joinsOf segs) /\
    map (fun e => segment (edgeAt g' e)) made = segs /\
    (b = true -> forallb joinAccurate (joinsOf segs) = true).
Proof.
  intros Hsegments Hrun. unfold addSubpath in Hrun.
  set (g0 := if includes (shapeIds g) id then g else withShapeIds (shapeIds g ++ [id]) g) in Hrun.
  assert (Hvs0 : vertices g0 = vertices g)
    by (subst g0; destruct (includes (shapeIds g) id); reflexivity).
  assert (Hes0 : edges g0 = edges g)
    by (subst g0; destruct (includes (shapeIds g) id); reflexivity).
  assert (Hls0 : loops g0 = loops g)
    by (subst g0; destruct (includes (shapeIds g) id); reflexivity).
  clearbody g0.
  destruct (decide (length (segments subpath) = 0)) as [Hnone | _].
  { destruct (segments subpath); [contradiction | discriminate]. }
  inv_bind Hrun as segs Hsegs Hrun.
  inv_bind Hrun as [created g1] Hcreated Hrun.
  inv_bind Hrun as [hs g2] Hadded Hrun. injection Hrun as <-.
  rewrite ingestedSegments_any in Hsegs.
  destruct (addSubpathVertices_joins b segs _ g0 created g1 Hcreated)
    as (Hcr & Hn1 & Hpoints & _ & _ & Hes1 & Hvs1 & Hls1 & _).
  destruct (addSubpathEdges_segments b segs created _ g1 hs g2 Hadded)
    as (Hhs & Hes2 & Hn2 & Hls2 & Hvs2 & _ & Hpt & _ & Hall).
  rewrite length_seq in *.
  exists segs, created, (seq (nextId g1) (length segs)).
  split; [exact Hsegs|].
  split; [rewrite Hcr; apply length_seq|].
  split; [apply length_seq|].
  split; [simpl; congruence|].
  split; [simpl; congruence|].
  split; [simpl; congruence|].
  split.
  { unfold joinsOf. rewrite <- Hpoints. apply map_ext. intros v. apply (Hpt v). }
  split.
  { apply list_eq. intros i. rewrite list_lookup_fmap.
    destruct (seq (nextId g1) (length segs) !! i) as [e|] eqn:He; simpl.
    - destruct (Forall2_lookup_l _ _ _ _ _ Hall He) as (index & Hindex & Hseg).
      apply lookup_seq in Hindex as [-> _]. simpl in Hseg. symmetry. exact Hseg.
    - symmetry. apply lookup_ge_None. apply lookup_ge_None in He.
      rewrite length_seq in He. exact He. }
  intros ->.
  rewrite (addSubpathVertices_on segs _ (seq_below _) g0) in Hcreated.
  unfold joinsOf. destruct (forallb joinAccurate _); [reflexivity | discriminate].
Qed.

(** C2, as the code has it.  For a subpath with a segment, the edges
    [addSubpath] adds carry the segments of the subpath and, behind them, a
    closing [Line] from the last point to the first exactly when the last
    point does not equal the first; the [closed] mark of the subpath is not
    read, the call doing the same whichever way the mark is set. *)
Theorem closing_segment_iff_ends_differ
    (assertEnabled : bool) (id : Z) (subpath : Subpath) (g g' : Graph) :
  segments subpath <> [] ->
  addSubpath assertEnabled id subpath g = Done g' ->
  (exists (first lastPoint : Vector2) (made : list nat),
     getFirstPoint subpath = Some first /\
     getLastPoint subpath = Some lastPoint /\
     edges g' = edges g ++ made /\
     loops g' = loops g ++ [{| shapeId := id; halfEdges := map forwardHalf made |}] /\
     map (fun e => segment (edgeAt g' e)) made =
       segments subpath ++ (if equals first lastPoint then [] else [Line lastPoint first])) /\
  forall mark,
    addSubpath assertEnabled id (withClosed mark subpath) g =
    addSubpath assertEnabled id subpath g.
Proof.
  intros Hsegments Hrun. split; [|reflexivity].
  destruct (addSubpath_made _ _ _ _ _ Hsegments Hrun)
    as (segs & created & made & Hsegs & _ & _ & _ & Hes & Hls & _ & Hmade & _).
  unfold ingestedSegments, hasClosingSegment in Hsegs.
  destruct (getFirstPoint subpath) as [first|] eqn:Hf; [|discriminate].
  destruct (getLastPoint subpath) as [lastPoint|] eqn:Hl; [|discriminate].
  exists first, lastPoint, made.
  split; [reflexivity|]. split; [reflexivity|].
  split; [exact Hes|]. split; [exact Hls|].
  rewrite Hmade.
  assert (Hwhole : ingestedSegments false subpath = Done segs).
  { unfold ingestedSegments, hasClosingSegment. rewrite Hf, Hl. exact Hsegs. }
  rewrite (ingestedSegments_by_ends false subpath first lastPoint Hf Hl) in Hwhole.
  congruence.
Qed.

(** ** Numbers that are not finite *)

Lemma SFeqb_refl_finite (s : bool) (m : positive) (e : Z) :
  SFeqb (S754_finite s m e) (S754_finite s m e) = true.
Proof.
  unfold SFeqb, SFcompare. destruct s; rewrite Z.compare_refl.
  - rewrite Pos.compare_cont_refl. reflexivity.
  - rewrite Pos.compare_cont_refl. reflexivity.
Qed.

Lemma isFiniteNumber_spec (x : number) : isFiniteNumber x = finiteSpec (Prim2SF x).
Proof.
  unfold isFiniteNumber, is_finite, is_nan, is_infinity.
  rewrite !FloatAxioms.eqb_spec, FloatAxioms.abs_spec.
  change (Prim2SF infinity) with (S754_infinity false).
  destruct (Prim2SF x) as [s | s | | s m e];
    [destruct s; reflexivity | destruct s; reflexivity | reflexivity |].
  rewrite SFeqb_refl_finite. destruct s; reflexivity.
Qed.

Lemma half_spec : exists m e, Prim2SF oneHalf = S754_finite false m e.
Proof. eexists _, _. vm_compute. reflexivity. Qed.

(** Half way from [a] to [b] is not finite when [a] or [b] is not. *)
Lemma blend_not_finite (a b : number) :
  isFiniteNumber a = false \/ isFiniteNumber b = false ->
  isFiniteNumber (nadd a (nmul (nsub b a) oneHalf)) = false.
Proof.
  rewrite !isFiniteNumber_spec. unfold nadd, nmul, nsub.
  rewrite FloatAxioms.add_spec, FloatAxioms.mul_spec, FloatAxioms.sub_spec.
  destruct half_spec as (m & e & ->).
  destruct (Prim2SF a) as [sa | sa | | sa ma ea], (Prim2SF b) as [sb | sb | | sb mb eb];
    cbn [finiteSpec]; intros [H | H]; try discriminate H;
    try reflexivity; try (destruct sa, sb; reflexivity);
    try (destruct sa; reflexivity); try (destruct sb; reflexivity).
Qed.

(** Numbers that are equal are finite together. *)
Lemma neq_finite (a b : number) : neq a b = true -> isFiniteNumber a = isFiniteNumber b.
Proof.
  unfold neq. rewrite FloatAxioms.eqb_spec, !isFiniteNumber_spec.
  destruct (Prim2SF a) as [sa | sa | | sa ma ea], (Prim2SF b) as [sb | sb | | sb mb eb];
    cbn [finiteSpec]; try reflexivity; try discriminate;
    try (destruct sa; discriminate); try (destruct sa, sb; discriminate).
Qed.

(** The vertex of a join is at a point that is not finite when one of the
    two points of the join is not. *)
Lemma joinPoint_not_finite (join : Vector2 * Vector2) :
  isFiniteVector (fst join) = false \/ isFiniteVector (snd join) = false ->
  isFiniteVector (joinPoint join) = false.
Proof.
  destruct join as [[x1 y1] [x2 y2]]. unfold joinPoint, isFiniteVector, equals, average.
  cbn [fst snd vx vy]. rewrite !andb_false_iff.
  destruct (neq x1 x2) eqn:Hx; cbn [andb].
  - destruct (neq y1 y2) eqn:Hy; cbn [vx vy]; rewrite ?andb_false_iff.
    + rewrite <- (neq_finite _ _ Hx), <- (neq_finite _ _ Hy). tauto.
    + intros [[H | H] | [H | H]];
        [left | right | left | right]; apply blend_not_finite; auto.
  - rewrite ?andb_false_iff.
    intros [[H | H] | [H | H]];
      [left | right | left | right]; apply blend_not_finite; auto.
Qed.

(** The start of every segment is at a join, and so is its end. *)
Lemma joins_cover (segs : list Segment) (s : Segment) :
  s ∈ segs ->
  exists previous next,
    (seg_start s, seg_end previous) ∈ joinsOf segs /\
    (seg_start next, seg_end s) ∈ joinsOf segs.
Proof.
  intros Hs. apply list_elem_of_lookup in Hs as [i Hi].
  pose proof (lookup_lt_Some _ _ _ Hi) as Hlt.
  assert (Hprev : (if decide (i = 0) then length segs - 1 else i - 1) < length segs).
  { destruct (decide (i = 0)); lia. }
  destruct (lookup_lt_is_Some_2 segs _ Hprev) as [previous Hp].
  assert (Hnext : (if decide (i + 1 = length segs) then 0 else i + 1) < length segs).
  { destruct (decide (i + 1 = length segs)); lia. }
  destruct (lookup_lt_is_Some_2 segs _ Hnext) as [next Hn].
  exists previous, next. unfold joinsOf. split.
  - apply list_elem_of_omap. exists i. split; [apply elem_of_seq; lia|].
    apply joinOf_Some; assumption.
  - apply list_elem_of_omap.
    exists (if decide (i + 1 = length segs) then 0 else i + 1).
    split; [apply elem_of_seq; lia|].
    apply joinOf_Some; [|exact Hn].
    destruct (decide (i + 1 = length segs)) as [Hlast | Hmore].
    + rewrite decide_True by reflexivity.
      replace (length segs - 1) with i by lia. exact Hi.
    + rewrite decide_False by lia. replace (i + 1 - 1) with i by lia. exact Hi.
Qed.

(** C3, as the code has it.  [addSubpath] looks at no coordinate for
    finiteness and has no [InvalidGeometry] to raise.  For a subpath with a
    point and a segment it returns when assertions are off, whatever the
    coordinates, and leaves a vertex for each join of two segments, at the
    start point behind the join when that equals the end point before it and
    half way between the two otherwise; so for every segment whose start or
    end is not finite the graph has a new vertex at a point that is not
    finite.  With assertions on it does the same when at every join the two
    points are equal or less than [vertexEpsilon] apart as [distance]
    computes it, and fails with the assertion error 'Inaccurate start/end
    points' when at some join they are not. *)
Theorem addSubpath_checks_joins_not_finiteness (id : Z) (subpath : Subpath) (g : Graph) :
  wellFormed g -> points subpath <> [] -> segments subpath <> [] ->
  exists (segs : list Segment) (created : list nat) (g' : Graph),
    ingestedSegments false subpath = Done segs /\
    addSubpath false id subpath g = Done g' /\
    vertices g' = vertices g ++ created /\
    map (fun v => point (vertexAt g' v)) created = map joinPoint (joinsOf segs) /\
    (forall s, s ∈ segs ->
       isFiniteVector (seg_start s) = false \/ isFiniteVector (seg_end s) = false ->
       exists v, v ∈ created /\ isFiniteVector (point (vertexAt g' v)) = false) /\
    addSubpath true id subpath g =
      (if forallb joinAccurate (joinsOf segs) then Done g'
       else Throws (AssertionError "Inaccurate start/end points")).
Proof.
  intros Hwf Hpoints Hsegments.
  destruct (addSubpath_returns id subpath g Hpoints) as [g' Hoff].
  destruct (addSubpath_made false _ _ _ _ Hsegments Hoff)
    as (segs & created & made & Hsegs & _ & _ & Hvs & _ & _ & Hpts & _ & _).
  exists segs, created, g'.
  split; [exact Hsegs|]. split; [exact Hoff|]. split; [exact Hvs|]. split; [exact Hpts|].
  split.
  { intros s Hs Hbad.
    assert (Hat : forall join, join ∈ joinsOf segs ->
              isFiniteVector (fst join) = false \/ isFiniteVector (snd join) = false ->
              exists v, v ∈ created /\ isFiniteVector (point (vertexAt g' v)) = false).
    { intros join Hjoin Hnot.
      assert (Hin : joinPoint join ∈ map (fun v => point (vertexAt g' v)) created).
      { rewrite Hpts. apply list_elem_of_fmap. exists join. auto. }
      apply list_elem_of_fmap in Hin as (v & Hv & Hcreated).
      exists v. split; [exact Hcreated|]. rewrite <- Hv.
      apply joinPoint_not_finite. exact Hnot. }
    destruct (joins_cover segs s Hs) as (previous & next & Hstart & Hend).
    destruct Hbad as [Hbad | Hbad].
    - apply (Hat _ Hstart). left. exact Hbad.
    - apply (Hat _ Hend). right. exact Hbad. }
  unfold addSubpath in Hoff |- *.
  set (g0 := if includes (shapeIds g) id then g else withShapeIds (shapeIds g ++ [id]) g) in *.
  assert (Hwf0 : wellFormed g0).
  { subst g0. destruct (includes (shapeIds g) id); [exact Hwf | apply wf_withShapeIds; exact Hwf]. }
  clearbody g0.
  destruct (decide (length (segments subpath) = 0)) as [Hnone | _].
  { destruct (segments subpath); [contradiction | discriminate]. }
  rewrite ingestedSegments_any, Hsegs. rewrite Hsegs in Hoff.
  rewrite bind_of_Done in Hoff |- *.
  rewrite (addSubpathVertices_on segs _ (seq_below _) g0).
  fold (joinsOf segs). destruct (forallb joinAccurate (joinsOf segs)); [|reflexivity].
  inv_bind Hoff as [created' g1] Hcreated Hoff.
  rewrite Hcreated, bind_of_Done.
  destruct (addSubpathVertices_sound false segs (seq 0 (length segs)) g0 [] created' g1 Hwf0)
    as (Hwf1 & _ & _ & _ & _ & _ & _ & Hrange & Hends); [| | exact Hcreated |].
  { intros v Hv. inversion Hv. }
  { intros v Hv. inversion Hv. }
  rewrite (addSubpathEdges_on segs created' (seq 0 (length segs)) g1 Hwf1).
  - exact Hoff.
  - intros v Hv. split; [apply Hrange in Hv; lia | apply Hends; right; exact Hv].
Qed.

(** ** [simpleSplit] *)

Section SimpleSplit.
Variable intersect : Segment -> Segment -> list Intersection.t.
Variable subdividedCurve : Segment -> number -> Segment * Segment.

Lemma keptWhole_refl (g : Graph) (e : nat) : e ∈ edges g -> keptWhole g g e.
Proof. intros He. split; [exact He | reflexivity]. Qed.

Lemma nearerEnd_made (g : Graph) (e : nat) (t : number) :
  wellFormed g -> e ∈ edges g -> nearerEnd g e t < nextId g.
Proof.
  intros Hwf He. destruct (wf_ends_made _ Hwf e He). unfold nearerEnd.
  destruct (nlt t oneHalf); assumption.
Qed.

Lemma simpleSplit_cases (b : bool) (g g' : Graph) (aEdge bEdge : nat) (aT bT : number)
    (p : Vector2) :
  wellFormed g -> aEdge ∈ edges g -> bEdge ∈ edges g -> aEdge <> bEdge ->
  simpleSplit b subdividedCurve aEdge bEdge aT bT p g = Done g' ->
  wellFormed g' /\ sharesOneVertex subdividedCurve g g' aEdge bEdge aT bT p.
Proof.
  intros Hwf Ha Hb Hne Hrun. unfold simpleSplit, splitVertex in Hrun.
  pose proof (wf_edges_made _ Hwf) as Hmade.
  unfold sharesOneVertex.
  destruct (internal aT) eqn:HaT, (internal bT) eqn:HbT; simpl in Hrun.
  - (* both cut: a new vertex *)
    set (g1 := withVertices (vertices g ++ [nextId g]) (snd (createVertex p g))) in *.
    unfold createVertex in Hrun. cbv zeta in Hrun.
    change (withVertices _ _) with g1 in Hrun.
    inv_bind Hrun as g2 Hfirst Hsecond.
    assert (Hwf1 : wellFormed g1) by (apply wf_pushVertex; exact Hwf).
    destruct (splitEdge_summary subdividedCurve b aEdge aT (nextId g) g1 g2 Hwf1 Ha)
      as (Hwf2 & Hvs2 & Hle2 & Hsplit2 & Hkept2 & Hin2 & Hold2); [simpl; lia | exact Hfirst |].
    destruct (Hkept2 bEdge Hb (not_eq_sym Hne)) as [Hb2 HatB2].
    destruct (splitEdge_summary subdividedCurve b bEdge bT (nextId g) g2 g' Hwf2 Hb2)
      as (Hwf3 & Hvs3 & Hle3 & Hsplit3 & Hkept3 & Hin3 & Hold3);
      [simpl in Hle2; lia | exact Hsecond |].
    split; [exact Hwf3|]. exists (nextId g). cbn [andb]. splits.
    + destruct Hsplit2 as (Hgone & e1 & e2 & He1 & He2 & Hn1 & Hn2 & Hne12 & Hat1 & Hat2).
      split.
      * intros Hin. apply Hin3 in Hin as [Hin | Hin]; [contradiction|].
        apply Hmade in Ha. simpl in Hle2. lia.
      * assert (H1b : e1 <> bEdge) by (intros ->; contradiction).
        assert (H2b : e2 <> bEdge) by (intros ->; contradiction).
        destruct (Hkept3 e1 He1 H1b) as [He1' Hat1'].
        destruct (Hkept3 e2 He2 H2b) as [He2' Hat2'].
        exists e1, e2. splits; auto.
        -- rewrite Hat1', Hat1. reflexivity.
        -- rewrite Hat2', Hat2. reflexivity.
    + destruct Hsplit3 as (Hgone & e1 & e2 & He1 & He2 & Hn1 & Hn2 & Hne12 & Hat1 & Hat2).
      split; [exact Hgone|].
      exists e1, e2. splits; auto.
      * intros Hin. apply Hn1. apply Hkept2; [exact Hin|]. intros ->.
        destruct Hsplit2 as (Hgone2 & _). apply Hin3 in He1 as [He1 | He1]; [contradiction|].
        apply Hmade in Ha. simpl in Hle2. lia.
      * intros Hin. apply Hn2. apply Hkept2; [exact Hin|]. intros ->.
        destruct Hsplit2 as (Hgone2 & _). apply Hin3 in He2 as [He2 | He2]; [contradiction|].
        apply Hmade in Ha. simpl in Hle2. lia.
      * rewrite Hat1, HatB2. reflexivity.
      * rewrite Hat2, HatB2. reflexivity.
    + intros Hin. apply (wf_vertices_made _ Hwf) in Hin. lia.
    + rewrite Hvs3, Hvs2. reflexivity.
    + rewrite (point_splitEdge subdividedCurve _ _ _ _ _ _ _ Hsecond).
      rewrite (point_splitEdge subdividedCurve _ _ _ _ _ _ _ Hfirst).
      unfold vertexAt. simpl. rewrite lookup_total_insert_eq. reflexivity.
  - (* only a cut: the nearer end of b *)
    inv_bind Hrun as g2 Hrun Heq. injection Heq as ->.
    destruct (splitEdge_summary subdividedCurve b aEdge aT (nearerEnd g bEdge bT) g g' Hwf Ha)
      as (Hwf2 & Hvs2 & Hle2 & Hsplit2 & Hkept2 & Hin2 & Hold2);
      [apply nearerEnd_made; assumption | exact Hrun |].
    split; [exact Hwf2|]. exists (nearerEnd g bEdge bT). cbn [andb]. splits; auto.
  - (* only b cut: the nearer end of a *)
    destruct (splitEdge_summary subdividedCurve b bEdge bT (nearerEnd g aEdge aT) g g' Hwf Hb)
      as (Hwf2 & Hvs2 & Hle2 & Hsplit2 & Hkept2 & Hin2 & Hold2);
      [apply nearerEnd_made; assumption | exact Hrun |].
    split; [exact Hwf2|]. exists (nearerEnd g aEdge aT). cbn [andb]. splits; auto.
  - (* neither *)
    injection Hrun as <-. split; [exact Hwf|].
    exists (nearerEnd g aEdge aT). cbn [andb]. splits; auto using keptWhole_refl; discriminate.
Qed.

(** C5.  In a round of [eliminateIntersection] the scan hands [simpleSplit]
    an intersection that [Segment.intersect] gave for the two edges and of
    which at least one parameter is internal: greater than [1e-5] and less
    than [1 - 1e-5], as the code computes and compares them.  [simpleSplit]
    then cuts the edge [a] in two exactly when its parameter is internal and
    leaves it whole otherwise, and the same for [b]; the pieces of a cut edge
    meet at one vertex, which is the
    nearer end (by [t < 0.5]) of the edge that is not cut, and a new vertex
    at the point of the intersection, pushed on the array of vertices, when
    both are cut. *)
Theorem intersection_split_shares_vertex
    (b : bool) (g g' : Graph) (aEdge bEdge : nat) (x : Intersection.t) :
  wellFormed g ->
  scanIntersections intersect g (edges g) = Some (aEdge, bEdge, x) ->
  simpleSplit b subdividedCurve aEdge bEdge (Intersection.aT x) (Intersection.bT x)
    (Intersection.point x) g = Done g' ->
  x ∈ intersect (segment (edgeAt g aEdge)) (segment (edgeAt g bEdge)) /\
  (internal (Intersection.aT x) = true \/ internal (Intersection.bT x) = true) /\
  (forall rounds,
     eliminateIntersection b intersect subdividedCurve (S rounds) g =
     eliminateIntersection b intersect subdividedCurve rounds g') /\
  sharesOneVertex subdividedCurve g g' aEdge bEdge (Intersection.aT x) (Intersection.bT x)
    (Intersection.point x).
Proof.
  intros Hwf Hscan Hrun.
  destruct (scanIntersections_Some intersect g _ _ _ _ Hscan) as (Hpos & Hx & Hkept).
  destruct (scanned_pair_distinct _ _ _ (wf_edges_once _ Hwf) Hpos) as (Ha & Hb & Hne).
  assert (Hint : internal (Intersection.aT x) = true \/ internal (Intersection.bT x) = true).
  { unfold keptIntersection in Hkept. apply orb_true_iff in Hkept. exact Hkept. }
  splits; auto.
  - intros rounds. simpl. rewrite Hscan, Hrun. reflexivity.
  - apply (simpleSplit_cases b g g' aEdge bEdge _ _ _ Hwf Ha Hb Hne Hrun).
Qed.

End SimpleSplit.

(** ** [splitOverlap] *)

Lemma ends_pushVertex (p : Vector2) (g : Graph) :
  wellFormed g -> verticesListEnds g ->
  verticesListEnds (withVertices (vertices g ++ [nextId g]) (snd (createVertex p g))).
Proof.
  intros Hwf Hends v Hv. simpl in Hv. apply elem_of_app in Hv as [Hv | Hv].
  - change (listsHalfEdgesEndingAt (snd (createVertex p g)) v).
    apply ends_createVertex_other; [|auto].
    apply (wf_vertices_made _ Hwf) in Hv. lia.
  - apply list_elem_of_singleton in Hv. subst v.
    change (listsHalfEdgesEndingAt (snd (createVertex p g)) (nextId g)).
    apply ends_createVertex_new, ends_fresh_vertex. exact Hwf.
Qed.

Lemma joinVertex_sound (onA onB : option Segment) (p : Vector2) (ofB ofA : nat)
    (g g' : Graph) (v : nat) :
  wellFormed g -> ofB < nextId g -> ofA < nextId g ->
  joinVertex onA onB p ofB ofA g = (v, g') ->
  wellFormed g' /\ v < nextId g' /\ nextId g <= nextId g' /\
  edges g' = edges g /\ loops g' = loops g /\ edgeArena g' = edgeArena g /\
  (verticesListEnds g -> verticesListEnds g').
Proof.
  intros Hwf HB HA Hrun. unfold joinVertex in Hrun.
  destruct onA as [sa|]; [destruct onB as [sb|]|].
  - unfold createVertex in Hrun. cbv zeta in Hrun. injection Hrun as <- <-.
    splits; simpl; auto.
    + apply (wf_pushVertex p g Hwf).
    + apply (ends_pushVertex p g Hwf).
  - injection Hrun as <- <-. splits; auto.
  - injection Hrun as <- <-. splits; auto.
Qed.

Lemma addPiece_sound (b : bool) (piece : option Segment) (x y : nat) (g g' : Graph)
    (made : option nat) :
  wellFormed g -> x < nextId g -> y < nextId g ->
  addPiece b piece x y g = Done (made, g') ->
  wellFormed g' /\
  (forall v, listsHalfEdgesEndingAt g v -> listsHalfEdgesEndingAt g' v) /\
  vertices g' = vertices g /\ loops g' = loops g /\ nextId g <= nextId g' /\
  edges g' = edges g ++ edgeList made /\
  (forall e, e ∈ edgeList made -> nextId g <= e < nextId g') /\
  (is_Some made <-> is_Some piece).
Proof.
  intros Hwf Hx Hy Hrun. unfold addPiece in Hrun. destruct piece as [s|].
  - unfold createEdge in Hrun. cbv zeta in Hrun.
    inv_bind Hrun as g2 Hadd Hrun. injection Hrun as <- <-.
    destruct (createEdge_addEdge b s x y g g2 Hwf Hx Hy Hadd)
      as (Hwf2 & Hends & Hvs & Hls & Hids & Hnext & Hes).
    splits; auto; try lia.
    + intros e He. simpl in He. apply list_elem_of_singleton in He. lia.
    + split; eauto.
  - injection Hrun as <- <-. splits; auto.
    + simpl. rewrite app_nil_r. reflexivity.
    + intros e He. inversion He.
    + split; intros [? ?]; discriminate.
Qed.

Lemma edgeList_length (made : option nat) : length (edgeList made) <= 1.
Proof. destruct made; simpl; lia. Qed.

Section SplitOverlap.
Variable subdividedCurve : Segment -> number -> Segment * Segment.
Variable linear : number -> number -> number -> number -> number -> number.

Lemma splitOverlap_sound (b : bool) (aEdge bEdge : nat) (overlap : Overlap.t) (g g' : Graph) :
  wellFormed g -> aEdge ∈ edges g -> bEdge ∈ edges g ->
  splitOverlap b subdividedCurve linear aEdge bEdge overlap g = Done g' ->
  wellFormed g' /\
  (verticesListEnds g -> verticesListEnds g') /\
  replacedBySharedMiddle g g' aEdge bEdge.
Proof.
  intros Hwf Ha Hb Hrun. unfold splitOverlap in Hrun.
  set (A := edgeAt g aEdge) in *. set (B := edgeAt g bEdge) in *.
  set (g1 := removeEdge bEdge (removeEdge aEdge g)) in *.
  set (rounded := roundOverlap overlap) in *.
  set (aBefore := if ngt (Overlap.t0 rounded) zero
                  then Some (fst (subdivided subdividedCurve (segment A) (Overlap.t0 rounded)))
                  else None) in *.
  set (bBefore := if ngt (Overlap.qt0 rounded) zero
                  then Some (fst (subdivided subdividedCurve (segment B) (Overlap.qt0 rounded)))
                  else None) in *.
  set (aAfter := if nlt (Overlap.t1 rounded) one
                 then Some (snd (subdivided subdividedCurve (segment A) (Overlap.t1 rounded)))
                 else None) in *.
  set (bAfter := if nlt (Overlap.qt1 rounded) one
                 then Some (snd (subdivided subdividedCurve (segment B) (Overlap.qt1 rounded)))
                 else None) in *.
  set (middle0 := if ngt (Overlap.t0 rounded) zero
                  then snd (subdivided subdividedCurve (segment A) (Overlap.t0 rounded))
                  else segment A) in *.
  set (middle := if nlt (Overlap.t1 rounded) one
                 then fst (subdivided subdividedCurve middle0
                             (linear (Overlap.t0 rounded) one zero one (Overlap.t1 rounded)))
                 else middle0) in *.
  set (sameWay := ngt (Overlap.a overlap) zero) in *.
  destruct (wf_ends_made _ Hwf _ Ha) as [HAs HAe]. fold A in HAs, HAe.
  destruct (wf_ends_made _ Hwf _ Hb) as [HBs HBe]. fold B in HBs, HBe.
  assert (Hwf1 : wellFormed g1) by (apply wf_removeEdge, wf_removeEdge; exact Hwf).
  assert (Hends1 : verticesListEnds g -> verticesListEnds g1).
  { intros Hends v Hv. apply ends_removeEdge; [apply wf_removeEdge, Hwf|].
    apply ends_removeEdge; [apply Hwf|]. apply Hends. exact Hv. }
  destruct (joinVertex aBefore bBefore (seg_start middle)
              (if sameWay then startVertex B else endVertex B) (startVertex A) g1)
    as [beforeVertex g2] eqn:Hjoin1.
  assert (Hn1 : nextId g1 = nextId g) by reflexivity.
  assert (HB1 : (if sameWay then startVertex B else endVertex B) < nextId g1).
  { rewrite Hn1. destruct sameWay; assumption. }
  assert (HA1 : startVertex A < nextId g1) by (rewrite Hn1; assumption).
  destruct (joinVertex_sound _ _ _ _ _ _ _ _ Hwf1 HB1 HA1 Hjoin1)
    as (Hwf2 & Hbv & Hle2 & Hes2 & Hls2 & Harena2 & Hends2).
  destruct (joinVertex aAfter bAfter (seg_end middle)
              (if sameWay then endVertex B else startVertex B) (endVertex A) g2)
    as [afterVertex g3] eqn:Hjoin2.
  assert (HB2 : (if sameWay then endVertex B else startVertex B) < nextId g2).
  { destruct sameWay; lia. }
  assert (HA2 : endVertex A < nextId g2) by lia.
  destruct (joinVertex_sound _ _ _ _ _ _ _ _ Hwf2 HB2 HA2 Hjoin2)
    as (Hwf3 & Hav & Hle3 & Hes3 & Hls3 & Harena3 & Hends3).
  unfold createEdge in Hrun. cbv zeta in Hrun.
  inv_bind Hrun as g5 Hmiddle Hrun.
  assert (Hbv3 : beforeVertex < nextId g3) by lia.
  destruct (createEdge_addEdge b middle beforeVertex afterVertex g3 g5 Hwf3 Hbv3 Hav Hmiddle)
    as (Hwf5 & Hends5 & Hvs5 & Hls5 & Hids5 & Hnext5 & Hes5).
  inv_bind Hrun as [aBeforeEdge g6] Hp6 Hrun.
  assert (Hx6 : startVertex A < nextId g5) by lia.
  assert (Hy6 : beforeVertex < nextId g5) by lia.
  destruct (addPiece_sound _ _ _ _ _ _ _ Hwf5 Hx6 Hy6 Hp6)
    as (Hwf6 & Hends6 & Hvs6 & Hls6 & Hle6 & Hes6 & Hnew6 & _).
  inv_bind Hrun as [aAfterEdge g7] Hp7 Hrun.
  assert (Hx7 : afterVertex < nextId g6) by lia.
  assert (Hy7 : endVertex A < nextId g6) by lia.
  destruct (addPiece_sound _ _ _ _ _ _ _ Hwf6 Hx7 Hy7 Hp7)
    as (Hwf7 & Hends7 & Hvs7 & Hls7 & Hle7 & Hes7 & Hnew7 & _).
  inv_bind Hrun as [bBeforeEdge g8] Hp8 Hrun.
  assert (Hx8 : startVertex B < nextId g7) by lia.
  assert (Hy8 : (if sameWay then beforeVertex else afterVertex) < nextId g7).
  { destruct sameWay; lia. }
  destruct (addPiece_sound _ _ _ _ _ _ _ Hwf7 Hx8 Hy8 Hp8)
    as (Hwf8 & Hends8 & Hvs8 & Hls8 & Hle8 & Hes8 & Hnew8 & _).
  inv_bind Hrun as [bAfterEdge g9] Hp9 Hrun.
  assert (Hx9 : (if sameWay then afterVertex else beforeVertex) < nextId g8).
  { destruct sameWay; lia. }
  assert (Hy9 : endVertex B < nextId g8) by lia.
  destruct (addPiece_sound _ _ _ _ _ _ _ Hwf8 Hx9 Hy9 Hp9)
    as (Hwf9 & Hends9 & Hvs9 & Hls9 & Hle9 & Hes9 & Hnew9 & _).
  injection Hrun as <-.
  set (middleEdge := nextId g3) in *.
  splits.
  - apply wf_replaceEdgeInLoops, wf_replaceEdgeInLoops. exact Hwf9.
  - intros Hends v Hv. simpl in Hv. rewrite Hvs9, Hvs8, Hvs7, Hvs6, Hvs5 in Hv.
    change (listsHalfEdgesEndingAt g9 v).
    apply Hends9, Hends8, Hends7, Hends6, Hends5, Hends3; auto.
  - exists middleEdge, (edgeList aBeforeEdge ++ edgeList aAfterEdge),
      (edgeList bBeforeEdge ++ edgeList bAfterEdge).
    eexists _, _.
    assert (Hnew : forall e, e ∈ middleEdge :: (edgeList aBeforeEdge ++ edgeList aAfterEdge) ++
                               edgeList bBeforeEdge ++ edgeList bAfterEdge ->
                             nextId g <= e).
    { intros e He. apply elem_of_cons in He as [-> | He]; [subst middleEdge; lia|].
      rewrite !elem_of_app in He.
      destruct He as [[He | He] | [He | He]];
        [apply Hnew6 in He | apply Hnew7 in He | apply Hnew8 in He | apply Hnew9 in He]; lia. }
    splits.
    + simpl. rewrite Hes9, Hes8, Hes7, Hes6, Hes5, Hes3, Hes2.
      change (edges g1) with (arrayRemove (arrayRemove (edges g) aEdge) bEdge).
      rewrite <- !app_assoc. reflexivity.
    + rewrite length_app.
      pose proof (edgeList_length aBeforeEdge). pose proof (edgeList_length aAfterEdge). lia.
    + rewrite length_app.
      pose proof (edgeList_length bBeforeEdge). pose proof (edgeList_length bAfterEdge). lia.
    + assert (Hnd9 : NoDup (edges g9)) by apply Hwf9.
      rewrite Hes9, Hes8, Hes7, Hes6, Hes5 in Hnd9.
      rewrite <- !app_assoc in Hnd9. apply NoDup_app in Hnd9 as (_ & _ & Hnd9).
      simpl in Hnd9. rewrite <- !app_assoc. exact Hnd9.
    + intros e He Hin. apply Hnew in He. apply (wf_edges_made _ Hwf) in Hin. lia.
    + simpl. rewrite Hls9, Hls8, Hls7, Hls6, Hls5, Hls3, Hls2. reflexivity.
    + rewrite list_elem_of_fmap. exists middleEdge. split; [reflexivity|].
      apply elem_of_app. right. apply list_elem_of_here.
    + destruct sameWay.
      * left. rewrite list_elem_of_fmap. exists middleEdge. split.
        -- rewrite orb_true_r. reflexivity.
        -- apply elem_of_app. right. apply list_elem_of_here.
      * right. rewrite list_elem_of_fmap. exists middleEdge. split.
        -- rewrite bool_decide_eq_true_2 by reflexivity. reflexivity.
        -- apply elem_of_app. right. apply list_elem_of_here.
    + intros h Hh. apply list_elem_of_fmap in Hh as (e & -> & He). simpl.
      apply elem_of_app in He as [He | He]; [right; apply elem_of_app; auto|].
      apply elem_of_cons in He as [-> | He]; [auto|]. right. apply elem_of_app. auto.
    + intros h Hh. apply list_elem_of_fmap in Hh as (e & -> & He).
      assert (Hedge : edge (if negb (bool_decide (e = middleEdge)) || sameWay
                            then forwardHalf e else reversedHalf e) = e).
      { destruct (negb (bool_decide (e = middleEdge)) || sameWay); reflexivity. }
      rewrite Hedge.
      apply elem_of_app in He as [He | He]; [right; apply elem_of_app; auto|].
      apply elem_of_cons in He as [-> | He]; [auto|]. right. apply elem_of_app. auto.
Qed.





End SplitOverlap.

(** ** The scan for an overlap *)

Section Overlaps.
Variable subdividedCurve : Segment -> number -> Segment * Segment.
Variable lineGetOverlaps : Segment -> Segment -> list Overlap.t.
Variable quadraticGetOverlaps : Segment -> Segment -> list Overlap.t.
Variable cubicGetOverlaps : Segment -> Segment -> list Overlap.t.
Variable linear : number -> number -> number -> number -> number -> number.

Local Abbreviation overlapsOf' :=
  (overlapsOf lineGetOverlaps quadraticGetOverlaps cubicGetOverlaps).
Local Abbreviation scanOverlaps' :=
  (scanOverlaps lineGetOverlaps quadraticGetOverlaps cubicGetOverlaps).

Lemma scanOverlapsWith_Some (g : Graph) (a : nat) (behind : list nat)
    (a' b : nat) (overlap : Overlap.t) :
  scanOverlapsWith lineGetOverlaps quadraticGetOverlaps cubicGetOverlaps g a behind
    = Some (a', b, overlap) ->
  a' = a /\ b ∈ behind /\
  overlap ∈ overlapsOf' (segment (edgeAt g a)) (segment (edgeAt g b)) /\
  significantOverlap overlap = true.
Proof.
  induction behind as [| c rest IH]; simpl; [discriminate|].
  destruct (find significantOverlap
              (overlapsOf' (segment (edgeAt g a)) (segment (edgeAt g c)))) as [o|] eqn:E.
  - intros [= <- <- <-]. apply find_some in E as [Hin Hs].
    splits; auto; [apply list_elem_of_here | apply list_elem_of_In; exact Hin].
  - intros H. destruct (IH H) as (-> & Hb & Hx & Hk).
    splits; auto. apply list_elem_of_further. exact Hb.
Qed.

Lemma scanOverlaps_Some (g : Graph) (es : list nat) (a b : nat) (overlap : Overlap.t) :
  scanOverlaps' g es = Some (a, b, overlap) ->
  (exists before behind, es = before ++ a :: behind /\ b ∈ behind) /\
  overlap ∈ overlapsOf' (segment (edgeAt g a)) (segment (edgeAt g b)) /\
  significantOverlap overlap = true.
Proof.
  induction es as [| c rest IH]; simpl; [discriminate|].
  destruct (scanOverlapsWith lineGetOverlaps quadraticGetOverlaps cubicGetOverlaps g c rest)
    as [[[a' b'] x']|] eqn:E.
  - intros [= -> -> ->].
    apply scanOverlapsWith_Some in E as (-> & Hb & Hx & Hk).
    splits; auto. exists [], rest. split; [reflexivity | exact Hb].
  - intros H. destruct (IH H) as ((before & behind & -> & Hb) & Hx & Hk).
    splits; auto. exists (c :: before), behind. split; [reflexivity | exact Hb].
Qed.


End Overlaps.

(** ** Winding maps: how the maps are built *)

Lemma foldl_insert_lookup (val : Z -> option Z) (l : list Z) (m0 : gmap Z Z) (s : Z) :
  foldl (fun m id => match val id with Some v => <[ id := v ]> m | None => m end) m0 l !! s
  = if decide (s ∈ l) then match val s with Some v => Some v | None => m0 !! s end
    else m0 !! s.
Proof.
  revert m0. induction l as [| x l IH]; intros m0; cbn [foldl].
  - destruct (decide (s ∈ [])) as [Hin |]; [inversion Hin | reflexivity].
  - rewrite IH. destruct (decide (s = x)) as [-> | Hne].
    + rewrite (decide_True (P := x ∈ x :: l)) by apply list_elem_of_here.
      destruct (val x) as [v|]; [rewrite lookup_insert_eq|]; destruct (decide (x ∈ l)); reflexivity.
    + assert (Hm : match val x with Some v => <[ x := v ]> m0 | None => m0 end !! s = m0 !! s).
      { destruct (val x); [apply lookup_insert_ne; congruence | reflexivity]. }
      rewrite Hm.
      destruct (decide (s ∈ l)) as [Hin | Hout].
      * rewrite decide_True by (apply list_elem_of_further; exact Hin). reflexivity.
      * rewrite decide_False; [reflexivity|].
        intros Hin. apply elem_of_cons in Hin as [Heq | Hin]; contradiction.
Qed.

Lemma outsideMap_lookup (ids : list Z) (s : Z) :
  outsideMap ids !! s = if decide (s ∈ ids) then Some 0%Z else None.
Proof.
  unfold outsideMap.
  rewrite (foldl_insert_lookup (fun _ => Some 0%Z) ids ∅ s).
  rewrite lookup_empty. reflexivity.
Qed.

Lemma foldl_pointwise {A B} (f f' : A -> B -> A) (a : A) (l : list B) :
  (forall a x, f a x = f' a x) -> foldl f a l = foldl f' a l.
Proof.
  intros Hext. revert a. induction l as [| x l IH]; intros a; simpl; [reflexivity|].
  rewrite Hext. apply IH.
Qed.

Lemma solvedAcross_lookup (e : nat) (solved : gmap Z Z) (solvedForward : bool) (g : Graph) (s : Z) :
  solvedAcross e solved solvedForward g !! s =
    if decide (s ∈ shapeIds g)
    then (fun w => (w + computeDifferential e s g * (if solvedForward then -1 else 1))%Z)
           <$> solved !! s
    else None.
Proof.
  unfold solvedAcross.
  rewrite (foldl_pointwise _
             (fun m id =>
                match (fun w => (w + computeDifferential e id g *
                                       (if solvedForward then -1 else 1))%Z) <$> solved !! id with
                | Some v => <[ id := v ]> m
                | None => m
                end)).
  - rewrite (foldl_insert_lookup
               (fun id => (fun w => (w + computeDifferential e id g *
                                          (if solvedForward then -1 else 1))%Z) <$> solved !! id)
               (shapeIds g) ∅ s).
    rewrite lookup_empty. destruct (decide (s ∈ shapeIds g)); [|reflexivity].
    destruct (solved !! s); reflexivity.
  - intros m id. destruct (solved !! id); reflexivity.
Qed.

(** ** Winding maps: writing one *)

Lemma setWindingMap_frame (f : nat) (m : gmap Z Z) (g : Graph) :
  exists arena, setWindingMap f m g = withFaceArena arena g.
Proof. eexists. reflexivity. Qed.

Lemma windingMap_set_same (f : nat) (m : gmap Z Z) (g : Graph) :
  is_Some (faceArena g !! f) ->
  windingMap (faceAt (setWindingMap f m g) f) = Some m.
Proof.
  intros [F HF]. unfold faceAt, setWindingMap. simpl.
  rewrite lookup_total_alter, decide_True by reflexivity. rewrite HF. reflexivity.
Qed.

Lemma faceAt_set_other (f x : nat) (m : gmap Z Z) (g : Graph) :
  f <> x -> faceAt (setWindingMap f m g) x = faceAt g x.
Proof.
  intros Hne. unfold faceAt, setWindingMap. simpl.
  apply lookup_total_alter_ne. exact Hne.
Qed.

Lemma windingMap_set_inv (f x : nat) (m m' : gmap Z Z) (g : Graph) :
  windingMap (faceAt (setWindingMap f m g) x) = Some m' ->
  (f = x /\ m' = m) \/ windingMap (faceAt g x) = Some m'.
Proof.
  destruct (decide (f = x)) as [-> | Hne].
  - unfold faceAt, setWindingMap. simpl.
    rewrite lookup_total_alter, decide_True by reflexivity.
    rewrite lookup_total_alt.
    destruct (faceArena g !! x); simpl; intros H; [left | right]; [split|]; congruence.
  - rewrite faceAt_set_other by exact Hne. auto.
Qed.

Lemma set_keeps_solved (f x : nat) (m mx : gmap Z Z) (g : Graph) :
  windingMap (faceAt g f) = None ->
  windingMap (faceAt g x) = Some mx ->
  windingMap (faceAt (setWindingMap f m g) x) = Some mx.
Proof.
  intros Hf Hx. rewrite faceAt_set_other; [exact Hx|]. intros ->. congruence.
Qed.

Lemma is_Some_setWindingMap (f x : nat) (m : gmap Z Z) (g : Graph) :
  is_Some (faceArena (setWindingMap f m g) !! x) <-> is_Some (faceArena g !! x).
Proof.
  unfold setWindingMap. simpl. rewrite lookup_alter.
  destruct (decide (f = x)) as [-> | _]; [|reflexivity].
  rewrite fmap_is_Some. reflexivity.
Qed.

(** ** Winding maps: one edge of the loop *)

Section Winding.
Variable assertEnabled : bool.

(** What the body of the loop did, by the maps it found on the two sides. *)
Definition windingMoved (j : nat) (es : list nat) (g : Graph) (es' : list nat) (g' : Graph)
    (e f f' : nat) : Prop :=
  match windingMap (faceAt g f), windingMap (faceAt g f') with
  | Some forwardMap, Some reversedMap =>
      es' = spliceOut j es /\ g' = g /\
      (assertEnabled = true -> differentialAgrees e forwardMap reversedMap g = true)
  | None, None => es' = es /\ g' = g
  | Some forwardMap, None =>
      es' = es /\ g' = setWindingMap f' (solvedAcross e forwardMap true g) g
  | None, Some reversedMap =>
      es' = es /\ g' = setWindingMap f (solvedAcross e reversedMap false g) g
  end.

Lemma windingStep_cases (j : nat) (es : list nat) (g : Graph) (es' : list nat) (g' : Graph) :
  windingStep assertEnabled j es g = Done (es', g') ->
  exists e f f', es !! j = Some e /\ bordersFaces g e f f' /\ windingMoved j es g es' g' e f f'.
Proof.
  unfold windingStep. intros Hrun.
  inv_bind Hrun as e He Hrun. apply ofOption_Done in He.
  inv_bind Hrun as u Hu Hrun.
  inv_bind Hrun as f Hf Hrun. apply ofOption_Done in Hf.
  inv_bind Hrun as f' Hf' Hrun. apply ofOption_Done in Hf'.
  exists e, f, f'. split; [exact He|]. split; [split; assumption|].
  unfold windingMoved.
  destruct (windingMap (faceAt g f)) as [wf|], (windingMap (faceAt g f')) as [wr|].
  - inv_bind Hrun as u' Hagree Hrun. injection Hrun as <- <-.
    splits; auto. intros Hon. unfold assert in Hagree.
    apply assertWhen_Done in Hagree as [Hoff | Hok]; congruence.
  - injection Hrun as <- <-. auto.
  - injection Hrun as <- <-. auto.
  - injection Hrun as <- <-. auto.
Qed.

(** The body of the loop returns, or an assertion fails. *)
Lemma windingStep_total (j : nat) (es : list nat) (g : Graph) (e f f' : nat) :
  es !! j = Some e -> bordersFaces g e f f' ->
  (exists r, windingStep assertEnabled j es g = Done r) \/
  (assertEnabled = true /\ exists msg, windingStep assertEnabled j es g = Throws (AssertionError msg)).
Proof.
  intros He [Hf Hf']. unfold windingStep. rewrite He. simpl.
  unfold assert, assertWhen.
  destruct (assertEnabled && negb (negb (bool_decide (forwardFace (edgeAt g e) =
                                                        reversedFace (edgeAt g e))))) eqn:E1.
  - right. apply andb_true_iff in E1 as [-> _]. simpl. eauto.
  - simpl. rewrite Hf, Hf'. simpl.
    destruct (windingMap (faceAt g f)) as [wf|], (windingMap (faceAt g f')) as [wr|]; eauto.
    destruct (assertEnabled && negb (differentialAgrees e wf wr g)) eqn:E2; simpl; eauto.
    right. apply andb_true_iff in E2 as [-> _]. eauto.
Qed.

(** ** Winding maps: what holds all along *)

(** The edge has a map on each side, and they passed the assertion when
    assertions are on. *)
Definition spliced (g : Graph) (e : nat) : Prop :=
  exists f f' forwardMap reversedMap,
    bordersFaces g e f f' /\
    windingMap (faceAt g f) = Some forwardMap /\
    windingMap (faceAt g f') = Some reversedMap /\
    (assertEnabled = true -> differentialAgrees e forwardMap reversedMap g = true).

(** [g] is [g0] but for the winding maps, of which it has at least those
    of [g0]; every edge of [g0] is still in the work list [es] or has a map
    on each side. *)
Record windingInv (g0 : Graph) (es : list nat) (g : Graph) : Prop := {
  wi_frame : exists arena, g = withFaceArena arena g0;
  wi_objects : forall f, is_Some (faceArena g !! f) <-> is_Some (faceArena g0 !! f);
  wi_work : forall e, e ∈ es -> e ∈ edges g0;
  wi_done : forall e, e ∈ edges g0 -> e ∈ es \/ spliced g e;
  wi_outside : is_Some (windingMap (faceAt g (unboundedFace g0)))
}.

Lemma frame_bordersFaces (g0 g : Graph) (e f f' : nat) :
  (exists arena, g = withFaceArena arena g0) ->
  bordersFaces g e f f' <-> bordersFaces g0 e f f'.
Proof. intros [arena ->]. reflexivity. Qed.


Lemma frame_set (g0 g : Graph) (f : nat) (m : gmap Z Z) :
  (exists arena, g = withFaceArena arena g0) ->
  exists arena, setWindingMap f m g = withFaceArena arena g0.
Proof. intros [arena ->]. eexists. reflexivity. Qed.

Lemma spliced_set (g : Graph) (e x : nat) (m : gmap Z Z) :
  windingMap (faceAt g x) = None ->
  spliced g e -> spliced (setWindingMap x m g) e.
Proof.
  intros Hx (f & f' & wf & wr & Hb & Hf & Hf' & Hok).
  exists f, f', wf, wr. splits.
  - exact Hb.
  - apply set_keeps_solved; assumption.
  - apply set_keeps_solved; assumption.
  - exact Hok.
Qed.

Lemma elem_of_spliceOut {A} (j : nat) (l : list A) (x y : A) :
  l !! j = Some y -> x ∈ l -> x ∈ spliceOut j l \/ x = y.
Proof.
  intros Hj Hx. unfold spliceOut.
  rewrite <- (take_drop_middle l j y Hj) in Hx.
  apply elem_of_app in Hx as [Hx | Hx]; [left; apply elem_of_app; auto|].
  apply elem_of_cons in Hx as [-> | Hx]; [auto|]. left. apply elem_of_app; auto.
Qed.

Lemma spliceOut_subset {A} (j : nat) (l : list A) (x : A) : x ∈ spliceOut j l -> x ∈ l.
Proof.
  unfold spliceOut. intros Hx. apply elem_of_app in Hx as [Hx | Hx].
  - apply (subseteq_take j l). exact Hx.
  - apply (subseteq_drop (S j) l). exact Hx.
Qed.

Lemma windingStep_inv (g0 : Graph) (j : nat) (es : list nat) (g : Graph)
    (es' : list nat) (g' : Graph) :
  windingInv g0 es g ->
  windingStep assertEnabled j es g = Done (es', g') ->
  windingInv g0 es' g'.
Proof.
  intros [Hframe Hobj Hwork Hdone Hout] Hrun.
  destruct (windingStep_cases _ _ _ _ _ Hrun) as (e & f & f' & He & Hb & Hmoved).
  unfold windingMoved in Hmoved.
  destruct (windingMap (faceAt g f)) as [wf|] eqn:Hf,
           (windingMap (faceAt g f')) as [wr|] eqn:Hf'.
  - destruct Hmoved as (-> & -> & Hok). constructor; auto.
    + intros x Hx. apply Hwork. eapply spliceOut_subset. exact Hx.
    + intros x Hx. destruct (Hdone x Hx) as [Hin | Hsp]; [|auto].
      destruct (elem_of_spliceOut j es x e He Hin) as [Hin' | ->]; [auto|].
      right. exists f, f', wf, wr. auto.
  - destruct Hmoved as (-> & ->). constructor.
    + apply frame_set. exact Hframe.
    + intros x. rewrite is_Some_setWindingMap. apply Hobj.
    + exact Hwork.
    + intros x Hx. destruct (Hdone x Hx) as [Hin | Hsp]; [auto|].
      right. apply spliced_set; assumption.
    + destruct Hout as [mu Hmu]. exists mu. apply set_keeps_solved; assumption.
  - destruct Hmoved as (-> & ->). constructor.
    + apply frame_set. exact Hframe.
    + intros x. rewrite is_Some_setWindingMap. apply Hobj.
    + exact Hwork.
    + intros x Hx. destruct (Hdone x Hx) as [Hin | Hsp]; [auto|].
      right. apply spliced_set; assumption.
    + destruct Hout as [mu Hmu]. exists mu. apply set_keeps_solved; assumption.
  - destruct Hmoved as (-> & ->). constructor; auto.
Qed.

Lemma windingPass_inv (g0 : Graph) (n : nat) :
  forall (es : list nat) (g : Graph) (es' : list nat) (g' : Graph),
  windingInv g0 es g ->
  windingPass assertEnabled n es g = Done (es', g') ->
  windingInv g0 es' g'.
Proof.
  induction n as [| j IH]; intros es g es' g' Hinv Hrun; simpl in Hrun.
  - injection Hrun as <- <-. exact Hinv.
  - inv_bind Hrun as [es1 g1] Hstep Hrun.
    eapply IH; [|exact Hrun]. eapply windingStep_inv; eassumption.
Qed.

Lemma windingRounds_inv (g0 : Graph) (rounds : nat) :
  forall (es : list nat) (g g' : Graph),
  windingInv g0 es g ->
  windingRounds assertEnabled rounds es g = Done g' ->
  windingInv g0 [] g'.
Proof.
  induction rounds as [| rounds IH]; intros es g g' Hinv Hrun.
  - destruct es; simpl in Hrun; [|discriminate]. injection Hrun as <-. exact Hinv.
  - destruct es as [| e0 es0]; [simpl in Hrun; injection Hrun as <-; exact Hinv|].
    cbn [windingRounds] in Hrun.
    inv_bind Hrun as [es1 g1] Hpass Hrun.
    eapply IH; [|exact Hrun]. eapply windingPass_inv; eassumption.
Qed.

(** The start of [computeWindingMap]: the map of the outside written. *)
Lemma windingInv_start (g : Graph) :
  is_Some (faceArena g !! unboundedFace g) ->
  windingInv g (edges g) (setWindingMap (unboundedFace g) (outsideMap (shapeIds g)) g).
Proof.
  intros Hu. constructor.
  - apply setWindingMap_frame.
  - intros f. apply is_Some_setWindingMap.
  - auto.
  - auto.
  - rewrite windingMap_set_same by exact Hu. eauto.
Qed.

End Winding.

(** ** Winding maps: a map once written stays *)

Section WindingKeeps.
Variable assertEnabled : bool.

Lemma windingStep_keeps (j : nat) (es : list nat) (g : Graph) (es' : list nat) (g' : Graph)
    (x : nat) (mx : gmap Z Z) :
  windingStep assertEnabled j es g = Done (es', g') ->
  windingMap (faceAt g x) = Some mx -> windingMap (faceAt g' x) = Some mx.
Proof.
  intros Hrun Hx.
  destruct (windingStep_cases _ _ _ _ _ _ Hrun) as (e & f & f' & He & Hb & Hmoved).
  unfold windingMoved in Hmoved.
  destruct (windingMap (faceAt g f)) as [wf|] eqn:Hf,
           (windingMap (faceAt g f')) as [wr|] eqn:Hf'.
  - destruct Hmoved as (_ & -> & _). exact Hx.
  - destruct Hmoved as (_ & ->). apply set_keeps_solved; assumption.
  - destruct Hmoved as (_ & ->). apply set_keeps_solved; assumption.
  - destruct Hmoved as (_ & ->). exact Hx.
Qed.

Lemma windingPass_keeps (n : nat) (x : nat) (mx : gmap Z Z) :
  forall (es : list nat) (g : Graph) (es' : list nat) (g' : Graph),
  windingPass assertEnabled n es g = Done (es', g') ->
  windingMap (faceAt g x) = Some mx -> windingMap (faceAt g' x) = Some mx.
Proof.
  induction n as [| j IH]; intros es g es' g' Hrun Hx; simpl in Hrun.
  - injection Hrun as <- <-. exact Hx.
  - inv_bind Hrun as [es1 g1] Hstep Hrun.
    eapply IH; [exact Hrun|]. eapply windingStep_keeps; eassumption.
Qed.

Lemma windingRounds_keeps (rounds : nat) (x : nat) (mx : gmap Z Z) :
  forall (es : list nat) (g g' : Graph),
  windingRounds assertEnabled rounds es g = Done g' ->
  windingMap (faceAt g x) = Some mx -> windingMap (faceAt g' x) = Some mx.
Proof.
  induction rounds as [| rounds IH]; intros es g g' Hrun Hx.
  - destruct es; simpl in Hrun; [|discriminate]. injection Hrun as <-. exact Hx.
  - destruct es as [| e0 es0]; [simpl in Hrun; injection Hrun as <-; exact Hx|].
    cbn [windingRounds] in Hrun.
    inv_bind Hrun as [es1 g1] Hpass Hrun.
    eapply IH; [exact Hrun|]. eapply windingPass_keeps; eassumption.
Qed.

Lemma filled_setWindingMap (f x : nat) (m : gmap Z Z) (g : Graph) :
  filled (faceAt (setWindingMap f m g) x) = filled (faceAt g x).
Proof.
  destruct (decide (f = x)) as [-> | Hne]; [|rewrite faceAt_set_other by exact Hne; reflexivity].
  unfold faceAt, setWindingMap. simpl.
  rewrite lookup_total_alter, decide_True by reflexivity.
  rewrite lookup_total_alt. destruct (faceArena g !! x); reflexivity.
Qed.

Lemma windingStep_filled (j : nat) (es : list nat) (g : Graph) (es' : list nat) (g' : Graph)
    (x : nat) :
  windingStep assertEnabled j es g = Done (es', g') ->
  filled (faceAt g' x) = filled (faceAt g x).
Proof.
  intros Hrun.
  destruct (windingStep_cases _ _ _ _ _ _ Hrun) as (e & f & f' & He & Hb & Hmoved).
  unfold windingMoved in Hmoved.
  destruct (windingMap (faceAt g f)) as [wf|], (windingMap (faceAt g f')) as [wr|].
  - destruct Hmoved as (_ & -> & _). reflexivity.
  - destruct Hmoved as (_ & ->). apply filled_setWindingMap.
  - destruct Hmoved as (_ & ->). apply filled_setWindingMap.
  - destruct Hmoved as (_ & ->). reflexivity.
Qed.

Lemma windingPass_filled (n : nat) (x : nat) :
  forall (es : list nat) (g : Graph) (es' : list nat) (g' : Graph),
  windingPass assertEnabled n es g = Done (es', g') ->
  filled (faceAt g' x) = filled (faceAt g x).
Proof.
  induction n as [| j IH]; intros es g es' g' Hrun; simpl in Hrun.
  - injection Hrun as <- <-. reflexivity.
  - inv_bind Hrun as [es1 g1] Hstep Hrun.
    rewrite (IH _ _ _ _ Hrun). eapply windingStep_filled; eassumption.
Qed.

Lemma windingRounds_filled (rounds : nat) (x : nat) :
  forall (es : list nat) (g g' : Graph),
  windingRounds assertEnabled rounds es g = Done g' ->
  filled (faceAt g' x) = filled (faceAt g x).
Proof.
  induction rounds as [| rounds IH]; intros es g g' Hrun.
  - destruct es; simpl in Hrun; [|discriminate]. injection Hrun as <-. reflexivity.
  - destruct es as [| e0 es0]; [simpl in Hrun; injection Hrun as <-; reflexivity|].
    cbn [windingRounds] in Hrun.
    inv_bind Hrun as [es1 g1] Hpass Hrun.
    rewrite (IH _ _ _ Hrun). eapply windingPass_filled; eassumption.
Qed.

(** [computeWindingMap] writes winding maps and nothing else. *)
Lemma computeWindingMap_frame (rounds : nat) (g g' : Graph) :
  is_Some (faceArena g !! unboundedFace g) ->
  computeWindingMap assertEnabled rounds g = Done g' ->
  windingMapsOnly g g'.
Proof.
  intros Hu Hrun. unfold computeWindingMap in Hrun.
  pose proof (windingInv_start assertEnabled g Hu) as Hinv1.
  pose proof (windingRounds_inv assertEnabled g rounds _ _ _ Hinv1 Hrun) as Hinv.
  destruct (wi_frame _ _ _ _ Hinv) as [arena Hg'].
  unfold windingMapsOnly. rewrite Hg' at 1 2 3 4 5 6 7 8 9 10. simpl.
  repeat (split; [reflexivity|]).
  intros f. split; [apply (wi_objects _ _ _ _ Hinv)|].
  rewrite (windingRounds_filled rounds f _ _ _ Hrun). apply filled_setWindingMap.
Qed.

(** ** Winding maps: the numbers they hold *)









End WindingKeeps.

(** ** Winding maps: the loop comes to an end *)

Section WindingEnds.
Variable assertEnabled : bool.

(** One for a side whose face has no map yet. *)
Definition unsolvedSide (g : Graph) (side : option nat) : nat :=
  match side with
  | Some f => match windingMap (faceAt g f) with Some _ => 0 | None => 1 end
  | None => 0
  end.

Definition unsolvedSidesOf (g : Graph) (e : nat) : nat :=
  unsolvedSide g (forwardFace (edgeAt g e)) + unsolvedSide g (reversedFace (edgeAt g e)).

(** What is left to do: the edges on the work list and the sides without
    a map. *)
Definition workLeft (g0 : Graph) (es : list nat) (g : Graph) : nat :=
  length es + sum_list (map (unsolvedSidesOf g) (edges g0)).

Lemma unsolvedSide_set_le (g : Graph) (x : nat) (m : gmap Z Z) (side : option nat) :
  windingMap (faceAt g x) = None ->
  unsolvedSide (setWindingMap x m g) side <= unsolvedSide g side.
Proof.
  intros Hx. destruct side as [f|]; simpl; [|lia].
  destruct (windingMap (faceAt g f)) as [mf|] eqn:Hf.
  - rewrite (set_keeps_solved x f m mf g Hx Hf). lia.
  - destruct (windingMap (faceAt (setWindingMap x m g) f)); lia.
Qed.

Lemma unsolvedSide_set_lt (g : Graph) (x : nat) (m : gmap Z Z) :
  windingMap (faceAt g x) = None -> is_Some (faceArena g !! x) ->
  unsolvedSide (setWindingMap x m g) (Some x) < unsolvedSide g (Some x).
Proof.
  intros Hx Hobj. simpl. rewrite Hx, windingMap_set_same by exact Hobj. lia.
Qed.

Lemma unsolvedSidesOf_set_le (g : Graph) (x : nat) (m : gmap Z Z) (e : nat) :
  windingMap (faceAt g x) = None ->
  unsolvedSidesOf (setWindingMap x m g) e <= unsolvedSidesOf g e.
Proof.
  intros Hx. unfold unsolvedSidesOf.
  change (edgeAt (setWindingMap x m g) e) with (edgeAt g e).
  pose proof (unsolvedSide_set_le g x m (forwardFace (edgeAt g e)) Hx).
  pose proof (unsolvedSide_set_le g x m (reversedFace (edgeAt g e)) Hx). lia.
Qed.

Lemma unsolvedSidesOf_set_lt (g : Graph) (x : nat) (m : gmap Z Z) (e f f' : nat) :
  windingMap (faceAt g x) = None -> is_Some (faceArena g !! x) ->
  bordersFaces g e f f' -> x = f \/ x = f' ->
  unsolvedSidesOf (setWindingMap x m g) e < unsolvedSidesOf g e.
Proof.
  intros Hx Hobj [Hf Hf'] Hside. unfold unsolvedSidesOf.
  change (edgeAt (setWindingMap x m g) e) with (edgeAt g e).
  rewrite Hf, Hf'.
  pose proof (unsolvedSide_set_le g x m (Some f) Hx).
  pose proof (unsolvedSide_set_le g x m (Some f') Hx).
  pose proof (unsolvedSide_set_lt g x m Hx Hobj).
  destruct Hside as [<- | <-]; lia.
Qed.

Lemma sum_list_map_le {A} (t t' : A -> nat) (l : list A) :
  (forall x, x ∈ l -> t' x <= t x) -> sum_list (map t' l) <= sum_list (map t l).
Proof.
  induction l as [| x l IH]; simpl; intros Hle; [lia|].
  pose proof (Hle x (list_elem_of_here _ _)).
  assert (sum_list (map t' l) <= sum_list (map t l)).
  { apply IH. intros y Hy. apply Hle. apply list_elem_of_further. exact Hy. }
  lia.
Qed.

Lemma sum_list_map_lt {A} (t t' : A -> nat) (l : list A) (x : A) :
  (forall y, y ∈ l -> t' y <= t y) -> x ∈ l -> t' x < t x ->
  sum_list (map t' l) < sum_list (map t l).
Proof.
  induction l as [| y l IH]; simpl; intros Hle Hx Hlt; [inversion Hx|].
  pose proof (Hle y (list_elem_of_here _ _)).
  assert (Hrest : sum_list (map t' l) <= sum_list (map t l)).
  { apply sum_list_map_le. intros z Hz. apply Hle. apply list_elem_of_further. exact Hz. }
  apply elem_of_cons in Hx as [-> | Hx]; [lia|].
  assert (sum_list (map t' l) < sum_list (map t l)).
  { apply IH; auto. intros z Hz. apply Hle. apply list_elem_of_further. exact Hz. }
  lia.
Qed.

Lemma length_spliceOut {A} (j : nat) (l : list A) :
  j < length l -> S (length (spliceOut j l)) = length l.
Proof.
  intros Hj. unfold spliceOut. rewrite length_app, length_take, length_drop. lia.
Qed.

(** The faces on the two sides of an edge of the work list. *)
Lemma work_borders (g0 : Graph) (es : list nat) (g : Graph) (e : nat) :
  facesLinked g0 -> windingInv assertEnabled g0 es g -> e ∈ es ->
  exists f f', bordersFaces g e f f' /\
               is_Some (faceArena g !! f) /\ is_Some (faceArena g !! f').
Proof.
  intros [_ Hlinked] Hinv He.
  destruct (Hlinked e (wi_work _ _ _ _ Hinv e He)) as (f & f' & Hb & Hf & Hf' & _).
  exists f, f'. splits.
  - apply (frame_bordersFaces g0 g); [apply Hinv | exact Hb].
  - apply (wi_objects _ _ _ _ Hinv). exact Hf.
  - apply (wi_objects _ _ _ _ Hinv). exact Hf'.
Qed.

(** The body of the loop leaves no more to do than it found, and as much
    only where both sides of the edge were without a map. *)
Lemma windingStep_work (g0 : Graph) (j : nat) (es : list nat) (g : Graph)
    (es' : list nat) (g' : Graph) :
  facesLinked g0 -> windingInv assertEnabled g0 es g ->
  windingStep assertEnabled j es g = Done (es', g') ->
  length es <= S (length es') /\
  workLeft g0 es' g' <= workLeft g0 es g /\
  (workLeft g0 es' g' = workLeft g0 es g ->
   es' = es /\ g' = g /\
   exists e f f', es !! j = Some e /\ bordersFaces g e f f' /\
                  windingMap (faceAt g f) = None /\ windingMap (faceAt g f') = None).
Proof.
  intros Hlinked Hinv Hrun.
  destruct (windingStep_cases _ _ _ _ _ _ Hrun) as (e & f & f' & He & Hb & Hmoved).
  assert (Hein : e ∈ es) by (apply list_elem_of_lookup; eauto).
  assert (Hj : j < length es) by (eapply lookup_lt_Some; exact He).
  destruct (work_borders g0 es g e Hlinked Hinv Hein) as (f1 & f1' & [Hb1 Hb1'] & Hobj & Hobj').
  destruct Hb as [Hbf Hbr].
  assert (f1 = f) by congruence. assert (f1' = f') by congruence. subst f1 f1'.
  pose proof (wi_work _ _ _ _ Hinv e Hein) as He0.
  unfold windingMoved in Hmoved. unfold workLeft.
  destruct (windingMap (faceAt g f)) as [wf|] eqn:Hf,
           (windingMap (faceAt g f')) as [wr|] eqn:Hf'.
  - destruct Hmoved as (-> & -> & _).
    pose proof (length_spliceOut j es Hj). splits; try lia.
  - destruct Hmoved as (-> & ->).
    assert (Hlt : sum_list (map (unsolvedSidesOf (setWindingMap f' (solvedAcross e wf true g) g))
                              (edges g0))
                  < sum_list (map (unsolvedSidesOf g) (edges g0))).
    { apply (sum_list_map_lt _ _ _ e); [| exact He0 |].
      - intros y _. apply unsolvedSidesOf_set_le. exact Hf'.
      - apply (unsolvedSidesOf_set_lt g f' _ e f f'); auto. split; assumption. }
    splits; try lia.
  - destruct Hmoved as (-> & ->).
    assert (Hlt : sum_list (map (unsolvedSidesOf (setWindingMap f (solvedAcross e wr false g) g))
                              (edges g0))
                  < sum_list (map (unsolvedSidesOf g) (edges g0))).
    { apply (sum_list_map_lt _ _ _ e); [| exact He0 |].
      - intros y _. apply unsolvedSidesOf_set_le. exact Hf.
      - apply (unsolvedSidesOf_set_lt g f _ e f f'); auto. split; assumption. }
    splits; try lia.
  - destruct Hmoved as (-> & ->). splits; try lia.
    intros _. splits; auto. exists e, f, f'. splits; auto. split; assumption.
Qed.

(** A pass over the work list returns unless an assertion fails; it leaves
    no more to do than it found, and as much only if every edge it visited
    had both sides without a map. *)
Lemma windingPass_work (g0 : Graph) (n : nat) :
  forall (es : list nat) (g : Graph),
  facesLinked g0 -> windingInv assertEnabled g0 es g -> n <= length es ->
  match windingPass assertEnabled n es g with
  | Done (es', g') =>
      windingInv assertEnabled g0 es' g' /\
      workLeft g0 es' g' <= workLeft g0 es g /\
      (workLeft g0 es' g' = workLeft g0 es g ->
       forall j, j < n ->
         exists e f f', es !! j = Some e /\ bordersFaces g e f f' /\
                        windingMap (faceAt g f) = None /\ windingMap (faceAt g f') = None)
  | Throws (AssertionError _) => assertEnabled = true
  | _ => False
  end.
Proof.
  induction n as [| j IH]; intros es g Hlinked Hinv Hn.
  - simpl. splits; auto. intros _ j Hj. lia.
  - cbn [windingPass].
    destruct (lookup_lt_is_Some_2 es j ltac:(lia)) as [e He].
    assert (Hein : e ∈ es) by (apply list_elem_of_lookup; eauto).
    destruct (work_borders g0 es g e Hlinked Hinv Hein) as (f & f' & Hb & _).
    destruct (windingStep_total assertEnabled j es g e f f' He Hb)
      as [[[es1 g1] Hstep] | [Hon [msg Hthrow]]].
    + rewrite Hstep. cbn [mbind outcome_bind].
      pose proof (windingStep_inv assertEnabled g0 j es g es1 g1 Hinv Hstep) as Hinv1.
      destruct (windingStep_work g0 j es g es1 g1 Hlinked Hinv Hstep) as (Hlen & Hle & Hsame).
      specialize (IH es1 g1 Hlinked Hinv1 ltac:(lia)).
      destruct (windingPass assertEnabled j es1 g1) as [[es' g'] | [msg|] |]; try contradiction.
      * destruct IH as (Hinv' & Hle' & Hsame').
        splits; auto; try lia.
        intros Heq j' Hj'.
        assert (Heq1 : workLeft g0 es1 g1 = workLeft g0 es g) by lia.
        destruct (Hsame Heq1) as (-> & -> & Hat).
        destruct (decide (j' = j)) as [-> | Hne]; [exact Hat|].
        apply Hsame'; lia.
      * exact IH.
    + rewrite Hthrow. simpl. exact Hon.
Qed.

(** From a face with a map to a face without one, some edge of the way has
    a map on one side only. *)
Lemma crossing_edge (g0 g : Graph) (f : nat) :
  (exists arena, g = withFaceArena arena g0) ->
  reachableFace g0 f ->
  is_Some (windingMap (faceAt g (unboundedFace g0))) ->
  windingMap (faceAt g f) = None ->
  exists e a b, e ∈ edges g0 /\ bordersFaces g e a b /\
    ((is_Some (windingMap (faceAt g a)) /\ windingMap (faceAt g b) = None) \/
     (windingMap (faceAt g a) = None /\ is_Some (windingMap (faceAt g b)))).
Proof.
  intros Hframe Hreach Hu. induction Hreach as [| f1 f2 e Hreach IH He Hb]; intros Hf.
  - destruct Hu as [m Hm]. congruence.
  - destruct (windingMap (faceAt g f1)) as [m1|] eqn:H1; [|apply IH; reflexivity].
    destruct Hb as [Hb | Hb].
    + exists e, f1, f2. split; [exact He|].
      split; [apply (frame_bordersFaces g0 g); assumption|].
      left. rewrite H1. eauto.
    + exists e, f2, f1. split; [exact He|].
      split; [apply (frame_bordersFaces g0 g); assumption|].
      right. rewrite H1. eauto.
Qed.

(** While the work list is not empty, a pass that returns leaves less to
    do. *)
Lemma windingPass_progress (g0 : Graph) (es : list nat) (g : Graph)
    (es' : list nat) (g' : Graph) :
  facesLinked g0 -> facesReachable g0 -> windingInv assertEnabled g0 es g ->
  es <> [] ->
  windingPass assertEnabled (length es) es g = Done (es', g') ->
  windingInv assertEnabled g0 es' g' /\ workLeft g0 es' g' < workLeft g0 es g.
Proof.
  intros Hlinked Hreach Hinv Hne Hrun.
  pose proof (windingPass_work g0 (length es) es g Hlinked Hinv (le_n _)) as Hwork.
  rewrite Hrun in Hwork. destruct Hwork as (Hinv' & Hle & Hsame).
  split; [exact Hinv'|].
  destruct (decide (workLeft g0 es' g' = workLeft g0 es g)) as [Heq | Hneq]; [|lia].
  exfalso. specialize (Hsame Heq).
  assert (Hboth : forall e, e ∈ es -> forall a b, bordersFaces g e a b ->
                    windingMap (faceAt g a) = None /\ windingMap (faceAt g b) = None).
  { intros e He a b [Ha Hb]. apply list_elem_of_lookup in He as [j Hj].
    destruct (Hsame j (lookup_lt_Some _ _ _ Hj)) as (e1 & f & f' & He1 & [Hf Hf'] & H1 & H2).
    assert (e1 = e) by congruence. subst e1.
    assert (f = a) by congruence. assert (f' = b) by congruence. subst. auto. }
  destruct es as [| e0 rest]; [contradiction|].
  assert (He0 : e0 ∈ e0 :: rest) by apply list_elem_of_here.
  pose proof (wi_work _ _ _ _ Hinv e0 He0) as He0g.
  destruct Hlinked as [Hu Hlinked].
  destruct (Hlinked e0 He0g) as (f & f' & Hb0 & _ & _ & Hfin & _).
  assert (Hb : bordersFaces g e0 f f').
  { apply (frame_bordersFaces g0 g); [apply Hinv | exact Hb0]. }
  destruct (Hboth e0 He0 f f' Hb) as [Hfnone _].
  destruct (crossing_edge g0 g f (wi_frame _ _ _ _ Hinv) (Hreach f Hfin)
              (wi_outside _ _ _ _ Hinv) Hfnone)
    as (e & a & b & He & Hab & Hcross).
  destruct (wi_done _ _ _ _ Hinv e He) as [Hin | (a1 & b1 & wa & wb & [Ha1 Hb1] & Hwa & Hwb & _)].
  - destruct (Hboth e Hin a b Hab) as [Hna Hnb].
    destruct Hcross as [[[m Hm] _] | [_ [m Hm]]]; congruence.
  - destruct Hab as [Ha Hb']. assert (a1 = a) by congruence. assert (b1 = b) by congruence.
    subst. destruct Hcross as [[_ Hn] | [Hn _]]; congruence.
Qed.

Lemma windingRounds_ends (g0 : Graph) (rounds : nat) :
  forall (es : list nat) (g : Graph),
  facesLinked g0 -> facesReachable g0 -> windingInv assertEnabled g0 es g ->
  workLeft g0 es g <= rounds ->
  match windingRounds assertEnabled rounds es g with
  | Done g' => windingInv assertEnabled g0 [] g'
  | Throws (AssertionError _) => assertEnabled = true
  | _ => False
  end.
Proof.
  induction rounds as [| rounds IH]; intros es g Hlinked Hreach Hinv Hwork.
  - destruct es as [| e0 rest]; [exact Hinv|].
    unfold workLeft in Hwork. simpl in Hwork. lia.
  - destruct es as [| e0 rest]; [exact Hinv|].
    cbn [windingRounds].
    pose proof (windingPass_work g0 (length (e0 :: rest)) (e0 :: rest) g Hlinked Hinv (le_n _))
      as Hpass.
    destruct (windingPass assertEnabled (length (e0 :: rest)) (e0 :: rest) g)
      as [[es1 g1] | [msg|] |] eqn:Hrun; try contradiction.
    + cbn [mbind outcome_bind].
      destruct (windingPass_progress g0 (e0 :: rest) g es1 g1 Hlinked Hreach Hinv
                  ltac:(discriminate) Hrun) as [Hinv1 Hlt].
      apply IH; auto. lia.
    + exact Hpass.
Qed.

Lemma workLeft_bound (g0 : Graph) (es : list nat) (g : Graph) :
  workLeft g0 es g <= length es + 2 * length (edges g0).
Proof.
  unfold workLeft. apply Nat.add_le_mono_l.
  induction (edges g0) as [| e l IH]; simpl; [lia|].
  assert (unsolvedSidesOf g e <= 2).
  { unfold unsolvedSidesOf, unsolvedSide.
    destruct (forwardFace (edgeAt g e)) as [f|], (reversedFace (edgeAt g e)) as [f'|];
      repeat match goal with |- context [windingMap ?x] => destruct (windingMap x) end; lia. }
  lia.
Qed.

(** C7.  In a graph whose edges have a face of the graph on each side and
    whose faces are all reached from the unbounded face by stepping across
    edges, [computeWindingMap] comes to an end within three passes per edge:
    it returns the graph with nothing but winding maps changed, and then
    every face of the graph has a winding map, or, with assertions on, an
    assertion of the loop fails.  With assertions off it returns. *)
Theorem computeWindingMap_ends_with_faces_solved (rounds : nat) (g : Graph) :
  facesLinked g -> facesReachable g ->
  3 * length (edges g) <= rounds ->
  (exists g', computeWindingMap assertEnabled rounds g = Done g' /\
     windingMapsOnly g g' /\
     (forall f, f ∈ faces g -> is_Some (windingMap (faceAt g' f))) /\
     facesSolved g') \/
  (assertEnabled = true /\
   exists msg, computeWindingMap assertEnabled rounds g = Throws (AssertionError msg)).
Proof.
  intros Hlinked Hreach Hrounds.
  pose proof (computeWindingMap_frame assertEnabled rounds g) as Hframe.
  unfold computeWindingMap in *.
  set (g1 := setWindingMap (unboundedFace g) (outsideMap (shapeIds g)) g) in *.
  pose proof (windingInv_start assertEnabled g (proj1 Hlinked)) as Hinv1. fold g1 in Hinv1.
  pose proof (workLeft_bound g (edges g) g1) as Hbound.
  pose proof (windingRounds_ends g rounds (edges g) g1 Hlinked Hreach Hinv1 ltac:(lia)) as Hend.
  destruct (windingRounds assertEnabled rounds (edges g) g1) as [g' | [msg|] |];
    try contradiction.
  - left. exists g'. split; [reflexivity|].
    split; [apply Hframe; [exact (proj1 Hlinked) | reflexivity]|].
    destruct (wi_frame _ _ _ _ Hend) as [arena Hg'].
    assert (Hsolved : forall f, f ∈ faces g -> is_Some (windingMap (faceAt g' f))).
    { intros f Hf0.
      specialize (Hreach f Hf0). inversion Hreach as [Hu | f1 f2 e Hr1 He Hb Hf2].
      + apply (wi_outside _ _ _ _ Hend).
      + destruct (wi_done _ _ _ _ Hend e He) as [Hin | (a & b & wa & wb & Hab & Hwa & Hwb & _)];
          [inversion Hin|].
        apply (frame_bordersFaces g g' e a b (ex_intro _ arena Hg')) in Hab.
        destruct Hab as [Ha Hb']. destruct Hb as [[H1 H2] | [H1 H2]].
        * assert (b = f) by congruence. subst. rewrite Hwb. eauto.
        * assert (a = f) by congruence. subst. rewrite Hwa. eauto. }
    split; [exact Hsolved|].
    intros f Hf. apply Hsolved. rewrite Hg' in Hf. exact Hf.
  - right. split; [exact Hend | eauto].
Qed.

End WindingEnds.

(** ** Two-colouring: writing [filled] *)

Lemma setFilled_frame (f : nat) (value : option bool) (g : Graph) :
  exists arena, setFilled f value g = withFaceArena arena g.
Proof. eexists. reflexivity. Qed.

Lemma filled_set_same (f : nat) (value : option bool) (g : Graph) :
  is_Some (faceArena g !! f) -> filled (faceAt (setFilled f value g) f) = value.
Proof.
  intros [F HF]. unfold faceAt, setFilled. simpl.
  rewrite lookup_total_alter, decide_True by reflexivity. rewrite HF. reflexivity.
Qed.

Lemma faceAt_setFilled_other (f x : nat) (value : option bool) (g : Graph) :
  f <> x -> faceAt (setFilled f value g) x = faceAt g x.
Proof.
  intros Hne. unfold faceAt, setFilled. simpl. apply lookup_total_alter_ne. exact Hne.
Qed.

Lemma is_Some_setFilled (f x : nat) (value : option bool) (g : Graph) :
  is_Some (faceArena (setFilled f value g) !! x) <-> is_Some (faceArena g !! x).
Proof.
  unfold setFilled. simpl. rewrite lookup_alter.
  destruct (decide (f = x)) as [-> | _]; [|reflexivity].
  rewrite fmap_is_Some. reflexivity.
Qed.

Lemma filled_set_None (f x : nat) (g : Graph) :
  filled (faceAt g x) = None -> filled (faceAt (setFilled f None g) x) = None.
Proof.
  intros Hx. destruct (decide (f = x)) as [-> | Hne].
  - unfold faceAt, setFilled. simpl.
    rewrite lookup_total_alter, decide_True by reflexivity.
    unfold faceAt in Hx. rewrite lookup_total_alt in Hx.
    destruct (faceArena g !! x); simpl in *; [reflexivity | exact Hx].
  - rewrite faceAt_setFilled_other by exact Hne. exact Hx.
Qed.

(** The first loop of [fillAlternatingFaces]. *)
Lemma clear_filled (l : list nat) :
  forall g,
  (exists arena, foldl (fun g f => setFilled f None g) g l = withFaceArena arena g) /\
  (forall x, is_Some (faceArena (foldl (fun g f => setFilled f None g) g l) !! x)
             <-> is_Some (faceArena g !! x)) /\
  (forall x, x ∈ l \/ filled (faceAt g x) = None ->
             filled (faceAt (foldl (fun g f => setFilled f None g) g l) x) = None).
Proof.
  induction l as [| f l IH]; intros g; simpl.
  - splits.
    + exists (faceArena g). destruct g; reflexivity.
    + intros x. reflexivity.
    + intros x [Hx | Hx]; [inversion Hx | exact Hx].
  - destruct (IH (setFilled f None g)) as ([arena Hframe] & Hobj & Hnone). splits.
    + exists arena. rewrite Hframe. reflexivity.
    + intros x. rewrite Hobj. apply is_Some_setFilled.
    + intros x Hx. apply Hnone.
      destruct (decide (x ∈ l)) as [Hin | Hout]; [left; exact Hin|]. right.
      destruct Hx as [Hx | Hx].
      * apply elem_of_cons in Hx as [-> | Hx]; [|contradiction].
        unfold faceAt, setFilled. simpl.
        rewrite lookup_total_alter, decide_True by reflexivity.
        destruct (faceArena g !! f); reflexivity.
      * apply filled_set_None. exact Hx.
Qed.

(** ** Two-colouring: what holds all along *)

Definition isNull (g : Graph) (f : nat) : bool :=
  match filled (faceAt g f) with None => true | Some _ => false end.

(** The faces of the graph that have no [filled] yet. *)
Definition nullFaces (g0 g : Graph) : nat := length (List.filter (isNull g) (faces g0)).

Record fillInv (g0 : Graph) (count : Z) (g : Graph) : Prop := {
  fi_frame : exists arena, g = withFaceArena arena g0;
  fi_objects : forall f, is_Some (faceArena g !! f) <-> is_Some (faceArena g0 !! f);
  fi_count : count = Z.of_nat (nullFaces g0 g);
  fi_outside : filled (faceAt g (unboundedFace g0)) = Some false;
  fi_reached : forall f, f ∈ faces g0 -> isNull g f = false -> reachableFace g0 f;
  fi_opposite : forall f, f ∈ faces g0 -> f <> unboundedFace g0 -> isNull g f = false ->
      exists e f' value,
        e ∈ edges g0 /\ (bordersFaces g0 e f f' \/ bordersFaces g0 e f' f) /\
        filled (faceAt g f') = Some value /\ filled (faceAt g f) = Some (negb value)
}.

Lemma filter_length_flip {A} (p p' : A -> bool) (l : list A) (x : A) :
  NoDup l -> x ∈ l -> p x = true -> p' x = false ->
  (forall y, y <> x -> p' y = p y) ->
  S (length (List.filter p' l)) = length (List.filter p l).
Proof.
  intros Hnd. induction Hnd as [| y l Hy Hnd IH]; intros Hx Hp Hp' Hsame; [inversion Hx|].
  simpl. apply elem_of_cons in Hx as [<- | Hx].
  - rewrite Hp, Hp'. simpl. f_equal. f_equal.
    apply filter_ext_in. intros z Hz. apply Hsame. intros ->.
    apply Hy. apply list_elem_of_In. exact Hz.
  - assert (Hne : y <> x) by (intros ->; contradiction).
    rewrite (Hsame y Hne). destruct (p y); simpl; [f_equal|]; apply IH; auto.
Qed.

Lemma isNull_set_other (g : Graph) (x y : nat) (value : option bool) :
  y <> x -> isNull (setFilled x value g) y = isNull g y.
Proof. intros Hne. unfold isNull. rewrite faceAt_setFilled_other by congruence. reflexivity. Qed.

(** One face gets its value from the face across the edge [e]. *)
Lemma fill_one (g0 : Graph) (count : Z) (g : Graph) (e x y : nat) (value : bool) :
  facesListed g0 -> fillInv g0 count g ->
  e ∈ edges g0 -> (bordersFaces g0 e x y \/ bordersFaces g0 e y x) ->
  x ∈ faces g0 -> y ∈ faces g0 ->
  filled (faceAt g x) = None -> filled (faceAt g y) = Some value ->
  fillInv g0 (count - 1) (setFilled x (Some (negb value)) g) /\
  nullFaces g0 (setFilled x (Some (negb value)) g) < nullFaces g0 g.
Proof.
  intros (Hnd & Hu & Harena) [Hframe Hobj Hcount Hout Hreach Hopp] He Hb Hx Hy Hnone Hsome.
  assert (Hxobj : is_Some (faceArena g !! x)) by (apply Hobj, Harena, Hx).
  assert (Hxy : x <> y) by (intros ->; congruence).
  assert (Hxu : x <> unboundedFace g0) by (intros ->; congruence).
  assert (Hflip : S (nullFaces g0 (setFilled x (Some (negb value)) g)) = nullFaces g0 g).
  { unfold nullFaces. apply (filter_length_flip _ _ _ x); auto.
    - unfold isNull. rewrite Hnone. reflexivity.
    - unfold isNull. rewrite filled_set_same by exact Hxobj. reflexivity.
    - intros z Hz. apply isNull_set_other. exact Hz. }
  split; [|lia]. constructor.
  - destruct Hframe as [arena ->]. eexists. reflexivity.
  - intros f. rewrite is_Some_setFilled. apply Hobj.
  - lia.
  - rewrite faceAt_setFilled_other by exact Hxu. exact Hout.
  - intros f Hf Hfilled. destruct (decide (f = x)) as [-> | Hne].
    + apply (reach_across g0 y x e); auto.
      * apply Hreach; [exact Hy|]. unfold isNull. rewrite Hsome. reflexivity.
      * tauto.
    + apply Hreach; [exact Hf|]. rewrite isNull_set_other in Hfilled by exact Hne. exact Hfilled.
  - intros f Hf Hfu Hfilled. destruct (decide (f = x)) as [-> | Hne].
    + exists e, y, value. splits; auto.
      * rewrite faceAt_setFilled_other by exact Hxy. exact Hsome.
      * apply filled_set_same. exact Hxobj.
    + rewrite isNull_set_other in Hfilled by exact Hne.
      destruct (Hopp f Hf Hfu Hfilled) as (e1 & f1 & v1 & He1 & Hb1 & Hf1 & Hfv).
      exists e1, f1, v1. splits; auto.
      * rewrite faceAt_setFilled_other; [exact Hf1|]. intros <-. congruence.
      * rewrite faceAt_setFilled_other by congruence. exact Hfv.
Qed.

(** ** Two-colouring: the loop *)

Lemma fillStep_inv (g0 : Graph) (count : Z) (g : Graph) (e : nat) :
  facesListed g0 -> facesLinked g0 -> fillInv g0 count g -> e ∈ edges g0 ->
  exists count' g',
    fillStep e count g = Done (count', g') /\
    fillInv g0 count' g' /\
    nullFaces g0 g' <= nullFaces g0 g /\
    (nullFaces g0 g' = nullFaces g0 g ->
     g' = g /\ forall a b, bordersFaces g0 e a b -> isNull g a = isNull g b).
Proof.
  intros Hlisted [_ Hlinked] Hinv He.
  destruct (Hlinked e He) as (f & f' & Hb & _ & _ & Hf & Hf').
  pose proof (fi_frame _ _ _ Hinv) as Hframe.
  assert (Hat : edgeAt g e = edgeAt g0 e) by (destruct Hframe as [arena ->]; reflexivity).
  unfold fillStep. rewrite Hat. destruct Hb as [Hbf Hbr]. rewrite Hbf, Hbr. simpl.
  assert (Hsides : forall a b, bordersFaces g0 e a b -> a = f /\ b = f').
  { intros a b [Ha Hb]. split; congruence. }
  destruct (filled (faceAt g f)) as [vf|] eqn:Hvf, (filled (faceAt g f')) as [vr|] eqn:Hvr.
  - exists count, g. splits; auto. intros _. split; [reflexivity|].
    intros a b Hab. destruct (Hsides a b Hab) as [-> ->]. unfold isNull. rewrite Hvf, Hvr.
    reflexivity.
  - destruct (fill_one g0 count g e f' f vf Hlisted Hinv He) as [Hinv' Hlt]; auto.
    { right. split; assumption. }
    eexists _, _. split; [reflexivity|]. splits; auto; try lia.
  - destruct (fill_one g0 count g e f f' vr Hlisted Hinv He) as [Hinv' Hlt]; auto.
    { left. split; assumption. }
    eexists _, _. split; [reflexivity|]. splits; auto; try lia.
  - exists count, g. splits; auto. intros _. split; [reflexivity|].
    intros a b Hab. destruct (Hsides a b Hab) as [-> ->]. unfold isNull. rewrite Hvf, Hvr.
    reflexivity.
Qed.

Lemma fillPass_inv (g0 : Graph) (es : list nat) :
  forall (count : Z) (g : Graph),
  facesListed g0 -> facesLinked g0 -> fillInv g0 count g ->
  (forall e, e ∈ es -> e ∈ edges g0) ->
  exists count' g',
    fillPass es count g = Done (count', g') /\
    fillInv g0 count' g' /\
    nullFaces g0 g' <= nullFaces g0 g /\
    (nullFaces g0 g' = nullFaces g0 g ->
     forall e, e ∈ es -> forall a b, bordersFaces g0 e a b -> isNull g a = isNull g b).
Proof.
  induction es as [| e rest IH]; intros count g Hlisted Hlinked Hinv Hsub.
  - exists count, g. simpl. splits; auto. intros _ e He. inversion He.
  - destruct (fillStep_inv g0 count g e Hlisted Hlinked Hinv (Hsub e (list_elem_of_here _ _)))
      as (count1 & g1 & Hstep & Hinv1 & Hle1 & Hsame1).
    destruct (IH count1 g1 Hlisted Hlinked Hinv1) as (count' & g' & Hrest & Hinv' & Hle' & Hsame').
    { intros x Hx. apply Hsub. apply list_elem_of_further. exact Hx. }
    exists count', g'. cbn [fillPass]. rewrite Hstep. cbn [mbind outcome_bind].
    splits; auto; try lia.
    intros Heq x Hx.
    assert (Heq1 : nullFaces g0 g1 = nullFaces g0 g) by lia.
    destruct (Hsame1 Heq1) as [-> Hhere].
    apply elem_of_cons in Hx as [-> | Hx]; [exact Hhere|].
    apply Hsame'; [lia | exact Hx].
Qed.

(** Between a face with a value and a face without one lies an edge with a
    value on one side only. *)
Lemma crossing_edge_filled (g0 g : Graph) (f : nat) :
  reachableFace g0 f ->
  isNull g (unboundedFace g0) = false -> isNull g f = true ->
  exists e a b, e ∈ edges g0 /\ bordersFaces g0 e a b /\ isNull g a <> isNull g b.
Proof.
  intros Hreach Hu. induction Hreach as [| f1 f2 e Hreach IH He Hb]; intros Hf.
  - congruence.
  - destruct (isNull g f1) eqn:H1; [apply IH; reflexivity|].
    destruct Hb as [Hb | Hb].
    + exists e, f1, f2. split; [exact He|]. split; [exact Hb|]. congruence.
    + exists e, f2, f1. split; [exact He|]. split; [exact Hb|]. congruence.
Qed.

Lemma null_face_exists (g0 g : Graph) :
  0 < nullFaces g0 g -> exists f, f ∈ faces g0 /\ isNull g f = true.
Proof.
  unfold nullFaces. intros Hpos.
  destruct (List.filter (isNull g) (faces g0)) as [| f l] eqn:E; [simpl in Hpos; lia|].
  assert (Hin : In f (List.filter (isNull g) (faces g0))) by (rewrite E; left; reflexivity).
  apply filter_In in Hin as [Hin Hnull]. exists f. split; [apply list_elem_of_In|]; assumption.
Qed.

Lemma fillPass_progress (g0 : Graph) (count : Z) (g : Graph) :
  facesListed g0 -> facesLinked g0 -> facesReachable g0 -> fillInv g0 count g ->
  0 < nullFaces g0 g ->
  exists count' g',
    fillPass (edges g0) count g = Done (count', g') /\
    fillInv g0 count' g' /\ nullFaces g0 g' < nullFaces g0 g.
Proof.
  intros Hlisted Hlinked Hreach Hinv Hpos.
  destruct (fillPass_inv g0 (edges g0) count g Hlisted Hlinked Hinv ltac:(auto))
    as (count' & g' & Hrun & Hinv' & Hle & Hsame).
  exists count', g'. splits; auto.
  destruct (decide (nullFaces g0 g' = nullFaces g0 g)) as [Heq | Hne]; [|lia].
  exfalso. specialize (Hsame Heq).
  destruct (null_face_exists g0 g Hpos) as (f & Hf & Hnull).
  destruct (crossing_edge_filled g0 g f (Hreach f Hf)) as (e & a & b & He & Hb & Hdiff); auto.
  - unfold isNull. rewrite (fi_outside _ _ _ Hinv). reflexivity.
  - apply Hdiff. apply (Hsame e He a b Hb).
Qed.

Lemma fillInv_edges (g0 : Graph) (count : Z) (g : Graph) :
  fillInv g0 count g -> edges g = edges g0.
Proof. intros Hinv. destruct (fi_frame _ _ _ Hinv) as [arena ->]. reflexivity. Qed.

(** Whatever the number of rounds, the loop does not throw, and where it
    returns no face is left without a value. *)
Lemma fillRounds_inv (g0 : Graph) (rounds : nat) :
  forall (count : Z) (g : Graph),
  facesListed g0 -> facesLinked g0 -> fillInv g0 count g ->
  match fillRounds rounds count g with
  | Done g' => fillInv g0 0 g'
  | Throws _ => False
  | Diverges => True
  end.
Proof.
  induction rounds as [| rounds IH]; intros count g Hlisted Hlinked Hinv.
  - simpl. destruct (decide (count = 0%Z)) as [-> | _]; [exact Hinv | exact I].
  - cbn [fillRounds]. destruct (decide (count = 0%Z)) as [-> | _]; [exact Hinv|].
    rewrite (fillInv_edges g0 count g Hinv).
    destruct (fillPass_inv g0 (edges g0) count g Hlisted Hlinked Hinv ltac:(auto))
      as (count' & g' & Hrun & Hinv' & _).
    rewrite Hrun. cbn [mbind outcome_bind]. apply IH; assumption.
Qed.

Lemma fillRounds_ends (g0 : Graph) (rounds : nat) :
  forall (count : Z) (g : Graph),
  facesListed g0 -> facesLinked g0 -> facesReachable g0 -> fillInv g0 count g ->
  nullFaces g0 g <= rounds ->
  exists g', fillRounds rounds count g = Done g' /\ fillInv g0 0 g'.
Proof.
  induction rounds as [| rounds IH]; intros count g Hlisted Hlinked Hreach Hinv Hle.
  - assert (count = 0%Z) as -> by (rewrite (fi_count _ _ _ Hinv); lia).
    exists g. split; [reflexivity | exact Hinv].
  - cbn [fillRounds]. destruct (decide (count = 0%Z)) as [-> | Hne]; [eauto|].
    rewrite (fillInv_edges g0 count g Hinv).
    assert (Hpos : 0 < nullFaces g0 g) by (rewrite (fi_count _ _ _ Hinv) in Hne; lia).
    destruct (fillPass_progress g0 count g Hlisted Hlinked Hreach Hinv Hpos)
      as (count' & g' & Hrun & Hinv' & Hlt).
    rewrite Hrun. cbn [mbind outcome_bind]. apply IH; auto. lia.
Qed.

(** The state the [while] loop starts from. *)
Lemma fillInv_start (g : Graph) :
  facesListed g ->
  fillInv g (Z.of_nat (length (faces g)) - 1)
    (setFilled (unboundedFace g) (Some false)
       (foldl (fun g f => setFilled f None g) g (faces g))) /\
  nullFaces g (setFilled (unboundedFace g) (Some false)
                 (foldl (fun g f => setFilled f None g) g (faces g))) < length (faces g).
Proof.
  intros (Hnd & Hu & Harena).
  destruct (clear_filled (faces g) g) as ([arena Hframe] & Hobj & Hnone).
  set (g1 := foldl (fun g f => setFilled f None g) g (faces g)) in *.
  assert (Huobj : is_Some (faceArena g1 !! unboundedFace g)) by (apply Hobj, Harena, Hu).
  assert (Hall : List.filter (isNull g1) (faces g) = faces g).
  { apply forallb_filter_id. apply forallb_forall. intros f Hf. unfold isNull.
    rewrite Hnone; [reflexivity|]. left. apply list_elem_of_In. exact Hf. }
  assert (Hflip : S (nullFaces g (setFilled (unboundedFace g) (Some false) g1))
                  = length (faces g)).
  { unfold nullFaces. rewrite <- Hall at 2.
    apply (filter_length_flip _ _ _ (unboundedFace g)); auto.
    - unfold isNull. rewrite Hnone; auto.
    - unfold isNull. rewrite filled_set_same by exact Huobj. reflexivity.
    - intros y Hy. apply isNull_set_other. exact Hy. }
  split; [|lia]. constructor.
  - rewrite Hframe. eexists. reflexivity.
  - intros f. rewrite is_Some_setFilled. apply Hobj.
  - lia.
  - apply filled_set_same. exact Huobj.
  - intros f Hf Hfilled. destruct (decide (f = unboundedFace g)) as [-> | Hne].
    + constructor.
    + rewrite isNull_set_other in Hfilled by exact Hne.
      unfold isNull in Hfilled. rewrite Hnone in Hfilled by auto. discriminate.
  - intros f Hf Hne Hfilled.
    rewrite isNull_set_other in Hfilled by exact Hne.
    unfold isNull in Hfilled. rewrite Hnone in Hfilled by auto. discriminate.
Qed.

Lemma fillInv_done (g0 g' : Graph) :
  fillInv g0 0 g' -> facesReachable g0 /\ facesAlternate g0 g'.
Proof.
  intros Hinv.
  assert (Hnone : forall f, f ∈ faces g0 -> isNull g' f = false).
  { intros f Hf. destruct (isNull g' f) eqn:E; [|reflexivity]. exfalso.
    pose proof (fi_count _ _ _ Hinv) as Hcount. unfold nullFaces in Hcount.
    assert (Hin : In f (List.filter (isNull g') (faces g0))).
    { apply filter_In. split; [apply list_elem_of_In|]; assumption. }
    destruct (List.filter (isNull g') (faces g0)); [inversion Hin | simpl in Hcount; lia]. }
  split.
  - intros f Hf. apply (fi_reached _ _ _ Hinv f Hf (Hnone f Hf)).
  - unfold facesAlternate. splits.
    + apply (fi_outside _ _ _ Hinv).
    + intros f Hf. specialize (Hnone f Hf). unfold isNull in Hnone.
      destruct (filled (faceAt g' f)); [eauto | discriminate].
    + intros f Hf Hne. apply (fi_opposite _ _ _ Hinv f Hf Hne (Hnone f Hf)).
Qed.

(** C10.  In a graph whose faces are listed once with the unbounded face
    among them and whose edges have a face of the graph on each side,
    [fillAlternatingFaces] comes to an end exactly when every face is
    reached from the unbounded face by stepping across edges: then it
    returns within one pass per face, and otherwise no number of passes is
    enough.  Where it returns, the unbounded face is not filled, every face
    is filled or not, and every face but the unbounded one has the opposite
    of the value of a face across one of its edges. *)
Theorem fillAlternatingFaces_ends_iff_reachable (g : Graph) :
  facesListed g -> facesLinked g ->
  (facesReachable g ->
   forall rounds, length (faces g) <= rounds ->
     exists g', fillAlternatingFaces rounds g = Done g' /\ facesAlternate g g') /\
  (~ facesReachable g -> forall rounds, fillAlternatingFaces rounds g = Diverges) /\
  (forall rounds g', fillAlternatingFaces rounds g = Done g' ->
     facesReachable g /\ facesAlternate g g').
Proof.
  intros Hlisted Hlinked.
  destruct (fillInv_start g Hlisted) as [Hstart Hbound].
  assert (Hdone : forall rounds g', fillAlternatingFaces rounds g = Done g' ->
                    facesReachable g /\ facesAlternate g g').
  { intros rounds g' Hrun. unfold fillAlternatingFaces in Hrun.
    pose proof (fillRounds_inv g rounds _ _ Hlisted Hlinked Hstart) as Hinv.
    rewrite Hrun in Hinv. apply fillInv_done. exact Hinv. }
  splits.
  - intros Hreach rounds Hrounds.
    destruct (fillRounds_ends g rounds _ _ Hlisted Hlinked Hreach Hstart ltac:(lia))
      as (g' & Hrun & Hinv).
    exists g'. split; [exact Hrun|]. apply (fillInv_done g g' Hinv).
  - intros Hnot rounds.
    pose proof (fillRounds_inv g rounds _ _ Hlisted Hlinked Hstart) as Hinv.
    unfold fillAlternatingFaces.
    destruct (fillRounds rounds _ _) as [g' | err |] eqn:Hrun; [|contradiction|reflexivity].
    exfalso. apply Hnot. apply (Hdone rounds g'). exact Hrun.
  - exact Hdone.
Qed.

(** ** The scan for two close vertices *)

Lemma scanVerticesWith_None (g : Graph) (a : nat) (behind : list nat) :
  scanVerticesWith g a behind = None ->
  forall c, c ∈ behind -> tooClose g a c = false.
Proof.
  induction behind as [| x rest IH]; simpl; intros Hscan c Hc; [inversion Hc|].
  destruct (tooClose g a x) eqn:E; [discriminate|].
  apply elem_of_cons in Hc as [-> | Hc]; [exact E | auto].
Qed.

Lemma scanVertices_None (g : Graph) (vs : list nat) :
  scanVertices g vs = None ->
  forall i j a c, i < j -> vs !! i = Some a -> vs !! j = Some c -> tooClose g a c = false.
Proof.
  induction vs as [| x rest IH]; simpl; intros Hscan i j a c Hij Hi Hj; [discriminate|].
  destruct (scanVerticesWith g x rest) as [found|] eqn:E; [discriminate|].
  destruct i as [| i'].
  - simpl in Hi. injection Hi as ->. destruct j as [| j']; [lia|]. simpl in Hj.
    apply (scanVerticesWith_None g a rest E). apply list_elem_of_lookup. eauto.
  - destruct j as [| j']; [lia|]. simpl in Hi, Hj.
    apply (IH Hscan i' j' a c); [lia | assumption | assumption].
Qed.

Lemma scanVertices_apart (g : Graph) : scanVertices g (vertices g) = None -> verticesApart g.
Proof.
  intros Hscan i j a c Hlt Hi Hj.
  apply (scanVertices_None g _ Hscan i j a c Hlt Hi Hj).
Qed.

Lemma scanVerticesWith_Some (g : Graph) (a : nat) (behind : list nat) (a' c : nat) :
  scanVerticesWith g a behind = Some (a', c) ->
  a' = a /\ c ∈ behind /\ tooClose g a c = true.
Proof.
  induction behind as [| x rest IH]; simpl; [discriminate|].
  destruct (tooClose g a x) eqn:E.
  - intros [= <- <-]. splits; auto. apply list_elem_of_here.
  - intros H. destruct (IH H) as (-> & Hc & Hclose). splits; auto.
    apply list_elem_of_further. exact Hc.
Qed.

Lemma scanVertices_Some (g : Graph) (vs : list nat) (a c : nat) :
  scanVertices g vs = Some (a, c) ->
  (exists before behind, vs = before ++ a :: behind /\ c ∈ behind) /\
  tooClose g a c = true.
Proof.
  induction vs as [| x rest IH]; simpl; [discriminate|].
  destruct (scanVerticesWith g x rest) as [[a' c']|] eqn:E.
  - intros [= -> ->]. apply scanVerticesWith_Some in E as (-> & Hc & Hclose).
    split; [|exact Hclose]. exists [], rest. auto.
  - intros H. destruct (IH H) as ((before & behind & -> & Hc) & Hclose).
    split; [|exact Hclose]. exists (x :: before), behind. auto.
Qed.

(** ** Collapsing: one edge *)

(** A half-edge is in some loop of the graph. *)
Definition inLoops (g : Graph) (h : HalfEdge) : Prop :=
  exists loop, loop ∈ loops g /\ h ∈ halfEdges loop.

Definition bothMatch (g : Graph) (a c e : nat) : bool :=
  (bool_decide (startVertex (edgeAt g e) = a) || bool_decide (startVertex (edgeAt g e) = c)) &&
  (bool_decide (endVertex (edgeAt g e) = a) || bool_decide (endVertex (edgeAt g e) = c)).

Lemma bothMatch_joinsPair (g : Graph) (a c e : nat) :
  bothMatch g a c e = true <-> joinsPair g a c e.
Proof.
  unfold bothMatch, joinsPair.
  rewrite andb_true_iff, !orb_true_iff, !bool_decide_eq_true. reflexivity.
Qed.

Lemma elem_of_spliceEdge_empty (e : nat) (hs : list HalfEdge) (h : HalfEdge) :
  h ∈ spliceEdge e [] (map getReversed (reverse [])) hs <-> h ∈ hs /\ edge h <> e.
Proof.
  unfold spliceEdge. induction hs as [| x hs IH]; simpl.
  - split; [intros H; inversion H | intros [H _]; inversion H].
  - destruct (decide (edge x = e)) as [Heq | Hne].
    + assert (Hsame : h ∈ (if decide (x = forwardHalf e) then [] else []) ++
                            foldr (fun halfEdge treated =>
                                     if decide (edge halfEdge = e)
                                     then (if decide (halfEdge = forwardHalf e)
                                           then [] else []) ++ treated
                                     else halfEdge :: treated) [] hs
                      <-> h ∈ hs /\ edge h <> e).
      { destruct (decide (x = forwardHalf e)); exact IH. }
      rewrite Hsame, elem_of_cons. split.
      * intros [H1 H2]. auto.
      * intros [[-> | H1] H2]; [contradiction | auto].
    + rewrite !elem_of_cons, IH. split.
      * intros [-> | [H1 H2]]; auto.
      * intros [[-> | H1] H2]; auto.
Qed.

Lemma inLoops_spliced_out (e : nat) (g : Graph) (h : HalfEdge) :
  inLoops (replaceEdgeInLoops e [] g) h <-> inLoops g h /\ edge h <> e.
Proof.
  unfold inLoops, replaceEdgeInLoops. simpl. split.
  - intros (loop & Hloop & Hh). apply list_elem_of_fmap in Hloop as (loop0 & -> & Hloop0).
    simpl in Hh. apply elem_of_spliceEdge_empty in Hh as [Hh Hne].
    split; [exists loop0; auto | exact Hne].
  - intros [(loop & Hloop & Hh) Hne].
    eexists. split; [apply list_elem_of_fmap; exists loop; split; [reflexivity | exact Hloop]|].
    simpl. apply elem_of_spliceEdge_empty. auto.
Qed.

Lemma edgeAt_setStartVertex_other (e x v : nat) (g : Graph) :
  x <> e -> edgeAt (setStartVertex e v g) x = edgeAt g x.
Proof.
  intros Hne. unfold edgeAt, setStartVertex. simpl.
  apply lookup_total_alter_ne. congruence.
Qed.

Lemma edgeAt_setEndVertex_other (e x v : nat) (g : Graph) :
  x <> e -> edgeAt (setEndVertex e v g) x = edgeAt g x.
Proof.
  intros Hne. unfold edgeAt, setEndVertex. simpl.
  apply lookup_total_alter_ne. congruence.
Qed.

(** What one step of the loop over the edges leaves. *)
Lemma collapseEdge_facts (e a c newVertex : nat) (g : Graph) :
  let g' := collapseEdge e a c newVertex g in
  edges g' = (if bothMatch g a c e then arrayRemove (edges g) e else edges g) /\
  (forall x, x <> e -> edgeAt g' x = edgeAt g x) /\
  vertices g' = vertices g /\ nextId g' = nextId g /\
  (forall v, point (vertexAt g' v) = point (vertexAt g v)) /\
  (forall h, inLoops g' h <->
             inLoops g h /\ ~ (bothMatch g a c e = true /\ edge h = e)).
Proof.
  unfold collapseEdge, bothMatch.
  set (startMatches := bool_decide (startVertex (edgeAt g e) = a) ||
                       bool_decide (startVertex (edgeAt g e) = c)).
  set (endMatches := bool_decide (endVertex (edgeAt g e) = a) ||
                     bool_decide (endVertex (edgeAt g e) = c)).
  destruct startMatches, endMatches; cbn [andb]; cbv zeta.
  - splits; auto.
    + intros v. apply point_removeEdge.
    + intros h. rewrite inLoops_spliced_out.
      change (inLoops (removeEdge e g) h) with (inLoops g h). tauto.
  - splits; auto.
    + intros x Hx. change (edgeAt (pushIncident _ _ ?g0) x) with (edgeAt g0 x).
      apply edgeAt_setStartVertex_other. exact Hx.
    + intros v. rewrite point_pushIncident. reflexivity.
    + intros h. change (inLoops (pushIncident _ _ (setStartVertex _ _ g)) h) with (inLoops g h).
      split; [intros H; split; [exact H | intros [? _]; discriminate] | tauto].
  - splits; auto.
    + intros x Hx. change (edgeAt (pushIncident _ _ ?g0) x) with (edgeAt g0 x).
      apply edgeAt_setEndVertex_other. exact Hx.
    + intros v. rewrite point_pushIncident. reflexivity.
    + intros h. change (inLoops (pushIncident _ _ (setEndVertex _ _ g)) h) with (inLoops g h).
      split; [intros H; split; [exact H | intros [? _]; discriminate] | tauto].
  - splits; auto.
    intros h. split; [intros H; split; [exact H | intros [? _]; discriminate] | tauto].
Qed.

Lemma edgeAt_setStartVertex_same (e v : nat) (g : Graph) :
  is_Some (edgeArena g !! e) ->
  startVertex (edgeAt (setStartVertex e v g) e) = v /\
  endVertex (edgeAt (setStartVertex e v g) e) = endVertex (edgeAt g e).
Proof.
  intros [E HE]. unfold edgeAt, setStartVertex. simpl.
  rewrite lookup_total_alter, decide_True by reflexivity.
  rewrite lookup_total_alt, HE. simpl. auto.
Qed.

Lemma edgeAt_setEndVertex_same (e v : nat) (g : Graph) :
  is_Some (edgeArena g !! e) ->
  endVertex (edgeAt (setEndVertex e v g) e) = v /\
  startVertex (edgeAt (setEndVertex e v g) e) = startVertex (edgeAt g e).
Proof.
  intros [E HE]. unfold edgeAt, setEndVertex. simpl.
  rewrite lookup_total_alter, decide_True by reflexivity.
  rewrite lookup_total_alt, HE. simpl. auto.
Qed.

Lemma is_Some_alter_edge (f : Edge -> Edge) (m : gmap nat Edge) (e x : nat) :
  is_Some (alter f e m !! x) <-> is_Some (m !! x).
Proof.
  rewrite lookup_alter. destruct (decide (e = x)) as [-> | _]; [|reflexivity].
  rewrite fmap_is_Some. reflexivity.
Qed.

Lemma wf_collapseEdge (e a c newVertex : nat) (g : Graph) :
  wellFormed g -> e ∈ edges g -> newVertex < nextId g ->
  wellFormed (collapseEdge e a c newVertex g).
Proof.
  intros Hwf He Hnew. unfold collapseEdge.
  pose proof (wf_edges_objects _ Hwf e He) as Hobj.
  destruct ((bool_decide (startVertex (edgeAt g e) = a) ||
             bool_decide (startVertex (edgeAt g e) = c))) eqn:Hs,
           ((bool_decide (endVertex (edgeAt g e) = a) ||
             bool_decide (endVertex (edgeAt g e) = c))) eqn:Hen; cbn [andb]; cbv zeta.
  - apply wf_replaceEdgeInLoops, wf_removeEdge. exact Hwf.
  - destruct Hwf as [H1 H2 H3 H4 H5 H6]. constructor; simpl; auto.
    + intros x Hx. apply is_Some_alter_edge. auto.
    + intros x Hx.
      change (edgeAt (pushIncident newVertex (reversedHalf e) (setStartVertex e newVertex g)) x)
        with (edgeAt (setStartVertex e newVertex g) x).
      destruct (decide (x = e)) as [-> | Hne].
      * destruct (edgeAt_setStartVertex_same e newVertex g Hobj) as [-> ->].
        split; [exact Hnew | apply (H6 e He)].
      * rewrite edgeAt_setStartVertex_other by exact Hne. auto.
  - destruct Hwf as [H1 H2 H3 H4 H5 H6]. constructor; simpl; auto.
    + intros x Hx. apply is_Some_alter_edge. auto.
    + intros x Hx.
      change (edgeAt (pushIncident newVertex (forwardHalf e) (setEndVertex e newVertex g)) x)
        with (edgeAt (setEndVertex e newVertex g) x).
      destruct (decide (x = e)) as [-> | Hne].
      * destruct (edgeAt_setEndVertex_same e newVertex g Hobj) as [-> ->].
        split; [apply (H6 e He) | exact Hnew].
      * rewrite edgeAt_setEndVertex_other by exact Hne. auto.
  - exact Hwf.
Qed.

(** A vertex other than the two that are merged keeps listing the
    half-edges that end at it, the new vertex picking up the ones that ended
    at the two. *)
Lemma ends_collapseEdge (e a c newVertex v : nat) (g : Graph) :
  wellFormed g -> e ∈ edges g ->
  newVertex <> a -> newVertex <> c -> v <> a -> v <> c ->
  listsHalfEdgesEndingAt g v ->
  listsHalfEdgesEndingAt (collapseEdge e a c newVertex g) v.
Proof.
  intros Hwf He Hna Hnc Hva Hvc HP. unfold collapseEdge.
  pose proof (wf_edges_objects _ Hwf e He) as Hobj.
  destruct ((bool_decide (startVertex (edgeAt g e) = a) ||
             bool_decide (startVertex (edgeAt g e) = c))) eqn:Hs,
           ((bool_decide (endVertex (edgeAt g e) = a) ||
             bool_decide (endVertex (edgeAt g e) = c))) eqn:Hen; cbn [andb]; cbv zeta.
  - change (listsHalfEdgesEndingAt (removeEdge e g) v).
    apply ends_removeEdge; [apply Hwf | exact HP].
  - (* the start moves to the new vertex *)
    apply orb_true_iff in Hs. rewrite !bool_decide_eq_true in Hs.
    destruct HP as (Hv & Hnd & Hiff).
    set (g1 := setStartVertex e newVertex g).
    destruct (edgeAt_setStartVertex_same e newVertex g Hobj) as [Hs1 He1]. fold g1 in Hs1, He1.
    assert (Hend : forall h, h <> reversedHalf e -> halfEndVertex g1 h = halfEndVertex g h).
    { intros h Hh. unfold halfEndVertex.
      destruct (decide (edge h = e)) as [Heq | Hne].
      - destruct (half_edge_cases h) as [Hf | Hr]; rewrite Heq in *; [|contradiction].
        rewrite Hf. simpl. exact He1.
      - unfold g1. rewrite edgeAt_setStartVertex_other by exact Hne. reflexivity. }
    assert (Hrev : halfEndVertex g1 (reversedHalf e) = newVertex) by exact Hs1.
    assert (Hrev0 : halfEndVertex g (reversedHalf e) <> v /\
                    halfEndVertex g (reversedHalf e) <> newVertex).
    { rewrite halfEndVertex_reversed. destruct Hs as [-> | ->]; auto. }
    assert (Hv1 : is_Some (vertexArena g1 !! v)) by exact Hv.
    unfold listsHalfEdgesEndingAt.
    change (edges (pushIncident newVertex (reversedHalf e) g1)) with (edges g).
    change (forall h, h ∈ incidentOf (pushIncident newVertex (reversedHalf e) g1) v <->
                      edge h ∈ edges g /\ halfEndVertex g1 h = v) with
      (forall h, h ∈ incidentOf (pushIncident newVertex (reversedHalf e) g1) v <->
                 edge h ∈ edges g /\ halfEndVertex g1 h = v).
    split; [unfold pushIncident; simpl; apply is_Some_alter_vertex; exact Hv|].
    destruct (decide (newVertex = v)) as [-> | Hne].
    + rewrite incidentOf_push_same by exact Hv1.
      change (incidentOf g1 v) with (incidentOf g v). split.
      * apply NoDup_snoc_fresh; [exact Hnd|]. intros Hin. apply Hiff in Hin as [_ Hin].
        destruct Hrev0 as [Hbad _]. contradiction.
      * intros h. change (halfEndVertex (pushIncident v (reversedHalf e) g1) h)
          with (halfEndVertex g1 h).
        rewrite elem_of_app, list_elem_of_singleton, Hiff.
        destruct (decide (h = reversedHalf e)) as [-> | Hh].
        -- split; [intros _; split; [exact He | exact Hrev] | auto].
        -- rewrite (Hend h Hh). tauto.
    + rewrite incidentOf_push_other by exact Hne.
      change (incidentOf g1 v) with (incidentOf g v). split; [exact Hnd|].
      intros h. change (halfEndVertex (pushIncident newVertex (reversedHalf e) g1) h)
        with (halfEndVertex g1 h).
      rewrite Hiff.
      destruct (decide (h = reversedHalf e)) as [-> | Hh].
      * rewrite Hrev. destruct Hrev0 as [Hbad _]. split; intros [_ H]; congruence.
      * rewrite (Hend h Hh). reflexivity.
  - (* the end moves to the new vertex *)
    apply orb_true_iff in Hen. rewrite !bool_decide_eq_true in Hen.
    destruct HP as (Hv & Hnd & Hiff).
    set (g1 := setEndVertex e newVertex g).
    destruct (edgeAt_setEndVertex_same e newVertex g Hobj) as [He1 Hs1]. fold g1 in Hs1, He1.
    assert (Hend : forall h, h <> forwardHalf e -> halfEndVertex g1 h = halfEndVertex g h).
    { intros h Hh. unfold halfEndVertex.
      destruct (decide (edge h = e)) as [Heq | Hne].
      - destruct (half_edge_cases h) as [Hf | Hr]; rewrite Heq in *; [contradiction|].
        rewrite Hr. simpl. exact Hs1.
      - unfold g1. rewrite edgeAt_setEndVertex_other by exact Hne. reflexivity. }
    assert (Hfwd : halfEndVertex g1 (forwardHalf e) = newVertex) by exact He1.
    assert (Hfwd0 : halfEndVertex g (forwardHalf e) <> v /\
                    halfEndVertex g (forwardHalf e) <> newVertex).
    { rewrite halfEndVertex_forward. destruct Hen as [-> | ->]; auto. }
    assert (Hv1 : is_Some (vertexArena g1 !! v)) by exact Hv.
    unfold listsHalfEdgesEndingAt.
    change (edges (pushIncident newVertex (forwardHalf e) g1)) with (edges g).
    split; [unfold pushIncident; simpl; apply is_Some_alter_vertex; exact Hv|].
    destruct (decide (newVertex = v)) as [-> | Hne].
    + rewrite incidentOf_push_same by exact Hv1.
      change (incidentOf g1 v) with (incidentOf g v). split.
      * apply NoDup_snoc_fresh; [exact Hnd|]. intros Hin. apply Hiff in Hin as [_ Hin].
        destruct Hfwd0 as [Hbad _]. contradiction.
      * intros h. change (halfEndVertex (pushIncident v (forwardHalf e) g1) h)
          with (halfEndVertex g1 h).
        rewrite elem_of_app, list_elem_of_singleton, Hiff.
        destruct (decide (h = forwardHalf e)) as [-> | Hh].
        -- split; [intros _; split; [exact He | exact Hfwd] | auto].
        -- rewrite (Hend h Hh). tauto.
    + rewrite incidentOf_push_other by exact Hne.
      change (incidentOf g1 v) with (incidentOf g v). split; [exact Hnd|].
      intros h. change (halfEndVertex (pushIncident newVertex (forwardHalf e) g1) h)
        with (halfEndVertex g1 h).
      rewrite Hiff.
      destruct (decide (h = forwardHalf e)) as [-> | Hh].
      * rewrite Hfwd. destruct Hfwd0 as [Hbad _]. split; intros [_ H]; congruence.
      * rewrite (Hend h Hh). reflexivity.
  - exact HP.
Qed.

(** ** Collapsing: the loop over the edges *)

Lemma take_arrayRemove_at {A} `{EqDecision A} (l : list A) (k : nat) (e : A) :
  NoDup l -> l !! k = Some e ->
  take k (arrayRemove l e) = take k l /\ e ∉ take k l.
Proof.
  intros Hnd. revert k. induction Hnd as [| x l Hx Hnd IH]; intros k Hk; [discriminate|].
  destruct k as [| k]; simpl in *.
  - split; [destruct (decide (x = e)); reflexivity | apply not_elem_of_nil].
  - destruct (decide (x = e)) as [-> | Hne].
    + exfalso. apply Hx. eapply list_elem_of_lookup_2. exact Hk.
    + destruct (IH k Hk) as [Ht Hn]. simpl. rewrite Ht. split; [reflexivity|].
      rewrite not_elem_of_cons. split; [congruence | exact Hn].
Qed.

Lemma bothMatch_same_record (g g' : Graph) (a c e : nat) :
  edgeAt g' e = edgeAt g e -> bothMatch g' a c e = bothMatch g a c e.
Proof. unfold bothMatch. intros ->. reflexivity. Qed.

Lemma collapseEdges_spec (a c newVertex n : nat) : forall g,
  wellFormed g -> newVertex < nextId g -> n <= length (edges g) ->
  exists g', collapseEdges n a c newVertex g = Done g' /\
    wellFormed g' /\ nextId g' = nextId g /\ vertices g' = vertices g /\
    (forall v, point (vertexAt g' v) = point (vertexAt g v)) /\
    (forall e, e ∈ edges g' -> e ∈ edges g) /\
    (forall h, inLoops g' h -> inLoops g h) /\
    (forall e, e ∈ take n (edges g) -> bothMatch g a c e = true ->
       (e ∉ edges g') /\ forall h, inLoops g' h -> edge h <> e) /\
    (newVertex <> a -> newVertex <> c -> forall v, v <> a -> v <> c ->
       listsHalfEdgesEndingAt g v -> listsHalfEdgesEndingAt g' v).
Proof.
  induction n as [| k IH]; intros g Hwf Hnew Hn.
  - exists g. simpl. splits; auto.
    intros e He. rewrite take_0 in He. inversion He.
  - simpl. destruct (lookup_lt_is_Some_2 (edges g) k ltac:(lia)) as [e He].
    rewrite He. simpl.
    assert (Hin : e ∈ edges g) by (eapply list_elem_of_lookup_2; exact He).
    pose proof (collapseEdge_facts e a c newVertex g) as Hfacts. cbv zeta in Hfacts.
    set (g1 := collapseEdge e a c newVertex g) in *.
    destruct Hfacts as (Hedges & Hother & Hvs & Hid & Hpts & Hloops).
    assert (Hwf1 : wellFormed g1) by (apply wf_collapseEdge; assumption).
    destruct (take_arrayRemove_at (edges g) k e (wf_edges_once _ Hwf) He) as [Htake Hfresh].
    assert (Htake1 : take k (edges g1) = take k (edges g)).
    { rewrite Hedges. destruct (bothMatch g a c e); [exact Htake | reflexivity]. }
    assert (Hlen : k <= length (edges g1)).
    { rewrite Hedges. destruct (bothMatch g a c e); [|lia].
      pose proof (length_arrayRemove (edges g) e Hin). lia. }
    destruct (IH g1 Hwf1 ltac:(rewrite Hid; exact Hnew) Hlen)
      as (g' & Hrun & Hwf' & Hid' & Hvs' & Hpts' & Hsub & Hin' & Hgone & Hends).
    exists g'. split; [exact Hrun|]. splits; auto.
    + congruence.
    + congruence.
    + intros v. rewrite Hpts'. apply Hpts.
    + intros x Hx. apply Hsub in Hx. rewrite Hedges in Hx.
      destruct (bothMatch g a c e); [eapply elem_of_arrayRemove_weak|]; exact Hx.
    + intros h Hh. apply Hin', Hloops in Hh. tauto.
    + intros x Hx Hboth. rewrite (take_S_r _ _ _ He) in Hx.
      apply elem_of_app in Hx as [Hx | Hx].
      * assert (Hne : x <> e) by (intros ->; contradiction).
        apply Hgone.
        -- rewrite Htake1. exact Hx.
        -- rewrite (bothMatch_same_record g g1) by (apply Hother; exact Hne). exact Hboth.
      * apply list_elem_of_singleton in Hx as ->. split.
        -- intros Hbad. apply Hsub in Hbad. rewrite Hedges, Hboth in Hbad.
           apply elem_of_arrayRemove in Hbad; [|apply Hwf]. tauto.
        -- intros h Hh. apply Hin', Hloops in Hh. tauto.
    + intros Hna Hnc v Hva Hvc Hlists. apply Hends; auto.
      apply ends_collapseEdge; auto.
Qed.

(** ** Collapsing: one pair of vertices *)

Lemma collapsePair_spec (a c : nat) (g : Graph) :
  wellFormed g -> a ∈ vertices g -> c ∈ vertices g -> a <> c ->
  exists g', collapsePair a c g = Done g' /\ wellFormed g' /\ mergedPair g g' a c /\
    S (length (vertices g')) = length (vertices g) /\
    (verticesListEnds g -> verticesListEnds g').
Proof.
  intros Hwf Ha Hc Hac. unfold collapsePair. cbv zeta.
  set (p := if neq (distance (point (vertexAt g a)) (point (vertexAt g c))) zero
            then point (vertexAt g a)
            else average (point (vertexAt g a)) (point (vertexAt g c))).
  unfold createVertex. cbv zeta.
  set (g1 := withNextId (S (nextId g))
               (withVertexArena (<[nextId g := {| point := p; incidentHalfEdges := [] |}]>
                                   (vertexArena g)) g)).
  set (vs := arrayRemove (arrayRemove (vertices g ++ [nextId g]) a) c).
  change (vertices g1) with (vertices g).
  change (vertices (withVertices (vertices g ++ [nextId g]) g1)) with (vertices g ++ [nextId g]).
  fold vs.
  set (g3 := withVertices vs (withVertices (vertices g ++ [nextId g]) g1)).
  pose proof (wf_vertices_made _ Hwf a Ha) as Hamade.
  pose proof (wf_vertices_made _ Hwf c Hc) as Hcmade.
  assert (Hnd : NoDup (vertices g ++ [nextId g])).
  { apply NoDup_snoc_fresh; [apply Hwf|].
    intros Hin. apply (wf_vertices_made _ Hwf) in Hin. lia. }
  assert (Hvs : forall v, v ∈ vs <-> (v ∈ vertices g \/ v = nextId g) /\ v <> a /\ v <> c).
  { intros v. unfold vs.
    rewrite elem_of_arrayRemove by (apply NoDup_arrayRemove; exact Hnd).
    rewrite elem_of_arrayRemove by exact Hnd.
    rewrite elem_of_app, list_elem_of_singleton. tauto. }
  assert (Hwf3 : wellFormed g3).
  { unfold g3. apply wf_withVertices.
    - apply (wf_pushVertex p g Hwf).
    - unfold vs. apply NoDup_arrayRemove, NoDup_arrayRemove. exact Hnd.
    - simpl. intros v Hv. apply Hvs in Hv as ([Hv | ->] & _); [|lia].
      apply (wf_vertices_made _ Hwf) in Hv. lia. }
  destruct (collapseEdges_spec a c (nextId g) (length (edges g3)) g3 Hwf3
              ltac:(simpl; lia) ltac:(lia))
    as (g' & Hrun & Hwf' & Hid' & Hvs' & Hpts' & Hsub & Hloops & Hgone & Hends).
  exists g'. split; [exact Hrun|]. split; [exact Hwf'|].
  assert (Hnewpt : point (vertexAt g' (nextId g)) = p).
  { rewrite Hpts'. unfold vertexAt, g3, g1. simpl.
    rewrite lookup_total_insert_eq. reflexivity. }
  assert (Holdpt : forall v, v <> nextId g -> point (vertexAt g' v) = point (vertexAt g v)).
  { intros v Hv. rewrite Hpts'. unfold vertexAt, g3, g1. simpl.
    rewrite lookup_total_insert_ne by congruence. reflexivity. }
  split; [|split].
  - exists (nextId g). splits.
    + intros Hin. apply (wf_vertices_made _ Hwf) in Hin. lia.
    + rewrite Hvs'. reflexivity.
    + rewrite Hvs'. apply Hvs. split; [right; reflexivity | lia].
    + rewrite Hvs'. intros Hin. apply Hvs in Hin. tauto.
    + rewrite Hvs'. intros Hin. apply Hvs in Hin. tauto.
    + exact Hnewpt.
    + intros e He Hjoin. rewrite take_ge in Hgone by lia.
      destruct (Hgone e He) as [Hout Hno].
      { apply bothMatch_joinsPair. exact Hjoin. }
      split; [exact Hout|]. intros loop h Hloop Hh. apply Hno. exists loop. auto.
  - rewrite Hvs'. change (vertices g3) with vs. unfold vs.
    assert (H1 : a ∈ vertices g ++ [nextId g]) by (apply elem_of_app; auto).
    assert (H2 : c ∈ arrayRemove (vertices g ++ [nextId g]) a).
    { apply elem_of_arrayRemove; [exact Hnd|]. split; [apply elem_of_app; auto | congruence]. }
    pose proof (length_arrayRemove _ _ H1) as L1.
    pose proof (length_arrayRemove _ _ H2) as L2.
    rewrite length_app in L1. simpl in L1. lia.
  - intros Hlists v Hv. rewrite Hvs' in Hv. apply Hvs in Hv as (Hv & Hva & Hvc).
    apply Hends; [lia | lia | exact Hva | exact Hvc |].
    apply (ends_pushVertex p g Hwf Hlists v).
    simpl. apply elem_of_app. rewrite list_elem_of_singleton. exact Hv.
Qed.

(** ** Collapsing: the rounds *)

Lemma scanned_vertices_distinct (g : Graph) (a c : nat) :
  NoDup (vertices g) -> scanVertices g (vertices g) = Some (a, c) ->
  a ∈ vertices g /\ c ∈ vertices g /\ a <> c.
Proof.
  intros Hnd Hscan. apply scanVertices_Some in Hscan as [(before & behind & Heq & Hc) _].
  rewrite Heq in *. splits.
  - apply elem_of_app. right. apply list_elem_of_here.
  - apply elem_of_app. right. apply list_elem_of_further. exact Hc.
  - intros ->. apply NoDup_app in Hnd as (_ & _ & Hnd). apply NoDup_cons in Hnd as [Hbad _].
    contradiction.
Qed.

Lemma collapseRounds_spec (rounds : nat) : forall g,
  wellFormed g -> length (vertices g) <= rounds ->
  exists g', collapseRounds rounds g = Done g' /\ wellFormed g' /\
    scanVertices g' (vertices g') = None.
Proof.
  induction rounds as [| r IH]; intros g Hwf Hlen.
  - exists g. destruct (vertices g) eqn:E; [|simpl in Hlen; lia].
    simpl. rewrite E. simpl. auto.
  - simpl. destruct (scanVertices g (vertices g)) as [[a c]|] eqn:Hscan.
    + destruct (scanned_vertices_distinct g a c (wf_vertices_once _ Hwf) Hscan)
        as (Ha & Hc & Hac).
      destruct (collapsePair_spec a c g Hwf Ha Hc Hac)
        as (g1 & Hrun & Hwf1 & _ & Hl & _).
      rewrite Hrun. simpl.
      destruct (IH g1 Hwf1 ltac:(lia)) as (g' & Hrun' & Hwf' & Hnone).
      exists g'. splits; auto.
    + exists g. auto.
Qed.

(** Whatever the number of rounds, a graph handed back has no two vertices
    that the scan would still collapse. *)
Lemma collapseRounds_Done (rounds : nat) : forall g g',
  collapseRounds rounds g = Done g' -> scanVertices g' (vertices g') = None.
Proof.
  induction rounds as [| r IH]; intros g g' Hrun; simpl in Hrun.
  - destruct (scanVertices g (vertices g)) as [[a c]|] eqn:Hscan; [discriminate|].
    injection Hrun as <-. exact Hscan.
  - destruct (scanVertices g (vertices g)) as [[a c]|] eqn:Hscan.
    + destruct (collapsePair a c g) as [g1 | |] eqn:Hpair; simpl in Hrun; try discriminate.
      apply (IH g1 g' Hrun).
    + injection Hrun as <-. exact Hscan.
Qed.

Lemma collapseRounds_merges (rounds : nat) : forall g g',
  wellFormed g -> collapseRounds rounds g = Done g' ->
  mergedInTurn g g' /\ wellFormed g'.
Proof.
  induction rounds as [| r IH]; intros g g' Hwf Hrun; simpl in Hrun.
  - destruct (scanVertices g (vertices g)) as [[a c]|]; [discriminate|].
    injection Hrun as <-. splits; auto. apply merged_none.
  - destruct (scanVertices g (vertices g)) as [[a c]|] eqn:Hscan.
    + destruct (scanned_vertices_distinct g a c (wf_vertices_once _ Hwf) Hscan)
        as (Ha & Hc & Hac).
      destruct (collapsePair_spec a c g Hwf Ha Hc Hac)
        as (g1 & Hpair & Hwf1 & Hmerged & _ & _).
      rewrite Hpair in Hrun. simpl in Hrun.
      destruct (IH g1 g' Hwf1 Hrun) as (Hturn & Hwf').
      splits; auto.
      apply (merged_pair g g1 g' a c); auto.
      apply scanVertices_Some in Hscan. tauto.
    + injection Hrun as <-. splits; auto. apply merged_none.
Qed.

Section Collapse.
Variable assertEnabled : bool.

Lemma assertEdgesHaveVertices_cases (g : Graph) :
  assertEdgesHaveVertices assertEnabled g = Done tt \/
  (assertEnabled = true /\
   exists msg, assertEdgesHaveVertices assertEnabled g = Throws (AssertionError msg)).
Proof.
  unfold assertEdgesHaveVertices, assert, assertWhen.
  destruct assertEnabled; [|left; reflexivity].
  do 2 destruct (forallb _ (edges g)); simpl;
    first [left; reflexivity | right; split; [reflexivity | eauto]].
Qed.

Lemma collapseVertices_Done (rounds : nat) (g g' : Graph) :
  collapseVertices assertEnabled rounds g = Done g' -> collapseRounds rounds g = Done g'.
Proof.
  unfold collapseVertices. intros Hrun.
  destruct (assertEdgesHaveVertices assertEnabled g) as [[] | |]; simpl in Hrun;
    try discriminate.
  destruct (collapseRounds rounds g) as [g1 | |]; simpl in Hrun; try discriminate.
  destruct (assertEdgesHaveVertices assertEnabled g1) as [[] | |]; simpl in Hrun;
    try discriminate.
  exact Hrun.
Qed.

(** C8, as the code has it.  When [collapseVertices] returns, no vertex left
    in the graph and vertex behind it in the array pass the test of the
    method: their distance, as [Math.sqrt( dx * dx + dy * dy )] comes out in
    double precision, is not less than [vertexEpsilon].  The graph came
    about by merging pairs of vertices for which the test held, one pair
    after the other, each merged vertex placed at the point of the first of
    the two when the computed distance is 0 and at [a.average( b )]
    otherwise, every edge that ran between the two (or from one of them back
    to itself) taken out of the edges of the graph and out of all its loops.
    With as many rounds as the graph has vertices the method does not run
    on: it returns, or, with assertions on, an assertion on the edges'
    vertices fails. *)
Theorem collapseVertices_merges_until_apart (rounds : nat) (g : Graph) :
  wellFormed g ->
  (forall g', collapseVertices assertEnabled rounds g = Done g' ->
     mergedInTurn g g' /\ verticesApart g') /\
  (length (vertices g) <= rounds ->
     (exists g', collapseVertices assertEnabled rounds g = Done g') \/
     (assertEnabled = true /\
      exists msg, collapseVertices assertEnabled rounds g = Throws (AssertionError msg))).
Proof.
  intros Hwf. split.
  - intros g' Hrun. apply collapseVertices_Done in Hrun.
    destruct (collapseRounds_merges rounds g g' Hwf Hrun) as (Hturn & Hwf').
    split; [exact Hturn|].
    apply scanVertices_apart. apply (collapseRounds_Done rounds g g' Hrun).
  - intros Hlen. unfold collapseVertices.
    destruct (assertEdgesHaveVertices_cases g) as [-> | (Hon & msg & ->)];
      [|right; split; [exact Hon | exists msg; reflexivity]].
    simpl. destruct (collapseRounds_spec rounds g Hwf Hlen) as (g1 & -> & _).
    simpl.
    destruct (assertEdgesHaveVertices_cases g1) as [-> | (Hon & msg & ->)];
      [|right; split; [exact Hon | exists msg; reflexivity]].
    left. exists g1. reflexivity.
Qed.

End Collapse.

Lemma collapseVertices_merges_until_apart_witness :
  wellFormed Examples.shortEdgeGraph /\
  (forall g', collapseVertices true 3 Examples.shortEdgeGraph = Done g' ->
     mergedInTurn Examples.shortEdgeGraph g' /\ verticesApart g') /\
  (length (vertices Examples.shortEdgeGraph) <= 3 ->
     (exists g', collapseVertices true 3 Examples.shortEdgeGraph = Done g') \/
     (true = true /\
      exists msg, collapseVertices true 3 Examples.shortEdgeGraph =
                  Throws (AssertionError msg))).
Proof.
  assert (Hwf : wellFormed Examples.shortEdgeGraph)
    by (apply wellFormedb_sound; vm_compute; reflexivity).
  split; [exact Hwf|].
  apply (collapseVertices_merges_until_apart true 3 Examples.shortEdgeGraph Hwf).
Defined.

(** On the graph with the short edge the method returns: vertices 0 and 1
    make way for vertex 5, half way between them, and edge 3 is gone from
    the edges and from the loop. *)
Example collapseVertices_shortEdgeGraph :
  exists g', collapseVertices true 3 Examples.shortEdgeGraph = Done g' /\
    vertices g' = [2; 5] /\ edges g' = [4] /\
    point (vertexAt g' 5) = Examples.at_ 0x1.0c6f7a0b5ed8dp-21 0 /\
    startVertex (edgeAt g' 4) = 5 /\
    map halfEdges (loops g') = [[forwardHalf 4]].
Proof. eexists. split; [vm_compute; reflexivity|]. vm_compute. auto. Qed.

(** C8, as the specification words it, fails, on both counts.  Two vertices
    at (0,0) and (6e-6, 8e-6) are less than 1e-5 apart, the sum of the
    squares of the two coordinates being less than the square of 1/100000 and
    than the square of the number [vertexEpsilon]; the distance the method
    computes is [vertexEpsilon] itself, which is not less, and both vertices
    stay.  Two vertices at (0,0) and (2^-600, 0) are at different points;
    the distance the method computes is 0, and the merged vertex is put at
    the first point, not half way between them. *)
Lemma close_vertices_stay_and_merge_off_the_middle :
  (collapseVertices true 2 Examples.closePairGraph = Done Examples.closePairGraph /\
   vertices Examples.closePairGraph = [0; 1] /\
   point (vertexAt Examples.closePairGraph 0) = Examples.at_ 0 0 /\
   distance (point (vertexAt Examples.closePairGraph 0))
            (point (vertexAt Examples.closePairGraph 1)) = vertexEpsilon /\
   exists x y e : Q,
     exactValue (vx (point (vertexAt Examples.closePairGraph 1))) = Some x /\
     exactValue (vy (point (vertexAt Examples.closePairGraph 1))) = Some y /\
     exactValue vertexEpsilon = Some e /\
     (x * x + y * y < (1 # 100000) * (1 # 100000))%Q /\
     (x * x + y * y < e * e)%Q) /\
  (equals (point (vertexAt Examples.tinyPairGraph 0))
          (point (vertexAt Examples.tinyPairGraph 1)) = false /\
   average (point (vertexAt Examples.tinyPairGraph 0))
           (point (vertexAt Examples.tinyPairGraph 1)) = Examples.at_ 0x1p-601 0 /\
   exists g', collapseVertices true 2 Examples.tinyPairGraph = Done g' /\
     vertices g' = [2] /\ point (vertexAt g' 2) = Examples.at_ 0 0).
Proof.
  split.
  - split; [vm_compute; reflexivity|]. split; [reflexivity|]. split; [reflexivity|].
    split; [vm_compute; reflexivity|].
    eexists _, _, _. split; [vm_compute; reflexivity|]. split; [vm_compute; reflexivity|].
    split; [vm_compute; reflexivity|]. split; reflexivity.
  - split; [vm_compute; reflexivity|]. split; [vm_compute; reflexivity|].
    eexists. split; [vm_compute; reflexivity|]. split; vm_compute; reflexivity.
Qed.

(** ** The incident half-edges through the phases *)

Section Pipeline.
Variable assertEnabled : bool.
Variable subdividedCurve : Segment -> number -> Segment * Segment.
Variable linear : number -> number -> number -> number -> number -> number.

Lemma simpleSplit_ends (g g' : Graph) (aEdge bEdge : nat) (aT bT : number) (p : Vector2) :
  wellFormed g -> aEdge ∈ edges g -> bEdge ∈ edges g -> aEdge <> bEdge ->
  simpleSplit assertEnabled subdividedCurve aEdge bEdge aT bT p g = Done g' ->
  verticesListEnds g -> verticesListEnds g'.
Proof.
  intros Hwf Ha Hb Hne Hrun Hlists. unfold simpleSplit, splitVertex in Hrun.
  destruct (internal aT) eqn:HaT, (internal bT) eqn:HbT; simpl in Hrun.
  - set (g1 := withVertices (vertices g ++ [nextId g]) (snd (createVertex p g))) in *.
    unfold createVertex in Hrun. cbv zeta in Hrun.
    change (withVertices _ _) with g1 in Hrun.
    inv_bind Hrun as g2 Hfirst Hsecond.
    assert (Hwf1 : wellFormed g1) by (apply wf_pushVertex; exact Hwf).
    assert (Hl1 : verticesListEnds g1) by (apply ends_pushVertex; assumption).
    destruct (splitEdge_sound assertEnabled aEdge aT (nextId g) g1 g2 subdividedCurve Hwf1 Ha)
      as (Hwf2 & Hk2 & Hvs2 & Hid2 & Hes2 & _); [simpl; lia | exact Hfirst |].
    assert (Hb2 : bEdge ∈ edges g2).
    { rewrite Hes2. apply elem_of_app. left.
      apply elem_of_arrayRemove_ne; [congruence | exact Hb]. }
    destruct (splitEdge_sound assertEnabled bEdge bT (nextId g) g2 g' subdividedCurve Hwf2 Hb2)
      as (Hwf3 & Hk3 & Hvs3 & _); [rewrite Hid2; simpl; lia | exact Hsecond |].
    intros v Hv. rewrite Hvs3, Hvs2 in Hv. apply Hk3, Hk2, Hl1, Hv.
  - inv_bind Hrun as g2 Hrun Heq. injection Heq as ->.
    destruct (splitEdge_sound assertEnabled aEdge aT (nearerEnd g bEdge bT) g g'
                subdividedCurve Hwf Ha)
      as (_ & Hk & Hvs & _); [apply nearerEnd_made; assumption | exact Hrun |].
    intros v Hv. rewrite Hvs in Hv. auto.
  - destruct (splitEdge_sound assertEnabled bEdge bT (nearerEnd g aEdge aT) g g'
                subdividedCurve Hwf Hb)
      as (_ & Hk & Hvs & _); [apply nearerEnd_made; assumption | exact Hrun |].
    intros v Hv. rewrite Hvs in Hv. auto.
  - injection Hrun as <-. exact Hlists.
Qed.

Local Abbreviation changes' := (changes assertEnabled subdividedCurve linear).
Local Abbreviation built' := (built assertEnabled subdividedCurve linear).

Lemma verticesListEnds_newGraph : verticesListEnds newGraph.
Proof. intros v Hv. inversion Hv. Qed.

Lemma changes_sound (g g' : Graph) :
  changes' g g' -> wellFormed g -> verticesListEnds g ->
  wellFormed g' /\ verticesListEnds g'.
Proof.
  intros Hstep Hwf Hlists. destruct Hstep.
  - eapply addSubpath_sound; eassumption.
  - destruct (createEdge_addEdge assertEnabled s a b g g') as (Hwf' & Hkeeps & Hvs & _); auto.
    split; [exact Hwf'|]. intros v Hv. rewrite Hvs in Hv. auto.
  - split; [apply wf_removeEdge; exact Hwf|].
    intros v Hv. apply ends_removeEdge; [apply Hwf|].
    apply Hlists. exact Hv.
  - split; [apply wf_replaceEdgeInLoops; exact Hwf|].
    intros v Hv. change (listsHalfEdgesEndingAt g v). apply Hlists. exact Hv.
  - split; [apply wf_pushVertex; exact Hwf | apply ends_pushVertex; assumption].
  - split.
    + apply wf_withVertices; [exact Hwf | apply NoDup_arrayRemove; apply Hwf |].
      intros x Hx. apply elem_of_arrayRemove_weak in Hx. apply Hwf. exact Hx.
    + intros x Hx. simpl in Hx. apply elem_of_arrayRemove_weak in Hx.
      change (listsHalfEdgesEndingAt g x). apply Hlists. exact Hx.
  - split.
    + destruct (simpleSplit_cases subdividedCurve assertEnabled g g' aEdge bEdge aT bT p)
        as [Hwf' _]; auto.
    + apply (simpleSplit_ends g g' aEdge bEdge aT bT p); assumption.
  - destruct (splitOverlap_sound subdividedCurve linear assertEnabled aEdge bEdge overlap g g')
      as (Hwf' & Hl & _); auto.
  - destruct (collapsePair_spec a c g) as (g1 & Hrun & Hwf' & _ & _ & Hl); auto.
    assert (g1 = g') by congruence. subst g1. auto.
Qed.

(** C4, as the code has it.  In a graph the phases get to, every vertex of
    the graph lists in [incidentHalfEdges], once each, the half-edges of the
    edges of the graph that END at the vertex (the reversed half of an edge
    that starts there, the forward half of an edge that ends there), and no
    other half-edge. *)
Theorem incident_half_edges_end_at_vertex (g : Graph) (v : nat) :
  built assertEnabled subdividedCurve linear g -> v ∈ vertices g ->
  listsHalfEdgesEndingAt g v.
Proof.
  intros Hbuilt. revert v.
  assert (Hinv : wellFormed g /\ verticesListEnds g).
  { induction Hbuilt as [| g g' _ [Hwf Hlists] Hstep].
    - split; [exact wf_newGraph | exact verticesListEnds_newGraph].
    - apply (changes_sound g g' Hstep Hwf Hlists). }
  intros v Hv. apply Hinv. exact Hv.
Qed.

End Pipeline.

(** ** The properties on the example graphs *)

Module ExampleFacts.
Import Examples.

(** A decidable statement about a concrete graph, by evaluation. *)
Ltac decided := apply (bool_decide_unpack _); vm_compute; exact I.

Lemma openPathGraph_ingested :
  addSubpath false 0 openPath newGraph = Done openPathGraph.
Proof. vm_compute. reflexivity. Qed.

Lemma openPathGraph_built : built false noCurve linear openPathGraph.
Proof.
  apply (built_change _ _ _ newGraph); [apply built_new|].
  apply (changes_addSubpath _ _ _ 0%Z openPath). exact openPathGraph_ingested.
Qed.

Lemma crossGraph_wellFormed : wellFormed crossGraph.
Proof. apply wellFormedb_sound. vm_compute. reflexivity. Qed.

Lemma overlapGraph_wellFormed : wellFormed overlapGraph.
Proof. apply wellFormedb_sound. vm_compute. reflexivity. Qed.

Lemma triangleGraph_outside : is_Some (faceArena triangleGraph !! unboundedFace triangleGraph).
Proof. decided. Qed.

Lemma triangleGraph_linked : facesLinked triangleGraph.
Proof.
  split; [exact triangleGraph_outside|].
  intros e He. change (edges triangleGraph) with [4; 5; 6] in He.
  exists 7, 0.
  repeat (apply elem_of_cons in He as [-> | He]);
    [| | | inversion He];
    (split; [split; reflexivity|]); repeat split; decided.
Qed.

Lemma triangleGraph_reachable : facesReachable triangleGraph.
Proof.
  intros f Hf. change (faces triangleGraph) with [0; 7] in Hf.
  repeat (apply elem_of_cons in Hf as [-> | Hf]); [| | inversion Hf].
  - apply (reach_unbounded triangleGraph).
  - apply (reach_across triangleGraph 0 7 4).
    + apply (reach_unbounded triangleGraph).
    + decided.
    + right. split; reflexivity.
Qed.

Lemma triangleGraph_listed : facesListed triangleGraph.
Proof.
  split; [decided|]. split; [decided|].
  intros f Hf. change (faces triangleGraph) with [0; 7] in Hf.
  repeat (apply elem_of_cons in Hf as [-> | Hf]); [| | inversion Hf]; decided.
Qed.

End ExampleFacts.

Lemma closing_segment_iff_ends_differ_witness :
  segments Examples.openPath <> [] /\
  addSubpath false 0 Examples.openPath newGraph = Done Examples.openPathGraph /\
  (exists (first lastPoint : Vector2) (made : list nat),
     getFirstPoint Examples.openPath = Some first /\
     getLastPoint Examples.openPath = Some lastPoint /\
     edges Examples.openPathGraph = edges newGraph ++ made /\
     loops Examples.openPathGraph =
       loops newGraph ++ [{| shapeId := 0; halfEdges := map forwardHalf made |}] /\
     map (fun e => segment (edgeAt Examples.openPathGraph e)) made =
       segments Examples.openPath ++
       (if equals first lastPoint then [] else [Line lastPoint first])) /\
  forall mark,
    addSubpath false 0 (withClosed mark Examples.openPath) newGraph =
    addSubpath false 0 Examples.openPath newGraph.
Proof.
  assert (Hsegments : segments Examples.openPath <> []) by discriminate.
  split; [exact Hsegments|]. split; [exact ExampleFacts.openPathGraph_ingested|].
  apply (closing_segment_iff_ends_differ false 0 Examples.openPath newGraph
           Examples.openPathGraph Hsegments ExampleFacts.openPathGraph_ingested).
Defined.

(** C2, as the specification words it, fails: a subpath that is not marked
    closed and ends away from its first point gets the closing line all the
    same, as a segment of the list and as an edge of the graph. *)
Lemma closing_segment_without_closed :
  closed Examples.openPath = false /\
  ingestedSegments false Examples.openPath =
    Done (segments Examples.openPath ++ [Line (Examples.at_ 1 0) (Examples.at_ 0 0)]) /\
  match addSubpath false 0 Examples.openPath newGraph with
  | Done g' =>
      map (fun e => segment (edgeAt g' e)) (edges g') =
        [Line (Examples.at_ 0 0) (Examples.at_ 1 0); Line (Examples.at_ 1 0) (Examples.at_ 0 0)]
  | _ => False
  end.
Proof. split; [reflexivity|]. split; vm_compute; reflexivity. Qed.

Lemma addSubpath_checks_joins_not_finiteness_witness :
  wellFormed newGraph /\ points Examples.nanPath <> [] /\ segments Examples.nanPath <> [] /\
  exists (segs : list Segment) (created : list nat) (g' : Graph),
    ingestedSegments false Examples.nanPath = Done segs /\
    addSubpath false 0 Examples.nanPath newGraph = Done g' /\
    vertices g' = vertices newGraph ++ created /\
    map (fun v => point (vertexAt g' v)) created = map joinPoint (joinsOf segs) /\
    (forall s, s ∈ segs ->
       isFiniteVector (seg_start s) = false \/ isFiniteVector (seg_end s) = false ->
       exists v, v ∈ created /\ isFiniteVector (point (vertexAt g' v)) = false) /\
    addSubpath true 0 Examples.nanPath newGraph =
      (if forallb joinAccurate (joinsOf segs) then Done g'
       else Throws (AssertionError "Inaccurate start/end points")).
Proof.
  assert (Hpoints : points Examples.nanPath <> []) by discriminate.
  assert (Hsegments : segments Examples.nanPath <> []) by discriminate.
  split; [exact wf_newGraph|]. split; [exact Hpoints|]. split; [exact Hsegments|].
  apply (addSubpath_checks_joins_not_finiteness 0 Examples.nanPath newGraph
           wf_newGraph Hpoints Hsegments).
Defined.

(** C3, as the specification words it, fails.  A closed triangle whose first
    point is infinitely far to the right is ingested, with assertions on as
    with assertions off: at each join the two points are equal, and the graph
    gets a vertex at the infinite point.  A triangle whose first point has a
    coordinate that is not a number is ingested with assertions off, the
    vertex of its first join at a point that is not a number; with assertions
    on the join fails the assertion on the distance of its two points, which
    is an assertion error. *)
Lemma infinite_coordinate_is_ingested :
  isFiniteVector (seg_start (Line (Examples.at_ infinity 0) (Examples.at_ 1 0))) = false /\
  match addSubpath true 0 Examples.farPath newGraph with
  | Done g' => map (fun v => point (vertexAt g' v)) (vertices g') =
                 [Examples.at_ infinity 0; Examples.at_ 1 0; Examples.at_ 1 1]
  | _ => False
  end /\
  addSubpath false 0 Examples.farPath newGraph = addSubpath true 0 Examples.farPath newGraph /\
  isFiniteVector (seg_start (Line (Examples.at_ nan 0) (Examples.at_ 1 0))) = false /\
  match addSubpath false 0 Examples.nanPath newGraph with
  | Done g' => map (fun v => isFiniteVector (point (vertexAt g' v))) (vertices g') =
                 [false; true; true]
  | _ => False
  end /\
  addSubpath true 0 Examples.nanPath newGraph =
    Throws (AssertionError "Inaccurate start/end points").
Proof.
  split; [reflexivity|]. split; [vm_compute; reflexivity|].
  split; [vm_compute; reflexivity|]. split; [reflexivity|].
  split; vm_compute; reflexivity.
Qed.

Lemma triangleGraph_unsolved : facesUnsolved Examples.triangleGraph.
Proof.
  intros f Hne. unfold faceAt, Examples.triangleGraph in *. simpl in *.
  rewrite lookup_total_insert_ne by congruence.
  destruct (decide (f = 7)) as [-> | Hne7].
  - rewrite lookup_total_insert_eq. reflexivity.
  - rewrite lookup_total_insert_ne by congruence. rewrite lookup_total_empty. reflexivity.
Qed.




Lemma incident_half_edges_end_at_vertex_witness :
  built false Examples.noCurve Examples.linear Examples.openPathGraph /\
  1 ∈ vertices Examples.openPathGraph /\
  listsHalfEdgesEndingAt Examples.openPathGraph 1.
Proof.
  assert (Hv : 1 ∈ vertices Examples.openPathGraph) by (vm_compute; apply list_elem_of_here).
  split; [exact ExampleFacts.openPathGraph_built|]. split; [exact Hv|].
  apply (incident_half_edges_end_at_vertex false Examples.noCurve Examples.linear
           Examples.openPathGraph 1 ExampleFacts.openPathGraph_built Hv).
Defined.

(** C4, as the specification words it, fails.  In the graph of one line
    from (0,0) to (1,0) and the line back, vertex 1 lists the reversed half
    of edge 3 and the forward half of edge 4: both end at vertex 1 and start
    at vertex 2, and the two half-edges that start at vertex 1 are not in
    its list. *)
Lemma incident_half_edges_do_not_start_at_vertex :
  built false Examples.noCurve Examples.linear Examples.openPathGraph /\
  1 ∈ vertices Examples.openPathGraph /\
  incidentOf Examples.openPathGraph 1 = [reversedHalf 3; forwardHalf 4] /\
  halfStartVertex Examples.openPathGraph (reversedHalf 3) = 2 /\
  halfStartVertex Examples.openPathGraph (forwardHalf 4) = 2 /\
  halfStartVertex Examples.openPathGraph (forwardHalf 3) = 1 /\
  (forwardHalf 3 ∉ incidentOf Examples.openPathGraph 1) /\
  ~ listsHalfEdgesStartingAt Examples.openPathGraph 1.
Proof.
  split; [exact ExampleFacts.openPathGraph_built|].
  split; [vm_compute; apply list_elem_of_here|].
  split; [vm_compute; reflexivity|].
  split; [vm_compute; reflexivity|].
  split; [vm_compute; reflexivity|].
  split; [vm_compute; reflexivity|].
  assert (Hout : forwardHalf 3 ∉ incidentOf Examples.openPathGraph 1)
    by (apply (bool_decide_unpack _); vm_compute; exact I).
  split; [exact Hout|].
  intros (_ & _ & Hiff). apply Hout, Hiff.
  split; [apply (bool_decide_unpack _); vm_compute; exact I | vm_compute; reflexivity].
Qed.

Lemma intersection_split_shares_vertex_witness :
  wellFormed Examples.crossGraph /\
  scanIntersections Examples.lineIntersect Examples.crossGraph (edges Examples.crossGraph)
    = Some (3, 7, Examples.crossing) /\
  simpleSplit true Examples.noCurve 3 7 (Intersection.aT Examples.crossing)
    (Intersection.bT Examples.crossing) (Intersection.point Examples.crossing)
    Examples.crossGraph = Done Examples.crossGraphSplit /\
  Examples.crossing ∈
    Examples.lineIntersect (segment (edgeAt Examples.crossGraph 3))
      (segment (edgeAt Examples.crossGraph 7)) /\
  (internal (Intersection.aT Examples.crossing) = true \/
   internal (Intersection.bT Examples.crossing) = true) /\
  (forall rounds,
     eliminateIntersection true Examples.lineIntersect Examples.noCurve (S rounds)
       Examples.crossGraph =
     eliminateIntersection true Examples.lineIntersect Examples.noCurve rounds
       Examples.crossGraphSplit) /\
  sharesOneVertex Examples.noCurve Examples.crossGraph Examples.crossGraphSplit 3 7
    (Intersection.aT Examples.crossing) (Intersection.bT Examples.crossing)
    (Intersection.point Examples.crossing).
Proof.
  assert (Hscan : scanIntersections Examples.lineIntersect Examples.crossGraph
                    (edges Examples.crossGraph) = Some (3, 7, Examples.crossing))
    by (vm_compute; reflexivity).
  assert (Hrun : simpleSplit true Examples.noCurve 3 7 (Intersection.aT Examples.crossing)
                   (Intersection.bT Examples.crossing) (Intersection.point Examples.crossing)
                   Examples.crossGraph = Done Examples.crossGraphSplit)
    by (vm_compute; reflexivity).
  split; [exact ExampleFacts.crossGraph_wellFormed|]. split; [exact Hscan|]. split; [exact Hrun|].
  apply (intersection_split_shares_vertex Examples.lineIntersect Examples.noCurve true
           Examples.crossGraph Examples.crossGraphSplit 3 7 Examples.crossing
           ExampleFacts.crossGraph_wellFormed Hscan Hrun).
Defined.

(** The test for an internal parameter at its two bounds: [1e-5] and
    [1 - 1e-5] themselves are not internal, the numbers next to them on the
    inside are. *)
Example internal_at_the_bounds :
  internal epsilon5 = false /\
  internal (PrimFloat.next_up epsilon5) = true /\
  internal (nsub one epsilon5) = false /\
  internal (PrimFloat.next_down (nsub one epsilon5)) = true /\
  internal oneHalf = true /\ internal nan = false.
Proof. repeat split; vm_compute; reflexivity. Qed.


(** On the two lines of [nearOverlapGraph] the first parameter of the
    overlap, a millionth, is put to 0: no piece of the first line is left
    before the shared stretch, whose edge carries the whole first line, and
    the only other edge is the piece of the second line behind it. *)
Example splitOverlap_nearOverlapGraph :
  Overlap.t0 Examples.nearStretch = Examples.millionth /\
  nlt (Overlap.t0 Examples.nearStretch) epsilon5 = true /\
  edges Examples.nearOverlapGraphSplit = [6; 7] /\
  segment (edgeAt Examples.nearOverlapGraphSplit 6) = Line (Examples.at_ 0 0) (Examples.at_ 1 0) /\
  segment (edgeAt Examples.nearOverlapGraphSplit 7) =
    snd (LineSegment.subdivided (Examples.at_ Examples.millionth 0) (Examples.at_ 2 0)
           (Overlap.qt1 Examples.nearStretch)) /\
  map halfEdges (loops Examples.nearOverlapGraphSplit) =
    [[forwardHalf 6]; [forwardHalf 6; forwardHalf 7]].
Proof. repeat split; vm_compute; reflexivity. Qed.


Lemma computeWindingMap_ends_with_faces_solved_witness :
  facesLinked Examples.triangleGraph /\ facesReachable Examples.triangleGraph /\
  3 * length (edges Examples.triangleGraph) <= 9 /\
  ((exists g', computeWindingMap true 9 Examples.triangleGraph = Done g' /\
      windingMapsOnly Examples.triangleGraph g' /\
      (forall f, f ∈ faces Examples.triangleGraph -> is_Some (windingMap (faceAt g' f))) /\
      facesSolved g') \/
   (true = true /\
    exists msg, computeWindingMap true 9 Examples.triangleGraph
                = Throws (AssertionError msg))).
Proof.
  assert (Hrounds : 3 * length (edges Examples.triangleGraph) <= 9) by (simpl; lia).
  split; [exact ExampleFacts.triangleGraph_linked|].
  split; [exact ExampleFacts.triangleGraph_reachable|]. split; [exact Hrounds|].
  apply (computeWindingMap_ends_with_faces_solved true 9 Examples.triangleGraph
           ExampleFacts.triangleGraph_linked ExampleFacts.triangleGraph_reachable Hrounds).
Defined.

Lemma fillAlternatingFaces_ends_iff_reachable_witness :
  facesListed Examples.triangleGraph /\ facesLinked Examples.triangleGraph /\
  (facesReachable Examples.triangleGraph ->
   forall rounds, length (faces Examples.triangleGraph) <= rounds ->
     exists g', fillAlternatingFaces rounds Examples.triangleGraph = Done g' /\
                facesAlternate Examples.triangleGraph g') /\
  (~ facesReachable Examples.triangleGraph ->
   forall rounds, fillAlternatingFaces rounds Examples.triangleGraph = Diverges) /\
  (forall rounds g', fillAlternatingFaces rounds Examples.triangleGraph = Done g' ->
     facesReachable Examples.triangleGraph /\ facesAlternate Examples.triangleGraph g').
Proof.
  split; [exact ExampleFacts.triangleGraph_listed|].
  split; [exact ExampleFacts.triangleGraph_linked|].
  apply (fillAlternatingFaces_ends_iff_reachable Examples.triangleGraph
           ExampleFacts.triangleGraph_listed ExampleFacts.triangleGraph_linked).
Defined.

(** On the triangle both methods return: the face inside gets winding
    number 1 for the shape and is filled, the unbounded face 0 and not
    filled. *)
Example triangleGraph_winding_and_fill :
  windingAt Examples.triangleGraphWound 0 0 = Some 0%Z /\
  windingAt Examples.triangleGraphWound 7 0 = Some 1%Z /\
  exists g', fillAlternatingFaces 2 Examples.triangleGraph = Done g' /\
    filled (faceAt g' 0) = Some false /\ filled (faceAt g' 7) = Some true.
Proof.
  split; [vm_compute; reflexivity|]. split; [vm_compute; reflexivity|].
  eexists. split; [vm_compute; reflexivity|]. split; vm_compute; reflexivity.
Qed.

(** * Further properties of the graph methods *)

(** ** Connecting an edge and taking it out again *)

Lemma arrayRemove_app_fresh {A} `{EqDecision A} (l r : list A) (x : A) :
  x ∉ l -> arrayRemove (l ++ x :: r) x = l ++ r.
Proof.
  induction l as [| y l IH]; simpl; intros Hx.
  - rewrite decide_True by reflexivity. reflexivity.
  - apply not_elem_of_cons in Hx as [Hne Hx].
    rewrite decide_False by congruence. rewrite IH by exact Hx. reflexivity.
Qed.

Lemma Graph_eq (g g' : Graph) :
  vertexArena g = vertexArena g' -> edgeArena g = edgeArena g' ->
  faceArena g = faceArena g' -> nextId g = nextId g' ->
  vertices g = vertices g' -> edges g = edges g' -> shapeIds g = shapeIds g' ->
  loops g = loops g' -> boundaries g = boundaries g' ->
  unboundedFace g = unboundedFace g' -> faces g = faces g' -> g = g'.
Proof. destruct g, g'. simpl. intros. subst. reflexivity. Qed.

(** X1.  Taking out an edge right after it was connected gives the graph
    back as it was: for an edge that is not among the edges and whose halves
    are not yet in the lists of its two vertices (what [addEdge] asserts),
    [removeEdge] after [addEdge] restores the array of edges and the
    incident half-edges of every vertex, also when the edge starts and ends
    at one vertex. *)
Theorem removeEdge_undoes_addEdge (assertEnabled : bool) (e : nat) (g g' : Graph) :
  e ∉ edges g ->
  reversedHalf e ∉ incidentOf g (startVertex (edgeAt g e)) ->
  forwardHalf e ∉ incidentOf g (endVertex (edgeAt g e)) ->
  addEdge assertEnabled e g = Done g' ->
  removeEdge e g' = g.
Proof.
  intros He Hrev Hfwd Hrun. apply addEdge_Done in Hrun. subst g'.
  set (a := startVertex (edgeAt g e)) in *. set (c := endVertex (edgeAt g e)) in *.
  unfold removeEdge. cbv zeta.
  change (edgeAt (pushIncident c (forwardHalf e)
                    (pushIncident a (reversedHalf e) (withEdges (edges g ++ [e]) g))) e)
    with (edgeAt g e). fold a c.
  apply Graph_eq; simpl; try reflexivity.
  - (* the lists of the vertices *)
    unfold incidentOf, vertexAt in Hrev, Hfwd. rewrite !lookup_total_alt in Hrev, Hfwd.
    clearbody a c. destruct (decide (a = c)) as [<- | Hne].
    + rewrite !alter_alter_eq. apply alter_id. intros [p l] HV.
      rewrite HV in Hrev, Hfwd. simpl in *. f_equal.
      rewrite <- app_assoc. simpl. rewrite arrayRemove_app_fresh by exact Hrev.
      rewrite arrayRemove_app_fresh by exact Hfwd. apply app_nil_r.
    + rewrite (alter_alter_ne _ _ _ a c) by exact Hne.
      rewrite !alter_alter_eq. rewrite (alter_id _ _ a).
      * apply alter_id. intros [p l] HV. rewrite HV in Hfwd. simpl in *. f_equal.
        rewrite arrayRemove_app_fresh by exact Hfwd. apply app_nil_r.
      * intros [p l] HV. rewrite HV in Hrev. simpl in *. f_equal.
        rewrite arrayRemove_app_fresh by exact Hrev. apply app_nil_r.
  - (* the array of edges *)
    rewrite arrayRemove_app_fresh by exact He. apply app_nil_r.
Qed.

(** A decidable statement about a concrete graph, by evaluation. *)
Ltac evaluated := apply (bool_decide_unpack _); vm_compute; exact I.

Lemma removeEdge_undoes_addEdge_witness :
  (5 ∉ edges MoreExamples.spareEdgeGraph) /\
  addEdge true 5 MoreExamples.spareEdgeGraph = Done MoreExamples.spareEdgeConnected /\
  edges MoreExamples.spareEdgeConnected = [3; 4; 5] /\
  removeEdge 5 MoreExamples.spareEdgeConnected = MoreExamples.spareEdgeGraph.
Proof.
  assert (He : 5 ∉ edges MoreExamples.spareEdgeGraph) by evaluated.
  assert (Hrun : addEdge true 5 MoreExamples.spareEdgeGraph
                 = Done MoreExamples.spareEdgeConnected) by (vm_compute; reflexivity).
  split; [exact He|]. split; [exact Hrun|]. split; [vm_compute; reflexivity|].
  apply (removeEdge_undoes_addEdge true 5 MoreExamples.spareEdgeGraph
           MoreExamples.spareEdgeConnected He); [evaluated | evaluated | exact Hrun].
Defined.

(** ** Differentials when an edge is replaced in the loops *)

(** What a half-edge of a loop adds to the differential of [e]. *)
Definition halfWeight (e : nat) (h : HalfEdge) : Z :=
  if decide (h = forwardHalf e) then 1%Z
  else if decide (h = reversedHalf e) then (-1)%Z else 0%Z.

Definition sumZ (l : list Z) : Z := foldr Z.add 0%Z l.

Definition loopWeight (e : nat) (id : Z) (loop : Loop) : Z :=
  if decide (shapeId loop = id) then sumZ (map (halfWeight e) (halfEdges loop)) else 0%Z.

Lemma sumZ_app (l r : list Z) : sumZ (l ++ r) = (sumZ l + sumZ r)%Z.
Proof. induction l as [| x l IH]; simpl; [reflexivity | rewrite IH; lia]. Qed.

Lemma differential_of_loop (e : nat) (hs : list HalfEdge) : forall d : Z,
  foldl (fun differential loopHalfEdge =>
           if decide (loopHalfEdge = forwardHalf e) then (differential + 1)%Z
           else if decide (loopHalfEdge = reversedHalf e) then (differential - 1)%Z
           else differential) d hs
  = (d + sumZ (map (halfWeight e) hs))%Z.
Proof.
  induction hs as [| h hs IH]; intros d; simpl; [lia|].
  rewrite IH. unfold halfWeight.
  destruct (decide (h = forwardHalf e)); [lia|].
  destruct (decide (h = reversedHalf e)); lia.
Qed.

Lemma computeDifferential_sum (e : nat) (id : Z) (g : Graph) :
  computeDifferential e id g = sumZ (map (loopWeight e id) (loops g)).
Proof.
  unfold computeDifferential.
  assert (H : forall ls d,
    foldl (fun differential loop =>
             if decide (shapeId loop = id) then
               foldl (fun differential loopHalfEdge =>
                        if decide (loopHalfEdge = forwardHalf e) then (differential + 1)%Z
                        else if decide (loopHalfEdge = reversedHalf e)
                             then (differential - 1)%Z
                             else differential)
                     differential (halfEdges loop)
             else differential) d ls
    = (d + sumZ (map (loopWeight e id) ls))%Z).
  { induction ls as [| loop ls IH]; intros d; simpl; [lia|].
    rewrite IH. unfold loopWeight.
    destruct (decide (shapeId loop = id)); [rewrite differential_of_loop|]; lia. }
  rewrite H. lia.
Qed.

Lemma halfWeight_other_edge (f : nat) (h : HalfEdge) : edge h <> f -> halfWeight f h = 0%Z.
Proof.
  intros Hne. unfold halfWeight.
  destruct (decide (h = forwardHalf f)) as [-> | _]; [contradiction Hne; reflexivity|].
  destruct (decide (h = reversedHalf f)) as [-> | _]; [contradiction Hne; reflexivity|].
  reflexivity.
Qed.

Lemma halfWeight_getReversed (f : nat) (h : HalfEdge) :
  halfWeight f (getReversed h) = (- halfWeight f h)%Z.
Proof.
  unfold halfWeight. destruct h as [x [|]]; unfold getReversed, forwardHalf, reversedHalf; simpl;
    repeat case_decide; try congruence; try lia.
Qed.

Lemma sumZ_reversed (f : nat) (hs : list HalfEdge) :
  sumZ (map (halfWeight f) (map getReversed (reverse hs)))
  = (- sumZ (map (halfWeight f) hs))%Z.
Proof.
  induction hs as [| h hs IH]; simpl; [reflexivity|].
  rewrite reverse_cons, !map_app, sumZ_app, IH. simpl.
  rewrite halfWeight_getReversed. lia.
Qed.

Lemma netOccurrences_sum (f : nat) (hs : list HalfEdge) :
  netOccurrences f hs = sumZ (map (halfWeight f) hs).
Proof.
  unfold netOccurrences. induction hs as [| h hs IH]; simpl; [reflexivity|].
  rewrite <- IH. unfold halfWeight. rewrite !filter_cons.
  destruct (decide (h = forwardHalf f)) as [-> | Hf].
  - rewrite decide_False by apply forward_ne_reversed. simpl. lia.
  - destruct (decide (h = reversedHalf f)); simpl; lia.
Qed.

Lemma halfWeight_forward (e : nat) : halfWeight e (forwardHalf e) = 1%Z.
Proof. unfold halfWeight. rewrite decide_True by reflexivity. reflexivity. Qed.

Lemma halfWeight_reversed (e : nat) : halfWeight e (reversedHalf e) = (-1)%Z.
Proof.
  unfold halfWeight. rewrite decide_False by discriminate.
  rewrite decide_True by reflexivity. reflexivity.
Qed.

(** The weights of a loop once the halves of [e] gave way to others. *)
Lemma sumZ_spliceEdge (e f : nat) (forwardHalfEdges : list HalfEdge) (hs : list HalfEdge) :
  sumZ (map (halfWeight f)
          (spliceEdge e forwardHalfEdges (map getReversed (reverse forwardHalfEdges)) hs))
  = ((if decide (f = e) then 0 else sumZ (map (halfWeight f) hs)) +
     sumZ (map (halfWeight f) forwardHalfEdges) * sumZ (map (halfWeight e) hs))%Z.
Proof.
  induction hs as [| h hs IH]; simpl; [destruct (decide (f = e)); lia|].
  destruct (decide (edge h = e)) as [He | He].
  - rewrite map_app, sumZ_app, IH.
    assert (Hf : (if decide (f = e) then 0%Z else halfWeight f h) = 0%Z).
    { destruct (decide (f = e)); [reflexivity|]. apply halfWeight_other_edge. congruence. }
    destruct (decide (h = forwardHalf e)) as [-> | Hh].
    + rewrite halfWeight_forward. destruct (decide (f = e)); lia.
    + assert (h = reversedHalf e) as ->.
      { destruct (half_edge_cases h) as [H | H]; rewrite He in H; congruence. }
      rewrite sumZ_reversed, halfWeight_reversed.
      destruct (decide (f = e)); lia.
  - simpl. rewrite IH. rewrite (halfWeight_other_edge e h He).
    destruct (decide (f = e)) as [-> | Hfe]; [rewrite (halfWeight_other_edge e h He)|]; lia.
Qed.

Lemma computeDifferential_loops (x : nat) (id : Z) (g g' : Graph) :
  loops g = loops g' -> computeDifferential x id g = computeDifferential x id g'.
Proof. intros H. unfold computeDifferential. rewrite H. reflexivity. Qed.

Lemma computeDifferential_notInLoops (x : nat) (id : Z) (g : Graph) :
  notInLoops g x -> computeDifferential x id g = 0%Z.
Proof.
  intros Hout. rewrite computeDifferential_sum.
  assert (H : forall ls, (forall loop, loop ∈ ls -> loop ∈ loops g) ->
                         sumZ (map (loopWeight x id) ls) = 0%Z).
  { induction ls as [| loop ls IH]; intros Hsub; simpl; [reflexivity|].
    rewrite IH by (intros l Hl; apply Hsub; apply list_elem_of_further; exact Hl).
    unfold loopWeight. destruct (decide (shapeId loop = id)); [|reflexivity].
    assert (Hz : forall hs, (forall h, h ∈ hs -> h ∈ halfEdges loop) ->
                            sumZ (map (halfWeight x) hs) = 0%Z).
    { induction hs as [| h hs IHh]; intros Hin; simpl; [reflexivity|].
      rewrite IHh by (intros h' Hh'; apply Hin; apply list_elem_of_further; exact Hh').
      rewrite halfWeight_other_edge; [reflexivity|].
      apply (Hout loop h); [apply Hsub; apply list_elem_of_here|].
      apply Hin. apply list_elem_of_here. }
    rewrite Hz by auto. reflexivity. }
  apply H. auto.
Qed.

Lemma loopWeight_spliced (e f : nat) (hs : list HalfEdge) (id : Z) (loop : Loop) :
  loopWeight f id {| shapeId := shapeId loop;
                     halfEdges := spliceEdge e hs (map getReversed (reverse hs))
                                    (halfEdges loop) |}
  = ((if decide (f = e) then 0 else loopWeight f id loop) +
     sumZ (map (halfWeight f) hs) * loopWeight e id loop)%Z.
Proof.
  unfold loopWeight. simpl. destruct (decide (shapeId loop = id)).
  - apply sumZ_spliceEdge.
  - destruct (decide (f = e)); lia.
Qed.

Lemma differential_sum_after_replace
    (e f : nat) (hs : list HalfEdge) (id : Z) (g : Graph) :
  computeDifferential f id (replaceEdgeInLoops e hs g) =
  ((if decide (f = e) then 0 else computeDifferential f id g) +
   netOccurrences f hs * computeDifferential e id g)%Z.
Proof.
  rewrite !computeDifferential_sum, netOccurrences_sum.
  unfold replaceEdgeInLoops. cbv zeta. simpl.
  induction (loops g) as [| loop ls IH]; simpl.
  - destruct (decide (f = e)); lia.
  - rewrite IH, loopWeight_spliced. destruct (decide (f = e)); ring.
Qed.

(** X2.  What [replaceEdgeInLoops] does to the differentials.  Once the
    halves of the edge [e] gave way in the loops to the half-edges [hs] (and
    to their reverses, in reverse order, where a loop ran through [e]
    backwards), the differential of [e] itself counts only what [hs] holds
    of [e], and the differential of any other edge [f] is the one it had
    more the differential [e] had, once for every time [hs] holds the forward
    half of [f] and once less for every time it holds the reversed half. *)
Theorem differential_after_replaceEdgeInLoops
    (e : nat) (hs : list HalfEdge) (id : Z) (g : Graph) :
  computeDifferential e id (replaceEdgeInLoops e hs g) =
    (netOccurrences e hs * computeDifferential e id g)%Z /\
  forall f, f <> e ->
    computeDifferential f id (replaceEdgeInLoops e hs g) =
    (computeDifferential f id g + netOccurrences f hs * computeDifferential e id g)%Z.
Proof.
  split.
  - rewrite differential_sum_after_replace, decide_True by reflexivity. lia.
  - intros f Hne. rewrite differential_sum_after_replace, decide_False by exact Hne.
    reflexivity.
Qed.

(** ** Differentials when an edge is split *)

Lemma splitEdge_loops (b : bool) (subdividedCurve : Segment -> number -> Segment * Segment)
    (e : nat) (t : number) (vertex : nat) (g g' : Graph) :
  splitEdge b subdividedCurve e t vertex g = Done g' ->
  loops g' =
  loops (replaceEdgeInLoops e [forwardHalf (nextId g); forwardHalf (S (nextId g))] g).
Proof.
  unfold splitEdge. intros Hrun. inv_bind Hrun as u Hassert Hrun.
  unfold createEdge in Hrun. cbv zeta in Hrun. simpl in Hrun.
  inv_bind Hrun as g4 Hfirst Hrun. inv_bind Hrun as g5 Hsecond Hrun.
  injection Hrun as <-.
  apply addEdge_Done in Hfirst, Hsecond. subst g5 g4. reflexivity.
Qed.

(** X3.  Splitting an edge keeps the differentials.  After [splitEdge] each
    of the two pieces has, for every shape id, the differential the whole
    edge had; the edge that was split has differential 0; every other edge
    has the differential it had. *)
Theorem splitEdge_keeps_differentials
    (b : bool) (subdividedCurve : Segment -> number -> Segment * Segment)
    (e : nat) (t : number) (vertex : nat) (id : Z) (g g' : Graph) :
  e < nextId g ->
  notInLoops g (nextId g) -> notInLoops g (S (nextId g)) ->
  splitEdge b subdividedCurve e t vertex g = Done g' ->
  computeDifferential (nextId g) id g' = computeDifferential e id g /\
  computeDifferential (S (nextId g)) id g' = computeDifferential e id g /\
  computeDifferential e id g' = 0%Z /\
  forall x, x <> e -> x <> nextId g -> x <> S (nextId g) ->
    computeDifferential x id g' = computeDifferential x id g.
Proof.
  intros He Hfirst Hsecond Hrun. apply splitEdge_loops in Hrun.
  assert (Hat : forall x,
    computeDifferential x id g' =
    ((if decide (x = e) then 0 else computeDifferential x id g) +
     netOccurrences x [forwardHalf (nextId g); forwardHalf (S (nextId g))] *
     computeDifferential e id g)%Z).
  { intros x. rewrite (computeDifferential_loops x id g' _ Hrun).
    apply differential_sum_after_replace. }
  assert (Hnet : forall x,
    netOccurrences x [forwardHalf (nextId g); forwardHalf (S (nextId g))] =
    ((if decide (x = nextId g) then 1 else 0) + (if decide (x = S (nextId g)) then 1 else 0))%Z).
  { intros x. rewrite netOccurrences_sum. simpl. unfold halfWeight, forwardHalf, reversedHalf.
    repeat case_decide; try congruence; try lia. }
  repeat split.
  - rewrite Hat, Hnet, decide_False, decide_True, decide_False by lia.
    rewrite (computeDifferential_notInLoops _ id g Hfirst). lia.
  - rewrite Hat, Hnet, decide_False, decide_False, decide_True by lia.
    rewrite (computeDifferential_notInLoops _ id g Hsecond). lia.
  - rewrite Hat, Hnet, decide_True, decide_False, decide_False by lia. lia.
  - intros x H1 H2 H3.
    rewrite Hat, Hnet, decide_False, decide_False, decide_False by assumption. lia.
Qed.

Lemma notInLoops_Forall (g : Graph) (e : nat) :
  Forall (fun loop => Forall (fun h => edge h <> e) (halfEdges loop)) (loops g) ->
  notInLoops g e.
Proof.
  intros H loop h Hloop Hh. rewrite Forall_forall in H.
  specialize (H loop Hloop). rewrite Forall_forall in H. apply H. exact Hh.
Qed.

Lemma splitEdge_keeps_differentials_witness :
  3 < nextId MoreExamples.midpointGraph /\
  notInLoops MoreExamples.midpointGraph (nextId MoreExamples.midpointGraph) /\
  notInLoops MoreExamples.midpointGraph (S (nextId MoreExamples.midpointGraph)) /\
  splitEdge true Examples.noCurve 3 0.5%float 5 MoreExamples.midpointGraph
    = Done MoreExamples.midpointSplit /\
  computeDifferential 3 0 MoreExamples.midpointGraph = 1%Z /\
  computeDifferential (nextId MoreExamples.midpointGraph) 0 MoreExamples.midpointSplit
    = computeDifferential 3 0 MoreExamples.midpointGraph /\
  computeDifferential (S (nextId MoreExamples.midpointGraph)) 0 MoreExamples.midpointSplit
    = computeDifferential 3 0 MoreExamples.midpointGraph.
Proof.
  assert (H3 : 3 < nextId MoreExamples.midpointGraph) by (vm_compute; lia).
  assert (H6 : notInLoops MoreExamples.midpointGraph (nextId MoreExamples.midpointGraph))
    by (apply notInLoops_Forall; evaluated).
  assert (H7 : notInLoops MoreExamples.midpointGraph (S (nextId MoreExamples.midpointGraph)))
    by (apply notInLoops_Forall; evaluated).
  assert (Hrun : splitEdge true Examples.noCurve 3 0.5%float 5 MoreExamples.midpointGraph
                 = Done MoreExamples.midpointSplit) by (vm_compute; reflexivity).
  split; [exact H3|]. split; [exact H6|]. split; [exact H7|]. split; [exact Hrun|].
  split; [vm_compute; reflexivity|].
  destruct (splitEdge_keeps_differentials true Examples.noCurve 3 0.5%float 5 0
              MoreExamples.midpointGraph MoreExamples.midpointSplit H3 H6 H7 Hrun)
    as (Hfirst & Hsecond & _).
  split; [exact Hfirst | exact Hsecond].
Defined.

(** ** Replacing an edge in the loops *)

Lemma spliceEdge_app (e : nat) (F R l1 l2 : list HalfEdge) :
  spliceEdge e F R (l1 ++ l2) = spliceEdge e F R l1 ++ spliceEdge e F R l2.
Proof.
  induction l1 as [| h l1 IH]; simpl; [reflexivity|].
  rewrite IH. destruct (decide (edge h = e)); [rewrite app_assoc|]; reflexivity.
Qed.

Lemma spliceEdge_free (e : nat) (F R l : list HalfEdge) :
  Forall (fun h => edge h <> e) l -> spliceEdge e F R l = l.
Proof.
  induction 1 as [| h l Hh _ IH]; simpl; [reflexivity|].
  rewrite IH, decide_False by exact Hh. reflexivity.
Qed.

Lemma spliceEdge_forward (e : nat) (F R l : list HalfEdge) :
  spliceEdge e F R (forwardHalf e :: l) = F ++ spliceEdge e F R l.
Proof.
  simpl. rewrite decide_True by reflexivity. rewrite decide_True by reflexivity.
  reflexivity.
Qed.

Lemma spliceEdge_reversed (e : nat) (F R l : list HalfEdge) :
  spliceEdge e F R (reversedHalf e :: l) = R ++ spliceEdge e F R l.
Proof.
  simpl. rewrite decide_True by reflexivity. rewrite decide_False by discriminate.
  reflexivity.
Qed.

Lemma reversed_middle (l r : list HalfEdge) (h : HalfEdge) :
  map getReversed (reverse (l ++ h :: r)) =
  map getReversed (reverse r) ++ getReversed h :: map getReversed (reverse l).
Proof.
  rewrite reverse_app, reverse_cons, !map_app, <- app_assoc. reflexivity.
Qed.

Lemma reversed_free (e : nat) (l : list HalfEdge) :
  Forall (fun h => edge h <> e) l ->
  Forall (fun h => edge h <> e) (map getReversed (reverse l)).
Proof.
  intros H. apply Forall_forall. intros h Hh.
  apply list_elem_of_fmap in Hh as (h' & -> & Hh'). rewrite elem_of_reverse in Hh'.
  rewrite Forall_forall in H. apply (H h' Hh').
Qed.

Lemma reversed_app (l r : list HalfEdge) :
  map getReversed (reverse (l ++ r)) =
  map getReversed (reverse r) ++ map getReversed (reverse l).
Proof. rewrite reverse_app, map_app. reflexivity. Qed.

Lemma loops_replaced (e : nat) (hs : list HalfEdge) (g : Graph) :
  loops (replaceEdgeInLoops e hs g) =
  map (fun loop => {| shapeId := shapeId loop;
                      halfEdges := spliceEdge e hs (map getReversed (reverse hs))
                                     (halfEdges loop) |}) (loops g).
Proof. reflexivity. Qed.

Lemma replaceEdgeInLoops_ext (e e' : nat) (hs hs' : list HalfEdge) (g g' : Graph) :
  withLoops [] g = withLoops [] g' ->
  loops (replaceEdgeInLoops e hs g) = loops (replaceEdgeInLoops e' hs' g') ->
  replaceEdgeInLoops e hs g = replaceEdgeInLoops e' hs' g'.
Proof.
  intros Hrest Hloops. unfold withLoops in Hrest. injection Hrest as H1 H2 H3 H4 H5 H6 H7 H8 H9 H10.
  apply Graph_eq; auto.
Qed.

(** X4.  [replaceEdgeInLoops] composes.  When an edge [e] gives way to
    half-edges among which is the forward half of an edge [f] that no loop
    holds, and [f] then gives way to the half-edges [ys], the loops are what
    they are when [e] gives way at once to the same half-edges with [ys] in
    the place of [f]: also in the loops that run through [e] backwards, where
    the reverses come in reverse order. *)
Theorem replaceEdgeInLoops_composes
    (e f : nat) (before ys behind : list HalfEdge) (g : Graph) :
  notInLoops g f ->
  Forall (fun h => edge h <> f) before -> Forall (fun h => edge h <> f) behind ->
  replaceEdgeInLoops f ys (replaceEdgeInLoops e (before ++ [forwardHalf f] ++ behind) g) =
  replaceEdgeInLoops e (before ++ ys ++ behind) g.
Proof.
  intros Hout Hbefore Hbehind.
  apply replaceEdgeInLoops_ext; [reflexivity|].
  rewrite (loops_replaced f), !(loops_replaced e), map_map.
  apply map_ext_in. intros loop Hloop. apply list_elem_of_In in Hloop. simpl. f_equal.
  assert (Hhs : Forall (fun h => edge h <> f) (halfEdges loop)).
  { apply Forall_forall. intros h Hh. apply (Hout loop h Hloop Hh). }
  induction Hhs as [| h hs Hh _ IH]; simpl; [reflexivity|].
  destruct (decide (edge h = e)) as [He | He].
  - rewrite spliceEdge_app, IH. f_equal.
    destruct (decide (h = forwardHalf e)) as [_ | _].
    + rewrite spliceEdge_app, spliceEdge_forward.
      rewrite !spliceEdge_free by assumption. reflexivity.
    + rewrite reversed_middle, spliceEdge_app.
      change (getReversed (forwardHalf f)) with (reversedHalf f).
      rewrite spliceEdge_reversed.
      rewrite !spliceEdge_free by (apply reversed_free; assumption).
      rewrite !reversed_app, <- app_assoc. reflexivity.
  - simpl. rewrite decide_False by exact Hh. rewrite IH. reflexivity.
Qed.

Lemma replaceEdgeInLoops_composes_witness :
  notInLoops Examples.openPathGraph 6 /\
  Forall (fun h => edge h <> 6) [] /\ Forall (fun h => edge h <> 6) [forwardHalf 7] /\
  replaceEdgeInLoops 6 [forwardHalf 8; forwardHalf 9]
    (replaceEdgeInLoops 3 ([] ++ [forwardHalf 6] ++ [forwardHalf 7]) Examples.openPathGraph) =
  replaceEdgeInLoops 3 ([] ++ [forwardHalf 8; forwardHalf 9] ++ [forwardHalf 7])
    Examples.openPathGraph /\
  map halfEdges
    (loops (replaceEdgeInLoops 3 ([] ++ [forwardHalf 8; forwardHalf 9] ++ [forwardHalf 7])
              Examples.openPathGraph))
  = [[forwardHalf 8; forwardHalf 9; forwardHalf 7; forwardHalf 4]].
Proof.
  assert (Hout : notInLoops Examples.openPathGraph 6)
    by (apply notInLoops_Forall; evaluated).
  assert (Hbehind : Forall (fun h => edge h <> 6) [forwardHalf 7]) by evaluated.
  split; [exact Hout|]. split; [constructor|]. split; [exact Hbehind|].
  split; [|vm_compute; reflexivity].
  apply (replaceEdgeInLoops_composes 3 6 [] [forwardHalf 8; forwardHalf 9] [forwardHalf 7]
           Examples.openPathGraph Hout (Forall_nil_2 _) Hbehind).
Defined.

Lemma spliceEdge_itself (e : nat) (hs : list HalfEdge) :
  spliceEdge e [forwardHalf e] [reversedHalf e] hs = hs.
Proof.
  induction hs as [| h hs IH]; [reflexivity|].
  unfold spliceEdge in *. cbn [foldr]. rewrite IH.
  destruct (decide (edge h = e)) as [He | He]; [|reflexivity].
  destruct (decide (h = forwardHalf e)) as [-> | Hh]; [reflexivity|].
  destruct (half_edge_cases h) as [H | H]; rewrite He in H; [contradiction|].
  rewrite H. reflexivity.
Qed.

Lemma elem_of_spliceEdge (e : nat) (F R hs : list HalfEdge) (h : HalfEdge) :
  h ∈ spliceEdge e F R hs -> h ∈ F \/ h ∈ R \/ (h ∈ hs /\ edge h <> e).
Proof.
  induction hs as [| x hs IH]; simpl; [intros H; inversion H|].
  destruct (decide (edge x = e)) as [He | He].
  - rewrite elem_of_app. intros [H | H].
    + destruct (decide (x = forwardHalf e)); auto.
    + destruct (IH H) as [? | [? | [? ?]]]; auto.
      right. right. split; [apply list_elem_of_further|]; assumption.
  - rewrite elem_of_cons. intros [-> | H].
    + right. right. split; [apply list_elem_of_here | exact He].
    + destruct (IH H) as [? | [? | [? ?]]]; auto.
      right. right. split; [apply list_elem_of_further|]; assumption.
Qed.

(** X5.  An edge replaced by itself, and an edge replaced by others.
    [replaceEdgeInLoops] with the forward half of the edge itself as the
    replacement leaves the graph as it is; with half-edges of other edges
    only (or none) it leaves no half of the edge in any loop. *)
Theorem replaceEdgeInLoops_itself_or_others (e : nat) (hs : list HalfEdge) (g : Graph) :
  replaceEdgeInLoops e [forwardHalf e] g = g /\
  (Forall (fun h => edge h <> e) hs -> notInLoops (replaceEdgeInLoops e hs g) e).
Proof.
  split.
  - apply Graph_eq; try reflexivity.
    rewrite loops_replaced. rewrite <- (map_id (loops g)) at 2.
    apply map_ext. intros [id halves]. cbn [shapeId halfEdges].
    change (map getReversed (reverse [forwardHalf e])) with [reversedHalf e].
    rewrite spliceEdge_itself. reflexivity.
  - intros Hfree loop h Hloop Hh. rewrite loops_replaced in Hloop.
    apply list_elem_of_fmap in Hloop as (loop0 & -> & _). simpl in Hh.
    apply elem_of_spliceEdge in Hh as [Hh | [Hh | [_ Hh]]].
    + rewrite Forall_forall in Hfree. apply (Hfree h Hh).
    + apply (reversed_free e hs) in Hfree. rewrite Forall_forall in Hfree. apply (Hfree h Hh).
    + exact Hh.
Qed.

Lemma replaceEdgeInLoops_itself_or_others_witness :
  Forall (fun h => edge h <> 3) [forwardHalf 6; forwardHalf 7] /\
  replaceEdgeInLoops 3 [forwardHalf 3] Examples.openPathGraph = Examples.openPathGraph /\
  notInLoops (replaceEdgeInLoops 3 [forwardHalf 6; forwardHalf 7] Examples.openPathGraph) 3.
Proof.
  assert (Hfree : Forall (fun h => edge h <> 3) [forwardHalf 6; forwardHalf 7]) by evaluated.
  split; [exact Hfree|].
  destruct (replaceEdgeInLoops_itself_or_others 3 [forwardHalf 6; forwardHalf 7]
              Examples.openPathGraph) as [Hsame Hout].
  split; [exact Hsame | exact (Hout Hfree)].
Defined.

(** ** The loop a subpath leaves in the graph *)

Lemma addSubpathVertices_made (b : bool) (segs : list Segment) (indices : list nat) :
  forall (g : Graph) (created : list nat) (g1 : Graph),
  addSubpathVertices b segs indices g = Done (created, g1) ->
  created = seq (nextId g) (length indices) /\
  nextId g1 = nextId g + length indices /\
  edgeArena g1 = edgeArena g /\ edges g1 = edges g /\ loops g1 = loops g /\
  vertices g1 = vertices g /\ shapeIds g1 = shapeIds g.
Proof.
  induction indices as [| index rest IH]; intros g created g1 Hrun; simpl in Hrun.
  - injection Hrun as <- <-. simpl. splits; auto.
  - inv_bind Hrun as previous Hprevious Hrun.
    inv_bind Hrun as current Hcurrent Hrun.
    inv_bind Hrun as [vertex g'] Hvertex Hrun.
    assert (Hmake : exists p, (vertex, g') = createVertex p g).
    { destruct (equals (seg_start current) (seg_end previous)).
      - injection Hvertex as <- <-. eexists. reflexivity.
      - inv_bind Hvertex as u Hu Hvertex. injection Hvertex as <- <-. eexists. reflexivity. }
    destruct Hmake as [p Hmake]. unfold createVertex in Hmake. injection Hmake as -> ->.
    inv_bind Hrun as [created' g2] Hrest Hrun. injection Hrun as <- <-.
    destruct (IH _ _ _ Hrest) as (-> & Hid & Hea & Hes & Hls & Hvs & Hids).
    simpl in *. splits; auto. lia.
Qed.

Lemma addSubpathEdges_made (b : bool) (segs : list Segment) (created : list nat)
    (indices : list nat) :
  forall (g : Graph) (hs : list HalfEdge) (g2 : Graph),
  addSubpathEdges b segs created indices g = Done (hs, g2) ->
  hs = map forwardHalf (seq (nextId g) (length indices)) /\
  edges g2 = edges g ++ seq (nextId g) (length indices) /\
  nextId g2 = nextId g + length indices /\
  loops g2 = loops g /\ vertices g2 = vertices g /\ shapeIds g2 = shapeIds g /\
  (forall x, x < nextId g -> edgeAt g2 x = edgeAt g x) /\
  (forall i index, indices !! i = Some index ->
     exists s a c,
       segs !! index = Some s /\ created !! index = Some a /\
       created !! (if decide (index + 1 = length segs) then 0 else index + 1) = Some c /\
       edgeAt g2 (nextId g + i) =
         {| segment := s; startVertex := a; endVertex := c;
            forwardFace := None; reversedFace := None |}).
Proof.
  induction indices as [| index rest IH]; intros g hs g2 Hrun; simpl in Hrun.
  - injection Hrun as <- <-. simpl. rewrite app_nil_r. splits; auto.
    intros i index Hi. discriminate.
  - inv_bind Hrun as s Hs Hrun.
    inv_bind Hrun as x Hx Hrun.
    inv_bind Hrun as y Hy Hrun.
    unfold createEdge in Hrun. cbv zeta in Hrun.
    inv_bind Hrun as g1 Hadd Hrun.
    inv_bind Hrun as [hs' g3] Hrest Hrun. injection Hrun as <- <-.
    apply ofOption_Done in Hs, Hx, Hy.
    apply addEdge_Done in Hadd.
    set (g0 := withNextId (S (nextId g))
                 (withEdgeArena
                    (<[nextId g := {| segment := s; startVertex := x; endVertex := y;
                                      forwardFace := None; reversedFace := None |}]>
                       (edgeArena g)) g)) in *.
    assert (Hat1 : forall z, edgeAt g1 z = edgeAt g0 z) by (intros z; subst g1; reflexivity).
    assert (Hid1 : nextId g1 = S (nextId g)) by (subst g1; reflexivity).
    destruct (IH _ _ _ Hrest) as (-> & Hes & Hid & Hls & Hvs & Hids & Hold & Hnew).
    rewrite Hid1 in *.
    splits.
    + simpl. reflexivity.
    + rewrite Hes. subst g1. simpl. rewrite <- app_assoc. reflexivity.
    + simpl. lia.
    + rewrite Hls. subst g1. reflexivity.
    + rewrite Hvs. subst g1. reflexivity.
    + rewrite Hids. subst g1. reflexivity.
    + intros z Hz. rewrite Hold by lia. rewrite Hat1. unfold g0, edgeAt. simpl.
      rewrite lookup_total_insert_ne by lia. reflexivity.
    + intros i index' Hi. destruct i as [| i]; simpl in Hi.
      * injection Hi as <-. exists s, x, y. splits; auto.
        rewrite Nat.add_0_r, Hold by lia. rewrite Hat1. unfold g0, edgeAt. simpl.
        apply lookup_total_insert_eq.
      * destruct (Hnew i index' Hi) as (s' & a & c & H1 & H2 & H3 & H4).
        exists s', a, c. splits; auto.
        replace (nextId g + S i) with (S (nextId g) + i) by lia. exact H4.
Qed.

(** X6.  The closed loop of a subpath.  When [addSubpath] returns for a
    subpath that has segments, it has made, for the [n] segments it ingested
    (the closing line among them), [n] vertices and then [n] edges with
    fresh ids in a row, pushed them behind the vertices and the edges of the
    graph, and pushed one loop with the shape id that holds the forward
    halves of the new edges in order.  The edges carry the segments in
    order, and each ends at the vertex where the next one starts, the last
    one where the first one starts. *)
Theorem addSubpath_adds_closed_loop
    (b : bool) (id : Z) (subpath : Subpath) (g g' : Graph) :
  segments subpath <> [] ->
  addSubpath b id subpath g = Done g' ->
  exists segs,
    ingestedSegments b subpath = Done segs /\
    vertices g' = vertices g ++ seq (nextId g) (length segs) /\
    edges g' = edges g ++ seq (nextId g + length segs) (length segs) /\
    loops g' =
      loops g ++ [{| shapeId := id;
                     halfEdges := map forwardHalf
                                    (seq (nextId g + length segs) (length segs)) |}] /\
    forall i, i < length segs ->
      segs !! i = Some (segment (edgeAt g' (nextId g + length segs + i))) /\
      startVertex (edgeAt g' (nextId g + length segs + i)) = nextId g + i /\
      endVertex (edgeAt g' (nextId g + length segs + i)) =
        nextId g + (if decide (i + 1 = length segs) then 0 else i + 1).
Proof.
  intros Hsegments Hrun. unfold addSubpath in Hrun.
  set (g0 := if includes (shapeIds g) id then g else withShapeIds (shapeIds g ++ [id]) g) in Hrun.
  assert (H0 : nextId g0 = nextId g /\ vertices g0 = vertices g /\ edges g0 = edges g /\
               loops g0 = loops g).
  { subst g0. destruct (includes (shapeIds g) id); auto. }
  destruct H0 as (Hid0 & Hvs0 & Hes0 & Hls0). clearbody g0.
  destruct (decide (length (segments subpath) = 0)) as [Hzero | _].
  { destruct (segments subpath); [contradiction | discriminate]. }
  inv_bind Hrun as segs Hsegs Hrun.
  inv_bind Hrun as [created g1] Hcreated Hrun.
  inv_bind Hrun as [hs g2] Hadded Hrun. injection Hrun as <-.
  destruct (addSubpathVertices_made _ _ _ _ _ _ Hcreated)
    as (-> & Hid1 & _ & Hes1 & Hls1 & Hvs1 & _).
  destruct (addSubpathEdges_made _ _ _ _ _ _ _ Hadded)
    as (-> & Hes2 & Hid2 & Hls2 & Hvs2 & _ & _ & Hnew).
  rewrite length_seq in *. rewrite Hid0 in *.
  exists segs. split; [exact Hsegs|]. simpl.
  rewrite Hvs2, Hvs1, Hvs0, Hes2, Hes1, Hes0, Hls2, Hls1, Hls0, Hid1.
  splits; auto.
  intros i Hi.
  destruct (Hnew i i) as (s & a & c & Hs & Ha & Hc & Hat).
  { apply lookup_seq. split; [reflexivity | exact Hi]. }
  rewrite Hid1 in Hat.
  change (edgeAt (withVertices _ (withLoops _ g2)) ?x) with (edgeAt g2 x).
  rewrite Hat. simpl.
  apply lookup_seq in Ha as [-> _]. apply lookup_seq in Hc as [-> _].
  splits; auto.
Qed.

Lemma addSubpath_adds_closed_loop_witness :
  segments Examples.openPath <> [] /\
  addSubpath false 0 Examples.openPath newGraph = Done Examples.openPathGraph /\
  exists segs,
    ingestedSegments false Examples.openPath = Done segs /\
    vertices Examples.openPathGraph = vertices newGraph ++ seq (nextId newGraph) (length segs) /\
    edges Examples.openPathGraph =
      edges newGraph ++ seq (nextId newGraph + length segs) (length segs) /\
    loops Examples.openPathGraph =
      loops newGraph ++
      [{| shapeId := 0;
          halfEdges := map forwardHalf
                         (seq (nextId newGraph + length segs) (length segs)) |}] /\
    forall i, i < length segs ->
      segs !! i = Some (segment (edgeAt Examples.openPathGraph
                                   (nextId newGraph + length segs + i))) /\
      startVertex (edgeAt Examples.openPathGraph (nextId newGraph + length segs + i))
        = nextId newGraph + i /\
      endVertex (edgeAt Examples.openPathGraph (nextId newGraph + length segs + i)) =
        nextId newGraph + (if decide (i + 1 = length segs) then 0 else i + 1).
Proof.
  assert (Hsegs : segments Examples.openPath <> []) by discriminate.
  assert (Hrun : addSubpath false 0 Examples.openPath newGraph = Done Examples.openPathGraph)
    by (vm_compute; reflexivity).
  split; [exact Hsegs|]. split; [exact Hrun|].
  apply (addSubpath_adds_closed_loop false 0 Examples.openPath newGraph
           Examples.openPathGraph Hsegs Hrun).
Defined.

(** ** Shape ids *)

Lemma addSubpath_shapeIds (b : bool) (id : Z) (subpath : Subpath) (g g' : Graph) :
  addSubpath b id subpath g = Done g' ->
  shapeIds g' = if includes (shapeIds g) id then shapeIds g else shapeIds g ++ [id].
Proof.
  intros Hrun. unfold addSubpath in Hrun.
  set (g0 := if includes (shapeIds g) id then g else withShapeIds (shapeIds g ++ [id]) g) in Hrun.
  assert (H0 : shapeIds g0 =
               if includes (shapeIds g) id then shapeIds g else shapeIds g ++ [id]).
  { subst g0. destruct (includes (shapeIds g) id); reflexivity. }
  clearbody g0. rewrite <- H0.
  destruct (decide (length (segments subpath) = 0)); [congruence|].
  inv_bind Hrun as segs Hsegs Hrun.
  inv_bind Hrun as [created g1] Hcreated Hrun.
  inv_bind Hrun as [hs g2] Hadded Hrun. injection Hrun as <-.
  destruct (addSubpathVertices_made _ _ _ _ _ _ Hcreated) as (_ & _ & _ & _ & _ & _ & H1).
  destruct (addSubpathEdges_made _ _ _ _ _ _ _ Hadded) as (_ & _ & _ & _ & _ & H2 & _).
  simpl. congruence.
Qed.

(** X7.  Shape ids are recorded once.  When [addShape] returns, the shape
    ids of the graph are those it had, in their order, with the id of the
    shape behind them when it was not among them and the shape has a
    subpath; an id is never recorded twice, and a shape without subpaths
    leaves no trace of its id. *)
Theorem addShape_records_id_once
    (b : bool) (id : Z) (subpaths : list Subpath) (g g' : Graph) :
  addShape b id subpaths g = Done g' ->
  shapeIds g' =
    (if bool_decide (subpaths = []) || includes (shapeIds g) id
     then shapeIds g else shapeIds g ++ [id]) /\
  (NoDup (shapeIds g) -> NoDup (shapeIds g')).
Proof.
  revert g. induction subpaths as [| subpath rest IH]; intros g Hrun; simpl in Hrun.
  - injection Hrun as <-. simpl. auto.
  - inv_bind Hrun as g1 Hone Hrun.
    apply addSubpath_shapeIds in Hone. destruct (IH g1 Hrun) as [Hids Hnd].
    rewrite bool_decide_eq_false_2 by discriminate. cbn [orb].
    assert (Hin : includes (shapeIds g1) id = true).
    { rewrite Hone. unfold includes. destruct (bool_decide_reflect (id ∈ shapeIds g)) as [H | H].
      - apply bool_decide_eq_true. exact H.
      - apply bool_decide_eq_true. apply elem_of_app. right. apply list_elem_of_here. }
    rewrite Hin, orb_true_r in Hids. rewrite Hids, Hone. split; [reflexivity|].
    intros Hnodup. unfold includes.
    destruct (bool_decide_reflect (id ∈ shapeIds g)) as [H | H]; [exact Hnodup|].
    apply NoDup_snoc_fresh; assumption.
Qed.

Lemma addShape_records_id_once_witness :
  addShape true 0 [Examples.strokeUp; Examples.strokeDown] newGraph = Done Examples.crossGraph /\
  shapeIds Examples.crossGraph =
    (if bool_decide ([Examples.strokeUp; Examples.strokeDown] = [])
        || includes (shapeIds newGraph) 0%Z
     then shapeIds newGraph else shapeIds newGraph ++ [0%Z]) /\
  (NoDup (shapeIds newGraph) -> NoDup (shapeIds Examples.crossGraph)).
Proof.
  assert (Hrun : addShape true 0 [Examples.strokeUp; Examples.strokeDown] newGraph
                 = Done Examples.crossGraph) by (vm_compute; reflexivity).
  split; [exact Hrun|].
  apply (addShape_records_id_once true 0 [Examples.strokeUp; Examples.strokeDown] newGraph
           Examples.crossGraph Hrun).
Defined.

(** ** What the splitting loops leave *)

Section SplittingLoops.
Variable assertEnabled : bool.
Variable intersect : Segment -> Segment -> list Intersection.t.
Variable subdividedCurve : Segment -> number -> Segment * Segment.
Variable lineGetOverlaps : Segment -> Segment -> list Overlap.t.
Variable quadraticGetOverlaps : Segment -> Segment -> list Overlap.t.
Variable cubicGetOverlaps : Segment -> Segment -> list Overlap.t.
Variable linear : number -> number -> number -> number -> number -> number.

Lemma scanIntersectionsWith_None (g : Graph) (a : nat) (behind : list nat) :
  scanIntersectionsWith intersect g a behind = None ->
  forall c x, c ∈ behind ->
    x ∈ intersect (segment (edgeAt g a)) (segment (edgeAt g c)) ->
    keptIntersection x = false.
Proof.
  induction behind as [| c0 rest IH]; simpl; intros Hscan c x Hc Hx; [inversion Hc|].
  destruct (List.filter keptIntersection
              (intersect (segment (edgeAt g a)) (segment (edgeAt g c0)))) as [| y ys] eqn:E;
    [|discriminate].
  apply elem_of_cons in Hc as [-> | Hc]; [|apply (IH Hscan c x Hc Hx)].
  destruct (keptIntersection x) eqn:Hk; [|reflexivity].
  assert (Hin : In x (List.filter keptIntersection
                        (intersect (segment (edgeAt g a)) (segment (edgeAt g c0))))).
  { apply filter_In. split; [apply list_elem_of_In; exact Hx | exact Hk]. }
  rewrite E in Hin. destruct Hin.
Qed.

Lemma scanIntersections_None (g : Graph) (es : list nat) :
  scanIntersections intersect g es = None ->
  forall i j a c x, i < j -> es !! i = Some a -> es !! j = Some c ->
    x ∈ intersect (segment (edgeAt g a)) (segment (edgeAt g c)) ->
    keptIntersection x = false.
Proof.
  induction es as [| e0 rest IH]; simpl; intros Hscan i j a c x Hij Hi Hj Hx; [discriminate|].
  destruct (scanIntersectionsWith intersect g e0 rest) as [found|] eqn:E; [discriminate|].
  destruct i as [| i'].
  - simpl in Hi. injection Hi as ->. destruct j as [| j']; [lia|]. simpl in Hj.
    apply (scanIntersectionsWith_None g a rest E c x); [|exact Hx].
    eapply list_elem_of_lookup_2. exact Hj.
  - destruct j as [| j']; [lia|]. simpl in Hi, Hj.
    apply (IH Hscan i' j' a c x); [lia | assumption | assumption | assumption].
Qed.

(** X8.  What [eliminateIntersection] leaves.  When it returns, from a
    well-formed graph, the graph is well formed, every intersection that
    [Segment.intersect] reports for an edge and an edge behind it in the
    array has no internal parameter (neither passes the test
    [t > 1e-5 && t < 1 - 1e-5] of the method), so that a second run returns
    the graph as it is, whatever the rounds it is given; and the vertices
    still list the half-edges that end at them if they did. *)
Theorem eliminateIntersection_leaves_touches (rounds : nat) (g g' : Graph) :
  wellFormed g ->
  eliminateIntersection assertEnabled intersect subdividedCurve rounds g = Done g' ->
  wellFormed g' /\
  (forall i j a c x, i < j -> edges g' !! i = Some a -> edges g' !! j = Some c ->
     x ∈ intersect (segment (edgeAt g' a)) (segment (edgeAt g' c)) ->
     internal (Intersection.aT x) = false /\ internal (Intersection.bT x) = false) /\
  (forall again,
     eliminateIntersection assertEnabled intersect subdividedCurve again g' = Done g') /\
  (verticesListEnds g -> verticesListEnds g').
Proof.
  revert g. induction rounds as [| r IH]; intros g Hwf Hrun; simpl in Hrun.
  - destruct (scanIntersections intersect g (edges g)) as [[[a c] x]|] eqn:Hscan;
      [discriminate|].
    injection Hrun as <-. splits; auto.
    + intros i j a c x Hij Hi Hj Hx.
      pose proof (scanIntersections_None g _ Hscan i j a c x Hij Hi Hj Hx) as Hk.
      unfold keptIntersection in Hk. apply orb_false_iff in Hk. exact Hk.
    + intros again. destruct again; simpl; rewrite Hscan; reflexivity.
  - destruct (scanIntersections intersect g (edges g)) as [[[a c] x]|] eqn:Hscan.
    + inv_bind Hrun as g1 Hsplit Hrun.
      destruct (scanIntersections_Some intersect g _ _ _ _ Hscan) as (Hpos & _ & _).
      destruct (scanned_pair_distinct _ _ _ (wf_edges_once _ Hwf) Hpos) as (Ha & Hc & Hne).
      destruct (simpleSplit_cases subdividedCurve assertEnabled g g1 a c _ _ _
                  Hwf Ha Hc Hne Hsplit) as [Hwf1 _].
      destruct (IH g1 Hwf1 Hrun) as (Hwf' & Htouch & Hagain & Hends).
      splits; auto.
      intros Hlists. apply Hends.
      apply (simpleSplit_ends assertEnabled subdividedCurve g g1 a c _ _ _
               Hwf Ha Hc Hne Hsplit Hlists).
    + injection Hrun as <-. splits; auto.
      * intros i j a c x Hij Hi Hj Hx.
        pose proof (scanIntersections_None g _ Hscan i j a c x Hij Hi Hj Hx) as Hk.
        unfold keptIntersection in Hk. apply orb_false_iff in Hk. exact Hk.
      * intros again. destruct again; simpl; rewrite Hscan; reflexivity.
Qed.

Local Abbreviation overlapsOf' :=
  (overlapsOf lineGetOverlaps quadraticGetOverlaps cubicGetOverlaps).
Local Abbreviation scanOverlaps' :=
  (scanOverlaps lineGetOverlaps quadraticGetOverlaps cubicGetOverlaps).
Local Abbreviation eliminateOverlap' :=
  (eliminateOverlap assertEnabled subdividedCurve lineGetOverlaps quadraticGetOverlaps
     cubicGetOverlaps linear).

Lemma scanOverlapsWith_None (g : Graph) (a : nat) (behind : list nat) :
  scanOverlapsWith lineGetOverlaps quadraticGetOverlaps cubicGetOverlaps g a behind = None ->
  forall c o, c ∈ behind ->
    o ∈ overlapsOf' (segment (edgeAt g a)) (segment (edgeAt g c)) ->
    significantOverlap o = false.
Proof.
  induction behind as [| c0 rest IH]; simpl; intros Hscan c o Hc Ho; [inversion Hc|].
  destruct (find significantOverlap
              (overlapsOf' (segment (edgeAt g a)) (segment (edgeAt g c0)))) as [y|] eqn:E;
    [discriminate|].
  apply elem_of_cons in Hc as [-> | Hc]; [|apply (IH Hscan c o Hc Ho)].
  apply (find_none _ _ E). apply list_elem_of_In. exact Ho.
Qed.

Lemma scanOverlaps_None (g : Graph) (es : list nat) :
  scanOverlaps' g es = None ->
  forall i j a c o, i < j -> es !! i = Some a -> es !! j = Some c ->
    o ∈ overlapsOf' (segment (edgeAt g a)) (segment (edgeAt g c)) ->
    significantOverlap o = false.
Proof.
  induction es as [| e0 rest IH]; simpl; intros Hscan i j a c o Hij Hi Hj Ho; [discriminate|].
  destruct (scanOverlapsWith lineGetOverlaps quadraticGetOverlaps cubicGetOverlaps g e0 rest)
    as [found|] eqn:E; [discriminate|].
  destruct i as [| i'].
  - simpl in Hi. injection Hi as ->. destruct j as [| j']; [lia|]. simpl in Hj.
    apply (scanOverlapsWith_None g a rest E c o); [|exact Ho].
    eapply list_elem_of_lookup_2. exact Hj.
  - destruct j as [| j']; [lia|]. simpl in Hi, Hj.
    apply (IH Hscan i' j' a c o); [lia | assumption | assumption | assumption].
Qed.

(** X9.  What [eliminateOverlap] leaves.  When it returns, from a
    well-formed graph, the graph is well formed, every overlap that the
    detector for the kind of the two segments reports for an edge and an
    edge behind it in the array fails the test of the method on one of the
    two edges, [|t1 - t0| > 1e-5] or [|qt1 - qt0| > 1e-5] as it computes
    them (two segments of different kinds are not looked at), so that a
    second run returns the graph as it is; and the vertices still list the
    half-edges that end at them if they did. *)
Theorem eliminateOverlap_leaves_short_overlaps (rounds : nat) (g g' : Graph) :
  wellFormed g ->
  eliminateOverlap' rounds g = Done g' ->
  wellFormed g' /\
  (forall i j a c o, i < j -> edges g' !! i = Some a -> edges g' !! j = Some c ->
     o ∈ overlapsOf' (segment (edgeAt g' a)) (segment (edgeAt g' c)) ->
     ngt (nabs (nsub (Overlap.t1 o) (Overlap.t0 o))) epsilon5 = false \/
     ngt (nabs (nsub (Overlap.qt1 o) (Overlap.qt0 o))) epsilon5 = false) /\
  (forall again, eliminateOverlap' again g' = Done g') /\
  (verticesListEnds g -> verticesListEnds g').
Proof.
  revert g. induction rounds as [| r IH]; intros g Hwf Hrun; simpl in Hrun.
  - destruct (scanOverlaps' g (edges g)) as [[[a c] o]|] eqn:Hscan; [discriminate|].
    injection Hrun as <-. splits; auto.
    + intros i j a c o Hij Hi Hj Ho.
      pose proof (scanOverlaps_None g _ Hscan i j a c o Hij Hi Hj Ho) as Hk.
      unfold significantOverlap in Hk. apply andb_false_iff in Hk. exact Hk.
    + intros again. destruct again; simpl; rewrite Hscan; reflexivity.
  - destruct (scanOverlaps' g (edges g)) as [[[a c] o]|] eqn:Hscan.
    + inv_bind Hrun as g1 Hsplit Hrun.
      destruct (scanOverlaps_Some lineGetOverlaps quadraticGetOverlaps
                  cubicGetOverlaps g _ _ _ _ Hscan) as (Hpos & _ & _).
      destruct (scanned_pair_distinct _ _ _ (wf_edges_once _ Hwf) Hpos) as (Ha & Hc & Hne).
      destruct (splitOverlap_sound subdividedCurve linear assertEnabled a c o g g1
                  Hwf Ha Hc Hsplit) as (Hwf1 & Hlists1 & _).
      destruct (IH g1 Hwf1 Hrun) as (Hwf' & Hshort & Hagain & Hends).
      splits; auto.
    + injection Hrun as <-. splits; auto.
      * intros i j a c o Hij Hi Hj Ho.
        pose proof (scanOverlaps_None g _ Hscan i j a c o Hij Hi Hj Ho) as Hk.
        unfold significantOverlap in Hk. apply andb_false_iff in Hk. exact Hk.
      * intros again. destruct again; simpl; rewrite Hscan; reflexivity.
Qed.

End SplittingLoops.

Lemma eliminateIntersection_leaves_touches_witness :
  wellFormed Examples.crossGraph /\
  eliminateIntersection true Examples.lineIntersect Examples.noCurve 10 Examples.crossGraph
    = Done MoreExamples.crossGraphResolved /\
  length (edges MoreExamples.crossGraphResolved) = 8 /\
  wellFormed MoreExamples.crossGraphResolved /\
  (forall i j a c x, i < j ->
     edges MoreExamples.crossGraphResolved !! i = Some a ->
     edges MoreExamples.crossGraphResolved !! j = Some c ->
     x ∈ Examples.lineIntersect (segment (edgeAt MoreExamples.crossGraphResolved a))
           (segment (edgeAt MoreExamples.crossGraphResolved c)) ->
     internal (Intersection.aT x) = false /\ internal (Intersection.bT x) = false) /\
  (forall again,
     eliminateIntersection true Examples.lineIntersect Examples.noCurve again
       MoreExamples.crossGraphResolved = Done MoreExamples.crossGraphResolved) /\
  (verticesListEnds Examples.crossGraph -> verticesListEnds MoreExamples.crossGraphResolved).
Proof.
  assert (Hrun : eliminateIntersection true Examples.lineIntersect Examples.noCurve 10
                   Examples.crossGraph = Done MoreExamples.crossGraphResolved)
    by (vm_compute; reflexivity).
  split; [exact ExampleFacts.crossGraph_wellFormed|]. split; [exact Hrun|].
  split; [vm_compute; reflexivity|].
  apply (eliminateIntersection_leaves_touches true Examples.lineIntersect Examples.noCurve
           10 Examples.crossGraph MoreExamples.crossGraphResolved
           ExampleFacts.crossGraph_wellFormed Hrun).
Defined.

Lemma eliminateOverlap_leaves_short_overlaps_witness :
  wellFormed Examples.overlapGraph /\
  eliminateOverlap true Examples.noCurve Examples.axisOverlaps Examples.noOverlaps
    Examples.noOverlaps Examples.linear 5 Examples.overlapGraph
    = Done MoreExamples.overlapGraphResolved /\
  edges MoreExamples.overlapGraphResolved = [6; 7; 8] /\
  wellFormed MoreExamples.overlapGraphResolved /\
  (forall i j a c o, i < j ->
     edges MoreExamples.overlapGraphResolved !! i = Some a ->
     edges MoreExamples.overlapGraphResolved !! j = Some c ->
     o ∈ overlapsOf Examples.axisOverlaps Examples.noOverlaps Examples.noOverlaps
           (segment (edgeAt MoreExamples.overlapGraphResolved a))
           (segment (edgeAt MoreExamples.overlapGraphResolved c)) ->
     ngt (nabs (nsub (Overlap.t1 o) (Overlap.t0 o))) epsilon5 = false \/
     ngt (nabs (nsub (Overlap.qt1 o) (Overlap.qt0 o))) epsilon5 = false) /\
  (forall again,
     eliminateOverlap true Examples.noCurve Examples.axisOverlaps Examples.noOverlaps
       Examples.noOverlaps Examples.linear again MoreExamples.overlapGraphResolved
     = Done MoreExamples.overlapGraphResolved) /\
  (verticesListEnds Examples.overlapGraph -> verticesListEnds MoreExamples.overlapGraphResolved).
Proof.
  assert (Hrun : eliminateOverlap true Examples.noCurve Examples.axisOverlaps
                   Examples.noOverlaps Examples.noOverlaps Examples.linear 5
                   Examples.overlapGraph = Done MoreExamples.overlapGraphResolved)
    by (vm_compute; reflexivity).
  split; [exact ExampleFacts.overlapGraph_wellFormed|]. split; [exact Hrun|].
  split; [vm_compute; reflexivity|].
  apply (eliminateOverlap_leaves_short_overlaps true Examples.noCurve
           Examples.axisOverlaps Examples.noOverlaps Examples.noOverlaps Examples.linear
           5 Examples.overlapGraph MoreExamples.overlapGraphResolved
           ExampleFacts.overlapGraph_wellFormed Hrun).
Defined.

(** ** The assertions of [collapseVertices] *)

Lemma collapseEdge_rewired (e a c newVertex : nat) (g : Graph) :
  is_Some (edgeArena g !! e) -> bothMatch g a c e = false ->
  let g' := collapseEdge e a c newVertex g in
  startVertex (edgeAt g' e) =
    (if bool_decide (startVertex (edgeAt g e) = a) || bool_decide (startVertex (edgeAt g e) = c)
     then newVertex else startVertex (edgeAt g e)) /\
  endVertex (edgeAt g' e) =
    (if bool_decide (endVertex (edgeAt g e) = a) || bool_decide (endVertex (edgeAt g e) = c)
     then newVertex else endVertex (edgeAt g e)).
Proof.
  intros Hobj. unfold collapseEdge, bothMatch.
  destruct (bool_decide (startVertex (edgeAt g e) = a) ||
            bool_decide (startVertex (edgeAt g e) = c)) eqn:Hs,
           (bool_decide (endVertex (edgeAt g e) = a) ||
            bool_decide (endVertex (edgeAt g e) = c)) eqn:He;
    cbn [andb]; cbv zeta; intros Hboth; try discriminate.
  - change (edgeAt (pushIncident _ _ ?g0) e) with (edgeAt g0 e).
    destruct (edgeAt_setStartVertex_same e newVertex g Hobj) as [-> ->]. auto.
  - change (edgeAt (pushIncident _ _ ?g0) e) with (edgeAt g0 e).
    destruct (edgeAt_setEndVertex_same e newVertex g Hobj) as [-> ->]. auto.
  - auto.
Qed.

(** The loop over the edges leaves every edge between vertices of the
    array, once the two merged vertices are out of it and the new one in. *)
Lemma collapseEdges_have_vertices (a c newVertex : nat) (V : list nat) (n : nat) : forall g,
  wellFormed g -> newVertex < nextId g -> n <= length (edges g) ->
  newVertex ∈ V ->
  (forall e, e ∈ drop n (edges g) ->
     startVertex (edgeAt g e) ∈ V /\ endVertex (edgeAt g e) ∈ V) ->
  (forall e, e ∈ take n (edges g) ->
     (startVertex (edgeAt g e) ∈ V \/ startVertex (edgeAt g e) = a \/
      startVertex (edgeAt g e) = c) /\
     (endVertex (edgeAt g e) ∈ V \/ endVertex (edgeAt g e) = a \/
      endVertex (edgeAt g e) = c)) ->
  forall g', collapseEdges n a c newVertex g = Done g' ->
  forall e, e ∈ edges g' -> startVertex (edgeAt g' e) ∈ V /\ endVertex (edgeAt g' e) ∈ V.
Proof.
  induction n as [| k IH]; intros g Hwf Hnew Hn HV Hdone Htodo g' Hrun.
  - simpl in Hrun. injection Hrun as <-. intros e He. apply Hdone. rewrite drop_0. exact He.
  - simpl in Hrun. destruct (lookup_lt_is_Some_2 (edges g) k ltac:(lia)) as [e He].
    rewrite He in Hrun. simpl in Hrun.
    assert (Hin : e ∈ edges g) by (eapply list_elem_of_lookup_2; exact He).
    pose proof (collapseEdge_facts e a c newVertex g) as Hfacts. cbv zeta in Hfacts.
    pose proof (collapseEdge_rewired e a c newVertex g (wf_edges_objects _ Hwf e Hin)) as Hwired.
    cbv zeta in Hwired.
    set (g1 := collapseEdge e a c newVertex g) in *.
    destruct Hfacts as (Hedges & Hother & Hvs & Hid & _ & _).
    assert (Hwf1 : wellFormed g1) by (apply wf_collapseEdge; assumption).
    destruct (take_arrayRemove_at (edges g) k e (wf_edges_once _ Hwf) He) as [Htake Hfresh].
    assert (Htake1 : take k (edges g1) = take k (edges g)).
    { rewrite Hedges. destruct (bothMatch g a c e); [exact Htake | reflexivity]. }
    assert (Hsplit : edges g = take k (edges g) ++ e :: drop (S k) (edges g)).
    { rewrite <- (take_drop_middle _ _ _ He) at 1. reflexivity. }
    assert (Hlater : forall x, x ∈ drop (S k) (edges g) -> x <> e).
    { intros x Hx ->. pose proof (wf_edges_once _ Hwf) as Hnd. rewrite Hsplit in Hnd.
      apply NoDup_app in Hnd as (_ & _ & Hnd). apply NoDup_cons in Hnd as [Hbad _].
      contradiction. }
    assert (Htodo_e := Htodo e ltac:(rewrite (take_S_r _ _ _ He); apply elem_of_app; right;
                                     apply list_elem_of_here)).
    apply (IH g1 Hwf1 ltac:(rewrite Hid; exact Hnew)); [| exact HV | | | exact Hrun].
    + rewrite Hedges. destruct (bothMatch g a c e); [|lia].
      pose proof (length_arrayRemove (edges g) e Hin). lia.
    + (* the edges behind: the one just treated and those treated before *)
      intros x Hx. rewrite Hedges in Hx.
      destruct (bothMatch g a c e) eqn:Hboth.
      * assert (Hrem : arrayRemove (edges g) e = take k (edges g) ++ drop (S k) (edges g)).
        { rewrite Hsplit at 1. apply arrayRemove_app_fresh. exact Hfresh. }
        rewrite Hrem in Hx. rewrite drop_app_length' in Hx
          by (rewrite length_take; apply lookup_lt_Some in He; lia).
        rewrite Hother by (apply Hlater; exact Hx). apply Hdone. exact Hx.
      * rewrite (drop_S _ _ _ He) in Hx. apply elem_of_cons in Hx as [-> | Hx].
        -- specialize (Hwired eq_refl). destruct Hwired as [-> ->].
           unfold bothMatch in Hboth. destruct Htodo_e as [Hs Hen].
           split.
           ++ destruct (bool_decide_reflect (startVertex (edgeAt g e) = a)) as [H1 | H1];
                [exact HV|].
              destruct (bool_decide_reflect (startVertex (edgeAt g e) = c)) as [H2 | H2];
                [exact HV|]. simpl. tauto.
           ++ destruct (bool_decide_reflect (endVertex (edgeAt g e) = a)) as [H1 | H1];
                [exact HV|].
              destruct (bool_decide_reflect (endVertex (edgeAt g e) = c)) as [H2 | H2];
                [exact HV|]. simpl. tauto.
        -- rewrite Hother by (apply Hlater; exact Hx). apply Hdone. exact Hx.
    + (* the edges still to treat *)
      intros x Hx. rewrite Htake1 in Hx.
      assert (Hne : x <> e) by (intros ->; contradiction).
      rewrite Hother by exact Hne. apply Htodo. rewrite (take_S_r _ _ _ He).
      apply elem_of_app. left. exact Hx.
Qed.

Lemma collapsePair_have_vertices (a c : nat) (g g' : Graph) :
  wellFormed g -> a ∈ vertices g -> c ∈ vertices g -> a <> c ->
  edgesHaveVertices g -> collapsePair a c g = Done g' -> edgesHaveVertices g'.
Proof.
  intros Hwf Ha Hc Hac Hhave Hrun.
  destruct (collapsePair_spec a c g Hwf Ha Hc Hac) as (g1 & Hrun1 & _ & Hmerged & _).
  assert (g1 = g') by congruence. subst g1.
  destruct Hmerged as (newVertex & Hfresh & Hvs & Hnew & Hnota & Hnotc & _).
  unfold collapsePair in Hrun. cbv zeta in Hrun.
  unfold createVertex in Hrun. cbv zeta in Hrun.
  set (p := if neq _ zero then _ else _) in Hrun.
  set (g3 := withVertices _ (withVertices _ _)) in Hrun.
  assert (Hwf3 : wellFormed g3).
  { unfold g3. apply wf_withVertices.
    - apply (wf_pushVertex p g Hwf).
    - apply NoDup_arrayRemove, NoDup_arrayRemove. simpl.
      apply NoDup_snoc_fresh; [apply Hwf|].
      intros Hin. apply (wf_vertices_made _ Hwf) in Hin. lia.
    - simpl. intros v Hv. do 2 apply elem_of_arrayRemove_weak in Hv.
      apply elem_of_app in Hv as [Hv | Hv].
      + apply (wf_vertices_made _ Hwf) in Hv. lia.
      + apply list_elem_of_singleton in Hv. subst. lia. }
  destruct (collapseEdges_spec a c (nextId g) (length (edges g3)) g3 Hwf3
              ltac:(simpl; lia) ltac:(lia))
    as (g1 & Hrun1' & _ & _ & Hvs1 & _).
  assert (g1 = g') by congruence. subst g1.
  assert (Hnd : NoDup (vertices g ++ [nextId g])).
  { apply NoDup_snoc_fresh; [apply Hwf|].
    intros Hin. apply (wf_vertices_made _ Hwf) in Hin. lia. }
  assert (HV : forall v, v ∈ vertices g3 <-> (v ∈ vertices g \/ v = nextId g) /\ v <> a /\ v <> c).
  { intros v. unfold g3. simpl.
    rewrite elem_of_arrayRemove by (apply NoDup_arrayRemove; exact Hnd).
    rewrite elem_of_arrayRemove by exact Hnd.
    rewrite elem_of_app, list_elem_of_singleton. tauto. }
  pose proof (wf_vertices_made _ Hwf a Ha) as Hamade.
  pose proof (wf_vertices_made _ Hwf c Hc) as Hcmade.
  intros e He. rewrite Hvs1.
  apply (collapseEdges_have_vertices a c (nextId g) (vertices g3) (length (edges g3)) g3
           Hwf3 ltac:(simpl; lia) ltac:(lia)) with (g' := g'); [| | | exact Hrun | exact He].
  - apply HV. split; [right; reflexivity | lia].
  - intros x Hx. rewrite drop_all in Hx. inversion Hx.
  - intros x Hx. rewrite take_ge in Hx by lia.
    change (edgeAt g3 x) with (edgeAt g x).
    destruct (Hhave x Hx) as [Hs Hen]. split.
    + destruct (decide (startVertex (edgeAt g x) = a)); [auto|].
      destruct (decide (startVertex (edgeAt g x) = c)); [auto|].
      left. apply HV. auto.
    + destruct (decide (endVertex (edgeAt g x) = a)); [auto|].
      destruct (decide (endVertex (edgeAt g x) = c)); [auto|].
      left. apply HV. auto.
Qed.

Lemma assertEdgesHaveVertices_holds (b : bool) (g : Graph) :
  edgesHaveVertices g -> assertEdgesHaveVertices b g = Done tt.
Proof.
  intros Hhave. unfold assertEdgesHaveVertices, assert.
  assert (H1 : forallb (fun e => includes (vertices g) (startVertex (edgeAt g e))) (edges g)
               = true).
  { apply forallb_forall. intros e He. apply list_elem_of_In in He.
    apply bool_decide_eq_true. apply (Hhave e He). }
  assert (H2 : forallb (fun e => includes (vertices g) (endVertex (edgeAt g e))) (edges g)
               = true).
  { apply forallb_forall. intros e He. apply list_elem_of_In in He.
    apply bool_decide_eq_true. apply (Hhave e He). }
  rewrite H1, H2, !assertWhen_true. reflexivity.
Qed.

Lemma collapseRounds_keeps (rounds : nat) : forall g,
  wellFormed g -> edgesHaveVertices g -> length (vertices g) <= rounds ->
  exists g', collapseRounds rounds g = Done g' /\ wellFormed g' /\ edgesHaveVertices g' /\
    (verticesListEnds g -> verticesListEnds g').
Proof.
  induction rounds as [| r IH]; intros g Hwf Hhave Hlen.
  - exists g. destruct (vertices g) eqn:E; [|simpl in Hlen; lia].
    simpl. rewrite E. simpl. auto.
  - simpl. destruct (scanVertices g (vertices g)) as [[a c]|] eqn:Hscan.
    + destruct (scanned_vertices_distinct g a c (wf_vertices_once _ Hwf) Hscan)
        as (Ha & Hc & Hac).
      destruct (collapsePair_spec a c g Hwf Ha Hc Hac)
        as (g1 & Hrun & Hwf1 & _ & Hl & Hlists).
      rewrite Hrun. simpl.
      pose proof (collapsePair_have_vertices a c g g1 Hwf Ha Hc Hac Hhave Hrun) as Hhave1.
      destruct (IH g1 Hwf1 Hhave1 ltac:(lia)) as (g' & Hrun' & Hwf' & Hhave' & Hlists').
      exists g'. splits; auto.
    + exists g. auto.
Qed.

(** X10.  The assertions of [collapseVertices] hold.  On a well-formed
    graph whose edges start and end at vertices of the graph, with assertions
    on and as many rounds as the graph has vertices, [collapseVertices]
    returns: the assertion it closes with never fails.  The graph it leaves
    is well formed, its edges start and end at its vertices, and its
    vertices list the half-edges that end at them if they did before. *)
Theorem collapseVertices_assertions_hold (rounds : nat) (g : Graph) :
  wellFormed g -> edgesHaveVertices g -> length (vertices g) <= rounds ->
  exists g',
    collapseVertices true rounds g = Done g' /\
    wellFormed g' /\ edgesHaveVertices g' /\
    (verticesListEnds g -> verticesListEnds g').
Proof.
  intros Hwf Hhave Hlen. unfold collapseVertices.
  rewrite (assertEdgesHaveVertices_holds true g Hhave). simpl.
  destruct (collapseRounds_keeps rounds g Hwf Hhave Hlen)
    as (g' & Hrun & Hwf' & Hhave' & Hlists).
  rewrite Hrun. simpl.
  rewrite (assertEdgesHaveVertices_holds true g' Hhave'). simpl.
  exists g'. auto.
Qed.

Lemma edgesHaveVertices_Forall (g : Graph) :
  Forall (fun e => startVertex (edgeAt g e) ∈ vertices g /\
                   endVertex (edgeAt g e) ∈ vertices g) (edges g) ->
  edgesHaveVertices g.
Proof. intros H e He. rewrite Forall_forall in H. apply (H e He). Qed.

Lemma collapseVertices_assertions_hold_witness :
  wellFormed Examples.shortEdgeGraph /\ edgesHaveVertices Examples.shortEdgeGraph /\
  length (vertices Examples.shortEdgeGraph) <= 3 /\
  exists g',
    collapseVertices true 3 Examples.shortEdgeGraph = Done g' /\
    wellFormed g' /\ edgesHaveVertices g' /\
    (verticesListEnds Examples.shortEdgeGraph -> verticesListEnds g').
Proof.
  assert (Hwf : wellFormed Examples.shortEdgeGraph)
    by (apply wellFormedb_sound; vm_compute; reflexivity).
  assert (Hhave : edgesHaveVertices Examples.shortEdgeGraph)
    by (apply edgesHaveVertices_Forall; evaluated).
  assert (Hlen : length (vertices Examples.shortEdgeGraph) <= 3) by (simpl; lia).
  split; [exact Hwf|]. split; [exact Hhave|]. split; [exact Hlen|].
  apply (collapseVertices_assertions_hold 3 Examples.shortEdgeGraph Hwf Hhave Hlen).
Defined.

(** ** Winding maps are keyed by the shape ids *)

Section WindingKeys.
Variable assertEnabled : bool.

Lemma windingMap_set_here (f : nat) (m m' : gmap Z Z) (g : Graph) :
  windingMap (faceAt (setWindingMap f m g) f) = Some m' -> m' = m.
Proof.
  unfold faceAt, setWindingMap. simpl.
  rewrite lookup_total_alter, decide_True by reflexivity.
  destruct (faceArena g !! f); simpl; intros H; [congruence | discriminate].
Qed.

Lemma keyed_set (f : nat) (m : gmap Z Z) (g : Graph) :
  keyedByShapeIds g ->
  (forall id, is_Some (m !! id) <-> id ∈ shapeIds g) ->
  keyedByShapeIds (setWindingMap f m g).
Proof.
  intros Hkeyed Hm x mx Hx.
  change (shapeIds (setWindingMap f m g)) with (shapeIds g).
  apply windingMap_set_inv in Hx as [[_ ->] | Hx]; [exact Hm | apply (Hkeyed x mx Hx)].
Qed.

Lemma keyed_solvedAcross (e : nat) (solved : gmap Z Z) (way : bool) (g : Graph) :
  (forall id, is_Some (solved !! id) <-> id ∈ shapeIds g) ->
  forall id, is_Some (solvedAcross e solved way g !! id) <-> id ∈ shapeIds g.
Proof.
  intros Hsolved id. rewrite solvedAcross_lookup.
  destruct (decide (id ∈ shapeIds g)) as [Hin | Hout].
  - rewrite fmap_is_Some, Hsolved. tauto.
  - split; [intros [? ?]; discriminate | contradiction].
Qed.

Lemma windingStep_keyed (j : nat) (es : list nat) (g : Graph) (es' : list nat) (g' : Graph) :
  windingStep assertEnabled j es g = Done (es', g') ->
  keyedByShapeIds g ->
  keyedByShapeIds g' /\ shapeIds g' = shapeIds g /\
  (forall x, filled (faceAt g' x) = filled (faceAt g x)) /\
  vertices g' = vertices g /\ edges g' = edges g /\ loops g' = loops g /\
  vertexArena g' = vertexArena g /\ edgeArena g' = edgeArena g.
Proof.
  intros Hstep Hkeyed.
  destruct (windingStep_cases assertEnabled j es g es' g' Hstep)
    as (e & f & f' & _ & _ & Hmoved).
  unfold windingMoved in Hmoved.
  destruct (windingMap (faceAt g f)) as [forwardMap|] eqn:Hf,
           (windingMap (faceAt g f')) as [reversedMap|] eqn:Hr.
  - destruct Hmoved as (_ & -> & _). splits; auto.
  - destruct Hmoved as (_ & ->). splits; auto.
    + apply keyed_set; [exact Hkeyed|]. apply keyed_solvedAcross. apply (Hkeyed f _ Hf).
    + intros x. apply filled_setWindingMap.
  - destruct Hmoved as (_ & ->). splits; auto.
    + apply keyed_set; [exact Hkeyed|]. apply keyed_solvedAcross. apply (Hkeyed f' _ Hr).
    + intros x. apply filled_setWindingMap.
  - destruct Hmoved as (_ & ->). splits; auto.
Qed.

Lemma windingPass_keyed (n : nat) : forall (es : list nat) (g : Graph) (es' : list nat)
    (g' : Graph),
  windingPass assertEnabled n es g = Done (es', g') ->
  keyedByShapeIds g ->
  keyedByShapeIds g' /\ shapeIds g' = shapeIds g /\
  (forall x, filled (faceAt g' x) = filled (faceAt g x)) /\
  vertices g' = vertices g /\ edges g' = edges g /\ loops g' = loops g /\
  vertexArena g' = vertexArena g /\ edgeArena g' = edgeArena g.
Proof.
  induction n as [| j IH]; intros es g es' g' Hrun Hkeyed; simpl in Hrun.
  - injection Hrun as <- <-. splits; auto.
  - inv_bind Hrun as [es1 g1] Hstep Hrun.
    destruct (windingStep_keyed _ _ _ _ _ Hstep Hkeyed)
      as (Hk1 & Hids1 & Hfilled1 & Hvs1 & Hes1 & Hls1 & Hva1 & Hea1).
    destruct (IH _ _ _ _ Hrun Hk1) as (Hk & Hids & Hfilled & Hvs & Hes & Hls & Hva & Hea).
    splits; auto; try congruence; try (intros x; rewrite Hfilled; apply Hfilled1).
Qed.

Lemma windingRounds_keyed (rounds : nat) : forall (es : list nat) (g g' : Graph),
  windingRounds assertEnabled rounds es g = Done g' ->
  keyedByShapeIds g ->
  keyedByShapeIds g' /\ shapeIds g' = shapeIds g /\
  (forall x, filled (faceAt g' x) = filled (faceAt g x)) /\
  vertices g' = vertices g /\ edges g' = edges g /\ loops g' = loops g /\
  vertexArena g' = vertexArena g /\ edgeArena g' = edgeArena g.
Proof.
  induction rounds as [| r IH]; intros es g g' Hrun Hkeyed; simpl in Hrun.
  - destruct es; [|discriminate]. injection Hrun as <-. splits; auto.
  - destruct es as [| e es]; [injection Hrun as <-; splits; auto|].
    inv_bind Hrun as [es1 g1] Hpass Hrun.
    destruct (windingPass_keyed _ _ _ _ _ Hpass Hkeyed)
      as (Hk1 & Hids1 & Hfilled1 & Hvs1 & Hes1 & Hls1 & Hva1 & Hea1).
    destruct (IH _ _ _ Hrun Hk1) as (Hk & Hids & Hfilled & Hvs & Hes & Hls & Hva & Hea).
    splits; auto; try congruence; try (intros x; rewrite Hfilled; apply Hfilled1).
Qed.

(** X11.  What [computeWindingMap] writes and what it leaves alone.  On a
    graph whose faces other than the unbounded one have no winding map yet,
    when [computeWindingMap] returns, every winding map of the graph has a
    winding number for each shape id of the graph and for no other key; and
    the vertices, the edges, the loops, the shape ids and the [filled] marks
    of the faces are what they were. *)
Theorem computeWindingMap_keys_and_frame (rounds : nat) (g g' : Graph) :
  facesUnsolved g ->
  computeWindingMap assertEnabled rounds g = Done g' ->
  keyedByShapeIds g' /\
  shapeIds g' = shapeIds g /\ vertices g' = vertices g /\ edges g' = edges g /\
  loops g' = loops g /\ vertexArena g' = vertexArena g /\ edgeArena g' = edgeArena g /\
  forall f, filled (faceAt g' f) = filled (faceAt g f).
Proof.
  intros Hunsolved Hrun. unfold computeWindingMap in Hrun.
  set (g1 := setWindingMap (unboundedFace g) (outsideMap (shapeIds g)) g) in Hrun.
  assert (Hkeyed1 : keyedByShapeIds g1).
  { intros f m Hf id. change (shapeIds g1) with (shapeIds g).
    destruct (decide (f = unboundedFace g)) as [-> | Hne].
    - apply windingMap_set_here in Hf as ->.
      rewrite outsideMap_lookup. destruct (decide (id ∈ shapeIds g)) as [Hin | Hout].
      + split; [auto | eauto].
      + split; [intros [? ?]; discriminate | contradiction].
    - unfold g1 in Hf. rewrite faceAt_set_other in Hf by congruence.
      rewrite (Hunsolved f Hne) in Hf. discriminate. }
  destruct (windingRounds_keyed _ _ _ _ Hrun Hkeyed1)
    as (Hk & Hids & Hfilled & Hvs & Hes & Hls & Hva & Hea).
  splits; auto.
  intros f. rewrite Hfilled. apply filled_setWindingMap.
Qed.

End WindingKeys.

Lemma computeWindingMap_keys_and_frame_witness :
  facesUnsolved Examples.triangleGraph /\
  computeWindingMap true 9 Examples.triangleGraph = Done Examples.triangleGraphWound /\
  keyedByShapeIds Examples.triangleGraphWound /\
  edges Examples.triangleGraphWound = edges Examples.triangleGraph.
Proof.
  assert (Hrun : computeWindingMap true 9 Examples.triangleGraph
                 = Done Examples.triangleGraphWound) by (vm_compute; reflexivity).
  split; [exact triangleGraph_unsolved|]. split; [exact Hrun|].
  destruct (computeWindingMap_keys_and_frame true 9 Examples.triangleGraph
              Examples.triangleGraphWound triangleGraph_unsolved Hrun)
    as (Hkeyed & _ & _ & Hedges & _).
  split; [exact Hkeyed | exact Hedges].
Defined.

(** ** The binary operations on the unbounded face *)

Lemma nonZeroAt_outside (ids : list Z) (id : Z) :
  nonZeroAt (outsideMap ids) id = negb (bool_decide (id ∈ ids)).
Proof.
  unfold nonZeroAt. rewrite outsideMap_lookup. f_equal.
  destruct (decide (id ∈ ids)) as [Hin | Hout].
  - rewrite (bool_decide_eq_true_2 _ Hin). apply bool_decide_eq_true. reflexivity.
  - rewrite (bool_decide_eq_false_2 _ Hout). apply bool_decide_eq_false. discriminate.
Qed.

Lemma outside_map_stays (b : bool) (rounds : nat) (g g' : Graph) :
  is_Some (faceArena g !! unboundedFace g) ->
  computeWindingMap b rounds g = Done g' ->
  windingMap (faceAt g' (unboundedFace g)) = Some (outsideMap (shapeIds g)).
Proof.
  intros Hobj Hrun. unfold computeWindingMap in Hrun.
  apply (windingRounds_keeps b rounds _ _ _ _ _ Hrun).
  apply windingMap_set_same. exact Hobj.
Qed.

(** X12.  The four binary filters on the unbounded face.  When
    [computeWindingMap] returns, the unbounded face has the map that is 0 for
    the shape ids of the graph.  With both shape ids 0 and 1 recorded, none
    of [BINARY_NONZERO_UNION], [_INTERSECTION], [_DIFFERENCE] and [_XOR]
    holds of it: the outside is not in the result.  An id that was never
    recorded (a shape without subpaths) has no entry, which reads as not 0:
    without id 1, the union holds of the outside, the intersection holds of
    it when id 0 is missing too, and the difference never does. *)
Theorem binary_filters_on_the_outside (b : bool) (rounds : nat) (g g' : Graph) :
  is_Some (faceArena g !! unboundedFace g) ->
  computeWindingMap b rounds g = Done g' ->
  exists outside,
    windingMap (faceAt g' (unboundedFace g)) = Some outside /\
    BINARY_NONZERO_UNION outside =
      negb (bool_decide (0%Z ∈ shapeIds g) && bool_decide (1%Z ∈ shapeIds g)) /\
    BINARY_NONZERO_INTERSECTION outside =
      negb (bool_decide (0%Z ∈ shapeIds g)) && negb (bool_decide (1%Z ∈ shapeIds g)) /\
    BINARY_NONZERO_DIFFERENCE outside =
      negb (bool_decide (0%Z ∈ shapeIds g)) && bool_decide (1%Z ∈ shapeIds g) /\
    BINARY_NONZERO_XOR outside =
      xorb (bool_decide (0%Z ∈ shapeIds g)) (bool_decide (1%Z ∈ shapeIds g)).
Proof.
  intros Hobj Hrun. exists (outsideMap (shapeIds g)).
  split; [apply (outside_map_stays b rounds g g' Hobj Hrun)|].
  unfold BINARY_NONZERO_UNION, BINARY_NONZERO_INTERSECTION, BINARY_NONZERO_DIFFERENCE,
    BINARY_NONZERO_XOR, zeroAt.
  pose proof (nonZeroAt_outside (shapeIds g) 0) as H0.
  pose proof (nonZeroAt_outside (shapeIds g) 1) as H1.
  assert (Hz : bool_decide (outsideMap (shapeIds g) !! 1%Z = Some 0%Z)
               = bool_decide (1%Z ∈ shapeIds g)).
  { unfold nonZeroAt in H1.
    destruct (bool_decide (outsideMap (shapeIds g) !! 1%Z = Some 0%Z)),
             (bool_decide (1%Z ∈ shapeIds g)); simpl in H1; congruence. }
  rewrite H0, H1, Hz.
  destruct (bool_decide (0%Z ∈ shapeIds g)), (bool_decide (1%Z ∈ shapeIds g)); auto.
Qed.

Lemma binary_filters_on_the_outside_witness :
  is_Some (faceArena Examples.triangleGraph !! unboundedFace Examples.triangleGraph) /\
  computeWindingMap true 9 Examples.triangleGraph = Done Examples.triangleGraphWound /\
  shapeIds Examples.triangleGraph = [0%Z] /\
  exists outside,
    windingMap (faceAt Examples.triangleGraphWound (unboundedFace Examples.triangleGraph))
      = Some outside /\
    BINARY_NONZERO_UNION outside = true /\
    BINARY_NONZERO_INTERSECTION outside = false /\
    BINARY_NONZERO_DIFFERENCE outside = false /\
    BINARY_NONZERO_XOR outside = true.
Proof.
  assert (Hrun : computeWindingMap true 9 Examples.triangleGraph
                 = Done Examples.triangleGraphWound) by (vm_compute; reflexivity).
  split; [exact ExampleFacts.triangleGraph_outside|]. split; [exact Hrun|].
  split; [reflexivity|].
  destruct (binary_filters_on_the_outside true 9 Examples.triangleGraph
              Examples.triangleGraphWound ExampleFacts.triangleGraph_outside Hrun)
    as (outside & Hmap & Hunion & Hinter & Hdiff & Hxor).
  exists outside. split; [exact Hmap|].
  rewrite Hunion, Hinter, Hdiff, Hxor. vm_compute. auto.
Defined.

(** ** Filling the faces by a filter *)

Lemma windingMap_setFilled (f x : nat) (value : option bool) (g : Graph) :
  windingMap (faceAt (setFilled f value g) x) = windingMap (faceAt g x).
Proof.
  unfold faceAt, setFilled. simpl. rewrite lookup_total_alter.
  destruct (decide (f = x)) as [-> | _]; [|reflexivity].
  rewrite lookup_total_alt. destruct (faceArena g !! x); reflexivity.
Qed.

Lemma includeFaces_solved (filter : gmap Z Z -> bool) (fs : list nat) : forall g,
  (forall f, f ∈ fs -> is_Some (faceArena g !! f)) ->
  (forall f, f ∈ fs -> is_Some (windingMap (faceAt g f))) ->
  exists g',
    includeFaces (onWindingMap filter) fs g = Done g' /\
    (forall f, windingMap (faceAt g' f) = windingMap (faceAt g f)) /\
    (forall f, f ∈ fs ->
       exists m, windingMap (faceAt g f) = Some m /\ filled (faceAt g' f) = Some (filter m)) /\
    (forall f, f ∉ fs -> faceAt g' f = faceAt g f) /\
    (exists arena, g' = withFaceArena arena g).
Proof.
  induction fs as [| face rest IH]; intros g Hobj Hsolved; simpl.
  - exists g. splits; auto.
    + intros f Hf. inversion Hf.
    + exists (faceArena g). destruct g; reflexivity.
  - destruct (Hsolved face (list_elem_of_here _ _)) as [m Hm]. rewrite Hm. simpl.
    set (g1 := setFilled face (Some (filter m)) g).
    destruct (IH g1) as (g' & Hrun & Hmaps & Hfilled & Hother & [arena Hframe]).
    { intros f Hf. apply is_Some_setFilled. apply Hobj. apply list_elem_of_further. exact Hf. }
    { intros f Hf. unfold g1. rewrite windingMap_setFilled. apply Hsolved.
      apply list_elem_of_further. exact Hf. }
    exists g'. split; [exact Hrun|]. splits.
    + intros f. rewrite Hmaps. apply windingMap_setFilled.
    + intros f Hf. destruct (decide (f ∈ rest)) as [Hin | Hout].
      * destruct (Hfilled f Hin) as (m' & Hm' & Hf'). exists m'.
        unfold g1 in Hm'. rewrite windingMap_setFilled in Hm'. auto.
      * apply elem_of_cons in Hf as [-> | Hf]; [|contradiction].
        exists m. split; [exact Hm|]. rewrite (Hother face Hout).
        apply filled_set_same. apply Hobj. apply list_elem_of_here.
    + intros f Hf. apply not_elem_of_cons in Hf as [Hne Hf].
      rewrite (Hother f Hf). apply faceAt_setFilled_other. congruence.
    + destruct (setFilled_frame face (Some (filter m)) g) as [arena1 H1].
      exists arena. rewrite Hframe. unfold g1. rewrite H1. reflexivity.
Qed.

Lemma includeFaces_unsolved (filter : gmap Z Z -> bool) (fs : list nat) : forall g,
  (exists f, f ∈ fs /\ windingMap (faceAt g f) = None) ->
  includeFaces (onWindingMap filter) fs g = Throws TypeError.
Proof.
  induction fs as [| face rest IH]; intros g (f & Hf & Hnone); [inversion Hf|].
  simpl. destruct (windingMap (faceAt g face)) as [m|] eqn:Hm; [|reflexivity].
  simpl. apply IH. exists f. split.
  - apply elem_of_cons in Hf as [-> | Hf]; [congruence | exact Hf].
  - rewrite windingMap_setFilled. exact Hnone.
Qed.

(** X13.  [computeFaceInclusion] with a filter that reads the winding map.
    When every face of the graph has a winding map, it returns and every face
    of the array of faces is filled or not as the filter says of its winding
    map; the winding maps, the faces outside the array and all but the faces
    are as they were.  When a face of the array has no winding map, the read
    of the filter throws a [TypeError]. *)
Theorem computeFaceInclusion_fills_by_filter (filter : gmap Z Z -> bool) (g : Graph) :
  (forall f, f ∈ faces g -> is_Some (faceArena g !! f)) ->
  (facesSolved g ->
   exists g',
     computeFaceInclusion (onWindingMap filter) g = Done g' /\
     (forall f, f ∈ faces g ->
        exists m, windingMap (faceAt g f) = Some m /\
                  filled (faceAt g' f) = Some (filter m)) /\
     (forall f, windingMap (faceAt g' f) = windingMap (faceAt g f)) /\
     (forall f, f ∉ faces g -> faceAt g' f = faceAt g f) /\
     (exists arena, g' = withFaceArena arena g)) /\
  ((exists f, f ∈ faces g /\ windingMap (faceAt g f) = None) ->
   computeFaceInclusion (onWindingMap filter) g = Throws TypeError).
Proof.
  intros Hobj. split.
  - intros Hsolved.
    destruct (includeFaces_solved filter (faces g) g Hobj Hsolved)
      as (g' & Hrun & Hmaps & Hfilled & Hother & Hframe).
    exists g'. splits; auto.
  - apply includeFaces_unsolved.
Qed.

Lemma triangleGraphWound_solved : facesSolved Examples.triangleGraphWound.
Proof.
  intros f Hf. change (faces Examples.triangleGraphWound) with [0; 7] in Hf.
  repeat (apply elem_of_cons in Hf as [-> | Hf]); [| | inversion Hf]; evaluated.
Qed.

Lemma triangleGraphWound_faces :
  forall f, f ∈ faces Examples.triangleGraphWound ->
            is_Some (faceArena Examples.triangleGraphWound !! f).
Proof.
  intros f Hf. change (faces Examples.triangleGraphWound) with [0; 7] in Hf.
  repeat (apply elem_of_cons in Hf as [-> | Hf]); [| | inversion Hf]; evaluated.
Qed.

Lemma computeFaceInclusion_fills_by_filter_witness :
  (forall f, f ∈ faces Examples.triangleGraphWound ->
             is_Some (faceArena Examples.triangleGraphWound !! f)) /\
  facesSolved Examples.triangleGraphWound /\
  exists g',
    computeFaceInclusion (onWindingMap BINARY_NONZERO_INTERSECTION)
      Examples.triangleGraphWound = Done g' /\
    (forall f, f ∈ faces Examples.triangleGraphWound ->
       exists m, windingMap (faceAt Examples.triangleGraphWound f) = Some m /\
                 filled (faceAt g' f) = Some (BINARY_NONZERO_INTERSECTION m)) /\
    (forall f, windingMap (faceAt g' f) = windingMap (faceAt Examples.triangleGraphWound f)) /\
    (forall f, f ∉ faces Examples.triangleGraphWound ->
               faceAt g' f = faceAt Examples.triangleGraphWound f) /\
    (exists arena, g' = withFaceArena arena Examples.triangleGraphWound).
Proof.
  split; [exact triangleGraphWound_faces|]. split; [exact triangleGraphWound_solved|].
  apply (computeFaceInclusion_fills_by_filter BINARY_NONZERO_INTERSECTION
           Examples.triangleGraphWound triangleGraphWound_faces).
  exact triangleGraphWound_solved.
Defined.

(** ** Removing vertices with fewer than two half-edges *)

Lemma lastLowOrder_None (g : Graph) (n : nat) :
  lastLowOrder g n = None ->
  forall i v, i < n -> vertices g !! i = Some v -> 2 <= length (incidentOf g v).
Proof.
  induction n as [| k IH]; simpl; intros Hscan i v Hi Hv; [lia|].
  destruct (decide (i = k)) as [-> | Hne].
  - rewrite Hv in Hscan.
    destruct (Nat.ltb_spec (length (incidentOf g v)) 2); [discriminate | lia].
  - apply (IH ltac:(destruct (vertices g !! k);
                     [destruct (length (incidentOf g _) <? 2); [discriminate|] |]; exact Hscan)
              i v ltac:(lia) Hv).
Qed.

Lemma lastLowOrder_Some (g : Graph) (n i : nat) :
  lastLowOrder g n = Some i ->
  i < n /\ exists v, vertices g !! i = Some v /\ length (incidentOf g v) < 2.
Proof.
  induction n as [| k IH]; simpl; intros Hscan; [discriminate|].
  destruct (vertices g !! k) as [v|] eqn:Hv.
  - destruct (Nat.ltb_spec (length (incidentOf g v)) 2).
    + injection Hscan as <-. split; [lia|]. eauto.
    + destruct (IH Hscan) as [Hlt H']. split; [lia | exact H'].
  - destruct (IH Hscan) as [Hlt H']. split; [lia | exact H'].
Qed.

Lemma elem_of_delete_at {A} (l : list A) (i : nat) (v x : A) :
  NoDup l -> l !! i = Some v -> x ∈ delete i l <-> x ∈ l /\ x <> v.
Proof.
  intros Hnd Hi. rewrite delete_take_drop.
  rewrite <- (take_drop_middle l i v Hi) in Hnd.
  rewrite <- (take_drop_middle l i v Hi) at 3.
  apply NoDup_app in Hnd as (_ & Hfront & Hnd). apply NoDup_cons in Hnd as [Hback _].
  rewrite !elem_of_app, elem_of_cons. split.
  - intros [Hx | Hx]; (split; [tauto|]); intros ->; [apply (Hfront v Hx) | contradiction].
    apply list_elem_of_here.
  - intros [[Hx | [-> | Hx]] Hne]; [tauto | contradiction | tauto].
Qed.

Lemma NoDup_delete_at {A} (l : list A) (i : nat) : NoDup l -> NoDup (delete i l).
Proof.
  intros Hnd. rewrite delete_take_drop. rewrite <- (take_drop i l) in Hnd.
  apply NoDup_app in Hnd as (Hfront & Hapart & Hback).
  apply NoDup_app. split; [exact Hfront|]. split.
  - intros x Hx Hin. apply (Hapart x Hx). apply (subseteq_drop 1 (drop i l)).
    rewrite drop_drop. replace (i + 1) with (S i) by lia. exact Hin.
  - rewrite <- (take_drop 1 (drop i l)) in Hback. apply NoDup_app in Hback as (_ & _ & Hback).
    rewrite drop_drop in Hback. replace (i + 1) with (S i) in Hback by lia. exact Hback.
Qed.

(** The vertex found is cut off: its one edge, if it has one, leaves the
    graph and the loops, and no edge of the graph touches the vertex. *)
Lemma disconnectFrom_low_order (v : nat) (g : Graph) :
  wellFormed g -> listsHalfEdgesEndingAt g v -> length (incidentOf g v) < 2 ->
  let g1 := disconnectFrom (length (incidentOf g v)) 0 v g in
  wellFormed g1 /\ vertices g1 = vertices g /\ nextId g1 = nextId g /\
  edgeArena g1 = edgeArena g /\
  (forall e, e ∈ edges g1 -> e ∈ edges g) /\
  (forall w, listsHalfEdgesEndingAt g w -> listsHalfEdgesEndingAt g1 w) /\
  (forall e, e ∈ edges g1 -> startVertex (edgeAt g e) <> v /\ endVertex (edgeAt g e) <> v).
Proof.
  intros Hwf (Hobj & Hnd & Hlists) Hlow. cbv zeta.
  destruct (incidentOf g v) as [| h [| h' l]] eqn:Hinc; simpl in Hlow; [| |lia].
  - simpl. splits; auto.
    intros e He. split; intros Hbad.
    + assert (Hin : reversedHalf e ∈ incidentOf g v) by (rewrite Hinc; apply Hlists; split; [exact He | exact Hbad]).
      rewrite Hinc in Hin. inversion Hin.
    + assert (Hin : forwardHalf e ∈ incidentOf g v) by (rewrite Hinc; apply Hlists; split; [exact He | exact Hbad]).
      rewrite Hinc in Hin. inversion Hin.
  - simpl. rewrite Hinc. simpl.
    assert (Hh : edge h ∈ edges g /\ halfEndVertex g h = v).
    { apply Hlists. apply list_elem_of_here. }
    splits; auto.
    + apply wf_replaceEdgeInLoops, wf_removeEdge. exact Hwf.
    + intros e He. simpl in He. eapply elem_of_arrayRemove_weak. exact He.
    + intros w Hw. change (listsHalfEdgesEndingAt (removeEdge (edge h) g) w).
      apply ends_removeEdge; [apply Hwf | exact Hw].
    + intros e He. simpl in He.
      apply elem_of_arrayRemove in He as [He Hne]; [|apply Hwf].
      split; intros Hbad.
      * assert (Hin : reversedHalf e ∈ incidentOf g v) by (rewrite Hinc; apply Hlists; split; [exact He | exact Hbad]).
          rewrite Hinc in Hin. apply list_elem_of_singleton in Hin.
        apply Hne. rewrite <- Hin. reflexivity.
      * assert (Hin : forwardHalf e ∈ incidentOf g v) by (rewrite Hinc; apply Hlists; split; [exact He | exact Hbad]).
          rewrite Hinc in Hin. apply list_elem_of_singleton in Hin.
        apply Hne. rewrite <- Hin. reflexivity.
Qed.

(** One round: the vertex goes, the graph stays in order. *)
Lemma removeLowOrder_round (i v : nat) (g : Graph) :
  wellFormed g -> verticesListEnds g -> edgesHaveVertices g ->
  vertices g !! i = Some v -> length (incidentOf g v) < 2 ->
  let g1 := disconnectFrom (length (incidentOf g v)) 0 v g in
  let g2 := withVertices (delete i (vertices g1)) g1 in
  wellFormed g2 /\ verticesListEnds g2 /\ edgesHaveVertices g2 /\
  S (length (vertices g2)) = length (vertices g) /\
  (forall w, w ∈ vertices g2 -> w ∈ vertices g) /\
  (forall e, e ∈ edges g2 -> e ∈ edges g).
Proof.
  intros Hwf Hends Hhave Hi Hlow. cbv zeta.
  assert (Hv : v ∈ vertices g) by (eapply list_elem_of_lookup_2; exact Hi).
  destruct (disconnectFrom_low_order v g Hwf (Hends v Hv) Hlow)
    as (Hwf1 & Hvs & Hnext & Harena & Hedges & Hkeeps & Hfree).
  set (g1 := disconnectFrom (length (incidentOf g v)) 0 v g) in *.
  assert (Hnd : NoDup (vertices g)) by apply Hwf.
  assert (Hsub : forall w, w ∈ delete i (vertices g1) -> w ∈ vertices g).
  { intros w Hw. rewrite Hvs in Hw. apply (elem_of_delete_at _ i v w Hnd Hi) in Hw. tauto. }
  splits.
  - apply wf_withVertices; [exact Hwf1 | rewrite Hvs; apply NoDup_delete_at, Hnd |].
    intros w Hw. rewrite Hnext. apply Hwf. apply Hsub. exact Hw.
  - intros w Hw. simpl in Hw.
    change (listsHalfEdgesEndingAt g1 w). apply Hkeeps, Hends, Hsub. exact Hw.
  - intros e He. simpl in He. simpl vertices.
    change (edgeAt (withVertices (delete i (vertices g1)) g1) e) with (edgeAt g1 e).
    replace (edgeAt g1 e) with (edgeAt g e) by (unfold edgeAt; rewrite Harena; reflexivity).
    destruct (Hfree e He) as [Hs He'], (Hhave e (Hedges e He)) as [Hsv Hev].
    rewrite Hvs. split; apply (elem_of_delete_at _ i v _ Hnd Hi); split; assumption.
  - simpl. rewrite Hvs. rewrite length_delete; [|eauto].
    apply lookup_lt_Some in Hi. lia.
  - exact Hsub.
  - intros e He. apply Hedges. exact He.
Qed.

Lemma removeLowOrderRounds_spec (rounds : nat) (g : Graph) :
  wellFormed g -> verticesListEnds g -> edgesHaveVertices g ->
  length (vertices g) <= rounds ->
  exists g', removeLowOrderRounds rounds g = Done g' /\
    verticesHaveTwo g' /\ wellFormed g' /\ verticesListEnds g' /\ edgesHaveVertices g' /\
    (forall v, v ∈ vertices g' -> v ∈ vertices g) /\
    (forall e, e ∈ edges g' -> e ∈ edges g).
Proof.
  revert g. induction rounds as [| k IH]; intros g Hwf Hends Hhave Hlen.
  - exists g. destruct (vertices g) as [| v l] eqn:Hvs; [|simpl in Hlen; lia].
    simpl. rewrite Hvs. simpl. splits; auto.
    intros v Hv. rewrite Hvs in Hv. inversion Hv.
  - simpl. destruct (lastLowOrder g (length (vertices g))) as [i|] eqn:Hscan.
    + destruct (lastLowOrder_Some g _ i Hscan) as (_ & v & Hi & Hlow).
      rewrite Hi. simpl.
      destruct (removeLowOrder_round i v g Hwf Hends Hhave Hi Hlow)
        as (Hwf2 & Hends2 & Hhave2 & Hlen2 & Hvs2 & Hes2).
      destruct (IH _ Hwf2 Hends2 Hhave2 ltac:(lia))
        as (g' & Hrun & Htwo & Hwf' & Hends' & Hhave' & Hvs' & Hes').
      exists g'. splits; auto.
    + exists g. splits; auto.
      intros v Hv. apply list_elem_of_lookup_1 in Hv as [i Hi].
      apply (lastLowOrder_None g _ Hscan i v); [eapply lookup_lt_Some; exact Hi | exact Hi].
Qed.

(** X14. [removeSingleEdgeVertices] on a graph in order, whose vertices list
    the half-edges ending at them and whose edges have their vertices among
    the vertices, given as many rounds as there are vertices: it ends, its
    closing assertions hold, every vertex left has two incident half-edges
    or more, nothing is added to the vertices and edges, and the graph is
    still in order. *)
Theorem removeSingleEdgeVertices_leaves_two_or_more (rounds : nat) (g : Graph) :
  wellFormed g -> verticesListEnds g -> edgesHaveVertices g ->
  length (vertices g) <= rounds ->
  exists g', removeSingleEdgeVertices true rounds g = Done g' /\
    verticesHaveTwo g' /\ wellFormed g' /\ verticesListEnds g' /\ edgesHaveVertices g' /\
    (forall v, v ∈ vertices g' -> v ∈ vertices g) /\
    (forall e, e ∈ edges g' -> e ∈ edges g).
Proof.
  intros Hwf Hends Hhave Hlen.
  destruct (removeLowOrderRounds_spec rounds g Hwf Hends Hhave Hlen)
    as (g' & Hrun & Htwo & Hwf' & Hends' & Hhave' & Hvs' & Hes').
  exists g'. unfold removeSingleEdgeVertices.
  rewrite (assertEdgesHaveVertices_holds true g Hhave). simpl. rewrite Hrun. simpl.
  rewrite (assertEdgesHaveVertices_holds true g' Hhave'). simpl.
  splits; auto.
Qed.

Lemma verticesListEndsb_sound (g : Graph) : verticesListEndsb g = true -> verticesListEnds g.
Proof.
  unfold verticesListEndsb. rewrite forallb_forall. intros Hall v Hv.
  specialize (Hall v ltac:(apply list_elem_of_In; exact Hv)).
  unfold listsHalfEdgesEndingAtb in Hall.
  rewrite !andb_true_iff, !bool_decide_eq_true, !forallb_forall in Hall.
  destruct Hall as [[[Hobj Hnd] Hin] Hout].
  split; [exact Hobj|]. split; [exact Hnd|]. intros h. split.
  - intros Hh. specialize (Hin h ltac:(apply list_elem_of_In; exact Hh)).
    rewrite andb_true_iff, !bool_decide_eq_true in Hin. exact Hin.
  - intros [He Hend]. specialize (Hout (edge h) ltac:(apply list_elem_of_In; exact He)).
    rewrite andb_true_iff in Hout. destruct Hout as [Hs Ht].
    unfold halfEndVertex in Hend. destruct h as [e []]; simpl in *.
    + rewrite decide_True in Hs by exact Hend. apply bool_decide_eq_true in Hs. exact Hs.
    + rewrite decide_True in Ht by exact Hend. apply bool_decide_eq_true in Ht. exact Ht.
Qed.

Lemma verticesHaveTwo_Forall (g : Graph) :
  Forall (fun v => 2 <= length (incidentOf g v)) (vertices g) -> verticesHaveTwo g.
Proof. intros H v Hv. rewrite Forall_forall in H. apply (H v Hv). Qed.

Lemma removeSingleEdgeVertices_leaves_two_or_more_witness :
  wellFormed TrimExamples.spurGraph /\ verticesListEnds TrimExamples.spurGraph /\
  edgesHaveVertices TrimExamples.spurGraph /\
  length (vertices TrimExamples.spurGraph) <= 4 /\
  vertices TrimExamples.spurGraphTrimmed = [1; 2; 3] /\
  edges TrimExamples.spurGraphTrimmed = [4; 5; 6] /\
  exists g',
    removeSingleEdgeVertices true 4 TrimExamples.spurGraph = Done g' /\
    verticesHaveTwo g' /\ wellFormed g' /\ verticesListEnds g' /\ edgesHaveVertices g' /\
    (forall v, v ∈ vertices g' -> v ∈ vertices TrimExamples.spurGraph) /\
    (forall e, e ∈ edges g' -> e ∈ edges TrimExamples.spurGraph).
Proof.
  assert (Hwf : wellFormed TrimExamples.spurGraph)
    by (apply wellFormedb_sound; vm_compute; reflexivity).
  assert (Hends : verticesListEnds TrimExamples.spurGraph)
    by (apply verticesListEndsb_sound; vm_compute; reflexivity).
  assert (Hhave : edgesHaveVertices TrimExamples.spurGraph)
    by (apply edgesHaveVertices_Forall; evaluated).
  assert (Hlen : length (vertices TrimExamples.spurGraph) <= 4) by (simpl; lia).
  split; [exact Hwf|]. split; [exact Hends|]. split; [exact Hhave|]. split; [exact Hlen|].
  split; [vm_compute; reflexivity|]. split; [vm_compute; reflexivity|].
  apply (removeSingleEdgeVertices_leaves_two_or_more 4 TrimExamples.spurGraph
           Hwf Hends Hhave Hlen).
Defined.

(** ** Cubics that cross themselves *)

(** An edge that is not among the edges is connected without complaint, when
    its two vertices list the half-edges ending at them. *)
Lemma addEdge_connects (b : bool) (e : nat) (g : Graph) :
  wellFormed g -> verticesListEnds g ->
  e ∉ edges g -> e < nextId g -> is_Some (edgeArena g !! e) ->
  startVertex (edgeAt g e) ∈ vertices g -> endVertex (edgeAt g e) ∈ vertices g ->
  exists g',
    addEdge b e g = Done g' /\ wellFormed g' /\ verticesListEnds g' /\
    vertices g' = vertices g /\ edges g' = edges g ++ [e] /\
    edgeArena g' = edgeArena g /\ nextId g' = nextId g /\ loops g' = loops g /\
    boundaries g' = boundaries g /\
    (forall w, point (vertexAt g' w) = point (vertexAt g w)).
Proof.
  intros Hwf Hends Hfresh Hmade Hobj Hs He.
  assert (Hrun : exists g', addEdge b e g = Done g').
  { unfold addEdge, assert, includes.
    rewrite (bool_decide_eq_false_2 (reversedHalf e ∈ _)).
    2:{ intros Hin. apply (Hends _ Hs) in Hin. apply Hfresh. apply Hin. }
    rewrite (bool_decide_eq_false_2 (forwardHalf e ∈ _)).
    2:{ intros Hin. apply (Hends _ He) in Hin. apply Hfresh. apply Hin. }
    simpl. rewrite assertWhen_true. simpl. eauto. }
  destruct Hrun as [g' Hrun]. exists g'.
  assert (Hlt : forall v, v ∈ vertices g -> v < nextId g) by apply Hwf.
  pose proof (addEdge_Done _ _ _ _ Hrun) as Hg'.
  splits; try (rewrite Hg'; reflexivity).
  - exact Hrun.
  - apply (wf_addEdge b e g g'); auto.
  - assert (Hvs : vertices g' = vertices g) by (rewrite Hg'; reflexivity).
    intros v Hv. rewrite Hvs in Hv.
    apply (ends_addEdge b e v g g'); auto.
  - intros w. apply (point_addEdge b e g g' w Hrun).
Qed.

Section SelfIntersections.
Variable assertEnabled : bool.
Variable getSelfIntersection : Segment -> option Intersection.t.
Variable subdivisions : Segment -> number -> number -> Segment * Segment * Segment.

Local Abbreviation selfIntersectionOf' := (selfIntersectionOf getSelfIntersection).
Local Abbreviation splitSelfIntersection' :=
  (splitSelfIntersection assertEnabled subdivisions).
Local Abbreviation selfIntersectionsFrom' :=
  (selfIntersectionsFrom assertEnabled getSelfIntersection subdivisions).
Local Abbreviation splitInThree' := (splitInThree subdivisions).

Lemma edgeAt_arena (g g' : Graph) (e : nat) :
  edgeArena g' = edgeArena g -> edgeAt g' e = edgeAt g e.
Proof. intros H. unfold edgeAt. rewrite H. reflexivity. Qed.

(** One cubic split where it crosses itself. *)
Lemma splitSelfIntersection_sound (e : nat) (x : Intersection.t) (g : Graph) :
  wellFormed g -> verticesListEnds g -> edgesHaveVertices g ->
  e ∈ edges g ->
  (assertEnabled = true -> nlt (Intersection.aT x) (Intersection.bT x) = true) ->
  let E := edgeAt g e in
  let segments := subdivisions (segment E) (Intersection.aT x) (Intersection.bT x) in
  let n := nextId g in
  exists g',
    splitSelfIntersection' e x g = Done g' /\
    wellFormed g' /\ verticesListEnds g' /\ edgesHaveVertices g' /\
    nextId g' = S (S (S (S n))) /\
    vertices g' = vertices g ++ [n] /\
    edges g' = arrayRemove (edges g) e ++ [S n; S (S n); S (S (S n))] /\
    point (vertexAt g' n) = Intersection.point x /\
    (forall w, w < n -> point (vertexAt g' w) = point (vertexAt g w)) /\
    edgeAt g' (S n) =
      {| segment := fst (fst segments); startVertex := startVertex E; endVertex := n;
         forwardFace := None; reversedFace := None |} /\
    edgeAt g' (S (S n)) =
      {| segment := snd (fst segments); startVertex := n; endVertex := n;
         forwardFace := None; reversedFace := None |} /\
    edgeAt g' (S (S (S n))) =
      {| segment := snd segments; startVertex := n; endVertex := endVertex E;
         forwardFace := None; reversedFace := None |} /\
    (forall f, f < n -> edgeAt g' f = edgeAt g f) /\
    boundaries g' = boundaries g /\
    loops g' =
      loops (replaceEdgeInLoops e
               [forwardHalf (S n); forwardHalf (S (S n)); forwardHalf (S (S (S n)))] g).
Proof.
  intros Hwf Hends Hhave He Hlt. cbv zeta.
  set (E := edgeAt g e). set (n := nextId g).
  set (segments := subdivisions (segment E) (Intersection.aT x) (Intersection.bT x)).
  assert (Hassert : assertWhen assertEnabled
                      (nlt (Intersection.aT x) (Intersection.bT x)) "" = Done tt).
  { unfold assertWhen. destruct assertEnabled; [|reflexivity].
    rewrite (Hlt eq_refl). reflexivity. }
  set (g1 := snd (createVertex (Intersection.point x) g)).
  set (g2 := withVertices (vertices g1 ++ [n]) g1).
  set (g3 := snd (createEdge (fst (fst segments)) (startVertex E) n g2)).
  set (g4 := snd (createEdge (snd (fst segments)) n n g3)).
  set (g5 := snd (createEdge (snd segments) n (endVertex E) g4)).
  set (hs := [forwardHalf (S n); forwardHalf (S (S n)); forwardHalf (S (S (S n)))]).
  assert (Hshape : splitSelfIntersection' e x g =
                   (g7 ← addEdge assertEnabled (S n) (removeEdge e g5);
                    g8 ← addEdge assertEnabled (S (S n)) g7;
                    g9 ← addEdge assertEnabled (S (S (S n))) g8;
                    Done (replaceEdgeInLoops e hs g9))).
  { unfold splitSelfIntersection, assert. rewrite Hassert. reflexivity. }
  rewrite Hshape. clear Hshape.
  destruct (Hhave e He) as [HEs HEe]. fold E in HEs, HEe.
  assert (Hwf2 : wellFormed g2) by (apply wf_pushVertex; exact Hwf).
  assert (Hends2 : verticesListEnds g2) by (apply ends_pushVertex; assumption).
  assert (Hwf3 : wellFormed g3) by (apply wf_createEdge; exact Hwf2).
  assert (Hwf4 : wellFormed g4) by (apply wf_createEdge; exact Hwf3).
  assert (Hwf5 : wellFormed g5) by (apply wf_createEdge; exact Hwf4).
  assert (Hwf6 : wellFormed (removeEdge e g5)) by (apply wf_removeEdge; exact Hwf5).
  assert (Hvs6 : vertices (removeEdge e g5) = vertices g ++ [n]) by reflexivity.
  assert (Hes6 : edges (removeEdge e g5) = arrayRemove (edges g) e) by reflexivity.
  assert (Hends6 : verticesListEnds (removeEdge e g5)).
  { intros v Hv. apply ends_removeEdge; [apply Hwf5|].
    apply ends_createEdge; [apply fresh_edge; exact Hwf4|].
    apply ends_createEdge; [apply fresh_edge; exact Hwf3|].
    apply ends_createEdge; [apply fresh_edge; exact Hwf2|].
    apply Hends2. exact Hv. }
  assert (Hat1 : edgeAt g5 (S n) =
                   {| segment := fst (fst segments); startVertex := startVertex E;
                      endVertex := n; forwardFace := None; reversedFace := None |}).
  { subst g5. rewrite edgeAt_createEdge_other by (simpl; lia).
    subst g4. rewrite edgeAt_createEdge_other by (simpl; lia).
    apply (edgeAt_createEdge_new _ _ _ g2). }
  assert (Hat2 : edgeAt g5 (S (S n)) =
                   {| segment := snd (fst segments); startVertex := n;
                      endVertex := n; forwardFace := None; reversedFace := None |}).
  { subst g5. rewrite edgeAt_createEdge_other by (simpl; lia).
    apply (edgeAt_createEdge_new _ _ _ g3). }
  assert (Hat3 : edgeAt g5 (S (S (S n))) =
                   {| segment := snd segments; startVertex := n;
                      endVertex := endVertex E; forwardFace := None; reversedFace := None |}).
  { apply (edgeAt_createEdge_new _ _ _ g4). }
  assert (Hold : forall f, f < n -> edgeAt g5 f = edgeAt g f).
  { intros f Hf. subst g5. rewrite edgeAt_createEdge_other by (simpl; lia).
    subst g4. rewrite edgeAt_createEdge_other by (simpl; lia).
    subst g3. rewrite edgeAt_createEdge_other by (simpl; lia). reflexivity. }
  assert (Hlow : forall f, f ∈ arrayRemove (edges g) e -> f < n).
  { intros f Hf. apply elem_of_arrayRemove_weak in Hf. apply (wf_edges_made _ Hwf). exact Hf. }
  assert (Hin_n : n ∈ vertices g ++ [n]) by (apply elem_of_app; right; apply list_elem_of_here).
  assert (Hin_old : forall v, v ∈ vertices g -> v ∈ vertices g ++ [n])
    by (intros v Hv; apply elem_of_app; left; exact Hv).
  destruct (addEdge_connects assertEnabled (S n) (removeEdge e g5)) as
    (g7 & Hrun7 & Hwf7 & Hends7 & Hvs7 & Hes7 & Har7 & Hn7 & Hl7 & Hb7 & Hp7); auto.
  { rewrite Hes6. intros Hin. apply Hlow in Hin. lia. }
  { simpl. lia. }
  { simpl. rewrite lookup_insert_ne by lia. rewrite lookup_insert_ne by lia.
    rewrite lookup_insert_eq. eauto. }
  { change (edgeAt (removeEdge e g5) (S n)) with (edgeAt g5 (S n)). rewrite Hat1, Hvs6.
    simpl. auto. }
  { change (edgeAt (removeEdge e g5) (S n)) with (edgeAt g5 (S n)). rewrite Hat1, Hvs6.
    simpl. auto. }
  rewrite Hrun7. rewrite bind_of_Done.
  assert (Hat7 : forall f, edgeAt g7 f = edgeAt g5 f).
  { intros f. rewrite (edgeAt_arena (removeEdge e g5) g7 f Har7). reflexivity. }
  destruct (addEdge_connects assertEnabled (S (S n)) g7) as
    (g8 & Hrun8 & Hwf8 & Hends8 & Hvs8 & Hes8 & Har8 & Hn8 & Hl8 & Hb8 & Hp8); auto.
  { rewrite Hes7, Hes6. intros Hin. apply elem_of_app in Hin as [Hin | Hin].
    - apply Hlow in Hin. lia.
    - apply list_elem_of_singleton in Hin. lia. }
  { rewrite Hn7. simpl. lia. }
  { rewrite Har7. simpl. rewrite lookup_insert_ne by lia. rewrite lookup_insert_eq. eauto. }
  { rewrite Hat7, Hat2, Hvs7, Hvs6. simpl. auto. }
  { rewrite Hat7, Hat2, Hvs7, Hvs6. simpl. auto. }
  rewrite Hrun8. rewrite bind_of_Done.
  assert (Hat8 : forall f, edgeAt g8 f = edgeAt g5 f).
  { intros f. rewrite (edgeAt_arena g7 g8 f Har8). apply Hat7. }
  destruct (addEdge_connects assertEnabled (S (S (S n))) g8) as
    (g9 & Hrun9 & Hwf9 & Hends9 & Hvs9 & Hes9 & Har9 & Hn9 & Hl9 & Hb9 & Hp9); auto.
  { rewrite Hes8, Hes7, Hes6. intros Hin. rewrite !elem_of_app in Hin.
    destruct Hin as [[Hin | Hin] | Hin].
    - apply Hlow in Hin. lia.
    - apply list_elem_of_singleton in Hin. lia.
    - apply list_elem_of_singleton in Hin. lia. }
  { rewrite Hn8, Hn7. simpl. lia. }
  { rewrite Har8, Har7. simpl. rewrite lookup_insert_eq. eauto. }
  { rewrite Hat8, Hat3, Hvs8, Hvs7, Hvs6. simpl. auto. }
  { rewrite Hat8, Hat3, Hvs8, Hvs7, Hvs6. simpl. auto. }
  rewrite Hrun9. rewrite bind_of_Done.
  assert (Hat9 : forall f, edgeAt g9 f = edgeAt g5 f).
  { intros f. rewrite (edgeAt_arena g8 g9 f Har9). apply Hat8. }
  eexists. split; [reflexivity|].
  assert (Hes : edges g9 = arrayRemove (edges g) e ++ [S n; S (S n); S (S (S n))]).
  { rewrite Hes9, Hes8, Hes7, Hes6, <- !app_assoc. reflexivity. }
  assert (Hvs : vertices g9 = vertices g ++ [n]) by (rewrite Hvs9, Hvs8, Hvs7; exact Hvs6).
  splits.
  - apply wf_replaceEdgeInLoops. exact Hwf9.
  - intros v Hv. change (listsHalfEdgesEndingAt g9 v). apply Hends9. exact Hv.
  - intros f Hf. change (f ∈ edges g9) in Hf.
    change (startVertex (edgeAt g9 f) ∈ vertices g9 /\ endVertex (edgeAt g9 f) ∈ vertices g9).
    rewrite Hvs, Hat9. rewrite Hes in Hf. apply elem_of_app in Hf as [Hf | Hf].
    + rewrite (Hold f (Hlow f Hf)). apply elem_of_arrayRemove_weak in Hf.
      destruct (Hhave f Hf). auto.
    + repeat (apply elem_of_cons in Hf as [-> | Hf]); [| | | inversion Hf].
      * rewrite Hat1. simpl. auto.
      * rewrite Hat2. simpl. auto.
      * rewrite Hat3. simpl. auto.
  - change (nextId g9 = S (S (S (S n)))). rewrite Hn9, Hn8, Hn7. reflexivity.
  - exact Hvs.
  - exact Hes.
  - change (point (vertexAt g9 n) = Intersection.point x).
    rewrite Hp9, Hp8, Hp7, point_removeEdge.
    unfold vertexAt. simpl. rewrite lookup_total_insert_eq. reflexivity.
  - intros w Hw. change (point (vertexAt g9 w) = point (vertexAt g w)).
    rewrite Hp9, Hp8, Hp7, point_removeEdge.
    unfold vertexAt. simpl. rewrite lookup_total_insert_ne by (fold n; lia). reflexivity.
  - change (edgeAt g9 (S n) = edgeAt g5 (S n)) || (rewrite <- Hat1; apply Hat9).
  - rewrite <- Hat2. apply Hat9.
  - rewrite <- Hat3. apply Hat9.
  - intros f Hf. rewrite <- (Hold f Hf). apply Hat9.
  - change (boundaries g9 = boundaries g). rewrite Hb9, Hb8, Hb7. reflexivity.
  - change (loops g9) with (loops g9). simpl. rewrite Hl9, Hl8, Hl7. reflexivity.
Qed.

Lemma arrayRemove_at {A} `{EqDecision A} (l : list A) (k : nat) (e : A) :
  NoDup l -> l !! k = Some e -> arrayRemove l e = take k l ++ drop (S k) l.
Proof.
  intros Hnd. revert k. induction Hnd as [| x l Hx Hnd IH]; intros k Hk; [discriminate|].
  destruct k as [| k]; simpl in *.
  - injection Hk as ->. rewrite decide_True by reflexivity. reflexivity.
  - destruct (decide (x = e)) as [-> | Hne].
    + exfalso. apply Hx. eapply list_elem_of_lookup_2. exact Hk.
    + rewrite (IH k Hk). reflexivity.
Qed.

Lemma netOccurrences_three (f a : nat) :
  netOccurrences f [forwardHalf a; forwardHalf (S a); forwardHalf (S (S a))] =
  ((if decide (f = a) then 1 else 0) + (if decide (f = S a) then 1 else 0) +
   (if decide (f = S (S a)) then 1 else 0))%Z.
Proof.
  rewrite netOccurrences_sum. simpl. unfold halfWeight, forwardHalf, reversedHalf.
  repeat case_decide; try congruence; try lia.
Qed.

(** The differentials and the loops once the three edges stand for [e]. *)
Lemma three_for_one_differentials (e : nat) (g g' : Graph) :
  loopsMade g -> e < nextId g ->
  nextId g' = S (S (S (S (nextId g)))) ->
  loops g' =
    loops (replaceEdgeInLoops e
             [forwardHalf (S (nextId g)); forwardHalf (S (S (nextId g)));
              forwardHalf (S (S (S (nextId g))))] g) ->
  loopsMade g' /\
  (forall f id, f < nextId g -> f <> e ->
     computeDifferential f id g' = computeDifferential f id g) /\
  (forall id,
     computeDifferential (S (nextId g)) id g' = computeDifferential e id g /\
     computeDifferential (S (S (nextId g))) id g' = computeDifferential e id g /\
     computeDifferential (S (S (S (nextId g)))) id g' = computeDifferential e id g).
Proof.
  intros Hmade He Hnext Hloops.
  assert (Hat : forall f id,
    computeDifferential f id g' =
    ((if decide (f = e) then 0 else computeDifferential f id g) +
     netOccurrences f [forwardHalf (S (nextId g)); forwardHalf (S (S (nextId g)));
                       forwardHalf (S (S (S (nextId g))))] *
     computeDifferential e id g)%Z).
  { intros f id. rewrite (computeDifferential_loops f id g' _ Hloops).
    apply differential_sum_after_replace. }
  splits.
  - intros f Hf loop h Hloop Hh. rewrite Hloops in Hloop.
    unfold replaceEdgeInLoops in Hloop. simpl in Hloop.
    apply list_elem_of_fmap in Hloop as (loop0 & -> & Hloop0). simpl in Hh.
    apply elem_of_spliceEdge in Hh as [Hh | [Hh | [Hh _]]].
    + repeat (apply elem_of_cons in Hh as [-> | Hh]); [| | | inversion Hh]; simpl; lia.
    + simpl in Hh.
      repeat (apply elem_of_cons in Hh as [-> | Hh]); [| | | inversion Hh]; simpl; lia.
    + intros Heq. apply (Hmade f ltac:(lia) loop0 h Hloop0 Hh Heq).
  - intros f id Hf Hne. rewrite Hat, netOccurrences_three.
    rewrite !decide_False by lia. lia.
  - intros id. rewrite !Hat, !netOccurrences_three.
    rewrite (computeDifferential_notInLoops (S (nextId g)) id g) by (apply Hmade; lia).
    rewrite (computeDifferential_notInLoops (S (S (nextId g))) id g) by (apply Hmade; lia).
    rewrite (computeDifferential_notInLoops (S (S (S (nextId g)))) id g) by (apply Hmade; lia).
    repeat split; repeat case_decide; try lia.
Qed.

Lemma selfIntersectionsFrom_spec (k : nat) (g : Graph) :
  wellFormed g -> verticesListEnds g -> edgesHaveVertices g -> loopsMade g ->
  k <= length (edges g) ->
  (assertEnabled = true ->
   forall f x, f ∈ take k (edges g) ->
     selfIntersectionOf' (segment (edgeAt g f)) = Some x ->
     nlt (Intersection.aT x) (Intersection.bT x) = true) ->
  exists g',
    selfIntersectionsFrom' k g = Done g' /\
    wellFormed g' /\ verticesListEnds g' /\ edgesHaveVertices g' /\ loopsMade g' /\
    nextId g <= nextId g' /\
    boundaries g' = boundaries g /\
    (forall f, f < nextId g -> edgeAt g' f = edgeAt g f) /\
    (forall w, w < nextId g -> point (vertexAt g' w) = point (vertexAt g w)) /\
    (forall v, v ∈ vertices g -> v ∈ vertices g') /\
    (forall f, f ∈ edges g' -> f ∈ edges g \/ nextId g <= f) /\
    (forall f id, f < nextId g -> f ∈ edges g' ->
       computeDifferential f id g' = computeDifferential f id g) /\
    (forall f, f ∈ edges g ->
       f ∈ drop k (edges g) \/ selfIntersectionOf' (segment (edgeAt g f)) = None ->
       f ∈ edges g') /\
    (forall f x, f ∈ take k (edges g) ->
       selfIntersectionOf' (segment (edgeAt g f)) = Some x ->
       (f ∉ edges g') /\ splitInThree' g g' f x).
Proof.
  revert g. induction k as [| k IH]; intros g Hwf Hends Hhave Hmade Hk Hlt.
  - exists g. simpl. splits; auto.
    intros f x Hf. inversion Hf.
  - destruct (lookup_lt_is_Some_2 (edges g) k ltac:(lia)) as [e Hek].
    assert (He : e ∈ edges g) by (eapply list_elem_of_lookup_2; exact Hek).
    assert (Htake : take (S k) (edges g) = take k (edges g) ++ [e])
      by (apply take_S_r; exact Hek).
    assert (Hdrop : drop k (edges g) = e :: drop (S k) (edges g))
      by (apply drop_S; exact Hek).
    cbn [selfIntersectionsFrom]. rewrite Hek. cbn [ofOption]. rewrite bind_of_Done.
    destruct (selfIntersectionOf' (segment (edgeAt g e))) as [x|] eqn:Hself.
    + (* the cubic crosses itself *)
      set (n := nextId g).
      assert (Hen : e < n) by (apply (wf_edges_made _ Hwf); exact He).
      destruct (splitSelfIntersection_sound e x g Hwf Hends Hhave He) as
        (g1 & Hrun1 & Hwf1 & Hends1 & Hhave1 & Hn1 & Hvs1 & Hes1 & Hpn & Hpold &
         Hat1 & Hat2 & Hat3 & Hatold & Hb1 & Hloops1).
      { intros Hb. apply (Hlt Hb e x); [|exact Hself].
        rewrite Htake. apply elem_of_app. right. apply list_elem_of_here. }
      fold n in Hn1, Hvs1, Hes1, Hpn, Hpold, Hat1, Hat2, Hat3, Hatold, Hloops1.
      destruct (three_for_one_differentials e g g1 Hmade Hen Hn1 Hloops1)
        as (Hmade1 & Hdold & Hdnew).
      fold n in Hdold, Hdnew.
      rewrite Hrun1, bind_of_Done.
      pose proof (arrayRemove_at (edges g) k e (wf_edges_once _ Hwf) Hek) as Hremoved.
      destruct (take_arrayRemove_at (edges g) k e (wf_edges_once _ Hwf) Hek)
        as [Htake1 Hnotin].
      assert (Hlenk : length (take k (edges g)) = k) by (rewrite length_take; lia).
      assert (Hes1' : edges g1 = take k (edges g) ++
                        (drop (S k) (edges g) ++ [S n; S (S n); S (S (S n))])).
      { rewrite Hes1, Hremoved, <- app_assoc. reflexivity. }
      assert (Htk1 : take k (edges g1) = take k (edges g)).
      { rewrite Hes1'. rewrite take_app_length'; [reflexivity | symmetry; exact Hlenk]. }
      assert (Hdk1 : drop k (edges g1) = drop (S k) (edges g) ++ [S n; S (S n); S (S (S n))]).
      { rewrite Hes1'. rewrite drop_app_length'; [reflexivity | symmetry; exact Hlenk]. }
      assert (Hlow : forall f, f ∈ edges g -> f < n) by apply (wf_edges_made _ Hwf).
      assert (Hintake : forall f, f ∈ take k (edges g) -> f ∈ edges g /\ f <> e).
      { intros f Hf. split; [eapply (subseteq_take k); exact Hf|].
        intros ->. contradiction. }
      destruct (IH g1 Hwf1 Hends1 Hhave1 Hmade1) as
        (g' & Hrun & Hwf' & Hends' & Hhave' & Hmade' & Hn' & Hb' & Hat' & Hp' & Hvs' &
         Hes' & Hd' & Hkept' & Hsplit').
      { rewrite Hes1'. rewrite length_app. lia. }
      { intros Hb f y Hf Hy. rewrite Htk1 in Hf. destruct (Hintake f Hf) as [Hfg Hfe].
        rewrite (Hatold f (Hlow f Hfg)) in Hy.
        apply (Hlt Hb f y); [|exact Hy].
        rewrite Htake. apply elem_of_app. left. exact Hf. }
      exists g'. rewrite Hn1 in Hn', Hat', Hp', Hes', Hd'.
      assert (Hnew_in : forall a, a ∈ [S n; S (S n); S (S (S n))] -> a ∈ edges g').
      { intros a Ha. apply Hkept'.
        - rewrite Hes1. apply elem_of_app. right. exact Ha.
        - left. rewrite Hdk1. apply elem_of_app. right. exact Ha. }
      splits; auto.
      * fold n. lia.
      * rewrite Hb'. exact Hb1.
      * intros f Hf. fold n in Hf. rewrite Hat' by lia. apply Hatold. exact Hf.
      * intros w Hw. fold n in Hw. rewrite Hp' by lia. apply Hpold. exact Hw.
      * intros v Hv. apply Hvs'. rewrite Hvs1. apply elem_of_app. left. exact Hv.
      * intros f Hf. fold n. destruct (Hes' f Hf) as [Hin | Hge]; [|right; lia].
        rewrite Hes1 in Hin. apply elem_of_app in Hin as [Hin | Hin].
        -- left. eapply elem_of_arrayRemove_weak. exact Hin.
        -- right. repeat (apply elem_of_cons in Hin as [-> | Hin]); [| | | inversion Hin]; lia.
      * intros f id Hf Hin. fold n in Hf. rewrite Hd' by (lia || exact Hin).
        apply Hdold; [exact Hf|].
        destruct (Hes' f Hin) as [Hin1 | Hge]; [|lia].
        rewrite Hes1 in Hin1. apply elem_of_app in Hin1 as [Hin1 | Hin1].
        -- apply elem_of_arrayRemove in Hin1; [tauto | apply Hwf].
        -- repeat (apply elem_of_cons in Hin1 as [-> | Hin1]); [| | | inversion Hin1]; lia.
      * intros f Hf Hor.
        assert (Hfe : f <> e).
        { intros ->. destruct Hor as [Hin | Hnone]; [|congruence].
          pose proof (wf_edges_once _ Hwf) as Hnd.
          rewrite <- (take_drop k (edges g)), Hdrop in Hnd.
          apply NoDup_app in Hnd as (_ & _ & Hnd). apply NoDup_cons in Hnd as [Hnd _].
          contradiction. }
        apply Hkept'.
        -- rewrite Hes1. apply elem_of_app. left.
           apply elem_of_arrayRemove; [apply Hwf | split; assumption].
        -- destruct Hor as [Hin | Hnone].
           ++ left. rewrite Hdk1. apply elem_of_app. left. exact Hin.
           ++ right. rewrite (Hatold f (Hlow f Hf)). exact Hnone.
      * intros f y Hf Hy. rewrite Htake in Hf. apply elem_of_app in Hf as [Hf | Hf].
        -- destruct (Hintake f Hf) as [Hfg Hfe].
           destruct (Hsplit' f y) as [Hout Hthree].
           { rewrite Htk1. exact Hf. }
           { rewrite (Hatold f (Hlow f Hfg)). exact Hy. }
           split; [exact Hout|].
           unfold splitInThree in *. rewrite (Hatold f (Hlow f Hfg)) in Hthree.
           destruct Hthree as (v & a & Hv & Hvnew & Hpv & Ha1 & Ha2 & Ha3 & He1 & He2 & He3 & Hds).
           exists v, a. splits; auto.
           ++ intros Hin. apply Hvnew. rewrite Hvs1. apply elem_of_app. left. exact Hin.
           ++ intros id. rewrite <- (Hdold f id (Hlow f Hfg) Hfe). apply Hds.
        -- apply list_elem_of_singleton in Hf. subst f.
           assert (y = x) by congruence. subst y.
           split.
           ++ intros Hin. destruct (Hes' e Hin) as [Hin1 | Hge]; [|lia].
              rewrite Hes1 in Hin1. apply elem_of_app in Hin1 as [Hin1 | Hin1].
              ** apply elem_of_arrayRemove in Hin1; [|apply Hwf]. destruct Hin1. congruence.
              ** repeat (apply elem_of_cons in Hin1 as [Heq | Hin1]);
                   [| | | inversion Hin1]; lia.
           ++ unfold splitInThree. exists n, (S n).
              assert (H1 : S n ∈ edges g') by (apply Hnew_in; rewrite !elem_of_cons; auto).
              assert (H2 : S (S n) ∈ edges g') by (apply Hnew_in; rewrite !elem_of_cons; auto).
              assert (H3 : S (S (S n)) ∈ edges g') by (apply Hnew_in; rewrite !elem_of_cons; auto).
              splits; auto.
              ** apply Hvs'. rewrite Hvs1. apply elem_of_app. right. apply list_elem_of_here.
              ** intros Hin. apply (wf_vertices_made _ Hwf) in Hin. fold n in Hin. lia.
              ** rewrite Hp' by lia. exact Hpn.
              ** rewrite Hat' by lia. exact Hat1.
              ** rewrite Hat' by lia. exact Hat2.
              ** rewrite Hat' by lia. exact Hat3.
              ** intros id. destruct (Hdnew id) as (D1 & D2 & D3).
                 rewrite !Hd' by (lia || assumption). auto.
    + (* nothing to split at this index *)
      destruct (IH g Hwf Hends Hhave Hmade ltac:(lia)) as
        (g' & Hrun & Hwf' & Hends' & Hhave' & Hmade' & Hn' & Hb' & Hat' & Hp' & Hvs' &
         Hes' & Hd' & Hkept' & Hsplit').
      { intros Hb f y Hf Hy. apply (Hlt Hb f y); [|exact Hy].
        rewrite Htake. apply elem_of_app. left. exact Hf. }
      exists g'. splits; auto.
      * intros f Hf Hor. apply Hkept'; [exact Hf|].
        destruct Hor as [Hin | Hnone]; [|right; exact Hnone].
        left. rewrite Hdrop. apply list_elem_of_further. exact Hin.
      * intros f y Hf Hy. rewrite Htake in Hf. apply elem_of_app in Hf as [Hf | Hf].
        -- apply Hsplit'; assumption.
        -- apply list_elem_of_singleton in Hf. subst f. congruence.
Qed.

(** X15.  What [eliminateSelfIntersection] does.  On a well-formed graph
    whose vertices list the half-edges ending at them, whose edges have
    their vertices among the vertices and whose loops hold made edges only
    (with assertions enabled: without boundaries, and with [aT < bT] at
    every crossing reported), it returns, each edge of the array is looked
    at once, and: an edge that is no cubic or does not cross itself stays,
    with its segment, its vertices and its differentials; a cubic that
    crosses itself leaves the array, and three new edges stand for it
    through one new vertex at the crossing, the middle one from the vertex
    back to it, each with the differentials the cubic had; the vertices
    there were stay where they are; and the graph is still in order. *)
Theorem eliminateSelfIntersection_splits_in_three (g : Graph) :
  wellFormed g -> verticesListEnds g -> edgesHaveVertices g -> loopsMade g ->
  (assertEnabled = true -> length (boundaries g) = 0) ->
  (assertEnabled = true ->
   forall e x, e ∈ edges g ->
     selfIntersectionOf' (segment (edgeAt g e)) = Some x ->
     nlt (Intersection.aT x) (Intersection.bT x) = true) ->
  exists g',
    eliminateSelfIntersection assertEnabled getSelfIntersection subdivisions g = Done g' /\
    wellFormed g' /\ verticesListEnds g' /\ edgesHaveVertices g' /\ loopsMade g' /\
    (forall e, e ∈ edges g ->
       selfIntersectionOf' (segment (edgeAt g e)) = None ->
       e ∈ edges g' /\ edgeAt g' e = edgeAt g e /\
       forall id, computeDifferential e id g' = computeDifferential e id g) /\
    (forall e x, e ∈ edges g ->
       selfIntersectionOf' (segment (edgeAt g e)) = Some x ->
       (e ∉ edges g') /\ splitInThree' g g' e x) /\
    (forall v, v ∈ vertices g ->
       v ∈ vertices g' /\ point (vertexAt g' v) = point (vertexAt g v)).
Proof.
  intros Hwf Hends Hhave Hmade Hbounds Hlt.
  destruct (selfIntersectionsFrom_spec (length (edges g)) g Hwf Hends Hhave Hmade
              (Nat.le_refl _)) as
    (g' & Hrun & Hwf' & Hends' & Hhave' & Hmade' & Hn' & Hb' & Hat' & Hp' & Hvs' &
     Hes' & Hd' & Hkept' & Hsplit').
  { intros Hb f x Hf. apply (Hlt Hb f x). eapply (subseteq_take _ _). exact Hf. }
  exists g'. unfold eliminateSelfIntersection, assert.
  assert (Hassert : assertWhen assertEnabled (bool_decide (length (boundaries g) = 0))
                      "Only handles simpler level primitive splitting right now" = Done tt).
  { unfold assertWhen. destruct assertEnabled; [|reflexivity].
    rewrite (bool_decide_eq_true_2 _ (Hbounds eq_refl)). reflexivity. }
  rewrite Hassert, bind_of_Done.
  splits; auto.
  - intros e He Hnone.
    assert (Hin : e ∈ edges g') by (apply Hkept'; auto).
    pose proof (wf_edges_made _ Hwf e He) as Hlow.
    splits; auto.
  - intros e x He Hx. apply Hsplit'; [|exact Hx].
    rewrite firstn_all. exact He.
  - intros v Hv. split; [apply Hvs'; exact Hv|].
    apply Hp'. apply (wf_vertices_made _ Hwf). exact Hv.
Qed.

End SelfIntersections.

Lemma loopsMade_Forall (g : Graph) :
  Forall (fun loop => Forall (fun h => edge h < nextId g) (halfEdges loop)) (loops g) ->
  loopsMade g.
Proof.
  intros H e He loop h Hloop Hh. rewrite Forall_forall in H.
  specialize (H loop Hloop). rewrite Forall_forall in H. specialize (H h Hh). lia.
Qed.

Lemma eliminateSelfIntersection_splits_in_three_witness :
  wellFormed CubicExamples.bowGraph /\ verticesListEnds CubicExamples.bowGraph /\
  edgesHaveVertices CubicExamples.bowGraph /\ loopsMade CubicExamples.bowGraph /\
  edges CubicExamples.bowGraphSplit = [3; 5; 6; 7] /\
  vertices CubicExamples.bowGraphSplit = [0; 1; 4] /\
  exists g',
    eliminateSelfIntersection true CubicExamples.crossesOnce CubicExamples.uncut
      CubicExamples.bowGraph = Done g' /\
    wellFormed g' /\ verticesListEnds g' /\ edgesHaveVertices g' /\ loopsMade g' /\
    (forall e, e ∈ edges CubicExamples.bowGraph ->
       selfIntersectionOf CubicExamples.crossesOnce
         (segment (edgeAt CubicExamples.bowGraph e)) = None ->
       e ∈ edges g' /\ edgeAt g' e = edgeAt CubicExamples.bowGraph e /\
       forall id, computeDifferential e id g' =
                  computeDifferential e id CubicExamples.bowGraph) /\
    (forall e x, e ∈ edges CubicExamples.bowGraph ->
       selfIntersectionOf CubicExamples.crossesOnce
         (segment (edgeAt CubicExamples.bowGraph e)) = Some x ->
       (e ∉ edges g') /\
       splitInThree CubicExamples.uncut CubicExamples.bowGraph g' e x) /\
    (forall v, v ∈ vertices CubicExamples.bowGraph ->
       v ∈ vertices g' /\
       point (vertexAt g' v) = point (vertexAt CubicExamples.bowGraph v)).
Proof.
  assert (Hwf : wellFormed CubicExamples.bowGraph)
    by (apply wellFormedb_sound; vm_compute; reflexivity).
  assert (Hends : verticesListEnds CubicExamples.bowGraph)
    by (apply verticesListEndsb_sound; vm_compute; reflexivity).
  assert (Hhave : edgesHaveVertices CubicExamples.bowGraph)
    by (apply edgesHaveVertices_Forall; evaluated).
  assert (Hmade : loopsMade CubicExamples.bowGraph)
    by (apply loopsMade_Forall; evaluated).
  assert (Hbounds : true = true -> length (boundaries CubicExamples.bowGraph) = 0)
    by reflexivity.
  assert (Hlt : true = true ->
                forall e x, e ∈ edges CubicExamples.bowGraph ->
                  selfIntersectionOf CubicExamples.crossesOnce
                    (segment (edgeAt CubicExamples.bowGraph e)) = Some x ->
                  nlt (Intersection.aT x) (Intersection.bT x) = true).
  { intros _ e x _ Hx.
    destruct (segment (edgeAt CubicExamples.bowGraph e)); simpl in Hx; try discriminate.
    injection Hx as <-. reflexivity. }
  split; [exact Hwf|]. split; [exact Hends|]. split; [exact Hhave|]. split; [exact Hmade|].
  split; [vm_compute; reflexivity|]. split; [vm_compute; reflexivity|].
  apply (eliminateSelfIntersection_splits_in_three true CubicExamples.crossesOnce
           CubicExamples.uncut CubicExamples.bowGraph Hwf Hends Hhave Hmade Hbounds Hlt).
Defined.

(** ** The edges of the filled sub graph *)

Lemma copiedVertex_sound (g : Graph) (v : nat) (vertexMap : gmap nat nat) (graph : Graph) :
  wellFormed graph -> verticesListEnds graph -> edgesHaveVertices graph ->
  copiesVertices g graph vertexMap ->
  let vertexMap1 := fst (copiedVertex g v vertexMap graph) in
  let graph1 := snd (copiedVertex g v vertexMap graph) in
  wellFormed graph1 /\ verticesListEnds graph1 /\ edgesHaveVertices graph1 /\
  copiesVertices g graph1 vertexMap1 /\
  vertexMap ⊆ vertexMap1 /\ is_Some (vertexMap1 !! v) /\
  (forall w, is_Some (vertexMap1 !! w) -> is_Some (vertexMap !! w) \/ w = v) /\
  edges graph1 = edges graph /\ edgeArena graph1 = edgeArena graph /\
  loops graph1 = loops graph /\ nextId graph <= nextId graph1.
Proof.
  intros Hwf Hends Hhave (Hcopy & Hinj & Hsurj). cbv zeta. unfold copiedVertex.
  destruct (vertexMap !! v) as [v'|] eqn:Hv; simpl.
  - splits; auto. split; [exact Hcopy|]. split; [exact Hinj | exact Hsurj].
  - set (n := nextId graph).
    assert (Hlow : forall x, x ∈ vertices graph -> x < n) by apply (wf_vertices_made _ Hwf).
    splits.
    + apply wf_pushVertex. exact Hwf.
    + apply ends_pushVertex; assumption.
    + intros e He. destruct (Hhave e He) as [Hs Ht].
      split; apply elem_of_app; left; assumption.
    + split; [|split].
      * intros w w' Hw. destruct (decide (w = v)) as [-> | Hne].
        -- rewrite lookup_insert_eq in Hw. injection Hw as <-. split.
           ++ apply elem_of_app. right. apply list_elem_of_here.
           ++ unfold vertexAt at 1. simpl. rewrite lookup_total_insert_eq. reflexivity.
        -- rewrite lookup_insert_ne in Hw by congruence.
           destruct (Hcopy w w' Hw) as [Hin Hpoint]. split.
           ++ apply elem_of_app. left. exact Hin.
           ++ unfold vertexAt at 1. simpl.
              rewrite lookup_total_insert_ne by (specialize (Hlow w' Hin); fold n; lia).
              exact Hpoint.
      * intros a b x Ha Hb.
        destruct (decide (a = v)) as [-> | Hav], (decide (b = v)) as [-> | Hbv];
          [reflexivity | | |].
        -- rewrite lookup_insert_eq in Ha. rewrite lookup_insert_ne in Hb by congruence.
           injection Ha as <-. destruct (Hcopy b _ Hb) as [Hin _].
           specialize (Hlow _ Hin). lia.
        -- rewrite lookup_insert_eq in Hb. rewrite lookup_insert_ne in Ha by congruence.
           injection Hb as <-. destruct (Hcopy a _ Ha) as [Hin _].
           specialize (Hlow _ Hin). lia.
        -- rewrite lookup_insert_ne in Ha, Hb by congruence. eapply Hinj; eassumption.
      * intros x Hx. apply elem_of_app in Hx as [Hx | Hx].
        -- destruct (Hsurj x Hx) as [w Hw]. exists w.
           rewrite lookup_insert_ne; [exact Hw|]. intros <-. congruence.
        -- apply list_elem_of_singleton in Hx. subst x. exists v.
           apply lookup_insert_eq.
    + apply insert_subseteq. exact Hv.
    + rewrite lookup_insert_eq. eauto.
    + intros w Hw. destruct (decide (w = v)) as [-> | Hne]; [right; reflexivity|].
      left. rewrite lookup_insert_ne in Hw by congruence. exact Hw.
    + reflexivity.
    + reflexivity.
    + reflexivity.
    + simpl. lia.
Qed.

Lemma separatesFilled_faced (g : Graph) (e : nat) :
  is_Some (forwardFace (edgeAt g e)) -> is_Some (reversedFace (edgeAt g e)) ->
  separatesFilled g e = Done (separatesb g e).
Proof.
  intros [f Hf] [r Hr]. unfold separatesFilled, separatesb. rewrite Hf, Hr. reflexivity.
Qed.

Lemma copyOf_later (g graph graph' : Graph) (vertexMap vertexMap' : gmap nat nat) (e' e : nat) :
  vertexMap ⊆ vertexMap' -> edgeAt graph' e' = edgeAt graph e' ->
  copyOf g graph vertexMap e' e -> copyOf g graph' vertexMap' e' e.
Proof.
  intros Hsub Hat (Hseg & Hs & Ht). unfold copyOf. rewrite Hat.
  split; [exact Hseg|]. split; eapply lookup_weaken; eassumption.
Qed.

Section FilledSubGraphs.
Variable assertEnabled : bool.

Lemma copyFilledEdges_spec (g : Graph) (es : list nat) :
  forall (vertexMap : gmap nat nat) (graph : Graph),
  (forall e, e ∈ es ->
     is_Some (forwardFace (edgeAt g e)) /\ is_Some (reversedFace (edgeAt g e))) ->
  wellFormed graph -> verticesListEnds graph -> edgesHaveVertices graph ->
  copiesVertices g graph vertexMap ->
  exists vertexMap' graph',
    copyFilledEdges assertEnabled g es vertexMap graph = Done (vertexMap', graph') /\
    wellFormed graph' /\ verticesListEnds graph' /\ edgesHaveVertices graph' /\
    copiesVertices g graph' vertexMap' /\
    vertexMap ⊆ vertexMap' /\
    (forall w, is_Some (vertexMap' !! w) ->
       is_Some (vertexMap !! w) \/
       exists e, e ∈ es /\ separatesb g e = true /\
                 (startVertex (edgeAt g e) = w \/ endVertex (edgeAt g e) = w)) /\
    loops graph' = loops graph /\ nextId graph <= nextId graph' /\
    (forall x, x < nextId graph -> edgeAt graph' x = edgeAt graph x) /\
    exists new,
      edges graph' = edges graph ++ new /\
      Forall2 (copyOf g graph' vertexMap') new (List.filter (separatesb g) es).
Proof.
  induction es as [| e rest IH]; intros vertexMap graph Hfaced Hwf Hends Hhave Hcopies.
  - exists vertexMap, graph. simpl. splits; auto.
    exists []. rewrite app_nil_r. split; [reflexivity | constructor].
  - destruct (Hfaced e ltac:(apply list_elem_of_here)) as [Hf Hr].
    assert (Hfaced' : forall x, x ∈ rest ->
              is_Some (forwardFace (edgeAt g x)) /\ is_Some (reversedFace (edgeAt g x))).
    { intros x Hx. apply Hfaced. apply list_elem_of_further. exact Hx. }
    cbn [copyFilledEdges]. rewrite (separatesFilled_faced g e Hf Hr), bind_of_Done.
    cbn [List.filter].
    destruct (separatesb g e) eqn:Hsep.
    + set (E := edgeAt g e).
      pose proof (copiedVertex_sound g (startVertex E) vertexMap graph Hwf Hends Hhave Hcopies)
        as H1. cbv zeta in H1.
      destruct (copiedVertex g (startVertex E) vertexMap graph) as [vertexMap1 graph1].
      simpl fst in H1. simpl snd in H1.
      destruct H1 as (Hwf1 & Hends1 & Hhave1 & Hcopies1 & Hsub1 & Hs1 & Hdom1 & Hes1 &
                      Har1 & Hl1 & Hn1).
      pose proof (copiedVertex_sound g (endVertex E) vertexMap1 graph1 Hwf1 Hends1 Hhave1
                    Hcopies1) as H2. cbv zeta in H2.
      destruct (copiedVertex g (endVertex E) vertexMap1 graph1) as [vertexMap2 graph2].
      simpl fst in H2. simpl snd in H2.
      destruct H2 as (Hwf2 & Hends2 & Hhave2 & Hcopies2 & Hsub2 & Ht2 & Hdom2 & Hes2 &
                      Har2 & Hl2 & Hn2).
      destruct Hs1 as [newStart Hs1]. destruct Ht2 as [newEnd Ht2].
      pose proof (lookup_weaken _ _ _ _ Hs1 Hsub2) as Hs2.
      rewrite Hs2, Ht2. cbn [ofOption]. rewrite !bind_of_Done.
      unfold createEdge. cbv zeta.
      set (graph3 := snd (createEdge (segment E) newStart newEnd graph2)).
      change (withNextId (S (nextId graph2)) _) with graph3.
      set (n := nextId graph2).
      destruct Hcopies2 as (Hcopy2 & Hinj2 & Hsurj2).
      destruct (Hcopy2 _ _ Hs2) as [Hsin _]. destruct (Hcopy2 _ _ Ht2) as [Htin _].
      assert (Hat3 : edgeAt graph3 n =
                       {| segment := segment E; startVertex := newStart; endVertex := newEnd;
                          forwardFace := None; reversedFace := None |})
        by apply edgeAt_createEdge_new.
      destruct (addEdge_connects assertEnabled n graph3) as
        (graph4 & Hrun4 & Hwf4 & Hends4 & Hvs4 & Hes4 & Har4 & Hn4 & Hl4 & Hb4 & Hp4).
      { apply wf_createEdge. exact Hwf2. }
      { intros v Hv. apply ends_createEdge; [apply fresh_edge; exact Hwf2|].
        apply Hends2. exact Hv. }
      { apply (fresh_edge graph2 Hwf2). }
      { simpl. fold n. lia. }
      { simpl. rewrite lookup_insert_eq. eauto. }
      { rewrite Hat3. exact Hsin. }
      { rewrite Hat3. exact Htin. }
      rewrite Hrun4, bind_of_Done.
      assert (Hat4 : forall x, edgeAt graph4 x = edgeAt graph3 x)
        by (intros x; apply edgeAt_arena; exact Har4).
      assert (Hold3 : forall x, x < n -> edgeAt graph3 x = edgeAt graph2 x).
      { intros x Hx. apply edgeAt_createEdge_other. fold n. lia. }
      assert (Hat2 : forall x, edgeAt graph2 x = edgeAt graph x).
      { intros x. rewrite (edgeAt_arena graph1 graph2 x Har2). apply edgeAt_arena. exact Har1. }
      assert (Hhave4 : edgesHaveVertices graph4).
      { intros x Hx. rewrite Hes4 in Hx. rewrite Hvs4, Hat4.
        apply elem_of_app in Hx as [Hx | Hx].
        - change (edges graph3) with (edges graph2) in Hx.
          rewrite Hold3 by (apply (wf_edges_made _ Hwf2); exact Hx).
          apply (Hhave2 x Hx).
        - apply list_elem_of_singleton in Hx. subst x. rewrite Hat3. simpl. auto. }
      assert (Hcopies4 : copiesVertices g graph4 vertexMap2).
      { split; [|split].
        - intros v v' Hv. destruct (Hcopy2 v v' Hv) as [Hin Hpoint].
          rewrite Hvs4, Hp4. split; [exact Hin | exact Hpoint].
        - exact Hinj2.
        - intros v' Hv'. rewrite Hvs4 in Hv'. apply Hsurj2. exact Hv'. }
      destruct (IH vertexMap2 graph4 Hfaced' Hwf4 Hends4 Hhave4 Hcopies4) as
        (vertexMap' & graph' & Hrun & Hwf' & Hends' & Hhave' & Hcopies' & Hsub' & Hdom' &
         Hl' & Hn' & Hat' & new & Hes' & Hall').
      exists vertexMap', graph'.
      assert (Hn24 : nextId graph4 = S n) by (rewrite Hn4; reflexivity).
      splits; auto.
      * etransitivity; [exact Hsub1|]. etransitivity; [exact Hsub2 | exact Hsub'].
      * intros w Hw. destruct (Hdom' w Hw) as [Hw2 | (x & Hx & Hxs & Hxw)].
        -- destruct (Hdom2 w Hw2) as [Hw1 | ->].
           ++ destruct (Hdom1 w Hw1) as [Hw0 | ->]; [left; exact Hw0|].
              right. exists e. split; [apply list_elem_of_here|]. auto.
           ++ right. exists e. split; [apply list_elem_of_here|]. auto.
        -- right. exists x. split; [apply list_elem_of_further; exact Hx|]. auto.
      * rewrite Hl', Hl4. change (loops graph3) with (loops graph2). rewrite Hl2. exact Hl1.
      * lia.
      * intros x Hx. rewrite Hat' by lia. rewrite Hat4, Hold3 by (fold n; lia). apply Hat2.
      * exists (n :: new). split.
        -- rewrite Hes', Hes4. change (edges graph3) with (edges graph2).
           rewrite Hes2, Hes1, <- app_assoc. reflexivity.
        -- constructor; [|exact Hall'].
           apply (copyOf_later g graph4 graph' vertexMap2 vertexMap' n e Hsub').
           ++ apply Hat'. lia.
           ++ unfold copyOf. rewrite Hat4, Hat3. simpl. auto.
    + destruct (IH vertexMap graph Hfaced' Hwf Hends Hhave Hcopies) as
        (vertexMap' & graph' & Hrun & Hwf' & Hends' & Hhave' & Hcopies' & Hsub' & Hdom' &
         Hl' & Hn' & Hat' & new & Hes' & Hall').
      exists vertexMap', graph'. splits; auto.
      * intros w Hw. destruct (Hdom' w Hw) as [Hw0 | (x & Hx & Hxs & Hxw)]; [left; exact Hw0|].
        right. exists x. split; [apply list_elem_of_further; exact Hx|]. auto.
      * exists new. auto.
Qed.

Lemma copyFilledEdges_app (g : Graph) (before behind : list nat) :
  forall (vertexMap : gmap nat nat) (graph : Graph),
  copyFilledEdges assertEnabled g (before ++ behind) vertexMap graph =
  (st ← copyFilledEdges assertEnabled g before vertexMap graph;
   copyFilledEdges assertEnabled g behind (fst st) (snd st)).
Proof.
  induction before as [| e rest IH]; intros vertexMap graph; [reflexivity|].
  cbn [app copyFilledEdges].
  destruct (separatesFilled g e) as [[]| |]; try reflexivity; rewrite !bind_of_Done.
  - destruct (copiedVertex g (startVertex (edgeAt g e)) vertexMap graph) as [vertexMap1 graph1].
    destruct (copiedVertex g (endVertex (edgeAt g e)) vertexMap1 graph1)
      as [vertexMap2 graph2].
    destruct (ofOption (vertexMap2 !! startVertex (edgeAt g e))); try reflexivity.
    destruct (ofOption (vertexMap2 !! endVertex (edgeAt g e))); try reflexivity.
    rewrite !bind_of_Done. unfold createEdge. cbv zeta.
    destruct (addEdge assertEnabled _ _); try reflexivity.
    rewrite !bind_of_Done. apply IH.
  - apply IH.
Qed.

Lemma copiesVertices_newGraph (g : Graph) : copiesVertices g newGraph ∅.
Proof.
  split; [|split].
  - intros v v' H. rewrite lookup_empty in H. discriminate.
  - intros v w v' H. rewrite lookup_empty in H. discriminate.
  - intros v' H. inversion H.
Qed.

Lemma edgesHaveVertices_newGraph : edgesHaveVertices newGraph.
Proof. intros e He. inversion He. Qed.

(** X16.  The edges [createFilledSubGraph] gives the new graph.  When every
    edge of the graph has a face on both sides, the loop returns, and the new
    graph has, in the order of the array of edges, one edge for every edge
    whose two faces differ in [filled] and no other: with the same segment,
    between the copies of its two vertices.  A vertex has a copy exactly when
    such an edge starts or ends at it, one copy however many edges meet
    there, at the same point, and the new graph has no other vertex and no
    loop; it is well formed, and its vertices list the half-edges ending at
    them.  When an edge has a half-edge without a face, the comparison throws
    a [TypeError]. *)
Theorem filledSubGraphEdges_copies_separating_edges (g : Graph) :
  ((forall e, e ∈ edges g ->
      is_Some (forwardFace (edgeAt g e)) /\ is_Some (reversedFace (edgeAt g e))) ->
   exists vertexMap graph,
     filledSubGraphEdges assertEnabled g = Done (vertexMap, graph) /\
     wellFormed graph /\ verticesListEnds graph /\ edgesHaveVertices graph /\
     loops graph = [] /\
     copiesVertices g graph vertexMap /\
     (forall w, is_Some (vertexMap !! w) <->
        exists e, e ∈ edges g /\ separatesb g e = true /\
                  (startVertex (edgeAt g e) = w \/ endVertex (edgeAt g e) = w)) /\
     Forall2 (copyOf g graph vertexMap) (edges graph) (List.filter (separatesb g) (edges g))) /\
  ((exists e, e ∈ edges g /\
      (forwardFace (edgeAt g e) = None \/ reversedFace (edgeAt g e) = None)) ->
   filledSubGraphEdges assertEnabled g = Throws TypeError).
Proof.
  split.
  - intros Hfaced.
    destruct (copyFilledEdges_spec g (edges g) ∅ newGraph Hfaced wf_newGraph
                verticesListEnds_newGraph edgesHaveVertices_newGraph
                (copiesVertices_newGraph g)) as
      (vertexMap & graph & Hrun & Hwf & Hends & Hhave & Hcopies & _ & Hdom & Hl & _ & _ &
       new & Hes & Hall).
    simpl in Hes. subst new.
    exists vertexMap, graph. splits; auto.
    intros w. split.
    + intros Hw. destruct (Hdom w Hw) as [Hempty | Hex]; [|exact Hex].
      rewrite lookup_empty in Hempty. destruct Hempty. discriminate.
    + intros (e & He & Hsep & Hw).
      assert (Hin : e ∈ List.filter (separatesb g) (edges g)).
      { apply list_elem_of_In, filter_In. split; [apply list_elem_of_In; exact He | exact Hsep]. }
      apply list_elem_of_lookup_1 in Hin as [i Hi].
      destruct (Forall2_lookup_r _ _ _ _ _ Hall Hi) as (e' & _ & Hseg & Hs & Ht).
      destruct Hw as [<- | <-]; eauto.
  - intros (e & He & Hnone).
    (* the first edge without a face *)
    assert (Hfirst : exists before x behind,
              edges g = before ++ x :: behind /\
              (forall y, y ∈ before ->
                 is_Some (forwardFace (edgeAt g y)) /\ is_Some (reversedFace (edgeAt g y))) /\
              (forwardFace (edgeAt g x) = None \/ reversedFace (edgeAt g x) = None)).
    { clear -He Hnone. induction (edges g) as [| y l IH]; [inversion He|].
      destruct (forwardFace (edgeAt g y)) as [f|] eqn:Hf.
      - destruct (reversedFace (edgeAt g y)) as [r|] eqn:Hr.
        + apply elem_of_cons in He as [-> | He].
          { destruct Hnone; congruence. }
          destruct (IH He) as (before & x & behind & -> & Hall & Hx).
          exists (y :: before), x, behind. split; [reflexivity|]. split; [|exact Hx].
          intros z Hz. apply elem_of_cons in Hz as [-> | Hz]; [|apply Hall; exact Hz].
          rewrite Hf, Hr. split; eauto.
        + exists [], y, l. split; [reflexivity|]. split; [|right; exact Hr].
          intros z Hz. inversion Hz.
      - exists [], y, l. split; [reflexivity|]. split; [|left; exact Hf].
        intros z Hz. inversion Hz. }
    destruct Hfirst as (before & x & behind & Hes & Hfaced & Hx).
    unfold filledSubGraphEdges. rewrite Hes, copyFilledEdges_app.
    destruct (copyFilledEdges_spec g before ∅ newGraph Hfaced wf_newGraph
                verticesListEnds_newGraph edgesHaveVertices_newGraph
                (copiesVertices_newGraph g)) as (vertexMap & graph & Hrun & _).
    rewrite Hrun, bind_of_Done. cbn [copyFilledEdges fst snd].
    unfold separatesFilled.
    destruct (forwardFace (edgeAt g x)); [|reflexivity].
    destruct Hx as [Hx | Hx]; [discriminate|]. rewrite Hx. reflexivity.
Qed.

End FilledSubGraphs.

Lemma squareGraph_faced :
  forall e, e ∈ edges FilledExamples.squareGraph ->
    is_Some (forwardFace (edgeAt FilledExamples.squareGraph e)) /\
    is_Some (reversedFace (edgeAt FilledExamples.squareGraph e)).
Proof.
  intros e He. change (edges FilledExamples.squareGraph) with [5; 9; 6; 7; 8] in He.
  repeat (apply elem_of_cons in He as [-> | He]); [| | | | | inversion He];
    split; evaluated.
Qed.

Lemma filledSubGraphEdges_copies_separating_edges_witness :
  (forall e, e ∈ edges FilledExamples.squareGraph ->
     is_Some (forwardFace (edgeAt FilledExamples.squareGraph e)) /\
     is_Some (reversedFace (edgeAt FilledExamples.squareGraph e))) /\
  List.filter (separatesb FilledExamples.squareGraph) (edges FilledExamples.squareGraph)
    = [5; 6; 7; 8] /\
  length (edges FilledExamples.squareOutline) = 4 /\
  length (vertices FilledExamples.squareOutline) = 4 /\
  exists vertexMap graph,
    filledSubGraphEdges true FilledExamples.squareGraph = Done (vertexMap, graph) /\
    wellFormed graph /\ verticesListEnds graph /\ edgesHaveVertices graph /\
    loops graph = [] /\
    copiesVertices FilledExamples.squareGraph graph vertexMap /\
    (forall w, is_Some (vertexMap !! w) <->
       exists e, e ∈ edges FilledExamples.squareGraph /\
                 separatesb FilledExamples.squareGraph e = true /\
                 (startVertex (edgeAt FilledExamples.squareGraph e) = w \/
                  endVertex (edgeAt FilledExamples.squareGraph e) = w)) /\
    Forall2 (copyOf FilledExamples.squareGraph graph vertexMap) (edges graph)
      (List.filter (separatesb FilledExamples.squareGraph)
         (edges FilledExamples.squareGraph)).
Proof.
  split; [exact squareGraph_faced|].
  split; [vm_compute; reflexivity|].
  split; [vm_compute; reflexivity|].
  split; [vm_compute; reflexivity|].
  apply (proj1 (filledSubGraphEdges_copies_separating_edges true FilledExamples.squareGraph)).
  exact squareGraph_faced.
Defined.

(** ** Boundaries *)

Section BoundaryWalk.
Variable getNext : HalfEdge -> option HalfEdge.
Variable signedArea : list HalfEdge -> number.
Variable pool : list HalfEdge.

(** After a half-edge of the pool comes a half-edge of the pool, and after
    no two the same. *)
Hypothesis next_in_pool :
  forall h, h ∈ pool -> exists h', getNext h = Some h' /\ h' ∈ pool.
Hypothesis next_apart :
  forall a b h', a ∈ pool -> b ∈ pool ->
    getNext a = Some h' -> getNext b = Some h' -> a = b.

Local Abbreviation follows' := (follows getNext).
Local Abbreviation isCycle' := (isCycle getNext).

Lemma follows_snoc (a : HalfEdge) (l : list HalfEdge) (h z : HalfEdge) :
  follows' a l h -> getNext h = Some z -> follows' a (l ++ [h]) z.
Proof.
  revert a. induction l as [| x l IH]; intros a; simpl.
  - intros Ha Hh. split; assumption.
  - intros [Ha Hx] Hh. split; [exact Ha | apply IH; assumption].
Qed.

Lemma follows_pred (a : HalfEdge) (l : list HalfEdge) (z x : HalfEdge) :
  follows' a l z -> x ∈ l \/ x = z -> exists p, p ∈ a :: l /\ getNext p = Some x.
Proof.
  revert a. induction l as [| y l IH]; intros a; simpl.
  - intros Ha [Hx | ->]; [inversion Hx|]. exists a. split; [apply list_elem_of_here | exact Ha].
  - intros [Ha Hy] Hx.
    destruct (decide (x = y)) as [-> | Hne].
    + exists a. split; [apply list_elem_of_here | exact Ha].
    + destruct (IH y Hy) as (p & Hp & Hnext).
      { destruct Hx as [Hx | Hx]; [|right; exact Hx].
        apply elem_of_cons in Hx as [Hx | Hx]; [contradiction | left; exact Hx]. }
      exists p. split; [apply list_elem_of_further; exact Hp | exact Hnext].
Qed.

Lemma follows_succ (a : HalfEdge) (l : list HalfEdge) (z p x : HalfEdge) :
  follows' a l z -> p ∈ a :: l -> getNext p = Some x -> x ∈ l \/ x = z.
Proof.
  revert a. induction l as [| y l IH]; intros a; simpl.
  - intros Ha Hp Hx. apply list_elem_of_singleton in Hp. subst p. right. congruence.
  - intros [Ha Hy] Hp Hx. apply elem_of_cons in Hp as [-> | Hp].
    + left. assert (x = y) by congruence. subst x. apply list_elem_of_here.
    + destruct (IH y Hy Hp Hx) as [Hin | Hz]; [left; apply list_elem_of_further | right];
        assumption.
Qed.

(** Whether a half-edge is in a cycle is the same for the one that follows. *)
Lemma cycle_closed (b : list HalfEdge) (a x : HalfEdge) :
  isCycle' b -> (forall h, h ∈ b -> h ∈ pool) -> a ∈ pool -> getNext a = Some x ->
  (a ∈ b <-> x ∈ b).
Proof.
  destruct b as [| s l]; [intros []|]. simpl. intros Hcycle Hsub Ha Hx. split.
  - intros Hin. destruct (follows_succ s l s a x Hcycle Hin Hx) as [H | ->].
    + apply list_elem_of_further. exact H.
    + apply list_elem_of_here.
  - intros Hin.
    destruct (follows_pred s l s x Hcycle) as (p & Hp & Hnext).
    { apply elem_of_cons in Hin as [-> | Hin]; [right; reflexivity | left; exact Hin]. }
    assert (a = p) by (apply (next_apart a p x); auto). subst a. exact Hp.
Qed.

(** What is left of the pool is made of whole cycles. *)
Definition wholeCycles (halfEdges : list HalfEdge) : Prop :=
  NoDup halfEdges /\ (forall h, h ∈ halfEdges -> h ∈ pool) /\
  forall a x, a ∈ pool -> getNext a = Some x -> (a ∈ halfEdges <-> x ∈ halfEdges).

Lemma arrayRemove_Permutation (l : list HalfEdge) (h : HalfEdge) :
  h ∈ l -> l ≡ₚ h :: arrayRemove l h.
Proof.
  induction l as [| x l IH]; [intros H; inversion H|]. simpl.
  destruct (decide (x = h)) as [-> | Hne]; [reflexivity|].
  intros Hin. apply elem_of_cons in Hin as [-> | Hin]; [contradiction|].
  rewrite (IH Hin) at 1. apply Permutation_swap.
Qed.

(** The walk from [start]: [halfEdge] is where it stands, [walked] what it
    has gone through, [halfEdges] what is left of [left], which is made of
    whole cycles. *)
Lemma walkBoundary_cycle (turns : nat) (start : HalfEdge) (left : list HalfEdge) :
  wholeCycles left ->
  forall (halfEdge : HalfEdge) (halfEdges walked : list HalfEdge),
  walked ++ halfEdges ≡ₚ left -> halfEdge ∈ halfEdges ->
  (walked = [] /\ halfEdge = start \/
   exists l, walked = start :: l /\ follows' start l halfEdge) ->
  length halfEdges <= turns ->
  exists halfEdges' boundary,
    walkBoundary getNext turns start halfEdge halfEdges walked = Done (halfEdges', boundary) /\
    isCycle' boundary /\ boundary ++ halfEdges' ≡ₚ left /\ wholeCycles halfEdges'.
Proof.
  intros (Hnd & Hsub & Hclosed).
  induction turns as [| turns IH]; intros h Q acc Hperm Hh Hchain Hlen.
  - destruct Q; [inversion Hh | simpl in Hlen; lia].
  - assert (HndAll : NoDup (acc ++ Q)) by (rewrite Hperm; exact Hnd).
    apply NoDup_app in HndAll as (HndAcc & Hapart & HndQ).
    assert (HhLeft : h ∈ left) by (rewrite <- Hperm; apply elem_of_app; right; exact Hh).
    assert (HhPool : h ∈ pool) by (apply Hsub; exact HhLeft).
    destruct (next_in_pool h HhPool) as (h' & Hnext & Hh'Pool).
    assert (Hperm1 : (acc ++ [h]) ++ arrayRemove Q h ≡ₚ left).
    { rewrite <- Hperm, <- app_assoc. apply Permutation_app_head. simpl.
      symmetry. apply arrayRemove_Permutation. exact Hh. }
    assert (Hchain1 : exists l, acc ++ [h] = start :: l /\ follows' start l h').
    { destruct Hchain as [[-> ->] | (l & -> & Hl)].
      - exists []. split; [reflexivity | exact Hnext].
      - exists (l ++ [h]). split; [reflexivity | apply follows_snoc; assumption]. }
    cbn [walkBoundary]. rewrite Hnext.
    destruct (decide (h' = start)) as [-> | Hne].
    + (* the cycle closes *)
      exists (arrayRemove Q h), (acc ++ [h]).
      destruct Hchain1 as (l & Hl & Hfollows).
      assert (Hcycle : isCycle' (acc ++ [h])) by (rewrite Hl; exact Hfollows).
      assert (HsubB : forall x, x ∈ acc ++ [h] -> x ∈ pool).
      { intros x Hx. apply Hsub. rewrite <- Hperm1. apply elem_of_app. left. exact Hx. }
      assert (HndAll1 : NoDup ((acc ++ [h]) ++ arrayRemove Q h)) by (rewrite Hperm1; exact Hnd).
      apply NoDup_app in HndAll1 as (_ & Hapart1 & HndQ1).
      split; [reflexivity|]. split; [exact Hcycle|]. split; [exact Hperm1|].
      split; [exact HndQ1|]. split.
      * intros x Hx. apply Hsub. rewrite <- Hperm1. apply elem_of_app. right. exact Hx.
      * intros a x Ha Hx.
        pose proof (cycle_closed _ a x Hcycle HsubB Ha Hx) as Hb.
        pose proof (Hclosed a x Ha Hx) as Hl'.
        assert (Hsplit : forall y, y ∈ arrayRemove Q h <-> y ∈ left /\ y ∉ acc ++ [h]).
        { intros y. rewrite <- Hperm1, elem_of_app. split.
          - intros Hy. split; [right; exact Hy|]. intros Hin. apply (Hapart1 y Hin Hy).
          - intros [[Hy | Hy] Hnot]; [contradiction | exact Hy]. }
        rewrite !Hsplit. tauto.
    + (* the walk goes on *)
      assert (Hh'Left : h' ∈ left) by (apply (Hclosed h h' HhPool Hnext); exact HhLeft).
      assert (Hh'Q : h' ∈ arrayRemove Q h).
      { rewrite <- Hperm1 in Hh'Left. apply elem_of_app in Hh'Left as [Hin | Hin]; [|exact Hin].
        exfalso. destruct Hchain1 as (l & Hl & Hfollows). rewrite Hl in Hin.
        apply elem_of_cons in Hin as [Hin | Hin]; [contradiction|].
        (* the half-edge before [h'] among those walked is [h], which was not walked *)
        destruct Hchain as [[-> ->] | (l0 & -> & Hl0)].
        - simpl in Hl. injection Hl as <-. inversion Hin.
        - simpl in Hl. injection Hl as <-.
          apply elem_of_app in Hin as [Hin | Hin].
          + destruct (follows_pred start l0 h h' Hl0 (or_introl Hin)) as (p & Hp & Hpnext).
            assert (p = h).
            { apply (next_apart p h h'); auto. apply Hsub. rewrite <- Hperm.
              apply elem_of_app. left. exact Hp. }
            subst p. apply (Hapart h Hp Hh).
          + apply list_elem_of_singleton in Hin. subst h'.
            destruct (follows_pred start l0 h h Hl0 (or_intror eq_refl)) as (p & Hp & Hpnext).
            assert (p = h).
            { apply (next_apart p h h); auto. apply Hsub. rewrite <- Hperm.
              apply elem_of_app. left. exact Hp. }
            subst p. apply (Hapart h Hp Hh). }
      apply (IH h' (arrayRemove Q h) (acc ++ [h]) Hperm1 Hh'Q).
      * right. exact Hchain1.
      * pose proof (length_arrayRemove Q h Hh). lia.
Qed.

Lemma collectBoundaries_spec (turns : nat) :
  forall (halfEdges : list HalfEdge) (found : Found),
  wholeCycles halfEdges -> length halfEdges <= turns ->
  exists new,
    collectBoundaries getNext signedArea turns halfEdges found =
      Done {| innerBoundaries :=
                innerBoundaries found ++ List.filter (fun b => ngt (signedArea b) zero) new;
              outerBoundaries :=
                outerBoundaries found ++
                List.filter (fun b => negb (ngt (signedArea b) zero)) new;
              allBoundaries := allBoundaries found ++ new |} /\
    concat new ≡ₚ halfEdges /\ Forall isCycle' new.
Proof.
  induction turns as [| turns IH]; intros P found Hwhole Hlen.
  - destruct P; [|simpl in Hlen; lia].
    exists []. simpl. rewrite !app_nil_r. destruct found. auto.
  - destruct P as [| s P'].
    + exists []. simpl. rewrite !app_nil_r. destruct found. auto.
    + destruct (walkBoundary_cycle (S turns) s (s :: P') Hwhole s (s :: P') [])
        as (Q' & b & Hwalk & Hcycle & Hperm & Hwhole'); auto.
      { apply list_elem_of_here. }
      cbn [collectBoundaries]. rewrite Hwalk, bind_of_Done. cbn [fst snd].
      assert (Hlen' : length Q' <= turns).
      { apply Permutation_length in Hperm. rewrite length_app in Hperm.
        destruct b; [destruct Hcycle|]. simpl in *. lia. }
      destruct (IH Q' (pushBoundary signedArea b found) Hwhole' Hlen')
        as (new & Hrun & Hconcat & Hall).
      exists (b :: new). rewrite Hrun. split; [|split].
      * f_equal. unfold pushBoundary. cbn [List.filter].
        destruct (ngt (signedArea b) zero); simpl; rewrite <- !app_assoc; reflexivity.
      * simpl. rewrite Hconcat. exact Hperm.
      * constructor; assumption.
Qed.

End BoundaryWalk.

Lemma elem_of_halfEdgePool (g : Graph) (h : HalfEdge) :
  h ∈ halfEdgePool g <-> edge h ∈ edges g.
Proof.
  unfold halfEdgePool. rewrite list_elem_of_In, in_flat_map. split.
  - intros (e & He & Hh). apply list_elem_of_In in He. simpl in Hh.
    destruct Hh as [<- | [<- | []]]; exact He.
  - intros He. exists (edge h). split; [apply list_elem_of_In; exact He|].
    simpl. destruct (half_edge_cases h) as [H | H]; rewrite <- H; auto.
Qed.

Lemma NoDup_halfEdgePool (g : Graph) : NoDup (edges g) -> NoDup (halfEdgePool g).
Proof.
  unfold halfEdgePool. induction (edges g) as [| e l IH]; intros Hnd; simpl.
  - apply NoDup_nil_2.
  - apply NoDup_cons in Hnd as [He Hnd].
    assert (Hout : forall h, edge h = e ->
              h ∉ flat_map (fun e => [forwardHalf e; reversedHalf e]) l).
    { intros h Hh Hin. apply list_elem_of_In, in_flat_map in Hin as (x & Hx & Hhx).
      apply list_elem_of_In in Hx. simpl in Hhx.
      destruct Hhx as [<- | [<- | []]]; simpl in Hh; subst x; contradiction. }
    apply NoDup_cons. split.
    + rewrite not_elem_of_cons. split; [discriminate | apply Hout; reflexivity].
    + apply NoDup_cons. split; [apply Hout; reflexivity | apply IH; exact Hnd].
Qed.

(** X17.  The boundaries [extractFaces] finds.  In a graph whose array of
    edges holds an edge once, when [getNext] leads from a half-edge of an
    edge of the graph to one of an edge of the graph, and to no half-edge
    from two, the two loops return within as many turns as there are
    half-edges; every boundary pushed is a cycle of [getNext], closing on its
    first half-edge; every half-edge of every edge of the graph is in one
    boundary and only one, once, and nothing else is; the boundaries of
    positive signed area go to [innerBoundaries] and the others to
    [outerBoundaries], in the order found; and in a graph that had no
    boundary before, [getBoundaryOfHalfEdge] finds for every half-edge of the
    graph a boundary that holds it, and does not throw. *)
Theorem extractBoundaries_partition
    (getNext : HalfEdge -> option HalfEdge) (signedArea : list HalfEdge -> number)
    (turns : nat) (inner outer : list (list HalfEdge)) (g : Graph) :
  NoDup (edges g) ->
  (forall h, edge h ∈ edges g -> exists h', getNext h = Some h' /\ edge h' ∈ edges g) ->
  (forall a b h', edge a ∈ edges g -> edge b ∈ edges g ->
     getNext a = Some h' -> getNext b = Some h' -> a = b) ->
  2 * length (edges g) <= turns ->
  exists new,
    extractBoundaries getNext signedArea turns inner outer g =
      Done ({| innerBoundaries :=
                 inner ++ List.filter (fun b => ngt (signedArea b) zero) new;
               outerBoundaries :=
                 outer ++ List.filter (fun b => negb (ngt (signedArea b) zero)) new;
               allBoundaries := boundaries g ++ new |},
            withBoundaries (boundaries g ++ new) g) /\
    Forall (isCycle getNext) new /\
    NoDup (concat new) /\
    (forall h, (exists b, b ∈ new /\ h ∈ b) <-> edge h ∈ edges g) /\
    (boundaries g = [] ->
     forall h, edge h ∈ edges g ->
       exists b, getBoundaryOfHalfEdge (withBoundaries (boundaries g ++ new) g) h = Some b /\
                 b ∈ new /\ h ∈ b).
Proof.
  intros Hnd Hnext Hapart Hturns.
  assert (Hpool : NoDup (halfEdgePool g)) by (apply NoDup_halfEdgePool; exact Hnd).
  assert (Hwhole : wholeCycles getNext (halfEdgePool g) (halfEdgePool g)).
  { split; [exact Hpool|]. split; [auto|].
    intros a x Ha Hx. split; [|intros _; exact Ha].
    intros _. apply elem_of_halfEdgePool in Ha. destruct (Hnext a Ha) as (h' & Hh' & Hin).
    apply elem_of_halfEdgePool. congruence. }
  destruct (collectBoundaries_spec getNext signedArea (halfEdgePool g)) with
    (turns := turns) (halfEdges := halfEdgePool g)
    (found := {| innerBoundaries := inner; outerBoundaries := outer;
                 allBoundaries := boundaries g |})
    as (new & Hrun & Hconcat & Hcycles); auto.
  { intros h Hh. apply elem_of_halfEdgePool in Hh. destruct (Hnext h Hh) as (h' & Hh' & Hin).
    exists h'. split; [exact Hh' | apply elem_of_halfEdgePool; exact Hin]. }
  { intros a b h' Ha Hb. apply Hapart; apply elem_of_halfEdgePool; assumption. }
  { unfold halfEdgePool. rewrite length_flat_map.
    assert (Htwice : forall l : list nat,
              list_sum (map (fun x => length [forwardHalf x; reversedHalf x]) l)
              = 2 * length l).
    { induction l as [| e l IH]; simpl in *; lia. }
    rewrite Htwice. exact Hturns. }
  assert (Hiff : forall h, (exists b, b ∈ new /\ h ∈ b) <-> edge h ∈ edges g).
  { intros h. rewrite <- elem_of_halfEdgePool, <- Hconcat.
    rewrite list_elem_of_In, in_concat. split.
    - intros (b & Hb & Hh). exists b. split; apply list_elem_of_In; assumption.
    - intros (b & Hb & Hh). exists b. split; apply list_elem_of_In; assumption. }
  exists new. unfold extractBoundaries. rewrite Hrun, bind_of_Done. cbn [allBoundaries].
  split; [reflexivity|]. split; [exact Hcycles|]. split; [rewrite Hconcat; exact Hpool|].
  split; [exact Hiff|].
  intros Hnone h Hh. unfold getBoundaryOfHalfEdge. simpl. rewrite Hnone. simpl.
  destruct (List.find (fun boundary => includes boundary h) new) as [b|] eqn:Hfind.
  - apply find_some in Hfind as [Hb Hin]. exists b. split; [reflexivity|].
    split; [apply list_elem_of_In; exact Hb|].
    unfold includes in Hin. apply bool_decide_eq_true in Hin. exact Hin.
  - exfalso. apply Hiff in Hh as (b & Hb & Hin).
    apply list_elem_of_In in Hb.
    pose proof (find_none _ _ Hfind b Hb) as Hno. simpl in Hno.
    unfold includes in Hno. apply bool_decide_eq_false in Hno. contradiction.
Qed.

Lemma aroundTriangle_stays :
  forall h, edge h ∈ edges Examples.triangleGraph ->
    exists h', BoundaryExamples.aroundTriangle h = Some h' /\
               edge h' ∈ edges Examples.triangleGraph.
Proof.
  intros [e r] He. simpl in He. change (edges Examples.triangleGraph) with [4; 5; 6] in *.
  repeat (apply elem_of_cons in He as [-> | He]); [| | | inversion He];
    destruct r; eexists; (split; [reflexivity|]); simpl; evaluated.
Qed.

Lemma aroundTriangle_apart :
  forall a b h', edge a ∈ edges Examples.triangleGraph ->
    edge b ∈ edges Examples.triangleGraph ->
    BoundaryExamples.aroundTriangle a = Some h' ->
    BoundaryExamples.aroundTriangle b = Some h' -> a = b.
Proof.
  intros [e r] [e' r'] h' He He'. simpl in He, He'.
  change (edges Examples.triangleGraph) with [4; 5; 6] in *.
  repeat (apply elem_of_cons in He as [-> | He]); [| | | inversion He];
    (repeat (apply elem_of_cons in He' as [-> | He']); [| | | inversion He']);
    destruct r, r'; cbv [BoundaryExamples.aroundTriangle edge isReversed forwardHalf reversedHalf];
    intros H1 H2; congruence.
Qed.

Lemma extractBoundaries_partition_witness :
  NoDup (edges Examples.triangleGraph) /\
  2 * length (edges Examples.triangleGraph) <= 6 /\
  innerBoundaries (fst BoundaryExamples.triangleBoundaries)
    = [[forwardHalf 4; forwardHalf 5; forwardHalf 6]] /\
  outerBoundaries (fst BoundaryExamples.triangleBoundaries)
    = [[reversedHalf 4; reversedHalf 6; reversedHalf 5]] /\
  exists new,
    extractBoundaries BoundaryExamples.aroundTriangle BoundaryExamples.triangleArea 6 [] []
      Examples.triangleGraph =
      Done ({| innerBoundaries :=
                 [] ++ List.filter
                         (fun b => ngt (BoundaryExamples.triangleArea b) zero) new;
               outerBoundaries :=
                 [] ++ List.filter
                         (fun b => negb (ngt (BoundaryExamples.triangleArea b) zero)) new;
               allBoundaries := boundaries Examples.triangleGraph ++ new |},
            withBoundaries (boundaries Examples.triangleGraph ++ new)
              Examples.triangleGraph) /\
    Forall (isCycle BoundaryExamples.aroundTriangle) new /\
    NoDup (concat new) /\
    (forall h, (exists b, b ∈ new /\ h ∈ b) <-> edge h ∈ edges Examples.triangleGraph) /\
    (boundaries Examples.triangleGraph = [] ->
     forall h, edge h ∈ edges Examples.triangleGraph ->
       exists b,
         getBoundaryOfHalfEdge
           (withBoundaries (boundaries Examples.triangleGraph ++ new)
              Examples.triangleGraph) h = Some b /\
         b ∈ new /\ h ∈ b).
Proof.
  assert (Hnd : NoDup (edges Examples.triangleGraph)) by evaluated.
  assert (Hturns : 2 * length (edges Examples.triangleGraph) <= 6) by (simpl; lia).
  split; [exact Hnd|]. split; [exact Hturns|].
  split; [vm_compute; reflexivity|]. split; [vm_compute; reflexivity|].
  apply (extractBoundaries_partition BoundaryExamples.aroundTriangle
           BoundaryExamples.triangleArea 6 [] [] Examples.triangleGraph
           Hnd aroundTriangle_stays aroundTriangle_apart Hturns).
Defined.
